(** * RenderState interning and composition, ConfigPageManager page handling

    A shallow embedding of [panda/src/pgraph/renderState.cxx] and of
    [dtool/src/prc/configPageManager.cxx].

    Pointers are addresses ([N]); a null pointer is [None].  The states
    live in a heap ([gmap]) next to the global intern table [_states];
    the configuration variables the code consults at every call
    ([state_cache], [garbage_collect_states], ...) are part of the world,
    as they are global mutable variables of the program.  Stateful member
    functions are written in a state-and-failure monad over the world:
    dereferencing a pointer that is not allocated is a failure. *)

From stdpp Require Import gmap strings list fin_maps sorting.
From Equations Require Import Equations.
From Stdlib Require Import ZArith Lia.

Open Scope Z_scope.

(** ** SlotMask: the 32-bit mask of filled slots (BitMask32) *)

Module SlotMask.

(** [RenderAttribRegistry::_max_slots]. *)
Definition max_slots : nat := 32.

Definition get_bit (mask : Z) (slot : Z) : bool := Z.testbit mask slot.
Definition set_bit (mask : Z) (slot : Z) : Z := Z.setbit mask slot.
Definition clear_bit (mask : Z) (slot : Z) : Z := Z.clearbit mask slot.
Definition is_zero (mask : Z) : bool := mask =? 0.

(** Scan of the bits [k], [k+1], ... for the first one that is on. *)
Fixpoint lowest_from (n : nat) (k : Z) (mask : Z) : Z :=
  match n with
  | O => -1
  | S n' => if Z.testbit mask k then k else lowest_from n' (k + 1) mask
  end.

(** Index of the lowest on bit, or -1 when there is none. *)
Definition get_lowest_on_bit (mask : Z) : Z := lowest_from max_slots 0 mask.

Fixpoint count_from (n : nat) (k : Z) (mask : Z) : Z :=
  match n with
  | O => 0
  | S n' => (if Z.testbit mask k then 1 else 0) + count_from n' (k + 1) mask
  end.

Definition get_num_on_bits (mask : Z) : Z := count_from max_slots 0 mask.

(** The loop idiom of renderState.cxx,
<<
    int slot = mask.get_lowest_on_bit();
    while (slot >= 0) { body(slot); mask.clear_bit(slot);
                        slot = mask.get_lowest_on_bit(); }
>>
    with the loop-carried data as an accumulator.  A mask has
    [max_slots] bits, so [max_slots] rounds always suffice. *)
Fixpoint fold_on_bits {A : Type} (fuel : nat) (mask : Z)
    (body : Z -> A -> A) (acc : A) : A :=
  match fuel with
  | O => acc
  | S fuel' =>
      let slot := get_lowest_on_bit mask in
      if slot <? 0 then acc
      else fold_on_bits fuel' (clear_bit mask slot) body (body slot acc)
  end.

(** The on bits of a mask, lowest first. *)
Definition slots_from (k : nat) (n : nat) : list Z := Z.of_nat <$> seq k n.
Definition on_bits (mask : Z) : list Z :=
  filter (fun slot => Z.testbit mask slot = true) (slots_from 0 max_slots).

(** A mask is well formed when no bit beyond [max_slots] is on. *)
Definition wf (mask : Z) : Prop :=
  forall slot, Z.testbit mask slot = true -> 0 <= slot < Z.of_nat max_slots.

(** *** Facts on masks and on the slot loop *)

(** [bits_in k n mask]: every on bit lies in [k, k+n). *)
Definition bits_in (k : Z) (n : nat) (mask : Z) : Prop :=
  forall slot, Z.testbit mask slot = true -> k <= slot < k + Z.of_nat n.

Lemma wf_bits_in mask : wf mask <-> bits_in 0 max_slots mask.
Proof. unfold wf, bits_in. split; intros H s Hs; specialize (H s Hs); lia. Qed.

Lemma lowest_from_found n j k mask :
  (forall i, j <= i < k -> Z.testbit mask i = false) ->
  Z.testbit mask k = true ->
  j <= k < j + Z.of_nat n ->
  lowest_from n j mask = k.
Proof.
  revert j. induction n as [|n IH]; intros j Hlow Hk Hrange; [lia|].
  simpl. destruct (Z.testbit mask j) eqn:Hj.
  - destruct (Z.eq_dec j k) as [->|Hne]; [done|].
    rewrite Hlow in Hj by lia. discriminate.
  - apply IH; [|done|].
    + intros i Hi. apply Hlow. lia.
    + destruct (Z.eq_dec j k) as [->|Hne]; [congruence|lia].
Qed.

Lemma lowest_from_none n j mask :
  (forall i, j <= i < j + Z.of_nat n -> Z.testbit mask i = false) ->
  lowest_from n j mask = -1.
Proof.
  revert j. induction n as [|n IH]; intros j Hoff; [done|].
  simpl. rewrite Hoff by lia. apply IH. intros i Hi. apply Hoff. lia.
Qed.

Lemma get_lowest_on_bit_found k n mask :
  0 <= k -> k + Z.of_nat n <= Z.of_nat max_slots ->
  bits_in k n mask -> Z.testbit mask k = true ->
  get_lowest_on_bit mask = k.
Proof.
  intros Hk Hn Hin Hbit. unfold get_lowest_on_bit.
  apply lowest_from_found; [|done|].
  - intros i Hi. destruct (Z.testbit mask i) eqn:E; [|done].
    apply Hin in E. lia.
  - specialize (Hin k Hbit). lia.
Qed.

Lemma get_lowest_on_bit_none k mask :
  bits_in k 0 mask -> get_lowest_on_bit mask = -1.
Proof.
  intros Hin. apply lowest_from_none. intros i _.
  destruct (Z.testbit mask i) eqn:E; [|done]. apply Hin in E. lia.
Qed.

Lemma testbit_clear_bit mask k slot :
  0 <= k ->
  Z.testbit (clear_bit mask k) slot
  = Z.testbit mask slot && negb (k =? slot).
Proof.
  intros Hk. unfold clear_bit.
  destruct (Z.le_gt_cases 0 slot) as [Hs|Hs].
  - by apply Z.clearbit_eqb.
  - rewrite !(Z.testbit_neg_r _ slot) by lia. done.
Qed.

Lemma testbit_set_bit mask k slot :
  0 <= k ->
  Z.testbit (set_bit mask k) slot
  = (k =? slot) || Z.testbit mask slot.
Proof.
  intros Hk. unfold set_bit.
  destruct (Z.le_gt_cases 0 slot) as [Hs|Hs].
  - by apply Z.setbit_eqb.
  - rewrite !(Z.testbit_neg_r _ slot) by lia.
    destruct (Z.eqb_spec k slot); [lia|done].
Qed.

Lemma bits_in_clear k n mask :
  0 <= k -> bits_in k (S n) mask -> bits_in (k + 1) n (clear_bit mask k).
Proof.
  intros Hk Hin slot. rewrite testbit_clear_bit by done.
  intros [Hs Hne]%andb_true_iff. apply Hin in Hs.
  apply negb_true_iff, Z.eqb_neq in Hne. lia.
Qed.

Lemma bits_in_skip k n mask :
  bits_in k (S n) mask -> Z.testbit mask k = false -> bits_in (k + 1) n mask.
Proof.
  intros Hin Hoff slot Hs. pose proof (Hin _ Hs).
  destruct (Z.eq_dec slot k) as [->|]; [congruence|lia].
Qed.

Lemma slots_from_S k n :
  slots_from k (S n) = Z.of_nat k :: slots_from (S k) n.
Proof. done. Qed.

Lemma elem_of_slots_from slot k n :
  slot ∈ slots_from k n <-> Z.of_nat k <= slot < Z.of_nat k + Z.of_nat n.
Proof.
  unfold slots_from. rewrite list_elem_of_fmap. split.
  - intros (i & -> & Hi). apply elem_of_seq in Hi. lia.
  - intros Hs. exists (Z.to_nat slot). split; [lia|].
    apply elem_of_seq. lia.
Qed.

Lemma filter_ext_in {A : Type} (P1 P2 : A -> Prop)
    `{!forall x, Decision (P1 x), !forall x, Decision (P2 x)} (l : list A) :
  (forall x, x ∈ l -> P1 x <-> P2 x) -> filter P1 l = filter P2 l.
Proof.
  induction l as [|x l IH]; intros Hext; [done|].
  rewrite !filter_cons.
  rewrite IH by (intros y Hy; apply Hext; by right).
  destruct (decide (P1 x)) as [H1|H1], (decide (P2 x)) as [H2|H2];
    try done; exfalso; apply (Hext x) in H1 || apply (Hext x) in H2;
    done || by left.
Qed.

Lemma filter_clear_bit mask k n :
  filter (fun slot => Z.testbit (clear_bit mask (Z.of_nat k)) slot = true)
    (slots_from (S k) n)
  = filter (fun slot => Z.testbit mask slot = true) (slots_from (S k) n).
Proof.
  apply filter_ext_in. intros slot Hs.
  apply elem_of_slots_from in Hs.
  rewrite testbit_clear_bit by lia.
  destruct (Z.eqb_spec (Z.of_nat k) slot); [lia|].
  rewrite andb_true_r. done.
Qed.

(** The loop visits the on bits in increasing order. *)
Lemma fold_on_bits_from {A : Type} (body : Z -> A -> A) n :
  forall k mask fuel acc,
    Z.of_nat k + Z.of_nat n <= Z.of_nat max_slots ->
    bits_in (Z.of_nat k) n mask -> (n <= fuel)%nat ->
    fold_on_bits fuel mask body acc
    = fold_left (fun acc slot => body slot acc)
        (filter (fun slot => Z.testbit mask slot = true) (slots_from k n)) acc.
Proof.
  induction n as [|n IH]; intros k mask fuel acc Hn Hin Hfuel.
  - simpl. destruct fuel as [|fuel]; [done|]. simpl.
    by rewrite (get_lowest_on_bit_none _ _ Hin).
  - rewrite slots_from_S, filter_cons.
    destruct (decide (Z.testbit mask (Z.of_nat k) = true)) as [Hbit|Hbit].
    + destruct fuel as [|fuel]; [lia|]. simpl.
      rewrite (get_lowest_on_bit_found (Z.of_nat k) (S n)) by (done || lia).
      destruct (Z.ltb_spec (Z.of_nat k) 0); [lia|].
      rewrite (IH (S k)); [by rewrite filter_clear_bit|lia| |lia].
      replace (Z.of_nat (S k)) with (Z.of_nat k + 1) by lia.
      apply bits_in_clear; [lia|done].
    + apply not_true_is_false in Hbit.
      rewrite (IH (S k)); [done|lia| |lia].
      replace (Z.of_nat (S k)) with (Z.of_nat k + 1) by lia.
      by apply bits_in_skip.
Qed.

Lemma fold_on_bits_spec {A : Type} (body : Z -> A -> A) mask acc :
  wf mask ->
  fold_on_bits max_slots mask body acc
  = fold_left (fun acc slot => body slot acc) (on_bits mask) acc.
Proof.
  intros Hwf. apply (fold_on_bits_from body max_slots 0%nat); [lia| |lia].
  by apply wf_bits_in.
Qed.

Lemma elem_of_on_bits mask slot :
  wf mask -> slot ∈ on_bits mask <-> Z.testbit mask slot = true.
Proof.
  intros Hwf. unfold on_bits. rewrite list_elem_of_filter, elem_of_slots_from.
  split; [tauto|]. intros Hs. split; [done|]. specialize (Hwf _ Hs). lia.
Qed.

Lemma on_bits_range mask slot :
  slot ∈ on_bits mask -> 0 <= slot < Z.of_nat max_slots.
Proof.
  unfold on_bits. rewrite list_elem_of_filter, elem_of_slots_from. lia.
Qed.

Lemma NoDup_on_bits mask : NoDup (on_bits mask).
Proof.
  unfold on_bits, slots_from. apply NoDup_filter.
  apply NoDup_fmap_2; [intros x y; lia|apply NoDup_seq].
Qed.

Lemma wf_0 : wf 0.
Proof. intros slot. by rewrite Z.bits_0. Qed.

Lemma wf_lor m1 m2 : wf m1 -> wf m2 -> wf (Z.lor m1 m2).
Proof.
  intros H1 H2 slot. rewrite Z.lor_spec. intros [?|?]%orb_true_iff; auto.
Qed.

Lemma wf_clear_bit mask k : 0 <= k -> wf mask -> wf (clear_bit mask k).
Proof.
  intros Hk Hwf slot. rewrite testbit_clear_bit by done.
  intros [Hs _]%andb_true_iff. auto.
Qed.

Lemma wf_set_bit mask k :
  0 <= k < Z.of_nat max_slots -> wf mask -> wf (set_bit mask k).
Proof.
  intros Hk Hwf slot. rewrite testbit_set_bit by lia.
  intros [Hs|Hs]%orb_true_iff; [|auto]. apply Z.eqb_eq in Hs. lia.
Qed.

Lemma is_zero_spec mask :
  is_zero mask = true <-> forall slot, Z.testbit mask slot = false.
Proof.
  unfold is_zero. rewrite Z.eqb_eq. split.
  - intros -> slot. apply Z.bits_0.
  - intros H. apply Z.bits_inj'. intros n _. rewrite Z.bits_0. apply H.
Qed.

End SlotMask.

(** ** SimpleHashMap: the index-addressed hash table of dtoolbase

    Modelled from the spec: simpleHashMap.I is not part of the sources
    at hand.  The table keeps its entries in a dense array addressed by
    index; [find] gives the index of the entry equal to the key or -1;
    [store] replaces the entry of an equal key or appends; removing an
    element moves the last entry into the hole (renderState.cxx,
    garbage_collect: "it swapped the last element with the one we just
    removed"). *)

Module SimpleHashMap.

Section Table.
Context {E : Type}.

Fixpoint find_from (is_element : E -> bool) (i : Z) (table : list E) : Z :=
  match table with
  | [] => -1
  | e :: rest => if is_element e then i else find_from is_element (i + 1) rest
  end.

Definition find (is_element : E -> bool) (table : list E) : Z :=
  find_from is_element 0 table.

Definition store (is_element : E -> bool) (e : E) (table : list E)
    : list E * Z :=
  let i := find is_element table in
  if i <? 0 then (table ++ [e], Z.of_nat (length table))
  else (<[Z.to_nat i := e]> table, i).

Definition remove_element (i : nat) (table : list E) : list E :=
  match last table with
  | Some e => take (length table - 1) (<[i := e]> table)
  | None => table
  end.

End Table.

(** *** Facts on lookups *)

Section TableFacts.
Context {E : Type}.

Lemma find_from_spec (is_element : E -> bool) (table : list E) (i : Z) :
  0 <= i ->
  (find_from is_element i table = -1 ->
   Forall (fun e => is_element e = false) table)
  /\ (find_from is_element i table <> -1 ->
      exists e,
        table !! Z.to_nat (find_from is_element i table - i) = Some e
        /\ is_element e = true
        /\ i <= find_from is_element i table).
Proof.
  revert i. induction table as [|e rest IH]; intros i Hi; simpl.
  - split; [constructor|done].
  - destruct (is_element e) eqn:He.
    + split; [lia|]. intros _. exists e.
      replace (i - i) with 0 by lia. done.
    + destruct (IH (i + 1) ltac:(lia)) as [IH1 IH2]. split.
      * intros Hn. constructor; auto.
      * intros Hn. destruct (IH2 Hn) as (e' & Hlook & He' & Hle). exists e'.
        split_and!; [|done|lia].
        replace (Z.to_nat (find_from is_element (i + 1) rest - i))
          with (S (Z.to_nat (find_from is_element (i + 1) rest - (i + 1))))
          by lia.
        done.
Qed.

Lemma find_None (is_element : E -> bool) (table : list E) :
  find is_element table = -1 ->
  Forall (fun e => is_element e = false) table.
Proof. apply (find_from_spec is_element table 0). lia. Qed.

Lemma find_Some (is_element : E -> bool) (table : list E) :
  find is_element table <> -1 ->
  exists e,
    table !! Z.to_nat (find is_element table) = Some e /\ is_element e = true.
Proof.
  intros Hf.
  destruct (find_from_spec is_element table 0 ltac:(lia)) as [_ H].
  destruct (H Hf) as (e & Hlook & He & _). exists e.
  unfold find. by rewrite Z.sub_0_r in Hlook.
Qed.

Lemma find_None_iff (is_element : E -> bool) (table : list E) :
  find is_element table = -1
  <-> Forall (fun e => is_element e = false) table.
Proof.
  split; [apply find_None|]. intros Hall.
  destruct (decide (find is_element table = -1)) as [|Hne]; [done|].
  destruct (find_Some _ _ Hne) as (e & Hlook & He).
  rewrite Forall_forall in Hall.
  rewrite Hall in He; [done|]. by eapply list_elem_of_lookup_2.
Qed.

Lemma remove_element_nil (i : nat) : remove_element i ([] : list E) = [].
Proof. reflexivity. Qed.

Lemma elem_of_remove_element (x : E) (i : nat) (table : list E) :
  x ∈ remove_element i table -> x ∈ table.
Proof.
  unfold remove_element. destruct (last table) as [e|] eqn:Hlast; [|done].
  intros Hx. apply elem_of_take in Hx as (j & Hj & _).
  apply list_lookup_insert_Some in Hj as [(-> & -> & _)|[_ Hj]].
  - by apply last_Some_elem_of.
  - by eapply list_elem_of_lookup_2.
Qed.

Lemma length_remove_element (i : nat) (table : list E) :
  table <> [] -> S (length (remove_element i table)) = length table.
Proof.
  intros Hne. unfold remove_element.
  destruct (last table) as [e|] eqn:Hlast.
  - rewrite length_take, length_insert. destruct table; [done|]. simpl. lia.
  - by apply last_None in Hlast.
Qed.

Lemma remove_element_NoDup (x : E) (i : nat) (table : list E) :
  NoDup table -> table !! i = Some x ->
  (x ∉ remove_element i table) /\ NoDup (remove_element i table).
Proof.
  intros Hnd Hi. unfold remove_element.
  destruct (last table) as [e|] eqn:Hlast;
    [|apply last_None in Hlast; subst table; discriminate Hi].
  rewrite last_lookup in Hlast.
  pose proof (lookup_lt_Some _ _ _ Hi) as Hlt.
  split.
  - intros Hx. apply elem_of_take in Hx as (j & Hj & Hjn).
    apply list_lookup_insert_Some in Hj as [(-> & -> & _)|[Hne Hj]].
    + pose proof (NoDup_lookup _ _ _ _ Hnd Hi Hlast). lia.
    + by pose proof (NoDup_lookup _ _ _ _ Hnd Hi Hj).
  - apply NoDup_alt. intros j1 j2 y H1 H2.
    apply lookup_take_Some in H1 as [H1 Hj1], H2 as [H2 Hj2].
    apply list_lookup_insert_Some in H1 as [(-> & -> & _)|[Hn1 H1]],
      H2 as [(E2 & E3 & _)|[Hn2 H2]].
    + done.
    + pose proof (NoDup_lookup _ _ _ _ Hnd Hlast H2). lia.
    + subst. pose proof (NoDup_lookup _ _ _ _ Hnd Hlast H1). lia.
    + by eapply NoDup_lookup.
Qed.


Lemma remove_element_0_Permutation (e : E) (rest : list E) :
  remove_element 0 (e :: rest) ≡ₚ rest.
Proof.
  destruct rest as [|x rest'] using rev_ind; [reflexivity|].
  clear IHrest'. unfold remove_element.
  change (e :: rest' ++ [x]) with ((e :: rest') ++ [x]).
  rewrite last_snoc. cbn [app]. cbn [insert list_insert].
  replace (length (e :: rest' ++ [x]) - 1)%nat with (S (length rest'))
    by (cbn [length]; rewrite length_app; cbn [length]; lia).
  cbn [take]. rewrite take_app_length. apply Permutation_cons_append.
Qed.


End TableFacts.

End SimpleHashMap.

(** ** The RenderAttrib interface

    The attribute implementations and the slot registry are external to
    renderState.cxx; a state only holds pointers to attributes and calls
    their virtual methods.  The interface the state code consumes is a
    type class over attribute addresses. *)

Module RenderAttrib.

Class Ops := {
  (** [RenderAttrib::get_slot] *)
  get_slot : N -> Z;
  (** [RenderAttrib::compose], [RenderAttrib::invert_compose] *)
  compose : N -> N -> N;
  invert_compose : N -> N -> N;
  (** [RenderAttrib::lower_attrib_can_override] *)
  lower_attrib_can_override : N -> bool;
  (** [RenderAttrib::compare_to]: value comparison of two attributes *)
  compare_to : N -> N -> Z;
  (** [RenderAttrib::do_uniquify]: the attribute-level interner *)
  do_uniquify : N -> N;
  (** [RenderAttribRegistry::get_slot_default], [get_num_slots] *)
  get_slot_default : Z -> N;
  get_num_slots : Z;
  (** [pointer_hash::add_hash], [int_hash::add_hash] *)
  pointer_add_hash : Z -> option N -> Z;
  int_add_hash : Z -> Z -> Z
}.

(** What the state code relies on: comparing equal is an equivalence, and
    the attribute interner picks one representative per class. *)
Class Laws (ops : Ops) : Prop := {
  compare_to_sym : forall p q, compare_to p q = 0 -> compare_to q p = 0;
  compare_to_trans : forall p q r,
    compare_to p q = 0 -> compare_to q r = 0 -> compare_to p r = 0;
  do_uniquify_equiv : forall p, compare_to (do_uniquify p) p = 0;
  do_uniquify_unique : forall p q,
    compare_to p q = 0 -> do_uniquify p = do_uniquify q
}.

End RenderAttrib.

(** ** RenderState *)

Module RenderState.

(** [RenderState::Attribute]: an attribute pointer and its override. *)
Record Attribute := mkAttribute {
  _attrib : option N;
  _override : Z
}.

(** [RenderState::Composition]: a composition-cache record. *)
Record Composition := mkComposition {
  _result : option N
}.

Record State := mkState {
  _filled_slots : Z;
  _attributes : list Attribute;
  _saved_entry : Z;
  _composition_cache : list (N * Composition);
  _invert_composition_cache : list (N * Composition);
  _cycle_detect : Z;
  ref_count : Z;
  cache_ref_count : Z
}.

(** The configuration variables of config_pgraph read by renderState.cxx. *)
Record Config := mkConfig {
  state_cache : bool;
  garbage_collect_states : bool;
  auto_break_cycles : bool;
  uniquify_states : bool;
  uniquify_attribs : bool
}.

(** The process-wide data: the allocated states, the intern table
    [RenderState::_states] (keys in index order), the canonical empty
    state, and the cycle-detection epoch. *)
Record World := mkWorld {
  config : Config;
  heap : gmap N State;
  _states : list N;
  _empty_state : N;
  _last_cycle_detect : Z
}.

#[export] Instance Attribute_eq_dec : EqDecision Attribute.
Proof. solve_decision. Defined.

#[export] Instance Attribute_inhabited : Inhabited Attribute :=
  populate (mkAttribute None 0).

(** *** Field updates *)

Definition with_filled_slots (f : Z -> Z) (st : State) : State :=
  mkState (f (_filled_slots st)) (_attributes st) (_saved_entry st)
    (_composition_cache st) (_invert_composition_cache st)
    (_cycle_detect st) (ref_count st) (cache_ref_count st).

Definition with_attributes (f : list Attribute -> list Attribute)
    (st : State) : State :=
  mkState (_filled_slots st) (f (_attributes st)) (_saved_entry st)
    (_composition_cache st) (_invert_composition_cache st)
    (_cycle_detect st) (ref_count st) (cache_ref_count st).

Definition with_saved_entry (i : Z) (st : State) : State :=
  mkState (_filled_slots st) (_attributes st) i
    (_composition_cache st) (_invert_composition_cache st)
    (_cycle_detect st) (ref_count st) (cache_ref_count st).

Definition with_composition_cache
    (f : list (N * Composition) -> list (N * Composition))
    (st : State) : State :=
  mkState (_filled_slots st) (_attributes st) (_saved_entry st)
    (f (_composition_cache st)) (_invert_composition_cache st)
    (_cycle_detect st) (ref_count st) (cache_ref_count st).

Definition with_invert_composition_cache
    (f : list (N * Composition) -> list (N * Composition))
    (st : State) : State :=
  mkState (_filled_slots st) (_attributes st) (_saved_entry st)
    (_composition_cache st) (f (_invert_composition_cache st))
    (_cycle_detect st) (ref_count st) (cache_ref_count st).

Definition with_cycle_detect (seq : Z) (st : State) : State :=
  mkState (_filled_slots st) (_attributes st) (_saved_entry st)
    (_composition_cache st) (_invert_composition_cache st)
    seq (ref_count st) (cache_ref_count st).

Definition with_ref_counts (f g : Z -> Z) (st : State) : State :=
  mkState (_filled_slots st) (_attributes st) (_saved_entry st)
    (_composition_cache st) (_invert_composition_cache st)
    (_cycle_detect st) (f (ref_count st)) (g (cache_ref_count st)).

Definition with_config (c : Config) (w : World) : World :=
  mkWorld c (heap w) (_states w) (_empty_state w) (_last_cycle_detect w).

Definition with_heap (f : gmap N State -> gmap N State) (w : World) : World :=
  mkWorld (config w) (f (heap w)) (_states w) (_empty_state w)
    (_last_cycle_detect w).

Definition with_states (f : list N -> list N) (w : World) : World :=
  mkWorld (config w) (heap w) (f (_states w)) (_empty_state w)
    (_last_cycle_detect w).

Definition with_last_cycle_detect (f : Z -> Z) (w : World) : World :=
  mkWorld (config w) (heap w) (_states w) (_empty_state w)
    (f (_last_cycle_detect w)).

Definition with_state_cache (b : bool) (c : Config) : Config :=
  mkConfig b (garbage_collect_states c) (auto_break_cycles c)
    (uniquify_states c) (uniquify_attribs c).

(** *** The monad of member functions *)

Definition M (A : Type) : Type := World -> option (A * World).

Definition ret {A : Type} (x : A) : M A := fun w => Some (x, w).

Definition bind {A B : Type} (m : M A) (k : A -> M B) : M B :=
  fun w => match m w with
           | Some (x, w') => k x w'
           | None => None
           end.

Definition fail {A : Type} : M A := fun _ => None.

Declare Scope rs_scope.
Delimit Scope rs_scope with rs.
Notation "'let*' x ':=' m 'in' k" := (bind m (fun x => k))
  (at level 10, x pattern, m at level 100, k at level 200) : rs_scope.
Notation "m1 ';;' m2" := (bind m1 (fun _ => m2))
  (at level 100, m2 at level 200, right associativity) : rs_scope.
Open Scope rs_scope.

Definition get_world : M World := fun w => Some (w, w).
Definition get_config : M Config := fun w => Some (config w, w).

(** [*p]: fails on a pointer that is not allocated. *)
Definition deref (p : N) : M State :=
  fun w => match heap w !! p with
           | Some st => Some (st, w)
           | None => None
           end.

(** In-place update of the object at [p]. *)
Definition update (p : N) (f : State -> State) : M unit :=
  fun w => match heap w !! p with
           | Some st => Some (tt, with_heap (insert p (f st)) w)
           | None => None
           end.

(** [new RenderState]: the object is placed at an unused address. *)
Definition new_state (st : State) : M N :=
  fun w => let p := fresh (dom (heap w)) in
           Some (p, with_heap (insert p st) w).

(** [delete state]. *)
Definition delete_state (p : N) : M unit :=
  fun w => match heap w !! p with
           | Some _ => Some (tt, with_heap (delete p) w)
           | None => None
           end.

Definition when (b : bool) (m : M unit) : M unit := if b then m else ret tt.

(** *** Slots of a state *)

Definition attr_at (attrs : list Attribute) (slot : Z) : Attribute :=
  attrs !!! Z.to_nat slot.

Definition set_attr_at (slot : Z) (a : Attribute) (attrs : list Attribute)
    : list Attribute :=
  <[Z.to_nat slot := a]> attrs.

(** [Attribute::set]. *)
Definition Attribute_set (attrib : option N) (override : Z) : Attribute :=
  mkAttribute attrib override.

(** [RenderState::RenderState()]: no slot filled, not in the table. *)
Definition default_state : State :=
  mkState 0 (replicate SlotMask.max_slots (mkAttribute None 0)) (-1) [] [] 0 0 0.

Definition is_empty (st : State) : bool :=
  SlotMask.is_zero (_filled_slots st).

Definition get_ref_count (st : State) : Z := ref_count st.
Definition get_cache_ref_count (st : State) : Z := cache_ref_count st.

Section WithAttribs.
Context {ops : RenderAttrib.Ops}.

(** [RenderState::RenderState(const RenderState &copy)]: the mask and the
    first [get_num_slots] attribute entries are copied. *)
Definition copy_state (copy : State) : State :=
  with_attributes
    (fun attrs =>
       fold_left (fun acc i => <[i := _attributes copy !!! i]> acc)
         (seq 0 (Z.to_nat RenderAttrib.get_num_slots)) attrs)
    (with_filled_slots (fun _ => _filled_slots copy) default_state).

(** Modelled from the spec: [RenderState::Attribute::compare_to]
    (renderState.I) compares two entries by the attributes' value
    comparison, not by pointer, and then by override. *)
Definition Attribute_compare_to (a b : Attribute) : Z :=
  match _attrib a, _attrib b with
  | Some pa, Some pb =>
      if bool_decide (pa = pb) then _override a - _override b
      else
        let c := RenderAttrib.compare_to pa pb in
        if negb (c =? 0) then c else _override a - _override b
  | None, Some _ => -1
  | Some _, None => 1
  | None, None => _override a - _override b
  end.

Fixpoint compare_to_loop (fuel : nat) (mask : Z)
    (a b : list Attribute) : Z :=
  match fuel with
  | O => 0
  | S fuel' =>
      let slot := SlotMask.get_lowest_on_bit mask in
      if slot <? 0 then 0
      else
        let result := Attribute_compare_to (attr_at a slot) (attr_at b slot) in
        if negb (result =? 0) then result
        else compare_to_loop fuel' (SlotMask.clear_bit mask slot) a b
  end.

(** [RenderState::compare_to]. *)
Definition compare_to (this other : State) : Z :=
  compare_to_loop SlotMask.max_slots
    (Z.lor (_filled_slots this) (_filled_slots other))
    (_attributes this) (_attributes other).

(** [RenderState::do_calc_hash], as the value of [get_hash]. *)
Definition do_calc_hash (st : State) : Z :=
  SlotMask.fold_on_bits SlotMask.max_slots (_filled_slots st)
    (fun slot hash =>
       let attrib := attr_at (_attributes st) slot in
       let hash := RenderAttrib.pointer_add_hash hash (_attrib attrib) in
       RenderAttrib.int_add_hash hash (_override attrib))
    0.

Definition get_hash (st : State) : Z := do_calc_hash st.

(** *** Reference counts

    Modelled from the spec: the counters are those of
    CachedTypedWritableReferenceCount (not part of the sources at hand):
    a total count and a cache-only count, a cache reference adding one to
    both. *)

Definition ref (p : N) : M unit :=
  update p (with_ref_counts (fun n => n + 1) (fun c => c)).

(** [ReferenceCount::unref]: true when the count is still nonzero. *)
Definition ReferenceCount_unref (p : N) : M bool :=
  update p (with_ref_counts (fun n => n - 1) (fun c => c)) ;;
  let* st := deref p in
  ret (negb (ref_count st =? 0)).

Definition cache_ref (p : N) : M unit :=
  update p (with_ref_counts (fun n => n + 1) (fun c => c + 1)).

Definition cache_ref_only (p : N) : M unit :=
  update p (with_ref_counts (fun n => n) (fun c => c + 1)).

(** *** The intern table *)

(** Modelled from the spec: [_states] is a SimpleHashMap keyed by
    [indirect_compare_to_hash]: a lookup reaches the entries that hash
    like the key, and an entry matches when it is the key itself or
    [compare_to] gives 0. *)
Definition states_is_element (w : World) (key : N) (kst : State) (e : N)
    : bool :=
  match heap w !! e with
  | Some est =>
      (get_hash est =? get_hash kst)
      && (bool_decide (e = key) || (compare_to est kst =? 0))
  | None => false
  end.

Definition states_find (w : World) (key : N) (kst : State) : Z :=
  SimpleHashMap.find (states_is_element w key kst) (_states w).

Definition states_store (key : N) : M Z :=
  fun w =>
    match heap w !! key with
    | Some kst =>
        let '(table, si) :=
          SimpleHashMap.store (states_is_element w key kst) key (_states w) in
        Some (si, with_states (fun _ => table) w)
    | None => None
    end.

(** [attrib._attrib = RenderAttrib::do_uniquify(attrib._attrib)]. *)
Definition uniquify_entry (attrib : Attribute) : Attribute :=
  mkAttribute (RenderAttrib.do_uniquify <$> _attrib attrib) (_override attrib).

(** The attribute pointers of the filled slots, each passed through the
    attribute interner. *)
Definition uniquify_attributes (st : State) : State :=
  SlotMask.fold_on_bits SlotMask.max_slots (_filled_slots st)
    (fun slot acc =>
       with_attributes
         (set_attr_at slot (uniquify_entry (attr_at (_attributes acc) slot)))
         acc)
    st.

(** [RenderState::return_unique]. *)
Definition return_unique (state : N) : M N :=
  let* cfg := get_config in
  if negb (state_cache cfg) then ret state
  else
    let* st := deref state in
    if negb (_saved_entry st =? -1) then ret state
    else
      when (negb (uniquify_attribs cfg) && negb (is_empty st))
        (update state uniquify_attributes) ;;
      let* st := deref state in
      let* w := get_world in
      let si := states_find w state st in
      if negb (si =? -1) then
        when (get_ref_count st =? 0) (delete_state state) ;;
        match _states w !! Z.to_nat si with
        | Some existing => ret existing
        | None => fail
        end
      else
        when (garbage_collect_states cfg) (cache_ref state) ;;
        let* si := states_store state in
        update state (with_saved_entry si) ;;
        ret state.

(** The first step of [return_new]:
<<
    state->_attributes[0]._attrib = nullptr;
    state->_filled_slots.clear_bit(0);
>> *)
Definition clear_slot_0 (st : State) : State :=
  with_filled_slots (fun mask => SlotMask.clear_bit mask 0)
    (with_attributes
       (fun attrs =>
          set_attr_at 0 (mkAttribute None (_override (attr_at attrs 0))) attrs)
       st).

(** [RenderState::return_new]. *)
Definition return_new (state : N) : M N :=
  update state clear_slot_0 ;;
  let* cfg := get_config in
  let* st := deref state in
  if negb (uniquify_states cfg) && negb (is_empty st) then ret state
  else return_unique state.

(** [RenderState::init_states]: the canonical empty state is created
    and stored in the table.  [local_object] gives it a reference count
    that no unref brings to zero. *)
Definition local_ref_count : Z := 10000000.

Definition init_states : M unit :=
  let* state := new_state default_state in
  update state (with_ref_counts (fun _ => local_ref_count) (fun c => c)) ;;
  cache_ref_only state ;;
  let* si := states_store state in
  update state (with_saved_entry si) ;;
  fun w => Some (tt, mkWorld (config w) (heap w) (_states w) state
                       (_last_cycle_detect w)).

Definition blank_world (cfg : Config) : World := mkWorld cfg ∅ [] 0%N 0.

Definition initial_world (cfg : Config) : World :=
  match init_states (blank_world cfg) with
  | Some (_, w) => w
  | None => blank_world cfg
  end.

(** *** Composition *)

(** The per-slot arbitration of [do_compose] for the entries [a] of this
    state and [b] of the other one. *)
Definition compose_slot (a b : Attribute) : Attribute :=
  match _attrib a, _attrib b with
  | None, _ =>
      (* B wins. *)
      b
  | Some _, None =>
      (* A wins. *)
      a
  | Some pa, Some pb =>
      if _override b <? _override a then
        (* A, the higher RenderAttrib, overrides. *)
        a
      else if (_override a <? _override b)
              && RenderAttrib.lower_attrib_can_override pa then
        (* B, the higher RenderAttrib, overrides. *)
        b
      else
        (* Same override value, or B is higher: the composition of the
           two, with B's override value. *)
        Attribute_set (Some (RenderAttrib.compose pa pb)) (_override b)
  end.

(** The state [do_compose] builds before it hands it to the interner. *)
Definition do_compose_state (st ost : State) : State :=
  let mask := Z.lor (_filled_slots st) (_filled_slots ost) in
  SlotMask.fold_on_bits SlotMask.max_slots mask
    (fun slot new_state =>
       let a := attr_at (_attributes st) slot in
       let b := attr_at (_attributes ost) slot in
       with_attributes (set_attr_at slot (compose_slot a b)) new_state)
    (with_filled_slots (fun _ => mask) default_state).

(** [RenderState::do_compose]. *)
Definition do_compose (this other : N) : M N :=
  let* st := deref this in
  let* ost := deref other in
  let* new_state := new_state (do_compose_state st ost) in
  return_new new_state.

(** The per-slot rule of [do_invert_compose]. *)
Definition invert_compose_slot (slot : Z) (a b : Attribute) : Attribute :=
  match _attrib a, _attrib b with
  | None, _ =>
      (* B wins. *)
      b
  | Some pa, None =>
      (* A wins.  Invert it. *)
      Attribute_set
        (Some (RenderAttrib.invert_compose pa
                 (RenderAttrib.get_slot_default slot))) 0
  | Some pa, Some pb =>
      (* Both are good.  (Overrides are not used in invert_compose.) *)
      Attribute_set (Some (RenderAttrib.invert_compose pa pb)) 0
  end.

Definition do_invert_compose_state (st ost : State) : State :=
  let mask := Z.lor (_filled_slots st) (_filled_slots ost) in
  SlotMask.fold_on_bits SlotMask.max_slots mask
    (fun slot new_state =>
       let a := attr_at (_attributes st) slot in
       let b := attr_at (_attributes ost) slot in
       with_attributes (set_attr_at slot (invert_compose_slot slot a b))
         new_state)
    (with_filled_slots (fun _ => mask) default_state).

(** [RenderState::do_invert_compose]. *)
Definition do_invert_compose (this other : N) : M N :=
  let* st := deref this in
  let* ost := deref other in
  let* new_state := new_state (do_invert_compose_state st ost) in
  return_new new_state.

(** The composition caches are SimpleHashMaps keyed by pointer. *)
Definition cache_find (cache : list (N * Composition)) (key : N) : Z :=
  SimpleHashMap.find (fun e => bool_decide (e.1 = key)) cache.

(** [cache[key]._result = result]: [operator []] gives the record of
    the key, created when there is none. *)
Definition cache_set (key : N) (result : option N)
    (cache : list (N * Composition)) : list (N * Composition) :=
  (SimpleHashMap.store (fun e => bool_decide (e.1 = key))
     (key, mkComposition result) cache).1.

Definition set_result (result : option N) (e : N * Composition)
    : N * Composition :=
  (e.1, mkComposition result).

(** [RenderState::compose]. *)
Definition compose (this other : N) : M N :=
  let* st := deref this in
  let* ost := deref other in
  (* We handle empty state (identity) as a trivial special case. *)
  if is_empty st then ret other
  else if is_empty ost then ret this
  else
    let* cfg := get_config in
    if negb (state_cache cfg) then do_compose this other
    else
      (* Is this composition already cached? *)
      let index := cache_find (_composition_cache st) other in
      if negb (index =? -1) then
        match _composition_cache st !! Z.to_nat index with
        | Some (_, comp) =>
            match _result comp with
            | None =>
                let* result := do_compose this other in
                update this
                  (with_composition_cache
                     (alter (set_result (Some result)) (Z.to_nat index))) ;;
                when (negb (bool_decide (result = this))) (cache_ref result) ;;
                ret result
            | Some result => ret result
            end
        | None => fail
        end
      else
        let* result := do_compose this other in
        update this
          (with_composition_cache (cache_set other (Some result))) ;;
        when (negb (bool_decide (other = this)))
          (update other (with_composition_cache (cache_set this None))) ;;
        when (negb (bool_decide (result = this))) (cache_ref result) ;;
        ret result.

(** [RenderState::invert_compose]. *)
Definition invert_compose (this other : N) : M N :=
  let* st := deref this in
  let* ost := deref other in
  if is_empty st then ret other
  else if bool_decide (other = this) then
    (* a->invert_compose(a) always produces identity. *)
    let* w := get_world in ret (_empty_state w)
  else
    let* cfg := get_config in
    if negb (state_cache cfg) then do_invert_compose this other
    else
      let index := cache_find (_invert_composition_cache st) other in
      if negb (index =? -1) then
        match _invert_composition_cache st !! Z.to_nat index with
        | Some (_, comp) =>
            match _result comp with
            | None =>
                let* result := do_invert_compose this other in
                update this
                  (with_invert_composition_cache
                     (alter (set_result (Some result)) (Z.to_nat index))) ;;
                when (negb (bool_decide (result = this))) (cache_ref result) ;;
                ret result
            | Some result => ret result
            end
        | None => fail
        end
      else
        let* result := do_invert_compose this other in
        update this
          (with_invert_composition_cache (cache_set other (Some result))) ;;
        when (negb (bool_decide (other = this)))
          (update other
             (with_invert_composition_cache (cache_set this None))) ;;
        when (negb (bool_decide (result = this))) (cache_ref result) ;;
        ret result.

(** *** Derived states *)

(** [RenderState::make(attrib, override)]. *)
Definition make (attrib : N) (override : Z) : M N :=
  let slot := RenderAttrib.get_slot attrib in
  let* state :=
    new_state
      (with_filled_slots (fun mask => SlotMask.set_bit mask slot)
         (with_attributes
            (set_attr_at slot (Attribute_set (Some attrib) override))
            default_state)) in
  return_new state.

(** [RenderState::add_attrib]. *)
Definition add_attrib (this : N) (attrib : N) (override : Z) : M N :=
  let* st := deref this in
  let slot := RenderAttrib.get_slot attrib in
  if SlotMask.get_bit (_filled_slots st) slot
     && (override <? _override (attr_at (_attributes st) slot)) then
    (* The existing attribute overrides. *)
    ret this
  else
    let* new_state :=
      new_state
        (with_filled_slots (fun mask => SlotMask.set_bit mask slot)
           (with_attributes
              (set_attr_at slot (Attribute_set (Some attrib) override))
              (copy_state st))) in
    return_new new_state.

(** [RenderState::set_attrib(attrib)]: the override is not changed. *)
Definition set_attrib (this : N) (attrib : N) : M N :=
  let* st := deref this in
  let slot := RenderAttrib.get_slot attrib in
  let* new_state :=
    new_state
      (with_filled_slots (fun mask => SlotMask.set_bit mask slot)
         (with_attributes
            (fun attrs =>
               set_attr_at slot
                 (mkAttribute (Some attrib) (_override (attr_at attrs slot)))
                 attrs)
            (copy_state st))) in
  return_new new_state.

(** [RenderState::set_attrib(attrib, override)]. *)
Definition set_attrib_override (this : N) (attrib : N) (override : Z)
    : M N :=
  let* st := deref this in
  let slot := RenderAttrib.get_slot attrib in
  let* new_state :=
    new_state
      (with_filled_slots (fun mask => SlotMask.set_bit mask slot)
         (with_attributes
            (set_attr_at slot (Attribute_set (Some attrib) override))
            (copy_state st))) in
  return_new new_state.

(** [RenderState::remove_attrib]. *)
Definition remove_attrib (this : N) (slot : Z) : M N :=
  let* st := deref this in
  match _attrib (attr_at (_attributes st) slot) with
  | None =>
      (* Already removed. *)
      ret this
  | Some _ =>
      (* Will this bring us down to the empty state? *)
      if SlotMask.get_num_on_bits (_filled_slots st) =? 1 then
        let* w := get_world in ret (_empty_state w)
      else
        let* new_state :=
          new_state
            (with_filled_slots (fun mask => SlotMask.clear_bit mask slot)
               (with_attributes (set_attr_at slot (Attribute_set None 0))
                  (copy_state st))) in
        return_new new_state
  end.

(** [RenderState::adjust_all_priorities]. *)
Definition adjust_all_priorities (this : N) (adjustment : Z) : M N :=
  let* st := deref this in
  let* new_state :=
    new_state
      (SlotMask.fold_on_bits SlotMask.max_slots (_filled_slots st)
         (fun slot acc =>
            let attrib := attr_at (_attributes acc) slot in
            with_attributes
              (set_attr_at slot
                 (mkAttribute (_attrib attrib)
                    (Z.max (_override attrib + adjustment) 0)))
              acc)
         (copy_state st)) in
  return_new new_state.

(** *** Releasing a state *)

(** Modelled from the spec: [cache_unref_only] takes one from the
    cache-only count and leaves the total count. *)
Definition cache_unref_only (p : N) : M unit :=
  update p (with_ref_counts (fun n => n) (fun c => c - 1)).

(** Modelled from the spec: [_states.remove(this)] finds the entry of
    the key and removes it; true when an entry has been removed. *)
Definition states_remove (key : N) : M bool :=
  fun w =>
    match heap w !! key with
    | Some kst =>
        let si := states_find w key kst in
        if si =? -1 then Some (false, w)
        else
          Some (true,
                with_states (SimpleHashMap.remove_element (Z.to_nat si)) w)
    | None => None
    end.

(** [RenderState::release_new]. *)
Definition release_new (this : N) : M unit :=
  let* st := deref this in
  if negb (_saved_entry st =? -1) then
    update this (with_saved_entry (-1)) ;;
    let* _ := states_remove this in
    ret tt
  else ret tt.

Section Reentrant.
(** The functions below reach [unref] again, on other states, through
    [cache_unref_delete]; [unref] is the entry point for that. *)
Variable unref : N -> M bool.

(** Modelled from the spec: [cache_unref_delete(ptr)] drops one cache
    reference, which may trigger the destruction of the state it is
    called for, in which case the object is deleted. *)
Definition cache_unref_delete (ptr : N) : M unit :=
  cache_unref_only ptr ;;
  let* alive := unref ptr in
  when (negb alive) (delete_state ptr).

(** One of the two loops of [RenderState::remove_cache_pointers], for the
    cache [cache_of]: the first entry is pulled out each time, the
    record that [other] keeps for this state is removed with it, and
    the results held by both are released after that. *)
Fixpoint remove_cache_pointers_loop (fuel : nat)
    (cache_of : State -> list (N * Composition))
    (with_cache : (list (N * Composition) -> list (N * Composition)) ->
                  State -> State)
    (this : N) : M unit :=
  let* st := deref this in
  match cache_of st with
  | [] => ret tt
  | (other, comp) :: _ =>
      match fuel with
      | O => fail
      | S fuel' =>
          update this (with_cache (SimpleHashMap.remove_element 0)) ;;
          when (negb (bool_decide (other = this)))
            (let* ost := deref other in
             let oi := cache_find (cache_of ost) this in
             when (negb (oi =? -1))
               (match cache_of ost !! Z.to_nat oi with
                | Some (_, ocomp) =>
                    update other
                      (with_cache
                         (SimpleHashMap.remove_element (Z.to_nat oi))) ;;
                    match _result ocomp with
                    | Some result =>
                        when (negb (bool_decide (result = other)))
                          (cache_unref_delete result)
                    | None => ret tt
                    end
                | None => fail
                end)) ;;
          match _result comp with
          | Some result =>
              when (negb (bool_decide (result = this)))
                (cache_unref_delete result)
          | None => ret tt
          end ;;
          remove_cache_pointers_loop fuel' cache_of with_cache this
      end
  end.

(** [RenderState::remove_cache_pointers].  A loop ends when its cache is
    empty; no entry is added while it runs, so that the size of the
    cache bounds the number of its rounds. *)
Definition remove_cache_pointers (this : N) : M unit :=
  let* st := deref this in
  remove_cache_pointers_loop (length (_composition_cache st))
    _composition_cache with_composition_cache this ;;
  let* st := deref this in
  remove_cache_pointers_loop (length (_invert_composition_cache st))
    _invert_composition_cache with_invert_composition_cache this.

(** The loop of the cycle detectors over the entries of one cache: the
    walk stops at the first entry that closes a cycle. *)
Fixpoint first_cycle (visit : N * Composition -> M bool)
    (entries : list (N * Composition)) : M bool :=
  match entries with
  | [] => ret false
  | e :: rest =>
      let* found := visit e in
      if found then ret true else first_cycle visit rest
  end.

(** [RenderState::r_detect_cycles], without the cycle description. *)
Fixpoint r_detect_cycles (fuel : nat) (start_state current_state : N)
    (length : Z) (this_seq : Z) : M bool :=
  match fuel with
  | O => fail
  | S fuel' =>
      let* cst := deref current_state in
      if _cycle_detect cst =? this_seq then
        (* We've already seen this state; therefore, we've found a cycle. *)
        ret (bool_decide (current_state = start_state) && (2 <? length))
      else
        update current_state (with_cycle_detect this_seq) ;;
        let visit (e : N * Composition) : M bool :=
          match _result e.2 with
          | Some result =>
              r_detect_cycles fuel' start_state result (length + 1) this_seq
          | None => ret false
          end in
        let* found := first_cycle visit (_composition_cache cst) in
        if found then ret true
        else first_cycle visit (_invert_composition_cache cst)
  end.

(** [RenderState::r_detect_reverse_cycles], without the cycle
    description.  The record that [other] keeps for the current state is
    read at the index [find] gives. *)
Fixpoint r_detect_reverse_cycles (fuel : nat) (start_state current_state : N)
    (length : Z) (this_seq : Z) : M bool :=
  match fuel with
  | O => fail
  | S fuel' =>
      let* cst := deref current_state in
      if _cycle_detect cst =? this_seq then
        ret (bool_decide (current_state = start_state) && (2 <? length))
      else
        update current_state (with_cycle_detect this_seq) ;;
        let visit (cache_of : State -> list (N * Composition))
            (e : N * Composition) : M bool :=
          let other := e.1 in
          if bool_decide (other = current_state) then ret false
          else
            let* ost := deref other in
            let oi := cache_find (cache_of ost) current_state in
            if oi <? 0 then fail
            else
              match cache_of ost !! Z.to_nat oi with
              | Some (_, ocomp) =>
                  match _result ocomp with
                  | Some result =>
                      r_detect_reverse_cycles fuel' start_state result
                        (length + 1) this_seq
                  | None => ret false
                  end
              | None => fail
              end in
        let* found :=
          first_cycle (visit _composition_cache) (_composition_cache cst) in
        if found then ret true
        else
          first_cycle (visit _invert_composition_cache)
            (_invert_composition_cache cst)
  end.

(** [++_last_cycle_detect], giving the new value. *)
Definition next_cycle_detect : M Z :=
  fun w =>
    let w' := with_last_cycle_detect (fun n => n + 1) w in
    Some (_last_cycle_detect w', w').

(** [RenderState::detect_and_break_cycles]. *)
Definition detect_and_break_cycles (fuel : nat) (this : N) : M unit :=
  let* seq := next_cycle_detect in
  let* cycle := r_detect_cycles fuel this this 1 seq in
  if cycle then
    (* Ok, we have a cycle. *)
    remove_cache_pointers this
  else
    let* seq := next_cycle_detect in
    let* cycle := r_detect_reverse_cycles fuel this this 1 seq in
    when cycle (remove_cache_pointers this).

(** The body of [RenderState::unref]. *)
Definition unref_body (fuel : nat) (this : N) : M bool :=
  let* cfg := get_config in
  if garbage_collect_states cfg || negb (state_cache cfg) then
    (* If we're not using the cache at all, or if we're relying on garbage
       collection, just allow the pointer to unref normally. *)
    ReferenceCount_unref this
  else
    when (auto_break_cycles cfg && uniquify_states cfg)
      (let* st := deref this in
       when ((0 <? get_cache_ref_count st)
             && (get_ref_count st =? get_cache_ref_count st + 1))
         (detect_and_break_cycles fuel this)) ;;
    let* nonzero := ReferenceCount_unref this in
    if nonzero then
      (* The reference count is still nonzero. *)
      ret true
    else
      (* The reference count has just reached zero. *)
      release_new this ;;
      remove_cache_pointers this ;;
      ret false.

End Reentrant.

(** [RenderState::unref].  [fuel] bounds the depth to which releasing
    one state releases others, and the depth of the cycle walks. *)
Fixpoint unref (fuel : nat) (this : N) : M bool :=
  match fuel with
  | O => fail
  | S fuel' => unref_body (unref fuel') fuel' this
  end.


End WithAttribs.

End RenderState.

(** ** ConfigPageManager *)

Module ConfigPageManager.

(** The file-system and process services configPageManager.cxx calls
    (Filename, GlobPattern, ExecutionEnvironment of dtool).  File names
    are strings. *)
Class Env := {
  (** [Filename(dirname, basename)] *)
  Filename_join : string -> string -> string;
  (** [Filename::get_dirname] *)
  get_dirname : string -> string;
  (** [Filename::is_directory] *)
  is_directory : string -> bool;
  (** [Filename::scan_directory]: the sorted file names, when the
      directory can be read *)
  scan_directory : string -> option (list string);
  (** [GlobPattern::matches], the pattern first *)
  glob_matches : string -> string -> bool;
  (** [ExecutionEnvironment::get_dtool_name] *)
  get_dtool_name : string;
  (** [ExecutionEnvironment::get_environment_variable] *)
  get_environment_variable : string -> string
}.

(** [get_dirname] cuts the name at its last slash: it gives a shorter
    name, or the name itself at the top (the root, or the empty name). *)
Class EnvLaws (env : Env) : Prop := {
  get_dirname_shorter : forall dir,
    get_dirname dir <> dir ->
    (String.length (get_dirname dir) < String.length dir)%nat
}.

(** [ConfigPage]: a named page with its sequence number. *)
Record ConfigPage := mkConfigPage {
  page_name : string;
  page_implicit : bool;
  page_seq : Z
}.

(** The manager, with the page objects it owns and the modification
    counter that the variables compare their cached values against. *)
Record Manager := mkManager {
  _implicit_pages : list N;
  _explicit_pages : list N;
  _next_page_seq : Z;
  _pages_sorted : bool;
  _prc_patterns : list string;
  _prc_encrypted_patterns : list string;
  _prc_executable_patterns : list string;
  _search_path : list string;
  page_heap : gmap N ConfigPage;
  _global_modified : Z
}.

(** Modelled from the spec: [invalidate_cache] (configPageManager.I /
    configFlags.I) invalidates all variable caches.  A variable caches a
    value with the counter it saw; bumping the counter makes every
    cached value stale. *)
Definition invalidate_cache (m : Manager) : Manager :=
  mkManager (_implicit_pages m) (_explicit_pages m) (_next_page_seq m)
    (_pages_sorted m) (_prc_patterns m) (_prc_encrypted_patterns m)
    (_prc_executable_patterns m) (_search_path m) (page_heap m)
    (_global_modified m + 1).

Definition is_cache_valid (local_modified : Z) (m : Manager) : bool :=
  local_modified =? _global_modified m.

(** [ConfigPageManager::make_explicit_page]. *)
Definition make_explicit_page (name : string) (m : Manager) : N * Manager :=
  let page := fresh (dom (page_heap m)) in
  (page,
   invalidate_cache
     (mkManager (_implicit_pages m) (_explicit_pages m ++ [page])
        (_next_page_seq m + 1) false (_prc_patterns m)
        (_prc_encrypted_patterns m) (_prc_executable_patterns m)
        (_search_path m)
        (<[page := mkConfigPage name false (_next_page_seq m)]> (page_heap m))
        (_global_modified m))).

(** The loop of [delete_explicit_page]: the list without the first
    element equal to [page], when there is one. *)
Fixpoint erase_page (page : N) (pages : list N) : option (list N) :=
  match pages with
  | [] => None
  | pi :: rest =>
      if bool_decide (pi = page) then Some rest
      else match erase_page page rest with
           | Some rest' => Some (pi :: rest')
           | None => None
           end
  end.

(** [ConfigPageManager::delete_explicit_page]. *)
Definition delete_explicit_page (page : N) (m : Manager) : bool * Manager :=
  match erase_page page (_explicit_pages m) with
  | Some pages =>
      (true,
       invalidate_cache
         (mkManager (_implicit_pages m) pages (_next_page_seq m)
            (_pages_sorted m) (_prc_patterns m) (_prc_encrypted_patterns m)
            (_prc_executable_patterns m) (_search_path m)
            (delete page (page_heap m)) (_global_modified m)))
  | None => (false, m)
  end.

Section WithEnv.
Context {env : Env} {laws : EnvLaws env}.

(** The two inner loops of [scan_up_from] over one file name. *)
Definition matches_any (patterns : list string) (file : string) : bool :=
  existsb (fun glob => glob_matches glob file) patterns.

(** The test of one candidate directory in [scan_up_from]: it is a
    directory, it can be scanned, and one of its files matches a read
    pattern or an executable pattern. *)
Definition has_prc_file (m : Manager) (consider : string) : bool :=
  if is_directory consider then
    match scan_directory consider with
    | Some files =>
        existsb
          (fun fi => matches_any (_prc_patterns m) fi
                     || matches_any (_prc_executable_patterns m) fi)
          files
    | None => false
    end
  else false.

(** [ConfigPageManager::scan_up_from]: the directory found, if any. *)
Equations scan_up_from (m : Manager) (dir : string) (suffix : string)
    : option string by wf (String.length dir) lt :=
  scan_up_from m dir suffix with has_prc_file m (Filename_join dir suffix) := {
    | true := Some (Filename_join dir suffix)
    | false with decide (dir = get_dirname dir) := {
        | left _ :=
            (* Too bad; couldn't find a match. *)
            None
        | right Hne :=
            (* Recursively try again on the parent. *)
            scan_up_from m (get_dirname dir) suffix } }.
Next Obligation. apply get_dirname_shorter. congruence. Defined.

(** [ConfigPageManager::scan_auto_prc_dir]: the flag returned, and the
    value of [prc_dir] after the call. *)
Definition scan_auto_prc_dir (m : Manager) (prc_dir : string)
    : bool * string :=
  if String.eqb (String.substring 0 6 prc_dir) "<auto>" then
    let suffix := String.substring 6 (String.length prc_dir) prc_dir in
    (* Start at the dtool directory. *)
    let dir := get_dirname get_dtool_name in
    match scan_up_from m dir suffix with
    | Some result => (true, result)
    | None =>
        (* Try the program's directory. *)
        let dir := get_environment_variable "MAIN_DIR" in
        match scan_up_from m dir suffix with
        | Some result => (true, result)
        | None =>
            (* Didn't find it; too bad. *)
            (false, prc_dir)
        end
    end
  else
    (* The filename did not begin with "<auto>", so it stands unchanged. *)
    (true, prc_dir).

(** The step of [reload_implicit_pages] for one directory name:
<<
    if (scan_auto_prc_dir(prc_dir_filename)) {
      _search_path.append_directory(prc_dir_filename);
    }
>> *)
Definition append_prc_dir (m : Manager) (prc_dir : string)
    (search_path : list string) : list string :=
  let '(found, prc_dir_filename) := scan_auto_prc_dir m prc_dir in
  if found then search_path ++ [prc_dir_filename] else search_path.

End WithEnv.

End ConfigPageManager.

(** ** RenderState: further member functions

    The comparisons used for sorting, the consistency check of the
    filled-slot mask, the construction of a state from several
    attributes, and the reading and writing of a state in a Bam file. *)

Module RenderStateMembers.
Import RenderState.

(** [RenderAttribRegistry::get_num_sorted_slots], [get_sorted_slot]: the
    slots in the order of their sort rank. *)
Class SortedSlots := {
  get_num_sorted_slots : Z;
  get_sorted_slot : Z -> Z
}.

(** [a < b] on two attribute pointers: the order of the addresses, the
    null pointer below every object. *)
Definition pointer_lt (a b : option N) : bool :=
  match a, b with
  | None, Some _ => true
  | Some pa, Some pb => (pa <? pb)%N
  | _, None => false
  end.

(** The comparison of two attribute pointers in [compare_sort] and
    [compare_mask]:
<<
    if (a != b) {
      return a < b ? -1 : 1;
    }
>>
    with 0 standing for the loop going on. *)
Definition pointer_compare (a b : option N) : Z :=
  if negb (bool_decide (a = b)) then (if pointer_lt a b then -1 else 1)
  else 0.

Section Sorted.
Context {sorted : SortedSlots}.

Fixpoint compare_sort_loop (count : nat) (n : Z)
    (a b : list Attribute) : Z :=
  match count with
  | O => 0
  | S count' =>
      let slot := get_sorted_slot n in
      let result :=
        pointer_compare (_attrib (attr_at a slot)) (_attrib (attr_at b slot)) in
      if negb (result =? 0) then result
      else compare_sort_loop count' (n + 1) a b
  end.

(** [RenderState::compare_sort]. *)
Definition compare_sort (this other : N) : M Z :=
  if bool_decide (this = other) then
    (* Trivial case. *)
    ret 0
  else
    let* st := deref this in
    let* ost := deref other in
    ret (compare_sort_loop (Z.to_nat get_num_sorted_slots) 0
           (_attributes st) (_attributes ost)).

End Sorted.

Fixpoint compare_mask_loop (fuel : nat) (mask : Z)
    (a b : list Attribute) : Z :=
  match fuel with
  | O => 0
  | S fuel' =>
      let slot := SlotMask.get_lowest_on_bit mask in
      if slot <? 0 then 0
      else
        let result :=
          pointer_compare (_attrib (attr_at a slot))
            (_attrib (attr_at b slot)) in
        if negb (result =? 0) then result
        else compare_mask_loop fuel' (SlotMask.clear_bit mask slot) a b
  end.

(** [RenderState::compare_mask]. *)
Definition compare_mask (this other : State) (compare_mask : Z) : Z :=
  compare_mask_loop SlotMask.max_slots
    (Z.land (Z.lor (_filled_slots this) (_filled_slots other)) compare_mask)
    (_attributes this) (_attributes other).

(** [RenderState::validate_filled_slots]. *)
Definition validate_filled_slots (st : State) : bool :=
  let mask :=
    fold_left
      (fun mask slot =>
         match _attrib (attr_at (_attributes st) slot) with
         | Some _ => SlotMask.set_bit mask slot
         | None => mask
         end)
      (SlotMask.slots_from 1 (SlotMask.max_slots - 1)) 0 in
  mask =? _filled_slots st.

Section WithAttribs.
Context {ops : RenderAttrib.Ops}.

(** [RenderState::fill_default]. *)
Definition fill_default (st : State) : State :=
  fold_left
    (fun acc slot =>
       with_filled_slots (fun mask => SlotMask.set_bit mask slot)
         (with_attributes
            (set_attr_at slot
               (Attribute_set (Some (RenderAttrib.get_slot_default slot)) 0))
            acc))
    (SlotMask.slots_from 1 (Z.to_nat RenderAttrib.get_num_slots - 1)) st.

(** [RenderState::make(attrib, num_attribs, override)]: the state with
    the attributes of an array. *)
Definition make_n (attrib : list N) (override : Z) : M N :=
  if Z.of_nat (length attrib) =? 0 then
    let* w := get_world in ret (_empty_state w)
  else
    let* state :=
      new_state
        (fold_left
           (fun state a =>
              let slot := RenderAttrib.get_slot a in
              with_filled_slots (fun mask => SlotMask.set_bit mask slot)
                (with_attributes
                   (set_attr_at slot (Attribute_set (Some a) override))
                   state))
           attrib default_state) in
    return_new state.

(** *** Bam

    Modelled from the spec: Datagram, DatagramIterator, BamWriter and
    BamReader are not part of the sources at hand.  A datagram is the
    sequence of the fields written to it, a fixed-width integer field
    keeping the value modulo its width; the pointer registry of the
    reader hands to [complete_pointers] the pointers in the order in
    which [read_pointer] met them. *)

Inductive Field :=
  | Uint16 (n : Z)
  | Int32 (n : Z)
  | Pointer (p : option N).

Definition add_uint16 (n : Z) (dg : list Field) : list Field :=
  dg ++ [Uint16 (n mod 2 ^ 16)].

Definition add_int32 (n : Z) (dg : list Field) : list Field :=
  dg ++ [Int32 ((n + 2 ^ 31) mod 2 ^ 32 - 2 ^ 31)].

Definition write_pointer (p : option N) (dg : list Field) : list Field :=
  dg ++ [Pointer p].

(** [RenderState::write_datagram]. *)
Definition write_datagram (st : State) (dg : list Field) : list Field :=
  let num_attribs := SlotMask.get_num_on_bits (_filled_slots st) in
  SlotMask.fold_on_bits SlotMask.max_slots (_filled_slots st)
    (fun slot dg =>
       let attrib := attr_at (_attributes st) slot in
       add_int32 (_override attrib) (write_pointer (_attrib attrib) dg))
    (add_uint16 num_attribs dg).

(** The loop of [fillin]: each round reads a pointer and an override.
    The overrides go to [_read_overrides]; the pointers read are the
    ones the reader resolves for [complete_pointers]. *)
Fixpoint fillin_loop (num_attribs : nat) (scan : list Field)
    (read_overrides : list Z) (p_list : list (option N))
    : option (list Z * list (option N) * list Field) :=
  match num_attribs with
  | O => Some (read_overrides, p_list, scan)
  | S n =>
      match scan with
      | Pointer p :: Int32 override :: scan' =>
          fillin_loop n scan' (read_overrides ++ [override]) (p_list ++ [p])
      | _ => None
      end
  end.

(** [RenderState::fillin]: what is read from the datagram, and what is
    left of it; nothing when the datagram does not hold the fields. *)
Definition fillin (scan : list Field)
    : option (list Z * list (option N) * list Field) :=
  match scan with
  | Uint16 num_attribs :: scan' =>
      fillin_loop (Z.to_nat num_attribs) scan' [] []
  | _ => None
  end.

(** The loop of [complete_pointers] over [_read_overrides]. *)
Fixpoint complete_pointers_loop (read_overrides : list Z)
    (p_list : list (option N)) (pi : nat) (st : State)
    : option (State * nat) :=
  match read_overrides with
  | [] => Some (st, pi)
  | override :: rest =>
      match p_list !! pi with
      | Some attrib =>
          let st' :=
            match attrib with
            | Some a =>
                let slot := RenderAttrib.get_slot a in
                if (0 <? slot) && (slot <? Z.of_nat SlotMask.max_slots) then
                  with_filled_slots (fun mask => SlotMask.set_bit mask slot)
                    (with_attributes
                       (set_attr_at slot (Attribute_set (Some a) override))
                       st)
                else st
            | None => st
            end in
          complete_pointers_loop rest p_list (S pi) st'
      | None => None
      end
  end.

(** [RenderState::complete_pointers]: the state filled in, and the
    number of pointers processed; nothing when the list of pointers is
    too short. *)
Definition complete_pointers (read_overrides : list Z)
    (p_list : list (option N)) (st : State) : option (State * Z) :=
  match complete_pointers_loop read_overrides p_list 0 st with
  | Some (st', pi) => Some (st', Z.of_nat pi)
  | None => None
  end.

End WithAttribs.

End RenderStateMembers.

(** ** ConfigPageManager: loading the implicit pages

    [reload_implicit_pages], with what it takes from the build (the
    macros of the configuration of the build) and from the process (an
    optional [blobinfo] record of a deployed application, the files). *)

Module ImplicitPages.
Import ConfigPageManager.

(** The macros of the build that [reload_implicit_pages] tests or
    expands; a macro that may be undefined is an option. *)
Class Build := mkBuild {
  LINK_ALL_STATIC : bool;
  ANDROID : bool;
  EMSCRIPTEN : bool;
  PRC_PATTERNS : option string;
  PRC_ENCRYPTED_PATTERNS : option string;
  PRC_EXECUTABLE_PATTERNS : option string;
  PRC_DIR_ENVVARS : option string;
  PRC_PATH_ENVVARS : option string;
  PRC_PATH2_ENVVARS : option string;
  DEFAULT_PRC_DIR : option string;
  DEFAULT_PATHSEP : string;
  PRC_EXECUTABLE_ARGS_ENVVAR : string;
  PRC_ENCRYPTION_KEY : string
}.

(** The fields of [struct BlobInfo] that are read; a null pointer is
    [None]. *)
Record BlobInfo := mkBlobInfo {
  version : Z;
  num_pointers : Z;
  prc_data : option string;
  default_prc_dir : option string;
  prc_dir_envvars : option string;
  prc_path_envvars : option string;
  prc_patterns : option string;
  prc_encrypted_patterns : option string;
  prc_encryption_key : option string;
  prc_executable_patterns : option string;
  prc_executable_args_envvar : option string;
  main_dir : option string
}.

(** The services of dtool called besides those of [Env]. *)
Class Files := {
  (** [ConfigDeclaration::extract_words] *)
  extract_words : string -> list string;
  (** [Filename::from_os_specific] *)
  from_os_specific : string -> string;
  (** [Filename::to_os_specific] *)
  to_os_specific : string -> string;
  (** [Filename::make_true_case], [Filename::make_canonical]: the name
      after the call *)
  make_true_case : string -> string;
  make_canonical : string -> string;
  (** [Filename::is_executable] *)
  is_executable : string -> bool;
  (** [Filename::open_read]: whether the file can be opened *)
  open_read : string -> bool;
  (** the symbol [blobinfo] of the main program, when there is one *)
  blobinfo_symbol : option BlobInfo
}.

(** [ExecutionEnvironment::set_environment_variable]: the process
    environment after the call. *)
Definition set_environment_variable (env : Env) (name value : string) : Env := {|
  Filename_join := @Filename_join env;
  get_dirname := @get_dirname env;
  is_directory := @is_directory env;
  scan_directory := @scan_directory env;
  glob_matches := @glob_matches env;
  get_dtool_name := @get_dtool_name env;
  get_environment_variable var :=
    if String.eqb var name then value else @get_environment_variable env var
|}.

#[export] Instance set_environment_variable_laws (env : Env)
    (laws : EnvLaws env) (name value : string) :
  EnvLaws (set_environment_variable env name value).
Proof. split. exact (@get_dirname_shorter env laws). Defined.

(** [enum FileFlags]: the flags set for a file, one bit each. *)
Record FileFlags := mkFileFlags {
  FF_read : bool;
  FF_decrypt : bool;
  FF_execute : bool
}.

(** [struct ConfigFile]. *)
Record ConfigFile := mkConfigFile {
  _file_flags : FileFlags;
  _filename : string
}.

(** How the text of a page has been read: what is given to [read_prc]
    or to [read_encrypted_prc]. *)
Inductive Source :=
  | Builtin (prc_data : string)
  | Pipe (command : string)
  | Encrypted (filename key : string)
  | Text (filename : string).

(** What the call does outside of the manager. *)
Inductive Event :=
  | SetEnvironmentVariable (name value : string)
  | ReadPrc (page : N) (source : Source)
  | UnableToRead (filename : string)
  | ExecutableNotSupported
  | ConfigInitialized.

(** The manager with the two flags of the loading. *)
Record Loader := mkLoader {
  manager : Manager;
  _loaded_implicit : bool;
  _currently_loading : bool
}.

(** [ConfigPageManager::ConfigPageManager]. *)
Definition new_manager : Loader :=
  mkLoader (mkManager [] [] 1 true [] [] [] [] ∅ 0) false false.

Definition with_implicit_pages (pages : list N) (heap : gmap N ConfigPage)
    (sorted : bool) (m : Manager) : Manager :=
  mkManager pages (_explicit_pages m) (_next_page_seq m) sorted
    (_prc_patterns m) (_prc_encrypted_patterns m)
    (_prc_executable_patterns m) (_search_path m) heap (_global_modified m).

Definition with_patterns (read encrypted executable : list string)
    (m : Manager) : Manager :=
  mkManager (_implicit_pages m) (_explicit_pages m) (_next_page_seq m)
    (_pages_sorted m) read encrypted executable (_search_path m)
    (page_heap m) (_global_modified m).

Definition with_search_path (path : list string) (m : Manager) : Manager :=
  mkManager (_implicit_pages m) (_explicit_pages m) (_next_page_seq m)
    (_pages_sorted m) (_prc_patterns m) (_prc_encrypted_patterns m)
    (_prc_executable_patterns m) path (page_heap m) (_global_modified m).

(** The first loop: the pages loaded before are deleted. *)
Definition delete_pages (pages : list N) (heap : gmap N ConfigPage)
    : gmap N ConfigPage :=
  fold_left (fun heap page => delete page heap) pages heap.

(** [string::find_first_of(seps, p)]: the index of the first character
    from [p] on that is one of [seps]. *)
Fixpoint find_first_of_from (seps : string) (s : string) (i : nat)
    : option nat :=
  match s with
  | EmptyString => None
  | String c rest =>
      if existsb (Ascii.eqb c) (String.list_ascii_of_string seps) then Some i
      else find_first_of_from seps rest (S i)
  end.

Definition find_first_of (seps : string) (path : string) (p : nat)
    : option nat :=
  find_first_of_from seps (String.substring p (String.length path - p) path) p.

Section WithEnv.
Context {build : Build} {files : Files}.

(** The value of a macro, unless the blob gives one. *)
Definition macro_or_blob (macro : string) (blob : option BlobInfo)
    (field : BlobInfo -> option string) : string :=
  match blob with
  | Some b => match field b with Some s => s | None => macro end
  | None => macro
  end.

(** One of the three pattern lists:
<<
    #ifdef PRC_PATTERNS
      string prc_patterns = PRC_PATTERNS;
      if (blobinfo != nullptr && blobinfo->prc_patterns != nullptr) {
        prc_patterns = blobinfo->prc_patterns;
      }
      if (!prc_patterns.empty()) { ... extract_words ... }
    #endif
>> *)
Definition pattern_list (macro : option string) (blob : option BlobInfo)
    (field : BlobInfo -> option string) : list string :=
  match macro with
  | Some macro =>
      let patterns := macro_or_blob macro blob field in
      if String.eqb patterns "" then [] else extract_words patterns
  | None => []
  end.

(** The loop over the directories of one path variable,
<<
    size_t p = 0;
    while (p < path.length()) {
      size_t q = path.find_first_of(seps, p);
      if (q == string::npos) { q = path.length(); }
      visit(path.substr(p, q - p));
      p = q + 1;
    }
>>
    [p] grows at each round, so that the length of the path bounds the
    number of rounds. *)
Fixpoint path_loop {A : Type} (fuel : nat) (seps path : string) (p : nat)
    (visit : string -> A -> A) (acc : A) : A :=
  match fuel with
  | O => acc
  | S fuel' =>
      if (p <? String.length path)%nat then
        let q := default (String.length path) (find_first_of seps path p) in
        path_loop fuel' seps path (q + 1)%nat visit
          (visit (String.substring p (q - p) path) acc)
      else acc
  end.

Section WithProcess.
Context {env : Env} {laws : EnvLaws env}.

(** The search path built from [PRC_DIR_ENVVARS]. *)
Definition dir_envvars_path (m : Manager) (blob : option BlobInfo)
    (search_path : list string) : list string :=
  match PRC_DIR_ENVVARS with
  | Some macro =>
      let prc_dir_envvars := macro_or_blob macro blob prc_dir_envvars in
      if String.eqb prc_dir_envvars "" then search_path
      else
        fold_left
          (fun search_path envvar =>
             let prc_dir := get_environment_variable envvar in
             if String.eqb prc_dir "" then search_path
             else
               append_prc_dir m (make_true_case (from_os_specific prc_dir))
                 search_path)
          (extract_words prc_dir_envvars) search_path
  | None => search_path
  end.

(** The search path built from [PRC_PATH_ENVVARS]. *)
Definition path_envvars_path (m : Manager) (blob : option BlobInfo)
    (search_path : list string) : list string :=
  match PRC_PATH_ENVVARS with
  | Some macro =>
      let prc_path_envvars := macro_or_blob macro blob prc_path_envvars in
      if String.eqb prc_path_envvars "" then search_path
      else
        fold_left
          (fun search_path envvar =>
             let path := get_environment_variable envvar in
             path_loop (String.length path) DEFAULT_PATHSEP path 0
               (fun dir search_path =>
                  append_prc_dir m (make_true_case (from_os_specific dir))
                    search_path)
               search_path)
          (extract_words prc_path_envvars) search_path
  | None => search_path
  end.

(** The search path built from [PRC_PATH2_ENVVARS]: Panda-style names
    separated by spaces; not used when there is a blob. *)
Definition path2_envvars_path (m : Manager) (blob : option BlobInfo)
    (search_path : list string) : list string :=
  match PRC_PATH2_ENVVARS with
  | Some prc_path2_envvars =>
      if negb (String.eqb prc_path2_envvars "")
         && bool_decide (blob = None :> option BlobInfo) then
        fold_left
          (fun search_path envvar =>
             let path := get_environment_variable envvar in
             path_loop (String.length path) " " path 0
               (fun dir search_path => append_prc_dir m dir search_path)
               search_path)
          (extract_words prc_path2_envvars) search_path
      else search_path
  | None => search_path
  end.

(** The search path falls back on [DEFAULT_PRC_DIR] when it is empty. *)
Definition default_prc_dir_path (m : Manager) (blob : option BlobInfo)
    (search_path : list string) : list string :=
  match DEFAULT_PRC_DIR with
  | Some macro =>
      if bool_decide (search_path = []) then
        let default_prc_dir := macro_or_blob macro blob default_prc_dir in
        if String.eqb default_prc_dir "" then search_path
        else append_prc_dir m default_prc_dir search_path
      else search_path
  | None => search_path
  end.

(** The flags of one file name: the three loops over the pattern
    lists. *)
Definition file_flags (m : Manager) (fi : string) : FileFlags :=
  let encrypted := matches_any (_prc_encrypted_patterns m) fi in
  mkFileFlags (matches_any (_prc_patterns m) fi || encrypted) encrypted
    (matches_any (_prc_executable_patterns m) fi).

Definition no_flags (flags : FileFlags) : bool :=
  negb (FF_read flags || FF_decrypt flags || FF_execute flags).

(** The loop over the files of one directory, in reverse order. *)
Definition directory_config_files (m : Manager) (directory : string)
    (files : list string) : list ConfigFile :=
  flat_map
    (fun fi =>
       let flags := file_flags m fi in
       if no_flags flags then []
       else [mkConfigFile flags (Filename_join directory fi)])
    (rev files).

(** The loop over the directories of the search path: each directory
    is visited once, whatever the names it has on the path. *)
Fixpoint find_config_files (m : Manager) (directories : list string)
    (unique_dirnames : gset string) (config_files : list ConfigFile)
    : list ConfigFile :=
  match directories with
  | [] => config_files
  | directory :: rest =>
      if is_directory directory then
        let canonical := make_canonical (Filename_join directory ".") in
        if decide (canonical ∈ unique_dirnames) then
          find_config_files m rest unique_dirnames config_files
        else
          let files := default [] (scan_directory directory) in
          find_config_files m rest ({[canonical]} ∪ unique_dirnames)
            (config_files ++ directory_config_files m directory files)
      else find_config_files m rest unique_dirnames config_files
  end.

(** What is carried along the loading: the implicit pages, the page
    objects, [i], the flag [_pages_sorted], and what has been read. *)
Record Loading := mkLoading {
  loaded_pages : list N;
  loaded_heap : gmap N ConfigPage;
  next_seq : Z;
  loaded_sorted : bool;
  loaded_events : list Event
}.

(** [new ConfigPage(name, true, i); ++i; _implicit_pages.push_back(page);
    _pages_sorted = false; page->read...]. *)
Definition load_page (name : string) (source : Source) (s : Loading)
    : Loading :=
  let page := fresh (dom (loaded_heap s)) in
  mkLoading (loaded_pages s ++ [page])
    (<[page := mkConfigPage name true (next_seq s)]> (loaded_heap s))
    (next_seq s + 1) false
    (loaded_events s ++ [ReadPrc page source]).

(** An error message of [prc_cat]. *)
Definition report (event : Event) (s : Loading) : Loading :=
  mkLoading (loaded_pages s) (loaded_heap s) (next_seq s) (loaded_sorted s)
    (loaded_events s ++ [event]).

(** The command of an executable page file. *)
Definition page_command (blob : option BlobInfo) (filename : string)
    : string :=
  let command := to_os_specific filename in
  let envvar :=
    macro_or_blob PRC_EXECUTABLE_ARGS_ENVVAR blob prc_executable_args_envvar in
  if String.eqb envvar "" then command
  else
    let args := get_environment_variable envvar in
    if String.eqb args "" then command
    else (command ++ " " ++ args)%string.

(** The body of the last loop, for one file. *)
Definition load_config_file (blob : option BlobInfo) (file : ConfigFile)
    (s : Loading) : Loading :=
  let filename := _filename file in
  if FF_execute (_file_flags file) && is_executable filename then
    if EMSCRIPTEN then
      (* Executable config files are not supported with Emscripten. *)
      report ExecutableNotSupported s
    else
      (* Attempt to execute the file as a command. *)
      load_page filename (Pipe (page_command blob filename)) s
  else if FF_decrypt (_file_flags file) then
    (* Read and decrypt the file. *)
    if negb (open_read filename) then report (UnableToRead filename) s
    else
      load_page filename
        (Encrypted filename
           (macro_or_blob PRC_ENCRYPTION_KEY blob prc_encryption_key)) s
  else if FF_read (_file_flags file) then
    (* Just read the file. *)
    if negb (open_read filename) then report (UnableToRead filename) s
    else load_page filename (Text filename) s
  else s.

(** The pages loaded, from [int i = 1] to the end of the last loop. *)
Definition load_pages (blob : option BlobInfo)
    (config_files : list ConfigFile) (s : Loading) : Loading :=
  let s :=
    match blob with
    | Some b =>
        match prc_data b with
        | Some data => load_page "builtin" (Builtin data) s
        | None => s
        end
    | None => s
    end in
  fold_left (fun s file => load_config_file blob file s) (rev config_files) s.

End WithProcess.

(** [ConfigPageManager::reload_implicit_pages]: the manager after the
    call, and what the call has done outside of it. *)
Definition reload_implicit_pages {env : Env} {laws : EnvLaws env}
    (this : Loader) : Loader * list Event :=
  if LINK_ALL_STATIC then
    (* Don't read implicit pages on static builds. *)
    (this, [])
  else if _currently_loading this then
    (* This is a recursion protector. *)
    (this, [])
  else
    let m := manager this in
    (* First, remove all the previously-loaded pages. *)
    let m :=
      with_implicit_pages [] (delete_pages (_implicit_pages m) (page_heap m))
        (_pages_sorted m) m in
    let '(m, events) :=
      if ANDROID then (m, [])
      else
        let blob :=
          match (if EMSCRIPTEN then None else blobinfo_symbol) with
          | Some b =>
              if (version b =? 0) || (num_pointers b <? 10) then None
              else Some b
          | None => None
          end in
        let main_dir_value :=
          match blob with
          | Some b =>
              match main_dir b with
              | Some dir =>
                  if 11 <=? num_pointers b then Some dir
                  else Some (get_environment_variable "MAIN_DIR")
              | None => Some (get_environment_variable "MAIN_DIR")
              end
          | None => None
          end in
        let env' :=
          match main_dir_value with
          | Some value => set_environment_variable env "MAIN_DIR" value
          | None => env
          end in
        let laws' : EnvLaws env' :=
          match main_dir_value as v
                return EnvLaws
                         match v with
                         | Some value =>
                             set_environment_variable env "MAIN_DIR" value
                         | None => env
                         end
          with
          | Some value => set_environment_variable_laws env laws _ value
          | None => laws
          end in
        let m :=
          with_patterns
            (pattern_list PRC_PATTERNS blob prc_patterns)
            (pattern_list PRC_ENCRYPTED_PATTERNS blob prc_encrypted_patterns)
            (pattern_list PRC_EXECUTABLE_PATTERNS blob prc_executable_patterns)
            m in
        (* Now build up the search path for .prc files. *)
        let search_path := dir_envvars_path (env:=env') m blob [] in
        let search_path := path_envvars_path (env:=env') m blob search_path in
        let search_path := path2_envvars_path (env:=env') m blob search_path in
        let search_path := default_prc_dir_path (env:=env') m blob search_path in
        let m := with_search_path search_path m in
        (* Now find all of the *.prc files on the path. *)
        let config_files :=
          find_config_files (env:=env') m (_search_path m) ∅ [] in
        let s :=
          load_pages (env:=env') blob config_files
            (mkLoading (_implicit_pages m) (page_heap m) 1 (_pages_sorted m)
               match main_dir_value with
               | Some value => [SetEnvironmentVariable "MAIN_DIR" value]
               | None => []
               end) in
        (with_implicit_pages (loaded_pages s) (loaded_heap s)
           (loaded_sorted s) m,
         loaded_events s) in
    (* The settings that the call makes in other modules at its end
       (the newline mode, the error mode of Windows) are not part of
       the manager. *)
    (mkLoader (invalidate_cache m) true false,
     events ++ (if _loaded_implicit this then [] else [ConfigInitialized])).

End WithEnv.

End ImplicitPages.

(** ** Concrete attribute kinds

    Two registered kinds, as in a build with a colour attribute in slot 1
    and a colour-scale attribute in slot 2.  An attribute address [p] is
    of the kind of slot [p / 100]; composing colours gives the second
    one, composing colour scales accumulates them; the colours
    150..199 allow a lower attribute to override.  Attributes are
    already unique, so the attribute interner is the identity. *)

Module Fixture.

Definition attribs : RenderAttrib.Ops := {|
  RenderAttrib.get_slot p := Z.of_N (p / 100);
  RenderAttrib.compose p q :=
    if (p / 100 =? 1)%N then q else (200 + (p + q) mod 100)%N;
  RenderAttrib.invert_compose p q :=
    if (p / 100 =? 1)%N then q else (200 + (q + 100 - p mod 100) mod 100)%N;
  RenderAttrib.lower_attrib_can_override p := (50 <=? p mod 100)%N;
  RenderAttrib.compare_to p q := Z.of_N p - Z.of_N q;
  RenderAttrib.do_uniquify p := p;
  RenderAttrib.get_slot_default slot := (Z.to_N slot * 100)%N;
  RenderAttrib.get_num_slots := 3;
  RenderAttrib.pointer_add_hash hash p :=
    hash * 31 + match p with Some a => Z.of_N a + 1 | None => 0 end;
  RenderAttrib.int_add_hash hash i := hash * 31 + i
|}.

Lemma attribs_laws : RenderAttrib.Laws attribs.
Proof.
  split; simpl; intros; lia.
Qed.

(** state_cache, garbage_collect_states, auto_break_cycles,
    uniquify_states, uniquify_attribs *)
Definition cache_on : RenderState.Config :=
  RenderState.mkConfig true false true true true.
Definition cache_off : RenderState.Config :=
  RenderState.mkConfig false false true true true.
Definition cache_on_gc : RenderState.Config :=
  RenderState.mkConfig true true true true true.

(** A small installation: the library in /repo/bin, the page files in
    /repo/sub. *)
Definition env : ConfigPageManager.Env := {|
  ConfigPageManager.Filename_join dir suffix :=
    if String.eqb suffix "" then dir else (dir ++ "/" ++ suffix)%string;
  ConfigPageManager.get_dirname dir :=
    if String.eqb dir "/repo/bin/libp3dtool.so" then "/repo/bin"
    else if String.eqb dir "/repo/bin" then "/repo"
    else if String.eqb dir "/repo" then "/"
    else if String.eqb dir "/" then "/"
    else "";
  ConfigPageManager.is_directory dir :=
    String.eqb dir "/repo/bin" || String.eqb dir "/repo/sub"
    || String.eqb dir "/repo" || String.eqb dir "/";
  ConfigPageManager.scan_directory dir :=
    if String.eqb dir "/repo/sub" then Some ["Config.prc"; "readme.txt"]
    else if String.eqb dir "/repo/bin" then Some ["libp3dtool.so"]
    else Some [];
  ConfigPageManager.glob_matches glob file :=
    String.eqb glob "*.prc" && String.eqb file "Config.prc";
  ConfigPageManager.get_dtool_name := "/repo/bin/libp3dtool.so";
  ConfigPageManager.get_environment_variable name :=
    if String.eqb name "MAIN_DIR" then "/repo/bin" else ""
|}.

Lemma env_laws : ConfigPageManager.EnvLaws env.
Proof.
  split. intros dir. simpl.
  destruct (String.eqb_spec dir "/repo/bin/libp3dtool.so") as [->|?];
    [simpl; lia|].
  destruct (String.eqb_spec dir "/repo/bin") as [->|?]; [simpl; lia|].
  destruct (String.eqb_spec dir "/repo") as [->|?]; [simpl; lia|].
  destruct (String.eqb_spec dir "/") as [->|?]; [done|].
  destruct dir; simpl; [done|lia].
Defined.

Definition manager : ConfigPageManager.Manager :=
  ConfigPageManager.mkManager [] [] 1 true ["*.prc"] [] [] [] ∅ 0.

End Fixture.

(** ** Facts on RenderState *)

Module RenderStateFacts.
Import RenderState.

#[local] Arguments SlotMask.clear_bit : simpl never.
#[local] Arguments SlotMask.set_bit : simpl never.
#[local] Arguments SlotMask.get_bit : simpl never.
#[local] Arguments SlotMask.fold_on_bits : simpl never.
#[local] Arguments SlotMask.get_num_on_bits : simpl never.
#[local] Arguments attr_at : simpl never.
#[local] Arguments set_attr_at : simpl never.
#[local] Arguments compare_to : simpl never.
#[local] Arguments do_calc_hash : simpl never.
#[local] Arguments uniquify_attributes : simpl never.
#[local] Arguments do_compose_state : simpl never.
#[local] Arguments do_invert_compose_state : simpl never.
#[local] Arguments copy_state : simpl never.
#[local] Arguments default_state : simpl never.

(** Projections of updated records. *)
Ltac fields :=
  unfold clear_slot_0;
  cbn [_filled_slots _attributes _saved_entry _composition_cache
       _invert_composition_cache _cycle_detect ref_count cache_ref_count
       with_filled_slots with_attributes with_saved_entry
       with_composition_cache with_invert_composition_cache
       with_cycle_detect with_ref_counts
       config heap _states _empty_state _last_cycle_detect
       with_config with_heap with_states with_last_cycle_detect].

Section Facts.
Context {ops : RenderAttrib.Ops}.

(** *** Well-formed states *)

(** The mask agrees with the table of attribute pointers (what
    [validate_filled_slots] checks), and the table has [max_slots]
    entries. *)
Definition wf_state (st : State) : Prop :=
  SlotMask.wf (_filled_slots st)
  /\ length (_attributes st) = SlotMask.max_slots
  /\ forall slot, 0 <= slot < Z.of_nat SlotMask.max_slots ->
       Z.testbit (_filled_slots st) slot = true
       <-> _attrib (attr_at (_attributes st) slot) <> None.

(** Two entries that the interner does not tell apart. *)
Definition same_entry (a b : Attribute) : Prop := Attribute_compare_to a b = 0.

(** *** Slots of an attribute table *)

Lemma attr_at_set_eq slot a attrs :
  0 <= slot -> (Z.to_nat slot < length attrs)%nat ->
  attr_at (set_attr_at slot a attrs) slot = a.
Proof. intros. unfold attr_at, set_attr_at. by apply list_lookup_total_insert_eq. Qed.

Lemma attr_at_set_ne slot k a attrs :
  0 <= slot -> 0 <= k -> slot <> k ->
  attr_at (set_attr_at slot a attrs) k = attr_at attrs k.
Proof.
  intros. unfold attr_at, set_attr_at. apply list_lookup_total_insert_ne. lia.
Qed.

Lemma length_set_attr_at slot a attrs :
  length (set_attr_at slot a attrs) = length attrs.
Proof. apply length_insert. Qed.

Lemma attr_at_replicate n slot :
  attr_at (replicate n (mkAttribute None 0)) slot = mkAttribute None 0.
Proof.
  unfold attr_at. rewrite list_lookup_total_alt.
  destruct (replicate n (mkAttribute None 0) !! Z.to_nat slot) eqn:E; [|done].
  by apply lookup_replicate in E as [-> _].
Qed.

Lemma attr_at_default slot :
  attr_at (_attributes default_state) slot = mkAttribute None 0.
Proof. apply attr_at_replicate. Qed.

(** The attribute table after a loop that rewrites the entry of each
    visited slot from its current value. *)
Definition map_slots (g : Z -> Attribute -> Attribute) (slots : list Z)
    (attrs : list Attribute) : list Attribute :=
  fold_left (fun acc slot => set_attr_at slot (g slot (attr_at acc slot)) acc)
    slots attrs.

Lemma map_slots_cons g slot slots attrs :
  map_slots g (slot :: slots) attrs
  = map_slots g slots (set_attr_at slot (g slot (attr_at attrs slot)) attrs).
Proof. done. Qed.

Lemma fold_with_attributes g slots init :
  fold_left
    (fun acc slot =>
       with_attributes
         (set_attr_at slot (g slot (attr_at (_attributes acc) slot))) acc)
    slots init
  = with_attributes (map_slots g slots) init.
Proof.
  revert init. induction slots as [|slot slots IH]; intros init.
  - by destruct init.
  - simpl. rewrite IH. done.
Qed.

Lemma length_map_slots g slots attrs :
  length (map_slots g slots attrs) = length attrs.
Proof.
  revert attrs. induction slots as [|slot slots IH]; intros attrs; [done|].
  rewrite map_slots_cons, IH. apply length_set_attr_at.
Qed.

Lemma attr_at_map_slots g slots attrs k :
  NoDup slots ->
  (forall slot, slot ∈ slots -> 0 <= slot /\ (Z.to_nat slot < length attrs)%nat) ->
  0 <= k ->
  attr_at (map_slots g slots attrs) k
  = if decide (k ∈ slots) then g k (attr_at attrs k) else attr_at attrs k.
Proof.
  revert attrs. induction slots as [|slot slots IH]; intros attrs Hnd Hin Hk.
  - done.
  - apply NoDup_cons in Hnd as [Hnot Hnd]. rewrite map_slots_cons.
    rewrite IH; [|done| |done].
    2:{ intros s Hs. rewrite length_set_attr_at. apply Hin. by right. }
    destruct (Hin slot) as [Hs0 Hslen]; [by left|].
    destruct (decide (k = slot)) as [->|Hne].
    + rewrite decide_False by done. rewrite decide_True by (by left).
      by rewrite attr_at_set_eq.
    + rewrite !attr_at_set_ne by done.
      destruct (decide (k ∈ slots)) as [Hel|Hel].
      * rewrite decide_True by (by right). done.
      * rewrite decide_False; [done|]. rewrite elem_of_cons. tauto.
Qed.

(** The slot loop over a state, in terms of the mask. *)
Lemma fold_on_bits_attributes g mask init :
  SlotMask.wf mask ->
  length (_attributes init) = SlotMask.max_slots ->
  let r :=
    SlotMask.fold_on_bits SlotMask.max_slots mask
      (fun slot acc =>
         with_attributes
           (set_attr_at slot (g slot (attr_at (_attributes acc) slot))) acc)
      init in
  r = with_attributes (map_slots g (SlotMask.on_bits mask)) init
  /\ length (_attributes r) = SlotMask.max_slots
  /\ forall k, 0 <= k ->
       attr_at (_attributes r) k
       = if Z.testbit mask k then g k (attr_at (_attributes init) k)
         else attr_at (_attributes init) k.
Proof.
  intros Hwf Hlen r. subst r.
  rewrite SlotMask.fold_on_bits_spec by done.
  rewrite fold_with_attributes. split_and!; [done| |].
  - simpl. by rewrite length_map_slots.
  - intros k Hk. simpl. rewrite attr_at_map_slots; [| |  |done].
    + destruct (Z.testbit mask k) eqn:Hbit.
      * rewrite decide_True; [done|]. by apply SlotMask.elem_of_on_bits.
      * rewrite decide_False; [done|].
        rewrite SlotMask.elem_of_on_bits by done. congruence.
    + apply SlotMask.NoDup_on_bits.
    + intros s Hs. apply SlotMask.on_bits_range in Hs. rewrite Hlen. lia.
Qed.

(** *** compare_to, slot by slot *)

Fixpoint first_nonzero (l : list Z) : Z :=
  match l with
  | [] => 0
  | x :: rest => if negb (x =? 0) then x else first_nonzero rest
  end.

Lemma first_nonzero_0 l : first_nonzero l = 0 <-> Forall (fun x => x = 0) l.
Proof.
  induction l as [|x l IH]; simpl; [by split|].
  rewrite Forall_cons. destruct (Z.eqb_spec x 0) as [->|Hx]; simpl.
  - rewrite IH. tauto.
  - split; [done|]. by intros [? _].
Qed.

Lemma compare_to_loop_from a b n :
  forall k mask fuel,
    Z.of_nat k + Z.of_nat n <= Z.of_nat SlotMask.max_slots ->
    SlotMask.bits_in (Z.of_nat k) n mask -> (n <= fuel)%nat ->
    compare_to_loop fuel mask a b
    = first_nonzero
        ((fun slot => Attribute_compare_to (attr_at a slot) (attr_at b slot))
           <$> filter (fun slot => Z.testbit mask slot = true)
                 (SlotMask.slots_from k n)).
Proof.
  induction n as [|n IH]; intros k mask fuel Hn Hin Hfuel.
  - simpl. destruct fuel as [|fuel]; [done|]. simpl.
    by rewrite (SlotMask.get_lowest_on_bit_none _ _ Hin).
  - rewrite SlotMask.slots_from_S, filter_cons.
    destruct (decide (Z.testbit mask (Z.of_nat k) = true)) as [Hbit|Hbit].
    + destruct fuel as [|fuel]; [lia|]. simpl.
      rewrite (SlotMask.get_lowest_on_bit_found (Z.of_nat k) (S n))
        by (done || lia).
      destruct (Z.ltb_spec (Z.of_nat k) 0); [lia|].
      destruct (negb _); [done|].
      rewrite (IH (S k)); [by rewrite SlotMask.filter_clear_bit|lia| |lia].
      replace (Z.of_nat (S k)) with (Z.of_nat k + 1) by lia.
      apply SlotMask.bits_in_clear; [lia|done].
    + apply not_true_is_false in Hbit.
      rewrite (IH (S k)); [done|lia| |lia].
      replace (Z.of_nat (S k)) with (Z.of_nat k + 1) by lia.
      by apply SlotMask.bits_in_skip.
Qed.

Lemma compare_to_0 st1 st2 :
  SlotMask.wf (_filled_slots st1) -> SlotMask.wf (_filled_slots st2) ->
  compare_to st1 st2 = 0
  <-> forall slot,
        Z.testbit (Z.lor (_filled_slots st1) (_filled_slots st2)) slot = true ->
        same_entry (attr_at (_attributes st1) slot)
          (attr_at (_attributes st2) slot).
Proof.
  intros Hwf1 Hwf2. unfold compare_to.
  pose proof (SlotMask.wf_lor _ _ Hwf1 Hwf2) as Hwf.
  rewrite (compare_to_loop_from _ _ SlotMask.max_slots 0%nat);
    [|lia|by apply SlotMask.wf_bits_in|lia].
  rewrite first_nonzero_0, Forall_fmap, Forall_forall.
  fold (SlotMask.on_bits (Z.lor (_filled_slots st1) (_filled_slots st2))).
  split.
  - intros H slot Hs. apply H. by apply SlotMask.elem_of_on_bits.
  - intros H slot Hs. apply H. by apply SlotMask.elem_of_on_bits in Hs.
Qed.

Lemma same_entry_iff a b :
  same_entry a b
  <-> _override a = _override b
      /\ match _attrib a, _attrib b with
         | Some pa, Some pb => pa = pb \/ RenderAttrib.compare_to pa pb = 0
         | None, None => True
         | _, _ => False
         end.
Proof.
  unfold same_entry, Attribute_compare_to.
  destruct (_attrib a) as [pa|], (_attrib b) as [pb|]; try (split; [lia|tauto]).
  - case_bool_decide as Hp.
    + split; [intros; split; [lia|by left]|lia].
    + destruct (Z.eqb_spec (RenderAttrib.compare_to pa pb) 0) as [Hc|Hc]; simpl.
      * split; [intros; split; [lia|by right]|lia].
      * split; [done|]. intros [_ [?|?]]; done.
  - split; [intros; split; [lia|done]|lia].
Qed.

Lemma same_entry_refl a : same_entry a a.
Proof. apply same_entry_iff. split; [done|]. destruct (_attrib a); auto. Qed.

Section Equivalence.
Context {laws : RenderAttrib.Laws ops}.

Lemma same_entry_sym a b : same_entry a b -> same_entry b a.
Proof.
  rewrite !same_entry_iff. intros [Ho Ha]. split; [done|].
  destruct (_attrib a), (_attrib b); try done.
  destruct Ha as [->|Hc]; [by left|right].
  by apply RenderAttrib.compare_to_sym.
Qed.

Lemma same_entry_trans a b c : same_entry a b -> same_entry b c -> same_entry a c.
Proof.
  rewrite !same_entry_iff. intros [Ho1 Ha1] [Ho2 Ha2]. split; [congruence|].
  destruct (_attrib a), (_attrib b), (_attrib c); try done.
  destruct Ha1 as [->|Hc1], Ha2 as [<-|Hc2]; auto.
  right. eapply RenderAttrib.compare_to_trans; done.
Qed.

End Equivalence.

Lemma same_entry_attrib_None a b :
  same_entry a b -> (_attrib a = None <-> _attrib b = None).
Proof.
  rewrite same_entry_iff. intros [_ H].
  destruct (_attrib a), (_attrib b); done.
Qed.

(** States that compare equal have the same mask. *)
Lemma compare_to_0_mask st1 st2 :
  wf_state st1 -> wf_state st2 -> compare_to st1 st2 = 0 ->
  _filled_slots st1 = _filled_slots st2.
Proof.
  intros (Hwf1 & Hlen1 & Hon1) (Hwf2 & Hlen2 & Hon2) Hcmp.
  rewrite compare_to_0 in Hcmp by done.
  apply Z.bits_inj'. intros slot Hslot.
  destruct (Z.testbit (Z.lor (_filled_slots st1) (_filled_slots st2)) slot)
    eqn:Hor.
  - assert (0 <= slot < Z.of_nat SlotMask.max_slots) as Hr.
    { apply (SlotMask.wf_lor _ _ Hwf1 Hwf2). done. }
    pose proof (same_entry_attrib_None _ _ (Hcmp slot Hor)) as Hnone.
    specialize (Hon1 slot Hr). specialize (Hon2 slot Hr).
    destruct (Z.testbit (_filled_slots st1) slot),
      (Z.testbit (_filled_slots st2) slot); try done.
    + exfalso. apply Hon1; [done|]. apply Hnone.
      destruct (_attrib (attr_at (_attributes st2) slot)); [|done].
      assert (false = true); [|done]. apply Hon2. done.
    + exfalso. apply Hon2; [done|]. apply Hnone.
      destruct (_attrib (attr_at (_attributes st1) slot)); [|done].
      assert (false = true); [|done]. apply Hon1. done.
  - rewrite Z.lor_spec in Hor. apply orb_false_iff in Hor as [-> ->]. done.
Qed.

Lemma compare_to_0_wf st1 st2 :
  wf_state st1 -> wf_state st2 ->
  compare_to st1 st2 = 0
  <-> _filled_slots st1 = _filled_slots st2
      /\ forall slot, Z.testbit (_filled_slots st1) slot = true ->
           same_entry (attr_at (_attributes st1) slot)
             (attr_at (_attributes st2) slot).
Proof.
  intros Hw1 Hw2. split.
  - intros Hcmp. split; [by apply compare_to_0_mask|].
    intros slot Hs. destruct Hw1 as (? & _), Hw2 as (? & _).
    rewrite compare_to_0 in Hcmp by done. apply Hcmp.
    rewrite Z.lor_spec, Hs. done.
  - intros [Hmask Hslots]. destruct Hw1 as (? & _), Hw2 as (? & _).
    apply compare_to_0; [done..|]. intros slot.
    rewrite <- Hmask, Z.lor_diag. apply Hslots.
Qed.

Lemma compare_to_refl st : wf_state st -> compare_to st st = 0.
Proof.
  intros Hwf. apply compare_to_0_wf; [done..|]. split; [done|].
  intros. apply same_entry_refl.
Qed.

Section StateEquivalence.
Context {laws : RenderAttrib.Laws ops}.

Lemma compare_to_sym st1 st2 :
  wf_state st1 -> wf_state st2 ->
  compare_to st1 st2 = 0 -> compare_to st2 st1 = 0.
Proof.
  intros Hw1 Hw2. rewrite !compare_to_0_wf by done.
  intros [Hmask H]. split; [done|]. intros slot Hs.
  apply same_entry_sym, H. by rewrite Hmask.
Qed.

Lemma compare_to_trans st1 st2 st3 :
  wf_state st1 -> wf_state st2 -> wf_state st3 ->
  compare_to st1 st2 = 0 -> compare_to st2 st3 = 0 -> compare_to st1 st3 = 0.
Proof.
  intros Hw1 Hw2 Hw3. rewrite !compare_to_0_wf by done.
  intros [Hm1 H1] [Hm2 H2]. split; [congruence|]. intros slot Hs.
  eapply same_entry_trans; [by apply H1|]. apply H2. by rewrite <- Hm1.
Qed.

End StateEquivalence.

(** *** The states the operations build *)

Lemma wf_default_state : wf_state default_state.
Proof.
  split_and!.
  - apply SlotMask.wf_0.
  - apply length_replicate.
  - intros slot _. rewrite attr_at_default. simpl. rewrite Z.bits_0. done.
Qed.

Lemma clear_slot_0_slots st k :
  1 <= k ->
  Z.testbit (_filled_slots (clear_slot_0 st)) k = Z.testbit (_filled_slots st) k
  /\ attr_at (_attributes (clear_slot_0 st)) k = attr_at (_attributes st) k.
Proof.
  intros Hk. fields. split.
  - rewrite SlotMask.testbit_clear_bit by lia.
    destruct (Z.eqb_spec 0 k); [lia|]. apply andb_true_r.
  - apply attr_at_set_ne; lia.
Qed.

Lemma wf_clear_slot_0 st : wf_state st -> wf_state (clear_slot_0 st).
Proof.
  intros (Hwf & Hlen & Hon). split_and!.
  - fields. apply SlotMask.wf_clear_bit; [lia|done].
  - fields. by rewrite length_set_attr_at.
  - intros slot Hr. destruct (decide (slot = 0)) as [->|Hne].
    + fields. rewrite SlotMask.testbit_clear_bit by lia.
      rewrite attr_at_set_eq; [|lia|rewrite Hlen; unfold SlotMask.max_slots; lia].
      simpl. rewrite andb_false_r. done.
    + destruct (clear_slot_0_slots st slot) as [-> ->]; [lia|]. by apply Hon.
Qed.

Lemma compose_slot_Some a b :
  _attrib a <> None \/ _attrib b <> None -> _attrib (compose_slot a b) <> None.
Proof.
  unfold compose_slot.
  destruct (_attrib a) as [pa|] eqn:Ha, (_attrib b) as [pb|] eqn:Hb;
    try (intros [?|?]; congruence).
  intros _. destruct (_ <? _); [congruence|]. destruct (_ && _); [congruence|].
  done.
Qed.

Lemma invert_compose_slot_Some slot a b :
  _attrib a <> None \/ _attrib b <> None ->
  _attrib (invert_compose_slot slot a b) <> None.
Proof.
  unfold invert_compose_slot.
  destruct (_attrib a) as [pa|] eqn:Ha, (_attrib b) as [pb|] eqn:Hb;
    try (intros [?|?]; congruence); done.
Qed.

(** A state built slot by slot over the union of two masks. *)
Lemma merged_state_spec (f : Z -> Attribute -> Attribute -> Attribute) st ost :
  SlotMask.wf (_filled_slots st) -> SlotMask.wf (_filled_slots ost) ->
  let mask := Z.lor (_filled_slots st) (_filled_slots ost) in
  let r :=
    SlotMask.fold_on_bits SlotMask.max_slots mask
      (fun slot new_state =>
         let a := attr_at (_attributes st) slot in
         let b := attr_at (_attributes ost) slot in
         with_attributes (set_attr_at slot (f slot a b)) new_state)
      (with_filled_slots (fun _ => mask) default_state) in
  _filled_slots r = mask
  /\ length (_attributes r) = SlotMask.max_slots
  /\ _saved_entry r = -1
  /\ _composition_cache r = [] /\ _invert_composition_cache r = []
  /\ ref_count r = 0 /\ cache_ref_count r = 0
  /\ forall k, 0 <= k ->
       attr_at (_attributes r) k
       = if Z.testbit mask k
         then f k (attr_at (_attributes st) k) (attr_at (_attributes ost) k)
         else mkAttribute None 0.
Proof.
  intros Hwf1 Hwf2 mask r.
  pose proof (fold_on_bits_attributes
                (fun slot _ =>
                   f slot (attr_at (_attributes st) slot)
                     (attr_at (_attributes ost) slot))
                mask (with_filled_slots (fun _ => mask) default_state)
                (SlotMask.wf_lor _ _ Hwf1 Hwf2) (length_replicate _ _))
    as (Heq & Hlen & Hat).
  change (r = with_attributes
                (map_slots
                   (fun slot _ =>
                      f slot (attr_at (_attributes st) slot)
                        (attr_at (_attributes ost) slot))
                   (SlotMask.on_bits mask))
                (with_filled_slots (fun _ => mask) default_state)) in Heq.
  split_and!; try (rewrite Heq; done); [done|].
  intros k Hk. specialize (Hat k Hk).
  change (attr_at (_attributes r) k
          = if Z.testbit mask k
            then f k (attr_at (_attributes st) k) (attr_at (_attributes ost) k)
            else attr_at (_attributes default_state) k) in Hat.
  by rewrite attr_at_default in Hat.
Qed.

Lemma wf_merged_state (f : Z -> Attribute -> Attribute -> Attribute) st ost :
  (forall slot a b,
      _attrib a <> None \/ _attrib b <> None -> _attrib (f slot a b) <> None) ->
  wf_state st -> wf_state ost ->
  wf_state
    (SlotMask.fold_on_bits SlotMask.max_slots
       (Z.lor (_filled_slots st) (_filled_slots ost))
       (fun slot new_state =>
          let a := attr_at (_attributes st) slot in
          let b := attr_at (_attributes ost) slot in
          with_attributes (set_attr_at slot (f slot a b)) new_state)
       (with_filled_slots
          (fun _ => Z.lor (_filled_slots st) (_filled_slots ost))
          default_state)).
Proof.
  intros Hf (Hwf1 & Hlen1 & Hon1) (Hwf2 & Hlen2 & Hon2).
  destruct (merged_state_spec f st ost Hwf1 Hwf2)
    as (Hmask & Hlen & _ & _ & _ & _ & _ & Hat).
  split_and!.
  - rewrite Hmask. by apply SlotMask.wf_lor.
  - done.
  - intros slot Hr. rewrite Hmask, Hat by lia.
    destruct (Z.testbit (Z.lor _ _) slot) eqn:Hor.
    + split; [intros _|done]. apply Hf.
      rewrite Z.lor_spec in Hor. apply orb_true_iff in Hor as [H|H].
      * left. by apply Hon1.
      * right. by apply Hon2.
    + done.
Qed.

Lemma wf_do_compose_state st ost :
  wf_state st -> wf_state ost -> wf_state (do_compose_state st ost).
Proof.
  intros Hst Host. unfold do_compose_state. cbv zeta.
  refine (wf_merged_state (fun _ => compose_slot) st ost _ Hst Host).
  intros _. apply compose_slot_Some.
Qed.

Lemma wf_do_invert_compose_state st ost :
  wf_state st -> wf_state ost -> wf_state (do_invert_compose_state st ost).
Proof.
  intros Hst Host. unfold do_invert_compose_state. cbv zeta.
  refine (wf_merged_state invert_compose_slot st ost _ Hst Host).
  apply invert_compose_slot_Some.
Qed.

(** The attribute interner applied to the filled slots. *)
Lemma uniquify_attributes_spec st :
  wf_state st ->
  uniquify_attributes st
  = with_attributes
      (map_slots (fun _ => uniquify_entry) (SlotMask.on_bits (_filled_slots st)))
      st
  /\ length (_attributes (uniquify_attributes st)) = SlotMask.max_slots
  /\ forall k, 0 <= k ->
       attr_at (_attributes (uniquify_attributes st)) k
       = if Z.testbit (_filled_slots st) k
         then uniquify_entry (attr_at (_attributes st) k)
         else attr_at (_attributes st) k.
Proof.
  intros (Hwf & Hlen & Hon). unfold uniquify_attributes.
  exact (fold_on_bits_attributes (fun _ => uniquify_entry)
           (_filled_slots st) st Hwf Hlen).
Qed.

Lemma wf_uniquify_attributes st :
  wf_state st -> wf_state (uniquify_attributes st).
Proof.
  intros Hst. destruct (uniquify_attributes_spec st Hst) as (Heq & Hlen & Hat).
  destruct Hst as (Hwf & Hlen0 & Hon).
  split_and!.
  - by rewrite Heq.
  - done.
  - intros slot Hr. rewrite Hat by lia. rewrite Heq. fields.
    rewrite (Hon slot Hr).
    destruct (Z.testbit (_filled_slots st) slot) eqn:Hbit; [|done].
    simpl. destruct (_attrib (attr_at (_attributes st) slot)); done.
Qed.

Lemma compare_to_uniquify_attributes `{!RenderAttrib.Laws ops} st :
  wf_state st -> compare_to (uniquify_attributes st) st = 0.
Proof.
  intros Hst. pose proof (wf_uniquify_attributes st Hst) as Hwf'.
  destruct (uniquify_attributes_spec st Hst) as (Heq & Hlen & Hat).
  apply compare_to_0_wf; [done..|]. split; [by rewrite Heq|].
  intros slot Hs. rewrite Heq in Hs. simpl in Hs.
  assert (0 <= slot) as H0 by (destruct Hst as (Hw & _); apply Hw in Hs; lia).
  rewrite Hat, Hs by done. apply same_entry_iff. split; [done|]. simpl.
  destruct (_attrib (attr_at (_attributes st) slot)); simpl; [|done].
  right. apply RenderAttrib.do_uniquify_equiv.
Qed.

(** *** Steps of the monad *)

Lemma bind_ret {A B : Type} (x : A) (k : A -> M B) w :
  bind (ret x) k w = k x w.
Proof. done. Qed.

Lemma bind_get_config {B : Type} (k : Config -> M B) w :
  bind get_config k w = k (config w) w.
Proof. done. Qed.

Lemma bind_get_world {B : Type} (k : World -> M B) w :
  bind get_world k w = k w w.
Proof. done. Qed.

Lemma bind_deref {B : Type} (k : State -> M B) w p st :
  heap w !! p = Some st -> bind (deref p) k w = k st w.
Proof. intros H. unfold bind, deref. by rewrite H. Qed.

Lemma bind_update {B : Type} (k : unit -> M B) w p f st :
  heap w !! p = Some st ->
  bind (update p f) k w = k tt (with_heap (insert p (f st)) w).
Proof. intros H. unfold bind, update. by rewrite H. Qed.

Lemma bind_delete_state {B : Type} (k : unit -> M B) w p st :
  heap w !! p = Some st ->
  bind (delete_state p) k w = k tt (with_heap (delete p) w).
Proof. intros H. unfold bind, delete_state. by rewrite H. Qed.

Lemma bind_new_state {B : Type} (k : N -> M B) w st :
  bind (new_state st) k w
  = k (fresh (dom (heap w))) (with_heap (insert (fresh (dom (heap w))) st) w).
Proof. done. Qed.

Lemma fresh_not_allocated (w : World) : heap w !! fresh (dom (heap w)) = None.
Proof. apply not_elem_of_dom. apply is_fresh. Qed.

Lemma with_heap_insert_id w p st :
  heap w !! p = Some st -> with_heap (insert p st) w = w.
Proof. intros H. destruct w. unfold with_heap. simpl in *. by rewrite insert_id. Qed.

Lemma with_heap_insert_insert w p st st' :
  with_heap (insert p st') (with_heap (insert p st) w)
  = with_heap (insert p st') w.
Proof. unfold with_heap. simpl. by rewrite insert_insert_eq. Qed.

Lemma bind_when_update {B : Type} (k : unit -> M B) w p f st (b : bool) :
  heap w !! p = Some st ->
  bind (when b (update p f)) k w
  = k tt (with_heap (insert p (if b then f st else st)) w).
Proof.
  intros H. destruct b; unfold when.
  - by apply bind_update.
  - by rewrite bind_ret, with_heap_insert_id.
Qed.

(** *** The cases of return_unique *)

(** The state that is looked up: its attributes made unique when
    [uniquify_attribs] is off. *)
Definition unique_form (cfg : Config) (st : State) : State :=
  if negb (uniquify_attribs cfg) && negb (is_empty st)
  then uniquify_attributes st else st.

Definition gc_ref (cfg : Config) (st : State) : State :=
  if garbage_collect_states cfg
  then with_ref_counts (fun n => n + 1) (fun c => c + 1) st else st.

Lemma states_is_element_ext w w' key kst kst' e :
  heap w' !! e = heap w !! e ->
  _filled_slots kst' = _filled_slots kst ->
  _attributes kst' = _attributes kst ->
  states_is_element w' key kst' e = states_is_element w key kst e.
Proof.
  intros He Hm Ha. unfold states_is_element. rewrite He.
  destruct (heap w !! e) as [est|]; [|done].
  unfold get_hash, do_calc_hash, compare_to. by rewrite Hm, Ha.
Qed.

Lemma return_unique_cases w p n :
  heap w !! p = Some n ->
  let n1 := unique_form (config w) n in
  let w1 := with_heap (insert p n1) w in
  let si := states_find w1 p n1 in
  (state_cache (config w) = false /\ return_unique p w = Some (p, w))
  \/ (state_cache (config w) = true /\ _saved_entry n <> -1
      /\ return_unique p w = Some (p, w))
  \/ (state_cache (config w) = true /\ _saved_entry n = -1 /\ si <> -1
      /\ exists existing,
           _states w !! Z.to_nat si = Some existing
           /\ states_is_element w1 p n1 existing = true
           /\ return_unique p w
              = Some (existing,
                      if ref_count n1 =? 0 then with_heap (delete p) w1
                      else w1))
  \/ (state_cache (config w) = true /\ _saved_entry n = -1 /\ si = -1
      /\ Forall (fun e => states_is_element w1 p n1 e = false) (_states w)
      /\ return_unique p w
         = Some (p,
                 with_states (fun _ => _states w ++ [p])
                   (with_heap
                      (insert p
                         (with_saved_entry (Z.of_nat (length (_states w)))
                            (gc_ref (config w) n1)))
                      w))).
Proof.
  intros Hn n1 w1 si.
  remember (return_unique p w) as R eqn:HR.
  unfold return_unique in HR. rewrite bind_get_config in HR.
  destruct (state_cache (config w)) eqn:Hsc; [|by left].
  right. cbn [negb] in HR. rewrite (bind_deref _ _ _ _ Hn) in HR.
  destruct (Z.eqb_spec (_saved_entry n) (-1)) as [Hse|Hse]; [|by left].
  right. cbn [negb] in HR.
  rewrite (bind_when_update _ _ _ _ _ _ Hn) in HR.
  change (with_heap _ w) with w1 in HR.
  assert (heap w1 !! p = Some n1) as Hn1 by apply lookup_insert_eq.
  rewrite (bind_deref _ _ _ _ Hn1), bind_get_world in HR.
  fold si in HR. destruct (Z.eqb_spec si (-1)) as [Hsi|Hsi]; cbn [negb] in HR.
  - right. split_and!; [done..| |].
    { apply SimpleHashMap.find_None. done. }
    pose proof (SimpleHashMap.find_None _ _ Hsi) as Hall.
    change (_states w1) with (_states w) in Hall.
    unfold cache_ref in HR.
    rewrite (bind_when_update _ _ _ _ _ _ Hn1) in HR.
    change (if garbage_collect_states (config w) then _ else n1)
      with (gc_ref (config w) n1) in HR.
    set (n2 := gc_ref (config w) n1) in *.
    set (w2 := with_heap (insert p n2) w1) in *.
    assert (heap w2 !! p = Some n2) as Hn2 by apply lookup_insert_eq.
    assert (SimpleHashMap.find (states_is_element w2 p n2) (_states w) = -1)
      as Hfind2.
    { apply SimpleHashMap.find_None_iff.
      rewrite Forall_forall in Hall. apply Forall_forall. intros e He.
      specialize (Hall e He).
      destruct (decide (e = p)) as [->|Hne].
      - unfold states_is_element in Hall. rewrite Hn1 in Hall.
        rewrite Z.eqb_refl, bool_decide_eq_true_2 in Hall by done. done.
      - rewrite <- Hall. apply states_is_element_ext.
        + subst w2. cbn [heap with_heap]. by rewrite lookup_insert_ne.
        + subst n2. unfold gc_ref. by destruct (garbage_collect_states _).
        + subst n2. unfold gc_ref. by destruct (garbage_collect_states _). }
    unfold bind at 1 in HR. unfold states_store in HR. rewrite Hn2 in HR.
    unfold SimpleHashMap.store in HR.
    change (_states w2) with (_states w) in HR. rewrite Hfind2 in HR.
    cbn [Z.ltb Z.compare] in HR.
    rewrite (bind_update _ _ _ _ n2) in HR by apply lookup_insert_eq.
    rewrite HR. unfold ret. do 2 f_equal.
    subst w2 w1. unfold with_states, with_heap. cbn.
    by rewrite !insert_insert_eq.
  - left. split_and!; [done..|].
    destruct (SimpleHashMap.find_Some _ _ Hsi) as (existing & Hlook & Hel).
    change (SimpleHashMap.find _ _) with si in Hlook.
    change (_states w1) with (_states w) in Hlook.
    exists existing. split_and!; [done..|].
    change (_states w1) with (_states w) in HR. rewrite Hlook in HR.
    unfold get_ref_count in HR.
    destruct (ref_count n1 =? 0); unfold when in HR.
    + by rewrite (bind_delete_state _ _ _ _ Hn1) in HR.
    + by rewrite bind_ret in HR.
Qed.

(** *** What the interner returns *)

#[local] Opaque SlotMask.fold_on_bits compare_to_loop.

(** Every entry of the intern table is an allocated, well-formed state. *)
Definition table_wf (w : World) : Prop :=
  forall q, q ∈ _states w -> exists r, heap w !! q = Some r /\ wf_state r.

Lemma wf_state_ext st st' :
  _filled_slots st' = _filled_slots st -> _attributes st' = _attributes st ->
  wf_state st -> wf_state st'.
Proof. unfold wf_state. by intros -> ->. Qed.

Lemma compare_to_ext_l st st' other :
  _filled_slots st' = _filled_slots st -> _attributes st' = _attributes st ->
  compare_to st' other = compare_to st other.
Proof. unfold compare_to. by intros -> ->. Qed.

Lemma compare_to_ext_r st st' other :
  _filled_slots st' = _filled_slots st -> _attributes st' = _attributes st ->
  compare_to other st' = compare_to other st.
Proof. unfold compare_to. by intros -> ->. Qed.

Lemma gc_ref_fields cfg st :
  _filled_slots (gc_ref cfg st) = _filled_slots st
  /\ _attributes (gc_ref cfg st) = _attributes st
  /\ _composition_cache (gc_ref cfg st) = _composition_cache st
  /\ _invert_composition_cache (gc_ref cfg st) = _invert_composition_cache st
  /\ _saved_entry (gc_ref cfg st) = _saved_entry st.
Proof. unfold gc_ref. by destruct (garbage_collect_states cfg). Qed.

Lemma unique_form_fields cfg st :
  wf_state st ->
  _filled_slots (unique_form cfg st) = _filled_slots st
  /\ _composition_cache (unique_form cfg st) = _composition_cache st
  /\ _invert_composition_cache (unique_form cfg st)
     = _invert_composition_cache st
  /\ _saved_entry (unique_form cfg st) = _saved_entry st
  /\ ref_count (unique_form cfg st) = ref_count st
  /\ cache_ref_count (unique_form cfg st) = cache_ref_count st.
Proof.
  intros Hwf. unfold unique_form. destruct (_ && _); [|done].
  destruct (uniquify_attributes_spec st Hwf) as (-> & _). done.
Qed.

Section Interner.
Context {laws : RenderAttrib.Laws ops}.

Lemma wf_unique_form cfg st : wf_state st -> wf_state (unique_form cfg st).
Proof.
  intros Hwf. unfold unique_form. destruct (_ && _); [|done].
  by apply wf_uniquify_attributes.
Qed.

Lemma compare_to_unique_form cfg st :
  wf_state st -> compare_to (unique_form cfg st) st = 0.
Proof.
  intros Hwf. unfold unique_form. destruct (_ && _).
  - by apply compare_to_uniquify_attributes.
  - by apply compare_to_refl.
Qed.

Lemma return_unique_spec w p n :
  heap w !! p = Some n -> wf_state n -> table_wf w -> p ∉ _states w ->
  exists q w' r,
    return_unique p w = Some (q, w')
    /\ heap w' !! q = Some r /\ wf_state r /\ compare_to r n = 0
    /\ (forall x, x <> p -> heap w' !! x = heap w !! x)
    /\ config w' = config w /\ _empty_state w' = _empty_state w
    /\ table_wf w'
    /\ (q = p \/ q ∈ _states w)
    /\ (q = p ->
        _composition_cache r = _composition_cache n
        /\ _invert_composition_cache r = _invert_composition_cache n).
Proof.
  intros Hn Hwf Htable Hnotin.
  pose proof (wf_unique_form (config w) n Hwf) as Hwf1.
  pose proof (compare_to_unique_form (config w) n Hwf) as Hcmp1.
  destruct (unique_form_fields (config w) n Hwf)
    as (Hm1 & Hc1 & Hi1 & Hs1 & Hr1 & Hcr1).
  destruct (return_unique_cases w p n Hn)
    as [[_ ->]|[(_ & _ & ->)|[(_ & _ & Hsi & existing & Hlook & Hel & ->)
                              |(_ & _ & _ & Hall & ->)]]].
  - exists p, w, n.
    split_and!; [reflexivity|exact Hn|exact Hwf|by apply compare_to_refl
                |reflexivity|reflexivity|reflexivity|exact Htable|by left
                |by split].
  - exists p, w, n.
    split_and!; [reflexivity|exact Hn|exact Hwf|by apply compare_to_refl
                |reflexivity|reflexivity|reflexivity|exact Htable|by left
                |by split].
  - set (n1 := unique_form (config w) n) in *.
    set (w1 := with_heap (insert p n1) w) in *.
    apply list_elem_of_lookup_2 in Hlook as Hin.
    assert (existing <> p) as Hne by (intros ->; done).
    destruct (Htable _ Hin) as (est & Hest & Hwfe).
    unfold states_is_element in Hel.
    assert (heap w1 !! existing = Some est) as Hest1.
    { subst w1. cbn [heap with_heap].
      rewrite lookup_insert_ne by congruence. exact Hest. }
    rewrite Hest1 in Hel. apply andb_true_iff in Hel as [_ Hel].
    rewrite bool_decide_eq_false_2 in Hel by done.
    apply Z.eqb_eq in Hel.
    exists existing,
      (if ref_count n1 =? 0 then with_heap (delete p) w1 else w1), est.
    split_and!.
    + reflexivity.
    + destruct (ref_count n1 =? 0); [|exact Hest1].
      cbn [heap with_heap]. rewrite lookup_delete_ne by congruence.
      exact Hest1.
    + exact Hwfe.
    + exact (compare_to_trans est n1 n Hwfe Hwf1 Hwf Hel Hcmp1).
    + intros x Hx. destruct (ref_count n1 =? 0); subst w1; cbn [heap with_heap].
      * rewrite lookup_delete_ne by congruence. rewrite lookup_insert_ne by congruence. reflexivity.
      * rewrite lookup_insert_ne by congruence. reflexivity.
    + destruct (ref_count n1 =? 0); reflexivity.
    + destruct (ref_count n1 =? 0); reflexivity.
    + intros q Hq.
      replace (_states (if ref_count n1 =? 0 then with_heap (delete p) w1 else w1))
        with (_states w) in Hq by (destruct (ref_count n1 =? 0); reflexivity).
      destruct (Htable _ Hq) as (r & Hr & Hwfr). exists r. split; [|exact Hwfr].
      assert (q <> p) as Hqp by (intros ->; exact (Hnotin Hq)).
      destruct (ref_count n1 =? 0); subst w1; cbn [heap with_heap].
      * rewrite lookup_delete_ne by congruence.
        rewrite lookup_insert_ne by congruence. exact Hr.
      * rewrite lookup_insert_ne by congruence. exact Hr.
    + right. exact Hin.
    + intros ->. by destruct Hne.
  - set (n1 := unique_form (config w) n) in *.
    destruct (gc_ref_fields (config w) n1) as (Hgm & Hga & Hgc & Hgi & Hgs).
    eexists p, _, _. split_and!; [reflexivity|..].
    + cbn [heap with_heap with_states]. apply lookup_insert_eq.
    + eapply wf_state_ext; [| |exact Hwf1]; [exact Hgm|exact Hga].
    + rewrite <- Hcmp1. apply compare_to_ext_l; [exact Hgm|exact Hga].
    + intros x Hx. cbn [heap with_heap with_states].
      rewrite lookup_insert_ne by congruence. reflexivity.
    + reflexivity.
    + reflexivity.
    + intros q Hq. cbn [_states with_states with_heap] in Hq.
      cbn [heap with_heap with_states].
      apply elem_of_app in Hq as [Hq|Hq].
      * assert (q <> p) by (intros ->; exact (Hnotin Hq)).
        rewrite lookup_insert_ne by congruence. by apply Htable.
      * apply list_elem_of_singleton in Hq as ->. rewrite lookup_insert_eq.
        eexists. split; [reflexivity|].
        eapply wf_state_ext; [| |exact Hwf1]; [exact Hgm|exact Hga].
    + by left.
    + intros _. cbn [_composition_cache _invert_composition_cache
                     with_saved_entry].
      rewrite Hgc, Hgi, Hc1, Hi1. split; reflexivity.
Qed.

Lemma return_new_spec w p n :
  heap w !! p = Some n -> wf_state n -> table_wf w -> p ∉ _states w ->
  exists q w' r,
    return_new p w = Some (q, w')
    /\ heap w' !! q = Some r /\ wf_state r
    /\ compare_to r (clear_slot_0 n) = 0
    /\ (forall x, x <> p -> heap w' !! x = heap w !! x)
    /\ config w' = config w /\ _empty_state w' = _empty_state w
    /\ table_wf w'
    /\ (q = p \/ q ∈ _states w)
    /\ (q = p ->
        _composition_cache r = _composition_cache n
        /\ _invert_composition_cache r = _invert_composition_cache n).
Proof.
  intros Hn Hwf Htable Hnotin. unfold return_new.
  rewrite (bind_update _ _ _ _ _ Hn), bind_get_config.
  set (n0 := clear_slot_0 n). set (w0 := with_heap (insert p n0) w).
  assert (heap w0 !! p = Some n0) as Hn0 by apply lookup_insert_eq.
  assert (wf_state n0) as Hwf0 by (by apply wf_clear_slot_0).
  assert (table_wf w0) as Htable0.
  { intros q Hq. destruct (Htable q Hq) as (r & Hr & Hwfr). exists r.
    split; [|exact Hwfr]. subst w0. cbn [heap with_heap].
    assert (q <> p) by (intros ->; exact (Hnotin Hq)).
    rewrite lookup_insert_ne by congruence. exact Hr. }
  assert (forall x, x <> p -> heap w0 !! x = heap w !! x) as Hframe0.
  { intros x Hx. subst w0. cbn [heap with_heap].
    rewrite lookup_insert_ne by congruence. reflexivity. }
  rewrite (bind_deref _ _ _ _ Hn0).
  destruct (negb (uniquify_states (config w0)) && negb (is_empty n0)).
  - exists p, w0, n0.
    split_and!; [reflexivity|exact Hn0|exact Hwf0|by apply compare_to_refl
                |exact Hframe0|reflexivity|reflexivity|exact Htable0|by left
                |by split].
  - destruct (return_unique_spec w0 p n0 Hn0 Hwf0 Htable0 Hnotin)
      as (q & w' & r & Hru & Hr & Hwfr & Hcmp & Hframe & Hcfg & Hemp & Htab
          & Hq & Hcache).
    exists q, w', r.
    split_and!; [exact Hru|exact Hr|exact Hwfr|exact Hcmp| |exact Hcfg
                |exact Hemp|exact Htab|exact Hq|exact Hcache].
    intros x Hx. rewrite Hframe by exact Hx. by apply Hframe0.
Qed.

(** A freshly built state handed to the interner: the pattern
    [new RenderState; ...; return return_new(state)]. *)
Lemma intern_new_spec w (built : State) :
  wf_state built -> table_wf w ->
  exists q w' r,
    (let* state := new_state built in return_new state) w = Some (q, w')
    /\ heap w' !! q = Some r /\ wf_state r
    /\ compare_to r (clear_slot_0 built) = 0
    /\ (forall x st, heap w !! x = Some st -> heap w' !! x = Some st)
    /\ config w' = config w /\ _empty_state w' = _empty_state w
    /\ table_wf w'
    /\ (q ∈ _states w
        \/ (heap w !! q = None
            /\ _composition_cache r = _composition_cache built
            /\ _invert_composition_cache r = _invert_composition_cache built)).
Proof.
  intros Hwf Htable. rewrite bind_new_state.
  set (p := fresh (dom (heap w))).
  pose proof (fresh_not_allocated w) as Hfresh. fold p in Hfresh.
  set (w0 := with_heap (insert p built) w).
  assert (heap w0 !! p = Some built) as Hp by apply lookup_insert_eq.
  assert (p ∉ _states w) as Hnotin.
  { intros Hin. destruct (Htable p Hin) as (r & Hr & _). congruence. }
  assert (table_wf w0) as Htable0.
  { intros q Hq. destruct (Htable q Hq) as (r & Hr & Hwfr). exists r.
    split; [|exact Hwfr]. subst w0. cbn [heap with_heap].
    assert (q <> p) by (intros ->; exact (Hnotin Hq)).
    rewrite lookup_insert_ne by congruence. exact Hr. }
  destruct (return_new_spec w0 p built Hp Hwf Htable0 Hnotin)
    as (q & w' & r & Hrn & Hr & Hwfr & Hcmp & Hframe & Hcfg & Hemp & Htab
        & Hq & Hcache).
  exists q, w', r.
  split_and!; [exact Hrn|exact Hr|exact Hwfr|exact Hcmp| |exact Hcfg
              |exact Hemp|exact Htab|].
  - intros x st Hx. assert (x <> p) as Hxp by (intros ->; congruence).
    rewrite (Hframe x Hxp). subst w0. cbn [heap with_heap].
    rewrite lookup_insert_ne by congruence. exact Hx.
  - destruct Hq as [->|Hq]; [right|by left].
    split; [exact Hfresh|]. by apply Hcache.
Qed.

(** Two well-formed states that compare equal: the same mask, and
    entries the interner does not tell apart in every filled slot. *)
Lemma compare_to_slots r n :
  wf_state r -> wf_state n -> compare_to r n = 0 ->
  forall k,
    Z.testbit (_filled_slots r) k = Z.testbit (_filled_slots n) k
    /\ (Z.testbit (_filled_slots n) k = true ->
        same_entry (attr_at (_attributes r) k) (attr_at (_attributes n) k)).
Proof.
  intros Hwr Hwn Hcmp k.
  apply compare_to_0_wf in Hcmp as [Hmask Hslots]; [|done..].
  rewrite Hmask. split; [done|]. intros Hk. apply Hslots. by rewrite Hmask.
Qed.

(** *** The invariant of the intern table *)

(** The attribute pointers of a state are those the attribute interner
    gives out. *)
Definition canonical_attribs (st : State) : Prop :=
  forall slot p,
    Z.testbit (_filled_slots st) slot = true ->
    _attrib (attr_at (_attributes st) slot) = Some p ->
    RenderAttrib.do_uniquify p = p.

Lemma canonical_attribs_ext st st' :
  _filled_slots st' = _filled_slots st -> _attributes st' = _attributes st ->
  canonical_attribs st -> canonical_attribs st'.
Proof. unfold canonical_attribs. by intros -> ->. Qed.

Lemma do_uniquify_idemp p :
  RenderAttrib.do_uniquify (RenderAttrib.do_uniquify p)
  = RenderAttrib.do_uniquify p.
Proof.
  apply RenderAttrib.do_uniquify_unique, RenderAttrib.do_uniquify_equiv.
Qed.

Lemma canonical_unique_form cfg st :
  wf_state st ->
  (uniquify_attribs cfg = true -> canonical_attribs st) ->
  canonical_attribs (unique_form cfg st).
Proof.
  intros Hwf Hcan. unfold unique_form.
  destruct (uniquify_attribs cfg) eqn:Hua; cbn [negb andb]; [by apply Hcan|].
  destruct (is_empty st) eqn:Hemp; cbn [negb].
  - intros slot p Hbit _.
    rewrite (proj1 (SlotMask.is_zero_spec _) Hemp) in Hbit. discriminate Hbit.
  - destruct (uniquify_attributes_spec st Hwf) as (Heq & _ & Hat).
    intros slot p Hbit Hp.
    assert (_filled_slots (uniquify_attributes st) = _filled_slots st) as Hm
      by (rewrite Heq; reflexivity).
    rewrite Hm in Hbit.
    assert (0 <= slot) as H0 by (destruct Hwf as (Hw & _); apply Hw in Hbit; lia).
    rewrite (Hat slot H0), Hbit in Hp. unfold uniquify_entry in Hp. cbn in Hp.
    destruct (_attrib (attr_at (_attributes st) slot)) as [p0|]; [|discriminate Hp].
    cbn in Hp. injection Hp as <-. apply do_uniquify_idemp.
Qed.

(** Entries that compare equal and hold canonical pointers are the same
    entry. *)
Lemma same_entry_canonical a b :
  same_entry a b ->
  (forall p, _attrib a = Some p -> RenderAttrib.do_uniquify p = p) ->
  (forall p, _attrib b = Some p -> RenderAttrib.do_uniquify p = p) ->
  _attrib a = _attrib b /\ _override a = _override b.
Proof.
  rewrite same_entry_iff. intros [Ho Ha] Hca Hcb. split; [|exact Ho].
  destruct (_attrib a) as [pa|], (_attrib b) as [pb|]; try done.
  destruct Ha as [->|Hc]; [reflexivity|].
  rewrite <- (Hca pa eq_refl), <- (Hcb pb eq_refl).
  f_equal. by apply RenderAttrib.do_uniquify_unique.
Qed.

Lemma fold_left_ext_in {A B : Type} (f g : A -> B -> A) (l : list B) (a : A) :
  (forall x acc, x ∈ l -> f acc x = g acc x) ->
  fold_left f l a = fold_left g l a.
Proof.
  revert a. induction l as [|x l IH]; intros a H; [reflexivity|].
  cbn [fold_left]. rewrite (H x a) by (apply elem_of_cons; left; reflexivity).
  apply IH. intros y acc Hy. apply H. apply elem_of_cons. by right.
Qed.

(** Equal states with canonical pointers hash alike: the lookup in
    [_states] reaches one from the other. *)
Lemma get_hash_canonical st1 st2 :
  wf_state st1 -> wf_state st2 ->
  canonical_attribs st1 -> canonical_attribs st2 ->
  compare_to st1 st2 = 0 -> get_hash st1 = get_hash st2.
Proof.
  intros Hw1 Hw2 Hc1 Hc2 Hcmp.
  apply compare_to_0_wf in Hcmp as [Hmask Hslots]; [|done..].
  unfold get_hash, do_calc_hash.
  rewrite (SlotMask.fold_on_bits_spec _ _ _ (proj1 Hw1)).
  rewrite (SlotMask.fold_on_bits_spec _ _ _ (proj1 Hw2)).
  rewrite <- Hmask. apply fold_left_ext_in. intros slot acc Hin.
  apply SlotMask.elem_of_on_bits in Hin; [|exact (proj1 Hw1)].
  assert (Z.testbit (_filled_slots st2) slot = true) as Hin2
    by (rewrite <- Hmask; exact Hin).
  destruct (same_entry_canonical _ _ (Hslots slot Hin) (fun p => Hc1 slot p Hin)
              (fun p => Hc2 slot p Hin2)) as [Ha Ho].
  cbv zeta. rewrite Ha, Ho. reflexivity.
Qed.


(** What the interner keeps true of [_states]: its entries are allocated,
    well-formed states with canonical attribute pointers, marked as
    saved; every state marked as saved is an entry; no two entries
    compare equal; and no entry is listed twice. *)
Definition interner_inv (w : World) : Prop :=
  (forall q, q ∈ _states w ->
     exists r, heap w !! q = Some r /\ wf_state r /\ canonical_attribs r
               /\ _saved_entry r <> -1)
  /\ (forall q r, heap w !! q = Some r -> _saved_entry r <> -1 ->
        q ∈ _states w)
  /\ (forall q1 q2 r1 r2,
        q1 ∈ _states w -> q2 ∈ _states w ->
        heap w !! q1 = Some r1 -> heap w !! q2 = Some r2 ->
        compare_to r1 r2 = 0 -> q1 = q2)
  /\ NoDup (_states w).

Lemma states_is_element_true w key kst e :
  states_is_element w key kst e = true ->
  exists est, heap w !! e = Some est
              /\ get_hash est = get_hash kst
              /\ (e = key \/ compare_to est kst = 0).
Proof.
  unfold states_is_element. destruct (heap w !! e) as [est|]; [|discriminate].
  intros H. apply andb_true_iff in H as [Hh Hc]. exists est.
  split_and!; [reflexivity|by apply Z.eqb_eq|].
  apply orb_true_iff in Hc as [Hc|Hc].
  - left. by apply bool_decide_eq_true in Hc.
  - right. by apply Z.eqb_eq.
Qed.

Lemma states_is_element_false w key kst e est :
  heap w !! e = Some est -> states_is_element w key kst e = false ->
  get_hash est = get_hash kst -> compare_to est kst <> 0.
Proof.
  unfold states_is_element. intros -> H Hh Hc.
  rewrite Hh, Z.eqb_refl, Hc, orb_true_r in H. discriminate H.
Qed.


(** One pass through the interner, with the state cache on. *)
Lemma return_unique_inv w p n :
  state_cache (config w) = true ->
  heap w !! p = Some n -> wf_state n ->
  (uniquify_attribs (config w) = true -> canonical_attribs n) ->
  interner_inv w ->
  exists q w' r,
    return_unique p w = Some (q, w')
    /\ q ∈ _states w' /\ heap w' !! q = Some r /\ wf_state r
    /\ compare_to r n = 0
    /\ interner_inv w'
    /\ config w' = config w
    /\ (forall x, x <> p -> heap w' !! x = heap w !! x)
    /\ (forall x, x ∈ _states w -> x ∈ _states w')
    /\ (_saved_entry n <> -1 \/ ref_count n <> 0 ->
        exists n', heap w' !! p = Some n' /\ wf_state n'
                   /\ compare_to n' n = 0
                   /\ (uniquify_attribs (config w) = true ->
                       canonical_attribs n')).
Proof.
  intros Hsc Hn Hwf Hcan (I1 & I2 & I3 & I4).
  pose proof (wf_unique_form (config w) n Hwf) as Hwf1.
  pose proof (compare_to_unique_form (config w) n Hwf) as Hcmp1.
  pose proof (canonical_unique_form (config w) n Hwf Hcan) as Hcan1.
  destruct (unique_form_fields (config w) n Hwf)
    as (Hm1 & _ & _ & Hse1 & Hrc1 & _).
  destruct (return_unique_cases w p n Hn)
    as [[Hoff _]|[(_ & Hse & Hrun)|[(_ & Hse & Hsi & existing & Hlook & Hel & Hrun)
                                   |(_ & Hse & Hsi & Hall & Hrun)]]].
  - congruence.
  - (* already in the table *)
    exists p, w, n. split_and!.
    + exact Hrun.
    + exact (I2 p n Hn Hse).
    + exact Hn.
    + exact Hwf.
    + exact (compare_to_refl n Hwf).
    + split_and!; assumption.
    + reflexivity.
    + reflexivity.
    + intros x Hx. exact Hx.
    + intros _. exists n. split_and!;
        [exact Hn|exact Hwf|exact (compare_to_refl n Hwf)|exact Hcan].
  - (* an equal state is in the table *)
    set (n1 := unique_form (config w) n) in *.
    set (w1 := with_heap (insert p n1) w) in *.
    assert (forall q, q ∈ _states w -> q <> p) as Hnotp.
    { intros q Hq ->. destruct (I1 p Hq) as (r & Hr & _ & _ & Hs).
      rewrite Hn in Hr. injection Hr as <-. contradiction. }
    apply list_elem_of_lookup_2 in Hlook as Hin.
    destruct (I1 existing Hin) as (est & Hest & Hwfe & Hcane & Hsee).
    pose proof (Hnotp existing Hin) as Hne.
    apply states_is_element_true in Hel as (est' & Hest' & _ & Hel).
    assert (heap w1 !! existing = Some est) as Hest1.
    { subst w1. cbn [heap with_heap]. rewrite lookup_insert_ne by congruence.
      exact Hest. }
    rewrite Hest1 in Hest'. injection Hest' as <-.
    destruct Hel as [Hel|Hel]; [contradiction|].
    set (w' := if ref_count n1 =? 0 then with_heap (delete p) w1 else w1) in *.
    assert (forall x, x <> p -> heap w' !! x = heap w !! x) as Hframe.
    { intros x Hx. subst w' w1. destruct (ref_count n1 =? 0); cbn [heap with_heap].
      - rewrite lookup_delete_ne by congruence.
        rewrite lookup_insert_ne by congruence. reflexivity.
      - rewrite lookup_insert_ne by congruence. reflexivity. }
    assert (_states w' = _states w) as Hstates.
    { subst w' w1. destruct (ref_count n1 =? 0); reflexivity. }
    assert (forall r, heap w' !! p = Some r -> r = n1) as Hatp.
    { intros r. subst w' w1. destruct (ref_count n1 =? 0); cbn [heap with_heap].
      - rewrite lookup_delete_eq. discriminate.
      - rewrite lookup_insert_eq. congruence. }
    exists existing, w', est. split_and!.
    + exact Hrun.
    + rewrite Hstates. exact Hin.
    + rewrite Hframe by exact Hne. exact Hest.
    + exact Hwfe.
    + exact (compare_to_trans est n1 n Hwfe Hwf1 Hwf Hel Hcmp1).
    + split_and!.
      * intros q Hq. rewrite Hstates in Hq.
        rewrite (Hframe q (Hnotp q Hq)). exact (I1 q Hq).
      * intros q r Hr Hs. rewrite Hstates.
        destruct (decide (q = p)) as [->|Hqp].
        -- apply Hatp in Hr. subst r. congruence.
        -- rewrite (Hframe q Hqp) in Hr. exact (I2 q r Hr Hs).
      * intros q1 q2 r1 r2 Hq1 Hq2 Hr1 Hr2. rewrite Hstates in Hq1, Hq2.
        rewrite (Hframe q1 (Hnotp q1 Hq1)) in Hr1.
        rewrite (Hframe q2 (Hnotp q2 Hq2)) in Hr2.
        exact (I3 q1 q2 r1 r2 Hq1 Hq2 Hr1 Hr2).
      * rewrite Hstates. exact I4.
    + subst w' w1. destruct (ref_count n1 =? 0); reflexivity.
    + exact Hframe.
    + intros x Hx. rewrite Hstates. exact Hx.
    + intros [Hs|Hrc]; [contradiction|]. exists n1.
      split_and!; [|exact Hwf1|exact Hcmp1|intros _; exact Hcan1].
      subst w'. destruct (Z.eqb_spec (ref_count n1) 0) as [Hz|_]; [congruence|].
      subst w1. cbn [heap with_heap]. apply lookup_insert_eq.
  - (* a new entry *)
    set (n1 := unique_form (config w) n) in *.
    set (w1 := with_heap (insert p n1) w) in *.
    set (n2 := with_saved_entry (Z.of_nat (length (_states w)))
                 (gc_ref (config w) n1)) in *.
    destruct (gc_ref_fields (config w) n1) as (Hgm & Hga & _).
    assert (_filled_slots n2 = _filled_slots n1) as Hm2 by exact Hgm.
    assert (_attributes n2 = _attributes n1) as Ha2 by exact Hga.
    pose proof (wf_state_ext n1 n2 Hm2 Ha2 Hwf1) as Hwf2.
    pose proof (canonical_attribs_ext n1 n2 Hm2 Ha2 Hcan1) as Hcan2.
    assert (compare_to n2 n = 0) as Hcmp2
      by (rewrite (compare_to_ext_l n1 n2 n Hm2 Ha2); exact Hcmp1).
    assert (forall q, q ∈ _states w -> q <> p) as Hnotp.
    { intros q Hq ->. destruct (I1 p Hq) as (r & Hr & _ & _ & Hs).
      rewrite Hn in Hr. injection Hr as <-. contradiction. }
    match type of Hrun with
    | _ = Some (_, ?W) => set (w' := W) in *
    end.
    assert (heap w' !! p = Some n2) as Hp' by apply lookup_insert_eq.
    assert (forall x, x <> p -> heap w' !! x = heap w !! x) as Hframe.
    { intros x Hx. apply lookup_insert_ne. congruence. }
    assert (_states w' = _states w ++ [p]) as Hstates by reflexivity.
    assert (forall e est, e ∈ _states w -> heap w !! e = Some est ->
              compare_to est n2 <> 0) as Hfresh.
    { intros e est He Hest Hc.
      destruct (I1 e He) as (est' & Hest' & Hwfe & Hcane & _).
      rewrite Hest in Hest'. injection Hest' as <-.
      rewrite (compare_to_ext_r n1 n2 est Hm2 Ha2) in Hc.
      rewrite Forall_forall in Hall.
      refine (states_is_element_false w1 p n1 e est _ (Hall e He) _ Hc).
      - subst w1. cbn [heap with_heap].
        rewrite lookup_insert_ne by (pose proof (Hnotp e He); congruence).
        exact Hest.
      - exact (get_hash_canonical est n1 Hwfe Hwf1 Hcane Hcan1 Hc). }
    exists p, w', n2. split_and!.
    + exact Hrun.
    + rewrite Hstates. apply elem_of_app. right. by apply list_elem_of_singleton.
    + exact Hp'.
    + exact Hwf2.
    + exact Hcmp2.
    + split_and!.
      * intros q Hq. rewrite Hstates in Hq. apply elem_of_app in Hq as [Hq|Hq].
        -- rewrite (Hframe q (Hnotp q Hq)). exact (I1 q Hq).
        -- apply list_elem_of_singleton in Hq. subst q. exists n2.
           split_and!; [exact Hp'|exact Hwf2|exact Hcan2|].
           subst n2. cbn. lia.
      * intros q r Hr Hs. rewrite Hstates. apply elem_of_app.
        destruct (decide (q = p)) as [->|Hqp].
        -- right. by apply list_elem_of_singleton.
        -- left. rewrite (Hframe q Hqp) in Hr. exact (I2 q r Hr Hs).
      * intros q1 q2 r1 r2 Hq1 Hq2 Hr1 Hr2 Hc. rewrite Hstates in Hq1, Hq2.
        apply elem_of_app in Hq1 as [Hq1|Hq1], Hq2 as [Hq2|Hq2].
        -- rewrite (Hframe q1 (Hnotp q1 Hq1)) in Hr1.
           rewrite (Hframe q2 (Hnotp q2 Hq2)) in Hr2.
           exact (I3 q1 q2 r1 r2 Hq1 Hq2 Hr1 Hr2 Hc).
        -- apply list_elem_of_singleton in Hq2. subst q2. exfalso.
           rewrite (Hframe q1 (Hnotp q1 Hq1)) in Hr1.
           rewrite Hp' in Hr2. injection Hr2 as <-.
           exact (Hfresh q1 r1 Hq1 Hr1 Hc).
        -- apply list_elem_of_singleton in Hq1. subst q1. exfalso.
           rewrite (Hframe q2 (Hnotp q2 Hq2)) in Hr2.
           rewrite Hp' in Hr1. injection Hr1 as <-.
           destruct (I1 q2 Hq2) as (est & Hest & Hwfe & _).
           rewrite Hr2 in Hest. injection Hest as <-.
           exact (Hfresh q2 r2 Hq2 Hr2 (compare_to_sym n2 r2 Hwf2 Hwfe Hc)).
        -- apply list_elem_of_singleton in Hq1, Hq2. congruence.
      * rewrite Hstates. apply NoDup_app. split_and!; [exact I4| |apply NoDup_singleton].
        intros x Hx Hxp. apply list_elem_of_singleton in Hxp. subst x.
        exact (Hnotp p Hx eq_refl).
    + reflexivity.
    + exact Hframe.
    + intros x Hx. rewrite Hstates. apply elem_of_app. left. exact Hx.
    + intros _. exists n2.
      split_and!; [exact Hp'|exact Hwf2|exact Hcmp2|intros _; exact Hcan2].
Qed.


(** **** C1: structural uniqueness *)

(** C1.  Two states passed through the interner, with the state cache
    on, come back as the same pointer exactly when [compare_to] finds
    them equal.  The table is one the interner has built; with
    [uniquify_attribs] on, the attribute pointers are the attribute
    interner's; and a state given twice is one that the first pass did
    not delete. *)
Theorem structural_uniqueness (w : World) (a b : N) (sta stb : State) :
  state_cache (config w) = true ->
  heap w !! a = Some sta -> heap w !! b = Some stb ->
  wf_state sta -> wf_state stb ->
  (uniquify_attribs (config w) = true ->
   canonical_attribs sta /\ canonical_attribs stb) ->
  interner_inv w ->
  (a = b -> _saved_entry sta <> -1 \/ ref_count sta <> 0) ->
  exists pa w1 pb w2,
    return_unique a w = Some (pa, w1)
    /\ return_unique b w1 = Some (pb, w2)
    /\ (compare_to sta stb = 0 <-> pa = pb).
Proof.
  intros Hsc Ha Hb Hwfa Hwfb Hcan Hinv Hsame.
  destruct (return_unique_inv w a sta Hsc Ha Hwfa (fun H => proj1 (Hcan H)) Hinv)
    as (pa & w1 & ra & Hrun1 & Hin1 & Hra & Hwfra & Hcra & Hinv1 & Hcfg1
        & Hframe1 & _ & Halive1).
  assert (exists stb', heap w1 !! b = Some stb' /\ wf_state stb'
                       /\ compare_to stb' stb = 0
                       /\ (uniquify_attribs (config w1) = true ->
                           canonical_attribs stb'))
    as (stb' & Hb1 & Hwfb' & Hcb' & Hcanb').
  { destruct (decide (a = b)) as [Heq|Hne].
    - destruct (Halive1 (Hsame Heq)) as (n' & Hn' & Hwfn' & Hcn' & Hcann').
      subst b. assert (stb = sta) as -> by congruence.
      exists n'. rewrite Hcfg1. split_and!; assumption.
    - exists stb. rewrite Hcfg1, (Hframe1 b) by congruence.
      split_and!; [exact Hb|exact Hwfb|exact (compare_to_refl stb Hwfb)|].
      intros H. exact (proj2 (Hcan H)). }
  assert (state_cache (config w1) = true) as Hsc1 by (rewrite Hcfg1; exact Hsc).
  destruct (return_unique_inv w1 b stb' Hsc1 Hb1 Hwfb' Hcanb' Hinv1)
    as (pb & w2 & rb & Hrun2 & Hin2 & Hrb & Hwfrb & Hcrb & Hinv2 & _
        & Hframe2 & Hgrow2 & Halive2).
  exists pa, w1, pb, w2. split_and!; [exact Hrun1|exact Hrun2|].
  pose proof (compare_to_trans rb stb' stb Hwfrb Hwfb' Hwfb Hcrb Hcb') as Hrb_b.
  destruct Hinv1 as (I1 & _ & _ & _).
  destruct (decide (pa = b)) as [Hpab|Hpab].
  - (* the first result is the second argument *)
    subst pa. assert (ra = stb') as -> by congruence.
    destruct (I1 b Hin1) as (r & Hr & _ & _ & Hse).
    assert (r = stb') as -> by congruence.
    destruct (Halive2 (or_introl Hse)) as (n'' & Hn'' & Hwfn'' & Hcn'' & _).
    split.
    + intros Hcmp. destruct Hinv2 as (_ & _ & I3 & _).
      refine (I3 b pb n'' rb (Hgrow2 b Hin1) Hin2 Hn'' Hrb _).
      apply (compare_to_trans n'' stb' rb Hwfn'' Hwfb' Hwfrb Hcn'').
      exact (compare_to_sym rb stb' Hwfrb Hwfb' Hcrb).
    + intros _.
      apply (compare_to_trans sta stb' stb Hwfa Hwfb' Hwfb); [|exact Hcb'].
      exact (compare_to_sym stb' sta Hwfb' Hwfa Hcra).
  - assert (heap w2 !! pa = Some ra) as Hra2
      by (rewrite (Hframe2 pa Hpab); exact Hra).
    split.
    + intros Hcmp. destruct Hinv2 as (_ & _ & I3 & _).
      refine (I3 pa pb ra rb (Hgrow2 pa Hin1) Hin2 Hra2 Hrb _).
      apply (compare_to_trans ra sta rb Hwfra Hwfa Hwfrb Hcra).
      apply (compare_to_trans sta stb rb Hwfa Hwfb Hwfrb Hcmp).
      exact (compare_to_sym rb stb Hwfrb Hwfb Hrb_b).
    + intros <-. assert (rb = ra) as -> by congruence.
      apply (compare_to_trans sta ra stb Hwfa Hwfra Hwfb); [|exact Hrb_b].
      exact (compare_to_sym ra sta Hwfra Hwfa Hcra).
Qed.


(** *** The copy constructor *)

(** Only registered slots are filled. *)
Definition slots_registered (st : State) : Prop :=
  forall slot, Z.testbit (_filled_slots st) slot = true ->
    slot < RenderAttrib.get_num_slots.

Lemma copy_loop_lookup (src dst : list Attribute) (n k : nat) :
  (n <= length dst)%nat ->
  fold_left (fun acc i => <[i := src !!! i]> acc) (seq 0 n) dst !!! k
  = if decide (k < n)%nat then src !!! k else dst !!! k.
Proof.
  induction n as [|n IH]; intros Hn.
  - cbn [seq fold_left]. case_decide; [lia|done].
  - rewrite seq_S, fold_left_app. cbn [fold_left Nat.add].
    destruct (decide (k = n)) as [->|Hne].
    + rewrite decide_True by lia. apply list_lookup_total_insert_eq.
      clear IH. revert Hn. generalize (seq 0 n). intros l.
      revert dst. induction l as [|i l IHl]; intros dst Hn; simpl; [lia|].
      apply IHl. rewrite length_insert. done.
    + rewrite list_lookup_total_insert_ne by done. rewrite IH by lia.
      destruct (decide (k < n)%nat), (decide (k < S n)%nat); done || lia.
Qed.

Lemma copy_loop_length (src dst : list Attribute) (l : list nat) :
  length (fold_left (fun acc i => <[i := src !!! i]> acc) l dst) = length dst.
Proof.
  revert dst. induction l as [|i l IH]; intros dst; simpl; [done|].
  rewrite IH. apply length_insert.
Qed.

Lemma copy_state_spec st :
  RenderAttrib.get_num_slots <= Z.of_nat SlotMask.max_slots ->
  _filled_slots (copy_state st) = _filled_slots st
  /\ length (_attributes (copy_state st)) = SlotMask.max_slots
  /\ _saved_entry (copy_state st) = -1
  /\ _composition_cache (copy_state st) = []
  /\ _invert_composition_cache (copy_state st) = []
  /\ forall k, 0 <= k ->
       attr_at (_attributes (copy_state st)) k
       = if decide (k < RenderAttrib.get_num_slots)
         then attr_at (_attributes st) k else mkAttribute None 0.
Proof.
  intros Hnum. unfold copy_state. fields. split_and!; try reflexivity.
  - rewrite copy_loop_length. apply length_replicate.
  - intros k Hk. unfold attr_at at 1. rewrite copy_loop_lookup.
    + destruct (decide (Z.to_nat k < Z.to_nat RenderAttrib.get_num_slots)%nat),
        (decide (k < RenderAttrib.get_num_slots)); try lia; [done|].
      apply attr_at_replicate.
    + unfold default_state. cbn [_attributes]. rewrite length_replicate. lia.
Qed.

(** **** C10: one-argument set_attrib *)


(** *** The trivial cases of composition *)

Lemma compose_empty_left w this other st ost :
  heap w !! this = Some st -> heap w !! other = Some ost ->
  is_empty st = true -> compose this other w = Some (other, w).
Proof.
  intros Hst Host He. unfold compose.
  rewrite (bind_deref _ _ _ _ Hst), (bind_deref _ _ _ _ Host), He.
  reflexivity.
Qed.

Lemma compose_empty_right w this other st ost :
  heap w !! this = Some st -> heap w !! other = Some ost ->
  is_empty st = false -> is_empty ost = true ->
  compose this other w = Some (this, w).
Proof.
  intros Hst Host He Heo. unfold compose.
  rewrite (bind_deref _ _ _ _ Hst), (bind_deref _ _ _ _ Host), He, Heo.
  reflexivity.
Qed.

Lemma invert_compose_empty_left w this other st ost :
  heap w !! this = Some st -> heap w !! other = Some ost ->
  is_empty st = true -> invert_compose this other w = Some (other, w).
Proof.
  intros Hst Host He. unfold invert_compose.
  rewrite (bind_deref _ _ _ _ Hst), (bind_deref _ _ _ _ Host), He.
  reflexivity.
Qed.

Lemma invert_compose_self w this st :
  heap w !! this = Some st -> is_empty st = false ->
  invert_compose this this w = Some (_empty_state w, w).
Proof.
  intros Hst He. unfold invert_compose.
  rewrite !(bind_deref _ _ _ _ Hst), He.
  rewrite bool_decide_eq_true_2 by reflexivity. reflexivity.
Qed.

(** **** C4: the empty state is the identity *)

(** C4, as amended.  Composing the canonical empty state with [s], on
    either side, returns [s]; [invert_compose] of the empty state with
    [t] returns [t]; and [s.invert_compose(s)] returns the canonical
    empty state.  The second and third hold when [s] is not itself
    an empty state other than the canonical one: such a state composed
    with the canonical empty state gives the canonical empty state, and
    inverted against itself gives itself, an empty state again. *)
Theorem empty_identity (w : World) (s t : N) (st tst est : State) :
  heap w !! s = Some st -> heap w !! t = Some tst ->
  heap w !! _empty_state w = Some est -> is_empty est = true ->
  let empty := _empty_state w in
  compose empty s w = Some (s, w)
  /\ invert_compose empty t w = Some (t, w)
  /\ (is_empty st = false \/ s = empty ->
      compose s empty w = Some (s, w)
      /\ invert_compose s s w = Some (empty, w))
  /\ (is_empty st = true ->
      compose s empty w = Some (empty, w)
      /\ invert_compose s s w = Some (s, w)).
Proof.
  intros Hs Ht He Hempty empty. split_and!.
  - exact (compose_empty_left w empty s est st He Hs Hempty).
  - exact (invert_compose_empty_left w empty t est tst He Ht Hempty).
  - intros [Hne|Heq].
    + split.
      * exact (compose_empty_right w s empty st est Hs He Hne Hempty).
      * exact (invert_compose_self w s st Hs Hne).
    + rewrite Heq. split.
      * exact (compose_empty_left w empty empty est est He He Hempty).
      * exact (invert_compose_empty_left w empty empty est est He He Hempty).
  - intros Hse. split.
    + exact (compose_empty_left w s empty st est Hs He Hse).
    + exact (invert_compose_empty_left w s s st st Hs Hs Hse).
Qed.

(** *** Cached composition *)

(** [same_shapes w w']: every state of [w] is still allocated in [w'],
    with the same mask and the same attribute entries. *)
Definition same_shapes (w w' : World) : Prop :=
  forall q r, heap w !! q = Some r ->
    exists r', heap w' !! q = Some r'
               /\ _filled_slots r' = _filled_slots r
               /\ _attributes r' = _attributes r.

Lemma same_shapes_refl w : same_shapes w w.
Proof. intros q r Hr. exists r. done. Qed.

Lemma same_shapes_trans w1 w2 w3 :
  same_shapes w1 w2 -> same_shapes w2 w3 -> same_shapes w1 w3.
Proof.
  intros H12 H23 q r Hr. destruct (H12 q r Hr) as (r2 & Hr2 & Hm2 & Ha2).
  destruct (H23 q r2 Hr2) as (r3 & Hr3 & Hm3 & Ha3).
  exists r3. split_and!; [exact Hr3|congruence|congruence].
Qed.

Definition shape_preserving (f : State -> State) : Prop :=
  forall st, _filled_slots (f st) = _filled_slots st
             /\ _attributes (f st) = _attributes st.

Lemma update_same_shapes w p f st :
  heap w !! p = Some st -> shape_preserving f ->
  same_shapes w (with_heap (insert p (f st)) w).
Proof.
  intros Hp Hf q r Hr. cbn [heap with_heap].
  destruct (decide (q = p)) as [->|Hne].
  - rewrite lookup_insert_eq. exists (f st).
    assert (r = st) as -> by congruence. destruct (Hf st). done.
  - rewrite lookup_insert_ne by congruence. exists r. done.
Qed.

Lemma bind_when_update_shapes {B : Type} (k : unit -> M B) w p f (b : bool) st :
  heap w !! p = Some st -> shape_preserving f ->
  exists w', bind (when b (update p f)) k w = k tt w'
             /\ same_shapes w w' /\ config w' = config w
             /\ _empty_state w' = _empty_state w.
Proof.
  intros Hp Hf. rewrite (bind_when_update _ _ _ _ _ _ Hp).
  eexists. split; [reflexivity|]. split; [|done].
  destruct b; [by apply update_same_shapes|].
  rewrite with_heap_insert_id by done. apply same_shapes_refl.
Qed.

Lemma shape_with_composition_cache f :
  shape_preserving (with_composition_cache f).
Proof. done. Qed.

Lemma shape_with_invert_composition_cache f :
  shape_preserving (with_invert_composition_cache f).
Proof. done. Qed.

Lemma shape_with_ref_counts f g : shape_preserving (with_ref_counts f g).
Proof. done. Qed.

(** A stored result of the composition cache is a state that compares
    equal to what [do_compose] builds for the two operands; likewise for
    the invert cache. *)
Definition cache_coherent (w : World) : Prop :=
  forall this st other ost i comp result,
    heap w !! this = Some st -> heap w !! other = Some ost ->
    _result comp = Some result ->
    (_composition_cache st !! i = Some (other, comp) ->
     exists rst, heap w !! result = Some rst /\ wf_state rst
                 /\ compare_to rst (clear_slot_0 (do_compose_state st ost)) = 0)
    /\ (_invert_composition_cache st !! i = Some (other, comp) ->
        exists rst, heap w !! result = Some rst /\ wf_state rst
                    /\ compare_to rst
                         (clear_slot_0 (do_invert_compose_state st ost)) = 0).

Lemma cache_find_Some cache key :
  cache_find cache key <> -1 ->
  exists comp, cache !! Z.to_nat (cache_find cache key) = Some (key, comp).
Proof.
  intros Hf. destruct (SimpleHashMap.find_Some _ _ Hf) as ([k comp] & Hl & He).
  apply bool_decide_eq_true in He. cbn in He. subst k. by exists comp.
Qed.

Lemma do_compose_spec w this other st ost :
  heap w !! this = Some st -> heap w !! other = Some ost ->
  wf_state st -> wf_state ost -> table_wf w ->
  exists q w' r,
    do_compose this other w = Some (q, w')
    /\ heap w' !! q = Some r /\ wf_state r
    /\ compare_to r (clear_slot_0 (do_compose_state st ost)) = 0
    /\ (forall x stx, heap w !! x = Some stx -> heap w' !! x = Some stx)
    /\ config w' = config w /\ _empty_state w' = _empty_state w.
Proof.
  intros Hst Host Hwf Hwfo Htable. unfold do_compose.
  rewrite (bind_deref _ _ _ _ Hst), (bind_deref _ _ _ _ Host).
  destruct (intern_new_spec w (do_compose_state st ost)
              (wf_do_compose_state _ _ Hwf Hwfo) Htable)
    as (q & w' & r & Hrun & Hr & Hwfr & Hcmp & Hframe & Hcfg & Hemp & _).
  exists q, w', r. done.
Qed.

Lemma do_invert_compose_spec w this other st ost :
  heap w !! this = Some st -> heap w !! other = Some ost ->
  wf_state st -> wf_state ost -> table_wf w ->
  exists q w' r,
    do_invert_compose this other w = Some (q, w')
    /\ heap w' !! q = Some r /\ wf_state r
    /\ compare_to r (clear_slot_0 (do_invert_compose_state st ost)) = 0
    /\ (forall x stx, heap w !! x = Some stx -> heap w' !! x = Some stx)
    /\ config w' = config w /\ _empty_state w' = _empty_state w.
Proof.
  intros Hst Host Hwf Hwfo Htable. unfold do_invert_compose.
  rewrite (bind_deref _ _ _ _ Hst), (bind_deref _ _ _ _ Host).
  destruct (intern_new_spec w (do_invert_compose_state st ost)
              (wf_do_invert_compose_state _ _ Hwf Hwfo) Htable)
    as (q & w' & r & Hrun & Hr & Hwfr & Hcmp & Hframe & Hcfg & Hemp & _).
  exists q, w', r. done.
Qed.

Lemma bind_Some {A B : Type} (m : M A) (k : A -> M B) w x w' :
  m w = Some (x, w') -> bind m k w = k x w'.
Proof. intros H. unfold bind. by rewrite H. Qed.

Lemma same_shapes_result w w' q r X :
  same_shapes w w' -> heap w !! q = Some r -> wf_state r ->
  compare_to r X = 0 ->
  exists r', heap w' !! q = Some r' /\ wf_state r' /\ compare_to r' X = 0.
Proof.
  intros Hsh Hr Hwf Hcmp. destruct (Hsh q r Hr) as (r' & Hr' & Hm & Ha).
  exists r'. split_and!; [exact Hr'|by eapply wf_state_ext|].
  rewrite <- Hcmp. by apply compare_to_ext_l.
Qed.

Lemma frame_same_shapes w w' :
  (forall x stx, heap w !! x = Some stx -> heap w' !! x = Some stx) ->
  same_shapes w w'.
Proof. intros H q r Hr. exists r. split_and!; [by apply H|done..]. Qed.

(** The result of [compose] for two non-empty states. *)
Lemma compose_spec w this other st ost :
  heap w !! this = Some st -> heap w !! other = Some ost ->
  wf_state st -> wf_state ost -> table_wf w -> cache_coherent w ->
  is_empty st = false -> is_empty ost = false ->
  exists q w' r,
    compose this other w = Some (q, w')
    /\ heap w' !! q = Some r /\ wf_state r
    /\ compare_to r (clear_slot_0 (do_compose_state st ost)) = 0.
Proof.
  intros Hst Host Hwf Hwfo Htable Hcoh Hne Hneo. unfold compose.
  rewrite (bind_deref _ _ _ _ Hst), (bind_deref _ _ _ _ Host), Hne, Hneo.
  rewrite bind_get_config.
  destruct (do_compose_spec w this other st ost Hst Host Hwf Hwfo Htable)
    as (q & w1 & r & Hdo & Hr & Hwfr & Hcmp & Hframe & Hcfg & Hemp).
  pose proof (frame_same_shapes _ _ Hframe) as Hsh1.
  destruct (state_cache (config w)); cbn [negb];
    [|exists q, w1, r; split_and!; assumption].
  destruct (Z.eqb_spec (cache_find (_composition_cache st) other) (-1))
    as [Hidx|Hidx]; cbn [negb].
  - rewrite (bind_Some _ _ _ _ _ Hdo).
    rewrite (bind_update _ _ _ _ _ (Hframe _ _ Hst)).
    pose proof (update_same_shapes w1 this
                  (with_composition_cache (cache_set other (Some q))) st
                  (Hframe _ _ Hst) (shape_with_composition_cache _)) as Hsh2.
    set (w2 := with_heap _ w1) in *.
    destruct (Hsh2 other ost (Hframe _ _ Host)) as (ost2 & Host2 & _).
    destruct (bind_when_update_shapes
                (fun _ =>
                   when (negb (bool_decide (q = this))) (cache_ref q);; ret q)
                w2 other (with_composition_cache (cache_set this None))
                (negb (bool_decide (other = this))) ost2 Host2
                (shape_with_composition_cache _))
      as (w3 & -> & Hsh3 & _).
    destruct (same_shapes_result w1 w3 q r _
                (same_shapes_trans _ _ _ Hsh2 Hsh3) Hr Hwfr Hcmp)
      as (r3 & Hr3 & Hwf3 & Hcmp3).
    unfold cache_ref.
    destruct (bind_when_update_shapes (fun _ => ret q) w3 q
                (with_ref_counts (fun n => n + 1) (fun c => c + 1))
                (negb (bool_decide (q = this))) r3 Hr3
                (shape_with_ref_counts _ _))
      as (w4 & -> & Hsh4 & _).
    destruct (same_shapes_result w3 w4 q r3 _ Hsh4 Hr3 Hwf3 Hcmp3)
      as (r4 & Hr4 & Hwf4 & Hcmp4).
    exists q, w4, r4. split_and!; [reflexivity|assumption..].
  - destruct (cache_find_Some _ _ Hidx) as (comp & Hlook). rewrite Hlook.
    destruct (_result comp) as [result|] eqn:Hres.
    + destruct (Hcoh this st other ost
                  (Z.to_nat (cache_find (_composition_cache st) other))
                  comp result Hst Host Hres) as [Hc _].
      destruct (Hc Hlook) as (rst & Hrst & Hwfrst & Hcmprst).
      exists result, w, rst. split_and!; [reflexivity|assumption..].
    + rewrite (bind_Some _ _ _ _ _ Hdo).
      rewrite (bind_update _ _ _ _ _ (Hframe _ _ Hst)).
      pose proof (update_same_shapes w1 this
                    (with_composition_cache
                       (alter (set_result (Some q))
                          (Z.to_nat (cache_find (_composition_cache st) other))))
                    st (Hframe _ _ Hst) (shape_with_composition_cache _))
        as Hsh2.
      set (w2 := with_heap _ w1) in *.
      destruct (same_shapes_result w1 w2 q r _ Hsh2 Hr Hwfr Hcmp)
        as (r2 & Hr2 & Hwf2 & Hcmp2).
      unfold cache_ref.
      destruct (bind_when_update_shapes (fun _ => ret q) w2 q
                  (with_ref_counts (fun n => n + 1) (fun c => c + 1))
                  (negb (bool_decide (q = this))) r2 Hr2
                  (shape_with_ref_counts _ _))
        as (w3 & -> & Hsh3 & _).
      destruct (same_shapes_result w2 w3 q r2 _ Hsh3 Hr2 Hwf2 Hcmp2)
        as (r3 & Hr3 & Hwf3 & Hcmp3).
      exists q, w3, r3. split_and!; [reflexivity|assumption..].
Qed.

(** The result of [invert_compose] for a non-empty state and another
    state. *)
Lemma invert_compose_spec w this other st ost :
  heap w !! this = Some st -> heap w !! other = Some ost ->
  wf_state st -> wf_state ost -> table_wf w -> cache_coherent w ->
  is_empty st = false -> other <> this ->
  exists q w' r,
    invert_compose this other w = Some (q, w')
    /\ heap w' !! q = Some r /\ wf_state r
    /\ compare_to r (clear_slot_0 (do_invert_compose_state st ost)) = 0.
Proof.
  intros Hst Host Hwf Hwfo Htable Hcoh Hne Hneq. unfold invert_compose.
  rewrite (bind_deref _ _ _ _ Hst), (bind_deref _ _ _ _ Host), Hne.
  rewrite bool_decide_eq_false_2 by done.
  rewrite bind_get_config.
  destruct (do_invert_compose_spec w this other st ost Hst Host Hwf Hwfo Htable)
    as (q & w1 & r & Hdo & Hr & Hwfr & Hcmp & Hframe & Hcfg & Hemp).
  pose proof (frame_same_shapes _ _ Hframe) as Hsh1.
  destruct (state_cache (config w)); cbn [negb];
    [|exists q, w1, r; split_and!; assumption].
  destruct (Z.eqb_spec (cache_find (_invert_composition_cache st) other) (-1))
    as [Hidx|Hidx]; cbn [negb].
  - rewrite (bind_Some _ _ _ _ _ Hdo).
    rewrite (bind_update _ _ _ _ _ (Hframe _ _ Hst)).
    pose proof (update_same_shapes w1 this
                  (with_invert_composition_cache (cache_set other (Some q))) st
                  (Hframe _ _ Hst) (shape_with_invert_composition_cache _))
      as Hsh2.
    set (w2 := with_heap _ w1) in *.
    destruct (Hsh2 other ost (Hframe _ _ Host)) as (ost2 & Host2 & _).
    destruct (bind_when_update_shapes
                (fun _ =>
                   when (negb (bool_decide (q = this))) (cache_ref q);; ret q)
                w2 other (with_invert_composition_cache (cache_set this None))
                true ost2 Host2
                (shape_with_invert_composition_cache _))
      as (w3 & -> & Hsh3 & _).
    destruct (same_shapes_result w1 w3 q r _
                (same_shapes_trans _ _ _ Hsh2 Hsh3) Hr Hwfr Hcmp)
      as (r3 & Hr3 & Hwf3 & Hcmp3).
    unfold cache_ref.
    destruct (bind_when_update_shapes (fun _ => ret q) w3 q
                (with_ref_counts (fun n => n + 1) (fun c => c + 1))
                (negb (bool_decide (q = this))) r3 Hr3
                (shape_with_ref_counts _ _))
      as (w4 & -> & Hsh4 & _).
    destruct (same_shapes_result w3 w4 q r3 _ Hsh4 Hr3 Hwf3 Hcmp3)
      as (r4 & Hr4 & Hwf4 & Hcmp4).
    exists q, w4, r4. split_and!; [reflexivity|assumption..].
  - destruct (cache_find_Some _ _ Hidx) as (comp & Hlook). rewrite Hlook.
    destruct (_result comp) as [result|] eqn:Hres.
    + destruct (Hcoh this st other ost
                  (Z.to_nat (cache_find (_invert_composition_cache st) other))
                  comp result Hst Host Hres) as [_ Hc].
      destruct (Hc Hlook) as (rst & Hrst & Hwfrst & Hcmprst).
      exists result, w, rst. split_and!; [reflexivity|assumption..].
    + rewrite (bind_Some _ _ _ _ _ Hdo).
      rewrite (bind_update _ _ _ _ _ (Hframe _ _ Hst)).
      pose proof (update_same_shapes w1 this
                    (with_invert_composition_cache
                       (alter (set_result (Some q))
                          (Z.to_nat
                             (cache_find (_invert_composition_cache st) other))))
                    st (Hframe _ _ Hst)
                    (shape_with_invert_composition_cache _))
        as Hsh2.
      set (w2 := with_heap _ w1) in *.
      destruct (same_shapes_result w1 w2 q r _ Hsh2 Hr Hwfr Hcmp)
        as (r2 & Hr2 & Hwf2 & Hcmp2).
      unfold cache_ref.
      destruct (bind_when_update_shapes (fun _ => ret q) w2 q
                  (with_ref_counts (fun n => n + 1) (fun c => c + 1))
                  (negb (bool_decide (q = this))) r2 Hr2
                  (shape_with_ref_counts _ _))
        as (w3 & -> & Hsh3 & _).
      destruct (same_shapes_result w2 w3 q r2 _ Hsh3 Hr2 Hwf2 Hcmp2)
        as (r3 & Hr3 & Hwf3 & Hcmp3).
      exists q, w3, r3. split_and!; [reflexivity|assumption..].
Qed.

(** **** C2 and C3: the per-slot rules seen through [compose] and
    [invert_compose] *)

Lemma merged_state_slot (f : Z -> Attribute -> Attribute -> Attribute) st ost k :
  wf_state st -> wf_state ost -> 1 <= k ->
  Z.testbit (Z.lor (_filled_slots st) (_filled_slots ost)) k = true ->
  let X :=
    clear_slot_0
      (SlotMask.fold_on_bits SlotMask.max_slots
         (Z.lor (_filled_slots st) (_filled_slots ost))
         (fun slot new_state =>
            let a := attr_at (_attributes st) slot in
            let b := attr_at (_attributes ost) slot in
            with_attributes (set_attr_at slot (f slot a b)) new_state)
         (with_filled_slots
            (fun _ => Z.lor (_filled_slots st) (_filled_slots ost))
            default_state)) in
  Z.testbit (_filled_slots X) k = true
  /\ attr_at (_attributes X) k
     = f k (attr_at (_attributes st) k) (attr_at (_attributes ost) k).
Proof.
  intros (Hwf1 & _) (Hwf2 & _) Hk Hbit X.
  destruct (merged_state_spec f st ost Hwf1 Hwf2)
    as (Hmask & _ & _ & _ & _ & _ & _ & Hat).
  cbv zeta in Hmask, Hat. subst X. cbv zeta.
  match goal with
  | |- Z.testbit (_filled_slots (clear_slot_0 ?Y)) k = true /\ _ =>
      destruct (clear_slot_0_slots Y k Hk) as [Hb Ha]
  end.
  rewrite Hb, Ha. clear Hb Ha.
  rewrite Hmask, Hat by lia. rewrite Hbit. split; reflexivity.
Qed.

Lemma filled_slot st slot p :
  wf_state st -> 0 <= slot < Z.of_nat SlotMask.max_slots ->
  _attrib (attr_at (_attributes st) slot) = Some p ->
  Z.testbit (_filled_slots st) slot = true.
Proof. intros (_ & _ & Hon) Hr Hp. apply Hon; [exact Hr|congruence]. Qed.

Lemma unfilled_slot st slot :
  wf_state st -> 0 <= slot < Z.of_nat SlotMask.max_slots ->
  _attrib (attr_at (_attributes st) slot) = None ->
  Z.testbit (_filled_slots st) slot = false.
Proof.
  intros (_ & _ & Hon) Hr Hp.
  destruct (Z.testbit (_filled_slots st) slot) eqn:Hb; [|reflexivity].
  apply Hon in Hb; [congruence|exact Hr].
Qed.

Lemma empty_unfilled st slot :
  wf_state st -> 0 <= slot < Z.of_nat SlotMask.max_slots ->
  is_empty st = true -> _attrib (attr_at (_attributes st) slot) = None.
Proof.
  intros (_ & _ & Hon) Hr He.
  destruct (_attrib (attr_at (_attributes st) slot)) eqn:Hp; [|reflexivity].
  assert (Z.testbit (_filled_slots st) slot = true) as Hb
    by (apply Hon; [exact Hr|congruence]).
  rewrite (proj1 (SlotMask.is_zero_spec _) He) in Hb. discriminate Hb.
Qed.

(** The rule [do_compose] applies to a slot filled on both sides with
    different override values. *)
Definition override_rule (a b : Attribute) (pa pb : N) : Attribute :=
  if _override b <? _override a then a
  else if RenderAttrib.lower_attrib_can_override pa then b
  else Attribute_set (Some (RenderAttrib.compose pa pb)) (_override b).

Lemma compose_slot_override_rule a b pa pb :
  _attrib a = Some pa -> _attrib b = Some pb -> _override a <> _override b ->
  compose_slot a b = override_rule a b pa pb.
Proof.
  intros Ha Hb Hne. unfold compose_slot, override_rule. rewrite Ha, Hb.
  destruct (Z.ltb_spec (_override b) (_override a)); [reflexivity|].
  destruct (Z.ltb_spec (_override a) (_override b)); [reflexivity|lia].
Qed.

(** C2, as amended.  In the state [compose] returns, a slot filled on
    both sides with different override values holds: the left entry, when
    the left override is the higher; the right entry, when the right
    override is the higher and the left attribute answers
    [lower_attrib_can_override]; and otherwise the composition of the two
    attributes, at the right override.  (Entries are compared as the
    interner compares them.) *)
Theorem compose_override_rule (w : World) (this other : N) (st ost : State) :
  heap w !! this = Some st -> heap w !! other = Some ost ->
  wf_state st -> wf_state ost -> table_wf w -> cache_coherent w ->
  exists q w' r,
    compose this other w = Some (q, w')
    /\ heap w' !! q = Some r
    /\ forall slot pa pb,
         0 < slot < Z.of_nat SlotMask.max_slots ->
         let a := attr_at (_attributes st) slot in
         let b := attr_at (_attributes ost) slot in
         _attrib a = Some pa -> _attrib b = Some pb ->
         _override a <> _override b ->
         same_entry (attr_at (_attributes r) slot) (override_rule a b pa pb).
Proof.
  intros Hst Host Hwf Hwfo Htable Hcoh.
  destruct (is_empty st) eqn:Hne.
  { exists other, w, ost. split_and!.
    - unfold compose. rewrite (bind_deref _ _ _ _ Hst), (bind_deref _ _ _ _ Host).
      rewrite Hne. reflexivity.
    - exact Host.
    - intros slot pa pb Hr a b Ha. exfalso.
      subst a. rewrite (empty_unfilled st slot Hwf) in Ha; [discriminate Ha|lia|].
      exact Hne. }
  destruct (is_empty ost) eqn:Hneo.
  { exists this, w, st. split_and!.
    - unfold compose. rewrite (bind_deref _ _ _ _ Hst), (bind_deref _ _ _ _ Host).
      rewrite Hne, Hneo. reflexivity.
    - exact Hst.
    - intros slot pa pb Hr a b _ Hb. exfalso.
      subst b. rewrite (empty_unfilled ost slot Hwfo) in Hb; [discriminate Hb|lia|].
      exact Hneo. }
  destruct (compose_spec w this other st ost Hst Host Hwf Hwfo Htable Hcoh
              Hne Hneo) as (q & w' & r & Hrun & Hr & Hwfr & Hcmp).
  exists q, w', r. split_and!; [exact Hrun|exact Hr|].
  intros slot pa pb Hrange a b Ha Hb Hov.
  assert (Z.testbit (Z.lor (_filled_slots st) (_filled_slots ost)) slot = true)
    as Hbit.
  { rewrite Z.lor_spec, (filled_slot st slot pa Hwf); [reflexivity|lia|exact Ha]. }
  assert (1 <= slot) as Hslot1 by lia.
  assert (Z.testbit (_filled_slots (clear_slot_0 (do_compose_state st ost)))
            slot = true
          /\ attr_at (_attributes (clear_slot_0 (do_compose_state st ost))) slot
             = compose_slot a b) as [Hxb Hxa].
  { unfold do_compose_state. cbv zeta.
    exact (merged_state_slot (fun _ => compose_slot) st ost slot Hwf Hwfo
             Hslot1 Hbit). }
  pose proof (wf_clear_slot_0 _ (wf_do_compose_state _ _ Hwf Hwfo)) as HwfX.
  destruct (compare_to_slots r _ Hwfr HwfX Hcmp slot) as [_ Hsame].
  specialize (Hsame Hxb). rewrite Hxa in Hsame.
  rewrite <- (compose_slot_override_rule a b pa pb Ha Hb Hov). exact Hsame.
Qed.

(** The rule [do_invert_compose] applies to a slot filled on one side
    only. *)
Definition one_sided_rule (slot : Z) (a b : Attribute) : Attribute :=
  match _attrib a with
  | None => b
  | Some pa =>
      Attribute_set
        (Some (RenderAttrib.invert_compose pa
                 (RenderAttrib.get_slot_default slot))) 0
  end.

Lemma invert_compose_slot_one_sided slot a b :
  _attrib a = None \/ _attrib b = None ->
  invert_compose_slot slot a b = one_sided_rule slot a b.
Proof.
  unfold invert_compose_slot, one_sided_rule.
  destruct (_attrib a) as [pa|]; [|reflexivity].
  intros [H|H]; [discriminate H|]. rewrite H. reflexivity.
Qed.

(** C3, as amended.  In the state [invert_compose] returns, a slot that
    only the right operand fills holds the right operand's entry, with
    its override value; a slot that only the left operand fills holds
    [a.invert_compose(default)] at override 0, where [default] is the
    slot's default attribute. *)
Theorem invert_compose_one_sided (w : World) (this other : N)
    (st ost est : State) :
  heap w !! this = Some st -> heap w !! other = Some ost ->
  heap w !! _empty_state w = Some est ->
  wf_state st -> wf_state ost -> table_wf w -> cache_coherent w ->
  exists q w' r,
    invert_compose this other w = Some (q, w')
    /\ heap w' !! q = Some r
    /\ forall slot,
         0 < slot < Z.of_nat SlotMask.max_slots ->
         let a := attr_at (_attributes st) slot in
         let b := attr_at (_attributes ost) slot in
         (_attrib a = None /\ _attrib b <> None)
         \/ (_attrib a <> None /\ _attrib b = None) ->
         same_entry (attr_at (_attributes r) slot) (one_sided_rule slot a b).
Proof.
  intros Hst Host Hest Hwf Hwfo Htable Hcoh.
  destruct (is_empty st) eqn:Hne.
  { exists other, w, ost. split_and!.
    - unfold invert_compose.
      rewrite (bind_deref _ _ _ _ Hst), (bind_deref _ _ _ _ Host).
      rewrite Hne. reflexivity.
    - exact Host.
    - intros slot Hr a b _. unfold one_sided_rule. subst a.
      rewrite (empty_unfilled st slot Hwf); [|lia|exact Hne].
      apply same_entry_refl. }
  destruct (decide (other = this)) as [Heq|Hneq].
  { exists (_empty_state w), w, est. split_and!.
    - subst other. exact (invert_compose_self w this st Hst Hne).
    - exact Hest.
    - intros slot Hr a b Hside. exfalso. subst a b other.
      assert (ost = st) as -> by congruence.
      destruct Hside as [[H1 H2]|[H1 H2]]; congruence. }
  destruct (invert_compose_spec w this other st ost Hst Host Hwf Hwfo Htable
              Hcoh Hne Hneq) as (q & w' & r & Hrun & Hr & Hwfr & Hcmp).
  exists q, w', r. split_and!; [exact Hrun|exact Hr|].
  intros slot Hrange a b Hside.
  assert (Z.testbit (Z.lor (_filled_slots st) (_filled_slots ost)) slot = true)
    as Hbit.
  { rewrite Z.lor_spec. apply orb_true_iff.
    destruct Hside as [[_ H]|[H _]].
    - right. destruct Hwfo as (_ & _ & Hon). apply Hon; [lia|exact H].
    - left. destruct Hwf as (_ & _ & Hon). apply Hon; [lia|exact H]. }
  assert (1 <= slot) as Hslot1 by lia.
  assert (Z.testbit
            (_filled_slots (clear_slot_0 (do_invert_compose_state st ost)))
            slot = true
          /\ attr_at
               (_attributes (clear_slot_0 (do_invert_compose_state st ost))) slot
             = invert_compose_slot slot a b) as [Hxb Hxa].
  { unfold do_invert_compose_state. cbv zeta.
    exact (merged_state_slot invert_compose_slot st ost slot Hwf Hwfo
             Hslot1 Hbit). }
  pose proof (wf_clear_slot_0 _ (wf_do_invert_compose_state _ _ Hwf Hwfo))
    as HwfX.
  destruct (compare_to_slots r _ Hwfr HwfX Hcmp slot) as [_ Hsame].
  specialize (Hsame Hxb). rewrite Hxa in Hsame.
  rewrite <- (invert_compose_slot_one_sided slot a b); [exact Hsame|].
  destruct Hside as [[H _]|[_ H]]; [left|right]; exact H.
Qed.


(** *** Composition with the cache switched off *)

Lemma return_new_cache_off w p n :
  heap w !! p = Some n -> state_cache (config w) = false ->
  return_new p w = Some (p, with_heap (insert p (clear_slot_0 n)) w).
Proof.
  intros Hp Hsc. unfold return_new.
  rewrite (bind_update _ _ _ _ _ Hp), bind_get_config.
  rewrite (bind_deref _ _ _ (clear_slot_0 n)) by apply lookup_insert_eq.
  destruct (_ && _); [reflexivity|].
  unfold return_unique. rewrite bind_get_config.
  cbn [config with_heap]. rewrite Hsc. reflexivity.
Qed.

Lemma intern_new_cache_off w (built : State) :
  state_cache (config w) = false ->
  (let* state := new_state built in return_new state) w
  = Some (fresh (dom (heap w)),
          with_heap (insert (fresh (dom (heap w))) (clear_slot_0 built)) w).
Proof.
  intros Hsc. rewrite bind_new_state.
  rewrite (return_new_cache_off
             (with_heap (insert (fresh (dom (heap w))) built) w)
             (fresh (dom (heap w))) built (lookup_insert_eq _ _ _) Hsc).
  rewrite with_heap_insert_insert. reflexivity.
Qed.

Lemma compose_cache_off w this other st ost :
  heap w !! this = Some st -> heap w !! other = Some ost ->
  state_cache (config w) = false ->
  compose this other w
  = Some (if is_empty st then (other, w)
          else if is_empty ost then (this, w)
          else (fresh (dom (heap w)),
                with_heap
                  (insert (fresh (dom (heap w)))
                     (clear_slot_0 (do_compose_state st ost))) w)).
Proof.
  intros Hst Host Hsc. unfold compose.
  rewrite (bind_deref _ _ _ _ Hst), (bind_deref _ _ _ _ Host).
  destruct (is_empty st); [reflexivity|].
  destruct (is_empty ost); [reflexivity|].
  rewrite bind_get_config, Hsc. cbn [negb]. unfold do_compose.
  rewrite (bind_deref _ _ _ _ Hst), (bind_deref _ _ _ _ Host).
  exact (intern_new_cache_off w _ Hsc).
Qed.

Lemma invert_compose_cache_off w this other st ost :
  heap w !! this = Some st -> heap w !! other = Some ost ->
  state_cache (config w) = false ->
  invert_compose this other w
  = Some (if is_empty st then (other, w)
          else if bool_decide (other = this) then (_empty_state w, w)
          else (fresh (dom (heap w)),
                with_heap
                  (insert (fresh (dom (heap w)))
                     (clear_slot_0 (do_invert_compose_state st ost))) w)).
Proof.
  intros Hst Host Hsc. unfold invert_compose.
  rewrite (bind_deref _ _ _ _ Hst), (bind_deref _ _ _ _ Host).
  destruct (is_empty st); [reflexivity|].
  destruct (bool_decide (other = this)); [reflexivity|].
  rewrite bind_get_config, Hsc. cbn [negb]. unfold do_invert_compose.
  rewrite (bind_deref _ _ _ _ Hst), (bind_deref _ _ _ _ Host).
  exact (intern_new_cache_off w _ Hsc).
Qed.

(** The world with every composition cache emptied. *)
Definition erase_caches (w : World) : World :=
  with_heap
    (fmap (fun st =>
             with_composition_cache (fun _ => [])
               (with_invert_composition_cache (fun _ => []) st)))
    w.

Definition cache_off (w : World) : World :=
  with_config (with_state_cache false (config w)) w.
Definition cache_on (w : World) : World :=
  with_config (with_state_cache true (config w)) w.

(** What C5 says of one of the two operations. *)
Definition cache_is_no_op (op : N -> N -> M N) (w : World) (this other : N)
    : Prop :=
  exists q1 w1 r1 q2 w2 r2,
    (* the two runs, from the same world *)
    op this other (cache_off w) = Some (q1, w1)
    /\ op this other (cache_on w) = Some (q2, w2)
    (* the results are equal states *)
    /\ heap w1 !! q1 = Some r1 /\ heap w2 !! q2 = Some r2
    /\ compare_to r1 r2 = 0
    (* with the cache off, no state is modified ... *)
    /\ (forall x stx, heap w !! x = Some stx -> heap w1 !! x = Some stx)
    (* ... the only other object is the result, with empty caches ... *)
    /\ (forall x stx, heap w1 !! x = Some stx ->
          heap w !! x = Some stx
          \/ (x = q1 /\ _composition_cache stx = []
              /\ _invert_composition_cache stx = []))
    (* ... and the answer does not depend on what the caches hold *)
    /\ fst <$> op this other (erase_caches (cache_off w)) = Some q1.

Lemma clear_slot_0_caches st :
  _composition_cache (clear_slot_0 st) = _composition_cache st
  /\ _invert_composition_cache (clear_slot_0 st) = _invert_composition_cache st.
Proof. done. Qed.

Lemma merged_state_caches (f : Z -> Attribute -> Attribute -> Attribute) st ost :
  wf_state st -> wf_state ost ->
  let r :=
    SlotMask.fold_on_bits SlotMask.max_slots
      (Z.lor (_filled_slots st) (_filled_slots ost))
      (fun slot new_state =>
         let a := attr_at (_attributes st) slot in
         let b := attr_at (_attributes ost) slot in
         with_attributes (set_attr_at slot (f slot a b)) new_state)
      (with_filled_slots
         (fun _ => Z.lor (_filled_slots st) (_filled_slots ost))
         default_state) in
  _composition_cache (clear_slot_0 r) = []
  /\ _invert_composition_cache (clear_slot_0 r) = [].
Proof.
  intros (Hw1 & _) (Hw2 & _).
  destruct (merged_state_spec f st ost Hw1 Hw2)
    as (_ & _ & _ & Hc & Hi & _).
  cbv zeta.
  rewrite (proj1 (clear_slot_0_caches _)), (proj2 (clear_slot_0_caches _)).
  split; [exact Hc|exact Hi].
Qed.

Lemma erase_caches_lookup w p st :
  heap w !! p = Some st ->
  heap (erase_caches (cache_off w)) !! p
  = Some (with_composition_cache (fun _ => [])
            (with_invert_composition_cache (fun _ => []) st)).
Proof.
  intros H. unfold erase_caches, cache_off. cbn [heap with_heap with_config].
  rewrite lookup_fmap, H. reflexivity.
Qed.

Lemma erase_caches_fresh w :
  fresh (dom (heap (erase_caches (cache_off w)))) = fresh (dom (heap w)).
Proof.
  unfold erase_caches, cache_off. cbn [heap with_heap with_config].
  rewrite dom_fmap_L. reflexivity.
Qed.

Lemma fresh_object_frame w (built : State) :
  let w1 := with_heap (insert (fresh (dom (heap w))) built) (cache_off w) in
  (forall x stx, heap w !! x = Some stx -> heap w1 !! x = Some stx)
  /\ (forall x stx, heap w1 !! x = Some stx ->
        heap w !! x = Some stx \/ (x = fresh (dom (heap w)) /\ stx = built))
  /\ heap w1 !! fresh (dom (heap w)) = Some built.
Proof.
  intros w1. subst w1. cbn [heap with_heap with_config cache_off].
  pose proof (fresh_not_allocated w) as Hfresh.
  split_and!.
  - intros x stx Hx. rewrite lookup_insert_ne; [exact Hx|].
    intros <-. congruence.
  - intros x stx Hx. destruct (decide (x = fresh (dom (heap w)))) as [->|Hne].
    + rewrite lookup_insert_eq in Hx. right. split; congruence.
    + rewrite lookup_insert_ne in Hx by congruence. by left.
  - apply lookup_insert_eq.
Qed.

Lemma cache_is_no_op_same (op : N -> N -> M N) w this other q r :
  wf_state r -> heap w !! q = Some r ->
  op this other (cache_off w) = Some (q, cache_off w) ->
  op this other (cache_on w) = Some (q, cache_on w) ->
  fst <$> op this other (erase_caches (cache_off w)) = Some q ->
  cache_is_no_op op w this other.
Proof.
  intros Hwf Hq Hoff Hon Herase.
  exists q, (cache_off w), r, q, (cache_on w), r.
  split_and!; [exact Hoff|exact Hon|exact Hq|exact Hq
              |by apply compare_to_refl| | |exact Herase].
  - intros x stx Hx. exact Hx.
  - intros x stx Hx. left. exact Hx.
Qed.

Lemma cache_is_no_op_fresh (op : N -> N -> M N) w this other built :
  wf_state built ->
  _composition_cache built = [] -> _invert_composition_cache built = [] ->
  op this other (cache_off w)
  = Some (fresh (dom (heap w)),
          with_heap (insert (fresh (dom (heap w))) built) (cache_off w)) ->
  (exists q w' r, op this other (cache_on w) = Some (q, w')
                  /\ heap w' !! q = Some r /\ wf_state r
                  /\ compare_to r built = 0) ->
  fst <$> op this other (erase_caches (cache_off w))
  = Some (fresh (dom (heap w))) ->
  cache_is_no_op op w this other.
Proof.
  intros Hwf Hc Hi Hoff (q2 & w2 & r2 & Hon & Hr2 & Hwf2 & Hcmp) Herase.
  destruct (fresh_object_frame w built) as (Hf1 & Hf2 & Hf3).
  exists (fresh (dom (heap w))),
    (with_heap (insert (fresh (dom (heap w))) built) (cache_off w)),
    built, q2, w2, r2.
  split_and!; [exact Hoff|exact Hon|exact Hf3|exact Hr2
              |by apply compare_to_sym|exact Hf1| |exact Herase].
  intros x stx Hx. destruct (Hf2 x stx Hx) as [H|[-> ->]]; [by left|right].
  split_and!; [reflexivity|exact Hc|exact Hi].
Qed.

(** **** C5: the cache flag does not change the result *)


(** *** Releasing a state: what no step undoes *)

Section Release.
Variable this : N.

(** From [w] to [w'], the state [this] has not come back into [_states],
    has not been marked as saved again, and no cache of it that was empty
    holds an entry. *)
Definition keeps (w w' : World) : Prop :=
  (this ∉ _states w -> this ∉ _states w')
  /\ forall st', heap w' !! this = Some st' ->
       exists st, heap w !! this = Some st
         /\ (_saved_entry st = -1 -> _saved_entry st' = -1)
         /\ (_composition_cache st = [] -> _composition_cache st' = [])
         /\ (_invert_composition_cache st = [] ->
             _invert_composition_cache st' = []).

Definition preserves {A : Type} (m : M A) : Prop :=
  forall w v w', m w = Some (v, w') -> keeps w w'.

Definition shrinks (g : State -> State) : Prop :=
  forall st,
    (_saved_entry st = -1 -> _saved_entry (g st) = -1)
    /\ (_composition_cache st = [] -> _composition_cache (g st) = [])
    /\ (_invert_composition_cache st = [] ->
        _invert_composition_cache (g st) = []).

Lemma keeps_refl w : keeps w w.
Proof. split; [done|]. intros st' H. exists st'. done. Qed.

Lemma keeps_trans w1 w2 w3 : keeps w1 w2 -> keeps w2 w3 -> keeps w1 w3.
Proof.
  intros [Ht1 Hs1] [Ht2 Hs2]. split; [auto|].
  intros st3 H3. destruct (Hs2 st3 H3) as (st2 & H2 & Ha & Hb & Hc).
  destruct (Hs1 st2 H2) as (st1 & H1 & Ha' & Hb' & Hc').
  exists st1. split_and!; auto.
Qed.

Lemma preserves_ret {A : Type} (x : A) : preserves (ret x).
Proof. intros w v w' [= _ <-]. apply keeps_refl. Qed.

Lemma preserves_fail {A : Type} : preserves (@fail A).
Proof. intros w v w' H. discriminate H. Qed.

Lemma preserves_bind {A B : Type} (m : M A) (k : A -> M B) :
  preserves m -> (forall x, preserves (k x)) -> preserves (bind m k).
Proof.
  intros Hm Hk w v w' H. unfold bind in H.
  destruct (m w) as [[x w1]|] eqn:Hmw; [|discriminate H].
  exact (keeps_trans _ _ _ (Hm _ _ _ Hmw) (Hk x _ _ _ H)).
Qed.

Lemma preserves_when (b : bool) (m : M unit) :
  preserves m -> preserves (when b m).
Proof. intros Hm. destruct b; [exact Hm|apply preserves_ret]. Qed.

Lemma preserves_get_config : preserves get_config.
Proof. intros w v w' [= _ <-]. apply keeps_refl. Qed.

Lemma preserves_deref p : preserves (deref p).
Proof.
  intros w v w' H. unfold deref in H.
  destruct (heap w !! p); [|discriminate H].
  injection H as _ <-. apply keeps_refl.
Qed.

Lemma preserves_update p g : shrinks g -> preserves (update p g).
Proof.
  intros Hg w v w' H. unfold update in H.
  destruct (heap w !! p) as [st|] eqn:Hp; [|discriminate H].
  injection H as _ <-. split; [done|]. intros st' H'. cbn [heap with_heap] in H'.
  destruct (decide (p = this)) as [->|Hne].
  - rewrite lookup_insert_eq in H'. injection H' as <-.
    exists st. split; [exact Hp|]. apply Hg.
  - rewrite lookup_insert_ne in H' by exact Hne. exists st'. done.
Qed.

Lemma preserves_delete_state p : preserves (delete_state p).
Proof.
  intros w v w' H. unfold delete_state in H.
  destruct (heap w !! p) as [st|] eqn:Hp; [|discriminate H].
  injection H as _ <-. split; [done|]. intros st' H'. cbn [heap with_heap] in H'.
  destruct (decide (p = this)) as [->|Hne].
  - rewrite lookup_delete_eq in H'. discriminate H'.
  - rewrite lookup_delete_ne in H' by exact Hne. exists st'. done.
Qed.

Lemma preserves_states_remove p : preserves (states_remove p).
Proof.
  intros w v w' H. unfold states_remove in H.
  destruct (heap w !! p) as [st|]; [|discriminate H].
  destruct (_ =? -1).
  - injection H as _ <-. apply keeps_refl.
  - injection H as _ <-. split.
    + intros Hn Hin. apply Hn.
      exact (SimpleHashMap.elem_of_remove_element _ _ _ Hin).
    + intros st' H'. exists st'. done.
Qed.

Lemma preserves_next_cycle_detect : preserves next_cycle_detect.
Proof.
  intros w v w' [= _ <-]. split; [done|]. intros st' H'. exists st'. done.
Qed.

Lemma shrinks_with_ref_counts f g : shrinks (with_ref_counts f g).
Proof. intros st. done. Qed.

Lemma shrinks_with_cycle_detect seq : shrinks (with_cycle_detect seq).
Proof. intros st. done. Qed.

Lemma shrinks_with_saved_entry : shrinks (with_saved_entry (-1)).
Proof. intros st. done. Qed.

Lemma shrinks_composition_cache i :
  shrinks (with_composition_cache (SimpleHashMap.remove_element i)).
Proof. intros st. split_and!; [done| |done]. cbn. by intros ->. Qed.

Lemma shrinks_invert_composition_cache i :
  shrinks (with_invert_composition_cache (SimpleHashMap.remove_element i)).
Proof. intros st. split_and!; [done|done|]. cbn. by intros ->. Qed.

End Release.


Section ReleaseSteps.
Variable this : N.

Ltac preserve :=
  repeat first
    [ apply preserves_ret | apply preserves_fail | apply preserves_get_config
    | apply preserves_deref | apply preserves_delete_state
    | apply preserves_states_remove | apply preserves_next_cycle_detect
    | apply preserves_update;
      first [ apply shrinks_with_ref_counts | apply shrinks_with_cycle_detect
            | apply shrinks_with_saved_entry | apply shrinks_composition_cache
            | apply shrinks_invert_composition_cache | assumption ]
    | apply preserves_when
    | apply preserves_bind; [|intros ?]
    | assumption ].

Lemma preserves_ReferenceCount_unref p :
  preserves this (ReferenceCount_unref p).
Proof. unfold ReferenceCount_unref. preserve. Qed.

Lemma preserves_cache_unref_only p : preserves this (cache_unref_only p).
Proof. unfold cache_unref_only. preserve. Qed.

Lemma preserves_release_new p : preserves this (release_new p).
Proof.
  unfold release_new. apply preserves_bind; [preserve|]. intros st.
  destruct (negb _); preserve.
Qed.

Section Reentrant.
Variable unref : N -> M bool.
Hypothesis preserves_unref : forall p, preserves this (unref p).

Lemma preserves_cache_unref_delete ptr :
  preserves this (cache_unref_delete unref ptr).
Proof.
  unfold cache_unref_delete.
  apply preserves_bind; [apply preserves_cache_unref_only|]. intros _.
  apply preserves_bind; [apply preserves_unref|]. intros alive. preserve.
Qed.

Lemma preserves_drop (result : option N) (owner : N) :
  preserves this
    match result with
    | Some result =>
        when (negb (bool_decide (result = owner)))
          (cache_unref_delete unref result)
    | None => ret tt
    end.
Proof.
  destruct result as [r|]; [|apply preserves_ret].
  apply preserves_when, preserves_cache_unref_delete.
Qed.

Lemma preserves_remove_cache_pointers_loop fuel cache_of with_cache p :
  (forall i, shrinks (with_cache (SimpleHashMap.remove_element i))) ->
  preserves this
    (remove_cache_pointers_loop unref fuel cache_of with_cache p).
Proof.
  intros Hshr. induction fuel as [|fuel IH].
  - cbn [remove_cache_pointers_loop].
    apply preserves_bind; [preserve|]. intros st.
    destruct (cache_of st) as [|[other comp] rest]; preserve.
  - cbn [remove_cache_pointers_loop].
    apply preserves_bind; [preserve|]. intros st.
    destruct (cache_of st) as [|[other comp] rest]; [preserve|].
    apply preserves_bind; [apply preserves_update, Hshr|]. intros _.
    apply preserves_bind.
    { apply preserves_when. apply preserves_bind; [preserve|]. intros ost.
      apply preserves_when.
      destruct (cache_of ost !! _) as [[k ocomp]|]; [|preserve].
      apply preserves_bind; [apply preserves_update, Hshr|]. intros _.
      apply preserves_drop. }
    intros _. apply preserves_bind; [apply preserves_drop|]. intros _. exact IH.
Qed.

Lemma preserves_remove_cache_pointers p :
  preserves this (remove_cache_pointers unref p).
Proof.
  unfold remove_cache_pointers.
  apply preserves_bind; [preserve|]. intros st.
  apply preserves_bind.
  { apply preserves_remove_cache_pointers_loop, shrinks_composition_cache. }
  intros _. apply preserves_bind; [preserve|]. intros st'.
  apply preserves_remove_cache_pointers_loop, shrinks_invert_composition_cache.
Qed.

Lemma preserves_first_cycle visit entries :
  (forall e, preserves this (visit e)) ->
  preserves this (first_cycle visit entries).
Proof.
  intros Hv. induction entries as [|e rest IH]; cbn [first_cycle]; [preserve|].
  apply preserves_bind; [apply Hv|]. intros found.
  destruct found; [preserve|exact IH].
Qed.

Lemma preserves_r_detect_cycles fuel start current len seq :
  preserves this (r_detect_cycles fuel start current len seq).
Proof.
  revert current len. induction fuel as [|fuel IH]; intros current len;
    cbn [r_detect_cycles]; [preserve|].
  apply preserves_bind; [preserve|]. intros cst.
  destruct (_ =? _); [preserve|].
  apply preserves_bind; [preserve|]. intros _. cbv zeta.
  assert (forall e : N * Composition,
            preserves this
              match _result e.2 with
              | Some result => r_detect_cycles fuel start result (len + 1) seq
              | None => ret false
              end) as Hvisit.
  { intros e. destruct (_result e.2); [apply IH|preserve]. }
  apply preserves_bind; [by apply preserves_first_cycle|]. intros found.
  destruct found; [preserve|by apply preserves_first_cycle].
Qed.

Lemma preserves_r_detect_reverse_cycles fuel start current len seq :
  preserves this (r_detect_reverse_cycles fuel start current len seq).
Proof.
  revert current len. induction fuel as [|fuel IH]; intros current len;
    cbn [r_detect_reverse_cycles]; [preserve|].
  apply preserves_bind; [preserve|]. intros cst.
  destruct (_ =? _); [preserve|].
  apply preserves_bind; [preserve|]. intros _. cbv zeta.
  assert (forall (cache_of : State -> list (N * Composition))
                 (e : N * Composition),
            preserves this
              (if bool_decide (e.1 = current) then ret false
               else
                 let* ost := deref e.1 in
                 if cache_find (cache_of ost) current <? 0 then fail
                 else
                   match
                     cache_of ost !! Z.to_nat (cache_find (cache_of ost) current)
                   with
                   | Some (_, ocomp) =>
                       match _result ocomp with
                       | Some result =>
                           r_detect_reverse_cycles fuel start result (len + 1)
                             seq
                       | None => ret false
                       end
                   | None => fail
                   end)) as Hvisit.
  { intros cache_of e. destruct (bool_decide _); [preserve|].
    apply preserves_bind; [preserve|]. intros ost.
    destruct (_ <? 0); [preserve|].
    destruct (cache_of ost !! _) as [[k ocomp]|]; [|preserve].
    destruct (_result ocomp); [apply IH|preserve]. }
  apply preserves_bind; [apply preserves_first_cycle, Hvisit|]. intros found.
  destruct found; [preserve|apply preserves_first_cycle, Hvisit].
Qed.

Lemma preserves_detect_and_break_cycles fuel p :
  preserves this (detect_and_break_cycles unref fuel p).
Proof.
  unfold detect_and_break_cycles.
  apply preserves_bind; [preserve|]. intros seq.
  apply preserves_bind; [apply preserves_r_detect_cycles|]. intros cycle.
  destruct cycle; [apply preserves_remove_cache_pointers|].
  apply preserves_bind; [preserve|]. intros seq'.
  apply preserves_bind; [apply preserves_r_detect_reverse_cycles|].
  intros cycle. apply preserves_when, preserves_remove_cache_pointers.
Qed.

Lemma preserves_unref_body fuel p : preserves this (unref_body unref fuel p).
Proof.
  unfold unref_body. apply preserves_bind; [preserve|]. intros cfg.
  destruct (_ || _); [apply preserves_ReferenceCount_unref|].
  apply preserves_bind.
  { apply preserves_when. apply preserves_bind; [preserve|]. intros st.
    apply preserves_when, preserves_detect_and_break_cycles. }
  intros _. apply preserves_bind; [apply preserves_ReferenceCount_unref|].
  intros nonzero. destruct nonzero; [preserve|].
  apply preserves_bind; [apply preserves_release_new|]. intros _.
  apply preserves_bind; [apply preserves_remove_cache_pointers|]. intros _.
  preserve.
Qed.

End Reentrant.

Lemma preserves_unref fuel p : preserves this (unref fuel p).
Proof.
  revert p. induction fuel as [|fuel IH]; intros p; cbn [unref].
  - apply preserves_fail.
  - apply preserves_unref_body. exact IH.
Qed.

End ReleaseSteps.


(** *** Releasing a state: the steps of unref *)

Lemma bind_Some_inv {A B : Type} (m : M A) (k : A -> M B) w v w' :
  bind m k w = Some (v, w') ->
  exists x w1, m w = Some (x, w1) /\ k x w1 = Some (v, w').
Proof.
  unfold bind. destruct (m w) as [[x w1]|]; [|discriminate].
  intros H. by exists x, w1.
Qed.

(** A loop of [remove_cache_pointers] ends on an empty cache. *)
Lemma remove_cache_pointers_loop_exit unref fuel cache_of with_cache this w w' :
  remove_cache_pointers_loop unref fuel cache_of with_cache this w
  = Some (tt, w') ->
  forall st', heap w' !! this = Some st' -> cache_of st' = [].
Proof.
  revert w. induction fuel as [|fuel IH]; intros w H;
    cbn [remove_cache_pointers_loop] in H;
    apply bind_Some_inv in H as (st & w0 & Hd & H);
    unfold deref in Hd; destruct (heap w !! this) as [st0|] eqn:Hst;
    try discriminate Hd; injection Hd as -> ->;
    destruct (cache_of st) as [|[other comp] rest] eqn:Hc.
  - injection H as <-. intros st' Hst'. congruence.
  - discriminate H.
  - injection H as <-. intros st' Hst'. congruence.
  - apply bind_Some_inv in H as (? & w1 & _ & H).
    apply bind_Some_inv in H as (? & w2 & _ & H).
    apply bind_Some_inv in H as (? & w3 & _ & H).
    exact (IH w3 H).
Qed.

(** The tables of two worlds agree for the interner. *)
Lemma interner_inv_ext w w' :
  _states w' = _states w ->
  (forall x st', heap w' !! x = Some st' ->
     exists st, heap w !! x = Some st
                /\ _filled_slots st' = _filled_slots st
                /\ _attributes st' = _attributes st
                /\ _saved_entry st' = _saved_entry st) ->
  (forall x st, heap w !! x = Some st -> exists st', heap w' !! x = Some st') ->
  interner_inv w -> interner_inv w'.
Proof.
  intros Hs Hback Hfwd (I1 & I2 & I3 & I4). split_and!.
  - intros q Hq. rewrite Hs in Hq.
    destruct (I1 q Hq) as (r & Hr & Hwf & Hcan & Hse).
    destruct (Hfwd q r Hr) as (r' & Hr').
    destruct (Hback q r' Hr') as (r0 & Hr0 & Hm & Ha & Hse').
    assert (r0 = r) as -> by congruence.
    exists r'. split_and!; [exact Hr'| | |congruence].
    + exact (wf_state_ext r r' Hm Ha Hwf).
    + exact (canonical_attribs_ext r r' Hm Ha Hcan).
  - intros q r' Hr' Hse. rewrite Hs.
    destruct (Hback q r' Hr') as (r & Hr & _ & _ & Hse').
    apply (I2 q r Hr). congruence.
  - intros q1 q2 r1' r2' Hq1 Hq2 Hr1 Hr2 Hc. rewrite Hs in Hq1, Hq2.
    destruct (Hback q1 r1' Hr1) as (r1 & Hr1' & Hm1 & Ha1 & _).
    destruct (Hback q2 r2' Hr2) as (r2 & Hr2' & Hm2 & Ha2 & _).
    apply (I3 q1 q2 r1 r2 Hq1 Hq2 Hr1' Hr2').
    rewrite <- (compare_to_ext_l r1 r1' r2 Hm1 Ha1).
    rewrite <- (compare_to_ext_r r2 r2' r1' Hm2 Ha2). exact Hc.
  - rewrite Hs. exact I4.
Qed.

(** [release_new] takes the state out of [_states]. *)
Lemma release_new_spec w this st :
  heap w !! this = Some st -> interner_inv w ->
  exists w',
    release_new this w = Some (tt, w')
    /\ (this ∉ _states w')
    /\ heap w' = <[this := with_saved_entry (-1) st]> (heap w)
    /\ config w' = config w
    /\ (forall x, x ∈ _states w' -> x ∈ _states w).
Proof.
  intros Hst (I1 & I2 & I3 & I4). unfold release_new.
  rewrite (bind_deref _ _ _ _ Hst).
  destruct (Z.eqb_spec (_saved_entry st) (-1)) as [Hse|Hse]; cbn [negb].
  - exists w. split_and!; [reflexivity| | |reflexivity|done].
    + intros Hin. destruct (I1 this Hin) as (r & Hr & _ & _ & Hs). congruence.
    + symmetry. apply insert_id. rewrite Hst. f_equal.
      destruct st. cbn in Hse. subst. reflexivity.
  - rewrite (bind_update _ _ _ _ _ Hst).
    set (st1 := with_saved_entry (-1) st).
    set (w1 := with_heap (insert this st1) w).
    assert (heap w1 !! this = Some st1) as Hst1 by apply lookup_insert_eq.
    pose proof (I2 this st Hst Hse) as Hin.
    unfold bind, states_remove. rewrite Hst1.
    set (si := states_find w1 this st1).
    assert (si <> -1) as Hsi.
    { intros Hnone. apply SimpleHashMap.find_None in Hnone.
      rewrite Forall_forall in Hnone. specialize (Hnone this Hin).
      unfold states_is_element in Hnone. rewrite Hst1, Z.eqb_refl in Hnone.
      rewrite bool_decide_eq_true_2 in Hnone by reflexivity.
      discriminate Hnone. }
    destruct (SimpleHashMap.find_Some _ _ Hsi) as (e & Hlook & Hel).
    fold (states_find w1 this st1) in Hlook. fold si in Hlook.
    change (_states w1) with (_states w) in Hlook.
    assert (e = this) as ->.
    { apply states_is_element_true in Hel as (est & Hest & _ & [He|Hc]);
        [exact He|].
      destruct (decide (e = this)) as [He|Hne]; [exact He|].
      assert (heap w !! e = Some est) as Hest0.
      { rewrite <- Hest. subst w1. cbn [heap with_heap].
        by rewrite lookup_insert_ne. }
      apply list_elem_of_lookup_2 in Hlook.
      apply (I3 e this est st Hlook Hin Hest0 Hst).
      rewrite <- Hc. apply compare_to_ext_r; reflexivity. }
    destruct (Z.eqb_spec si (-1)) as [|_]; [contradiction|].
    destruct (SimpleHashMap.remove_element_NoDup _ _ _ I4 Hlook) as [Hnotin _].
    eexists. split_and!; [reflexivity|exact Hnotin|reflexivity|reflexivity|].
    intros x Hx. exact (SimpleHashMap.elem_of_remove_element _ _ _ Hx).
Qed.


(** The state of [this] once its count has gone from one to zero and it
    has been released from [_states]. *)
Definition released_state (st : State) : State :=
  with_saved_entry (-1) (with_ref_counts (fun n => n - 1) (fun c => c) st).

(** [unref] on the last reference, with the cache on and no garbage
    collection: the cycle check does not apply, the count goes to zero,
    the state is released, and what is left to run is
    [remove_cache_pointers]. *)
Lemma unref_last_reference w this st :
  state_cache (config w) = true ->
  garbage_collect_states (config w) = false ->
  heap w !! this = Some st -> ref_count st = 1 -> interner_inv w ->
  exists w2,
    (this ∉ _states w2)
    /\ heap w2 = <[this := released_state st]> (heap w)
    /\ config w2 = config w
    /\ (forall x, x ∈ _states w2 -> x ∈ _states w)
    /\ forall fuel,
         unref (S fuel) this w
         = (remove_cache_pointers (unref fuel) this ;; ret false) w2.
Proof.
  intros Hsc Hgc Hst Hrc Hinv.
  set (st1 := with_ref_counts (fun n => n - 1) (fun c => c) st).
  set (w1 := with_heap (insert this st1) w).
  assert (heap w1 !! this = Some st1) as Hst1 by apply lookup_insert_eq.
  assert (interner_inv w1) as Hinv1.
  { refine (interner_inv_ext w w1 eq_refl _ _ Hinv).
    - intros x st' Hx. subst w1. cbn [heap with_heap] in Hx.
      destruct (decide (x = this)) as [->|Hne].
      + rewrite lookup_insert_eq in Hx. injection Hx as <-.
        exists st. split_and!; [exact Hst|reflexivity..].
      + rewrite lookup_insert_ne in Hx by congruence.
        exists st'. split_and!; [exact Hx|reflexivity..].
    - intros x stx Hx. subst w1. cbn [heap with_heap].
      destruct (decide (x = this)) as [->|Hne].
      + rewrite lookup_insert_eq. by eexists.
      + rewrite lookup_insert_ne by congruence. by eexists. }
  destruct (release_new_spec w1 this st1 Hst1 Hinv1)
    as (w2 & Hrel & Hnotin & Hheap & Hcfg & Hsub).
  exists w2. split_and!.
  - exact Hnotin.
  - rewrite Hheap. subst w1. cbn [heap with_heap].
    apply insert_insert_eq.
  - exact Hcfg.
  - exact Hsub.
  - intros fuel. cbn [unref]. unfold unref_body.
    rewrite bind_get_config, Hsc, Hgc. cbn [negb orb].
    assert (forall m : M unit,
               (when (auto_break_cycles (config w) && uniquify_states (config w))
                  (let* st := deref this in
                   when ((0 <? get_cache_ref_count st)
                         && (get_ref_count st =? get_cache_ref_count st + 1))
                     m)) w = Some (tt, w)) as Hskip.
    { intros m. destruct (_ && _); [|reflexivity]. unfold when at 1.
      rewrite (bind_deref _ _ _ _ Hst). unfold get_ref_count, get_cache_ref_count.
      rewrite Hrc.
      destruct (Z.ltb_spec 0 (cache_ref_count st)),
        (Z.eqb_spec 1 (cache_ref_count st + 1)); try reflexivity. lia. }
    rewrite (bind_Some _ _ _ _ _ (Hskip _)).
    assert (ReferenceCount_unref this w = Some (false, w1)) as Hun.
    { unfold ReferenceCount_unref. rewrite (bind_update _ _ _ _ _ Hst).
      fold st1. fold w1. rewrite (bind_deref _ _ _ _ Hst1).
      unfold ret. do 2 f_equal. subst st1. cbn. rewrite Hrc. reflexivity. }
    rewrite (bind_Some _ _ _ _ _ Hun).
    rewrite (bind_Some _ _ _ _ _ Hrel). reflexivity.
Qed.

(** What C6 asks of the world [unref] leaves: the state is not in
    [_states], is not marked as saved, and its caches are empty. *)
Definition released (this : N) (w : World) : Prop :=
  (this ∉ _states w)
  /\ forall st, heap w !! this = Some st ->
       _saved_entry st = -1
       /\ _composition_cache st = [] /\ _invert_composition_cache st = [].

Lemma remove_cache_pointers_released fuel this w w' st :
  (this ∉ _states w) -> heap w !! this = Some st -> _saved_entry st = -1 ->
  remove_cache_pointers (unref fuel) this w = Some (tt, w') ->
  released this w'.
Proof.
  intros Hnotin Hst Hse Hrun.
  pose proof (preserves_remove_cache_pointers this (unref fuel)
                (preserves_unref this fuel) this w tt w' Hrun) as [Hk1 Hk2].
  unfold remove_cache_pointers in Hrun.
  apply bind_Some_inv in Hrun as (st0 & w0 & Hd & Hrun).
  unfold deref in Hd. rewrite Hst in Hd. injection Hd as <- <-.
  apply bind_Some_inv in Hrun as ([] & w3 & Hloop1 & Hrun).
  apply bind_Some_inv in Hrun as (st3 & w3' & Hd & Hloop2).
  unfold deref in Hd. destruct (heap w3 !! this) as [st3'|] eqn:Hst3;
    [|discriminate Hd]. injection Hd as E1 E2. subst st3' w3'.
  pose proof (remove_cache_pointers_loop_exit _ _ _ _ _ _ _ Hloop1 st3 Hst3)
    as Hempty1.
  pose proof (remove_cache_pointers_loop_exit _ _ _ _ _ _ _ Hloop2) as Hempty2.
  pose proof (preserves_remove_cache_pointers_loop this (unref fuel)
                (preserves_unref this fuel) _ _ _ this
                (shrinks_invert_composition_cache) w3 tt w' Hloop2)
    as [_ Hk3].
  split; [exact (Hk1 Hnotin)|]. intros st' Hst'. split_and!.
  - destruct (Hk2 st' Hst') as (st0 & Hst0 & Hs & _).
    rewrite Hst in Hst0. injection Hst0 as <-. exact (Hs Hse).
  - destruct (Hk3 st' Hst') as (st3'' & Hst3' & _ & Hc & _).
    rewrite Hst3 in Hst3'. injection Hst3' as <-. exact (Hc Hempty1).
  - exact (Hempty2 st' Hst').
Qed.


(** *** Releasing a state whose cached results stay alive *)

(** What the release of a record lets go of: the result it holds,
    unless that is the owner of the cache itself. *)
Definition to_release (owner : N) (comp : Composition) : list N :=
  match _result comp with
  | Some result => if bool_decide (result = owner) then [] else [result]
  | None => []
  end.

(** Every state of the list [D] holds a cache reference for each time it
    is listed, and a reference that is not a cache's. *)
Definition budget (D : list N) (w : World) : Prop :=
  forall r, r ∈ D ->
    exists rst, heap w !! r = Some rst
      /\ Z.of_nat (count_occ N.eq_dec D r) <= cache_ref_count rst
      /\ cache_ref_count rst < ref_count rst.

(** Only reference counts differ, and no count that was zero does. *)
Definition recounted (w w' : World) : Prop :=
  config w' = config w /\ _states w' = _states w
  /\ forall x a, heap w !! x = Some a ->
       exists b, heap w' !! x = Some b
         /\ _saved_entry b = _saved_entry a
         /\ _composition_cache b = _composition_cache a
         /\ _invert_composition_cache b = _invert_composition_cache a
         /\ (ref_count a = 0 -> ref_count b = 0).

Lemma recounted_refl w : recounted w w.
Proof. split_and!; [done..|]. intros x a Hx. exists a. done. Qed.

Lemma budget_Permutation D D' w : D ≡ₚ D' -> budget D w -> budget D' w.
Proof.
  intros Hp Hb r Hr. rewrite <- Hp in Hr.
  destruct (Hb r Hr) as (rst & Hrst & Hc & Hlt). exists rst.
  split_and!; [exact Hrst| |exact Hlt].
  rewrite <- (proj1 (Permutation_count_occ N.eq_dec D D') Hp r). exact Hc.
Qed.

Lemma budget_frame D w w' :
  (forall x a, heap w !! x = Some a ->
     exists b, heap w' !! x = Some b
               /\ ref_count b = ref_count a
               /\ cache_ref_count b = cache_ref_count a) ->
  budget D w -> budget D w'.
Proof.
  intros Hf Hb r Hr. destruct (Hb r Hr) as (rst & Hrst & Hc & Hlt).
  destruct (Hf r rst Hrst) as (b & Hb' & Hrc & Hcrc). exists b.
  split_and!; [exact Hb'|lia|lia].
Qed.

Lemma budget_update D w p st g :
  heap w !! p = Some st ->
  ref_count (g st) = ref_count st ->
  cache_ref_count (g st) = cache_ref_count st ->
  budget D w -> budget D (with_heap (insert p (g st)) w).
Proof.
  intros Hp Hrc Hcrc. apply budget_frame. intros x a Hx. cbn [heap with_heap].
  destruct (decide (x = p)) as [->|Hne].
  - rewrite lookup_insert_eq. exists (g st). split; [done|].
    assert (a = st) as -> by congruence. done.
  - rewrite lookup_insert_ne by congruence. by exists a.
Qed.

(** Dropping a cache reference of a state that keeps others. *)
Lemma cache_unref_delete_survives fuel r w rst :
  state_cache (config w) = true ->
  garbage_collect_states (config w) = false ->
  heap w !! r = Some rst ->
  1 <= cache_ref_count rst -> cache_ref_count rst < ref_count rst ->
  cache_unref_delete (unref (S fuel)) r w
  = Some (tt,
          with_heap
            (insert r (with_ref_counts (fun n => n - 1) (fun c => c - 1) rst))
            w).
Proof.
  intros Hsc Hgc Hr Hcrc Hlt. unfold cache_unref_delete, cache_unref_only.
  rewrite (bind_update _ _ _ _ _ Hr).
  set (rst1 := with_ref_counts (fun n => n) (fun c => c - 1) rst).
  set (w1 := with_heap (insert r rst1) w).
  assert (heap w1 !! r = Some rst1) as Hr1 by apply lookup_insert_eq.
  assert (unref (S fuel) r w1
          = Some (true,
                  with_heap
                    (insert r
                       (with_ref_counts (fun n => n - 1) (fun c => c) rst1))
                    w1)) as Hun.
  { cbn [unref]. unfold unref_body. rewrite bind_get_config.
    change (config w1) with (config w). rewrite Hsc, Hgc. cbn [negb orb].
    assert (forall m : M unit,
               (when (auto_break_cycles (config w) && uniquify_states (config w))
                  (let* st := deref r in
                   when ((0 <? get_cache_ref_count st)
                         && (get_ref_count st =? get_cache_ref_count st + 1))
                     m)) w1 = Some (tt, w1)) as Hskip.
    { intros m. destruct (_ && _); [|reflexivity]. unfold when at 1.
      rewrite (bind_deref _ _ _ _ Hr1).
      unfold get_ref_count, get_cache_ref_count. subst rst1. cbn.
      destruct (Z.eqb_spec (ref_count rst) (cache_ref_count rst - 1 + 1));
        [lia|]. rewrite andb_false_r. reflexivity. }
    rewrite (bind_Some _ _ _ _ _ (Hskip _)).
    assert (ReferenceCount_unref r w1
            = Some (true,
                    with_heap
                      (insert r
                         (with_ref_counts (fun n => n - 1) (fun c => c) rst1))
                      w1)) as Hdec.
    { unfold ReferenceCount_unref. rewrite (bind_update _ _ _ _ _ Hr1).
      rewrite (bind_deref _ _ _ _ (lookup_insert_eq _ _ _)).
      unfold ret. do 2 f_equal. subst rst1. cbn.
      destruct (Z.eqb_spec (ref_count rst - 1) 0); [lia|reflexivity]. }
    rewrite (bind_Some _ _ _ _ _ Hdec). reflexivity. }
  rewrite (bind_Some _ _ _ _ _ Hun). cbn [negb]. unfold when, ret.
  do 2 f_equal. subst w1 rst1. unfold with_heap. cbn.
  rewrite insert_insert_eq. reflexivity.
Qed.

Lemma release_budget fuel owner comp D w :
  state_cache (config w) = true ->
  garbage_collect_states (config w) = false ->
  budget (to_release owner comp ++ D) w ->
  exists w',
    match _result comp with
    | Some result =>
        when (negb (bool_decide (result = owner)))
          (cache_unref_delete (unref (S fuel)) result)
    | None => ret tt
    end w = Some (tt, w')
    /\ budget D w' /\ recounted w w'.
Proof.
  intros Hsc Hgc Hb. unfold to_release in Hb.
  destruct (_result comp) as [r|];
    [|exists w; split_and!; [reflexivity|exact Hb|apply recounted_refl]].
  destruct (decide (r = owner)) as [Heq|Hne].
  { rewrite bool_decide_eq_true_2 in Hb |- * by exact Heq.
    exists w. split_and!; [reflexivity|exact Hb|apply recounted_refl]. }
  rewrite bool_decide_eq_false_2 in Hb |- * by exact Hne.
  cbn [negb app] in Hb |- *. unfold when.
  destruct (Hb r) as (rst & Hr & Hc & Hlt); [apply elem_of_cons; by left|].
  rewrite count_occ_cons_eq in Hc by reflexivity.
  rewrite (cache_unref_delete_survives fuel r w rst Hsc Hgc Hr ltac:(lia) Hlt).
  eexists. split; [reflexivity|]. split.
  - intros r' Hr'. destruct (decide (r' = r)) as [->|Hne'].
    + eexists. split; [apply lookup_insert_eq|]. cbn. lia.
    + destruct (Hb r') as (rst' & Hr'' & Hc' & Hlt');
        [apply elem_of_cons; by right|].
      rewrite count_occ_cons_neq in Hc' by congruence.
      exists rst'. split; [|done]. cbn [heap with_heap].
      rewrite lookup_insert_ne by congruence. exact Hr''.
  - split_and!; [reflexivity..|]. intros x a Hx. cbn [heap with_heap].
    destruct (decide (x = r)) as [->|Hne'].
    + rewrite lookup_insert_eq. eexists. split; [reflexivity|].
      assert (a = rst) as -> by congruence. split_and!; [reflexivity..|].
      intros Hz. lia.
    + rewrite lookup_insert_ne by congruence. exists a. done.
Qed.


Lemma flat_map_ext_in {A B : Type} (f g : A -> list B) (l : list A) :
  (forall x, x ∈ l -> f x = g x) -> flat_map f l = flat_map g l.
Proof.
  induction l as [|x l IH]; intros H; [reflexivity|]. cbn [flat_map].
  rewrite (H x) by (apply elem_of_cons; by left). f_equal.
  apply IH. intros y Hy. apply H. apply elem_of_cons. by right.
Qed.

Section SurvivingLoop.
Variable cache_of other_of : State -> list (N * Composition).
Variable with_cache :
  (list (N * Composition) -> list (N * Composition)) -> State -> State.
Hypothesis cache_of_with_cache :
  forall f st, cache_of (with_cache f st) = f (cache_of st).
Hypothesis with_cache_frame :
  forall f st,
    other_of (with_cache f st) = other_of st
    /\ _saved_entry (with_cache f st) = _saved_entry st
    /\ ref_count (with_cache f st) = ref_count st
    /\ cache_ref_count (with_cache f st) = cache_ref_count st.
Hypothesis caches_split :
  forall a b,
    _composition_cache b = _composition_cache a ->
    _invert_composition_cache b = _invert_composition_cache a ->
    cache_of b = cache_of a /\ other_of b = other_of a.
Variable this : N.

(** What the record that [other] keeps for [this] lets go of. *)
Definition paired_release (w : World) (other : N) : list N :=
  if bool_decide (other = this) then []
  else
    match heap w !! other with
    | Some ost =>
        let oi := cache_find (cache_of ost) this in
        if oi =? -1 then []
        else
          match cache_of ost !! Z.to_nat oi with
          | Some (_, ocomp) => to_release other ocomp
          | None => []
          end
    | None => []
    end.

(** What one round of the loop lets go of, and the whole loop. *)
Definition entry_release (w : World) (e : N * Composition) : list N :=
  paired_release w e.1 ++ to_release this e.2.

Definition loop_release (w : World) (cache : list (N * Composition))
    : list N :=
  flat_map (entry_release w) cache.

(** From [w] to [w'] every state stays allocated, with the same mark and
    the same other cache; a count of zero stays; the cache only loses
    entries, and none outside of [changed]. *)
Definition moves (changed : list N) (w w' : World) : Prop :=
  config w' = config w /\ _states w' = _states w
  /\ forall x a, heap w !! x = Some a ->
       exists b, heap w' !! x = Some b
         /\ _saved_entry b = _saved_entry a
         /\ other_of b = other_of a
         /\ (ref_count a = 0 -> ref_count b = 0)
         /\ (forall e, e ∈ cache_of b -> e ∈ cache_of a)
         /\ (x ∉ changed -> cache_of b = cache_of a).

Lemma moves_refl changed w : moves changed w w.
Proof. split_and!; [done..|]. intros x a Hx. exists a. done. Qed.

Lemma moves_trans X Y w1 w2 w3 :
  moves X w1 w2 -> moves Y w2 w3 -> moves (X ++ Y) w1 w3.
Proof.
  intros (Hc1 & Hs1 & H1) (Hc2 & Hs2 & H2).
  split_and!; [congruence|congruence|]. intros x a Hx.
  destruct (H1 x a Hx) as (b & Hb & Hse & Ho & Hz & Hsub & Hsame).
  destruct (H2 x b Hb) as (c & Hc & Hse' & Ho' & Hz' & Hsub' & Hsame').
  exists c. split_and!; [exact Hc|congruence|congruence|auto|auto|].
  intros Hnot. rewrite Hsame', Hsame; [reflexivity|..];
    intros Hin; apply Hnot, elem_of_app; auto.
Qed.

Lemma moves_recounted w w' : recounted w w' -> moves [] w w'.
Proof.
  intros (Hc & Hs & H). split_and!; [done..|]. intros x a Hx.
  destruct (H x a Hx) as (b & Hb & Hse & Hcc & Hicc & Hz).
  destruct (caches_split a b Hcc Hicc) as [Hco Hoo].
  exists b. split_and!; [done..| |done]. intros e. by rewrite Hco.
Qed.

Lemma moves_update w p st i :
  heap w !! p = Some st ->
  moves [p] w
    (with_heap (insert p (with_cache (SimpleHashMap.remove_element i) st)) w).
Proof.
  intros Hp. split_and!; [done..|]. intros x a Hx. cbn [heap with_heap].
  destruct (decide (x = p)) as [->|Hne].
  - rewrite lookup_insert_eq. eexists. split; [reflexivity|].
    assert (a = st) as -> by congruence.
    destruct (with_cache_frame (SimpleHashMap.remove_element i) st)
      as (Ho & Hse & Hrc & _).
    split_and!; [exact Hse|exact Ho|congruence| |].
    + intros e. rewrite cache_of_with_cache.
      apply SimpleHashMap.elem_of_remove_element.
    + intros Hnot. exfalso. apply Hnot. apply elem_of_cons. by left.
  - rewrite lookup_insert_ne by congruence. exists a. done.
Qed.

Lemma paired_release_ext w w' other :
  (other <> this ->
   exists a b, heap w !! other = Some a /\ heap w' !! other = Some b
               /\ cache_of b = cache_of a) ->
  paired_release w' other = paired_release w other.
Proof.
  intros H. unfold paired_release.
  destruct (decide (other = this)) as [Heq|Hne].
  - by rewrite !bool_decide_eq_true_2.
  - destruct (H Hne) as (a & b & -> & -> & ->). reflexivity.
Qed.

Lemma remove_cache_pointers_loop_surviving fuel (n : nat) :
  forall w st P,
    state_cache (config w) = true ->
    garbage_collect_states (config w) = false ->
    heap w !! this = Some st -> length (cache_of st) = n ->
    NoDup (cache_of st).*1 ->
    (forall e, e ∈ cache_of st -> is_Some (heap w !! e.1)) ->
    budget (loop_release w (cache_of st) ++ P) w ->
    exists w' changed,
      remove_cache_pointers_loop (unref (S fuel)) n cache_of with_cache this w
      = Some (tt, w')
      /\ budget P w' /\ moves changed w w'.
Proof.
  induction n as [|n IH]; intros w st P Hsc Hgc Hst Hlen Hnd Hkeys Hb.
  - cbn [remove_cache_pointers_loop]. rewrite (bind_deref _ _ _ _ Hst).
    destruct (cache_of st); [|discriminate Hlen].
    exists w, []. split_and!; [reflexivity|exact Hb|apply moves_refl].
  - cbn [remove_cache_pointers_loop]. rewrite (bind_deref _ _ _ _ Hst).
    destruct (cache_of st) as [|[other comp] rest] eqn:Hcache;
      [discriminate Hlen|].
    unfold loop_release in Hb. cbn [flat_map] in Hb.
    fold (loop_release w rest) in Hb.
    unfold entry_release at 1 in Hb. cbn [fst snd] in Hb.
    rewrite <- !app_assoc in Hb.
    rewrite (bind_update _ _ _ _ _ Hst).
    set (st1 := with_cache (SimpleHashMap.remove_element 0) st).
    set (w1 := with_heap (insert this st1) w).
    pose proof (moves_update w this st 0 Hst) as Hm1. fold st1 w1 in Hm1.
    assert (heap w1 !! this = Some st1) as Hst1 by apply lookup_insert_eq.
    destruct (with_cache_frame (SimpleHashMap.remove_element 0) st)
      as (_ & _ & Hrc1 & Hcrc1).
    pose proof (budget_update _ w this st _ Hst Hrc1 Hcrc1 Hb) as Hb1.
    fold st1 w1 in Hb1.
    assert (cache_of st1 = SimpleHashMap.remove_element 0 (cache_of st))
      as Hcache1 by apply cache_of_with_cache.
    (* the record that [other] keeps for this state *)
    assert (exists w2,
               (when (negb (bool_decide (other = this)))
                  (let* ost := deref other in
                   let oi := cache_find (cache_of ost) this in
                   when (negb (oi =? -1))
                     match cache_of ost !! Z.to_nat oi with
                     | Some (_, ocomp) =>
                         update other
                           (with_cache
                              (SimpleHashMap.remove_element (Z.to_nat oi))) ;;
                         match _result ocomp with
                         | Some result =>
                             when (negb (bool_decide (result = other)))
                               (cache_unref_delete (unref (S fuel)) result)
                         | None => ret tt
                         end
                     | None => fail
                     end)) w1 = Some (tt, w2)
               /\ budget (to_release this comp ++ loop_release w rest ++ P) w2
               /\ moves [other] w1 w2) as (w2 & Hpaired & Hb2 & Hm2).
    { unfold paired_release in Hb1.
      destruct (decide (other = this)) as [Heq|Hne].
      - rewrite bool_decide_eq_true_2 in Hb1 |- * by exact Heq.
        exists w1. split_and!; [reflexivity|exact Hb1|apply moves_refl].
      - rewrite bool_decide_eq_false_2 in Hb1 |- * by exact Hne.
        cbn [negb]. unfold when at 1.
        destruct (Hkeys (other, comp)) as [ost Host];
          [apply elem_of_cons; by left|].
        cbn [fst] in Host. rewrite Host in Hb1.
        assert (heap w1 !! other = Some ost) as Host1.
        { subst w1. cbn [heap with_heap]. rewrite lookup_insert_ne by congruence.
          exact Host. }
        rewrite (bind_deref _ _ _ _ Host1). cbv zeta in Hb1 |- *.
        destruct (Z.eqb_spec (cache_find (cache_of ost) this) (-1)) as [Hoi|Hoi].
        + exists w1. split_and!; [reflexivity|exact Hb1|apply moves_refl].
        + cbn [negb]. unfold when at 1.
          destruct (cache_find_Some _ _ Hoi) as (ocomp & Hlook).
          rewrite Hlook in Hb1 |- *.
          rewrite (bind_update _ _ _ _ _ Host1).
          set (oi := Z.to_nat (cache_find (cache_of ost) this)) in *.
          destruct (with_cache_frame (SimpleHashMap.remove_element oi) ost)
            as (_ & _ & Hrco & Hcrco).
          pose proof (budget_update _ w1 other ost _ Host1 Hrco Hcrco Hb1)
            as Hb1'.
          destruct (release_budget fuel other ocomp _
                      (with_heap
                         (insert other
                            (with_cache (SimpleHashMap.remove_element oi) ost))
                         w1)
                      Hsc Hgc Hb1')
            as (w2 & Hrun & Hb2 & Hrec).
          exists w2. split_and!; [exact Hrun|exact Hb2|].
          pose proof (moves_trans _ _ _ _ _ (moves_update w1 other ost oi Host1)
                        (moves_recounted _ _ Hrec)) as Hm.
          rewrite app_nil_r in Hm. exact Hm. }
    rewrite (bind_Some _ _ _ _ _ Hpaired).
    assert (state_cache (config w2) = true) as Hsc2.
    { destruct Hm2 as (-> & _). exact Hsc. }
    assert (garbage_collect_states (config w2) = false) as Hgc2.
    { destruct Hm2 as (-> & _). exact Hgc. }
    (* the result this state holds *)
    destruct (release_budget fuel this comp _ w2 Hsc2 Hgc2 Hb2)
      as (w3 & Hown & Hb3 & Hrec3).
    rewrite (bind_Some _ _ _ _ _ Hown).
    pose proof (moves_trans _ _ _ _ _ Hm1
                  (moves_trans _ _ _ _ _ Hm2 (moves_recounted _ _ Hrec3)))
      as Hm. rewrite app_nil_r in Hm. cbn [app] in Hm.
    pose proof Hm as (Hcfg3 & _ & Hfwd).
    (* the state of [this] after the round *)
    destruct (moves_trans _ _ _ _ _ Hm2 (moves_recounted _ _ Hrec3))
      as (_ & _ & Hfwd13).
    destruct (Hfwd13 this st1 Hst1) as (st3 & Hst3 & _ & _ & _ & Hsub3 & Hsame3).
    assert (other ∉ rest.*1) as Hother.
    { cbn [fmap list_fmap fst] in Hnd.
      apply NoDup_cons in Hnd as [Hnotin _]. exact Hnotin. }
    assert (cache_of st3 = cache_of st1) as Hcache3.
    { destruct (decide (other = this)) as [Heq|Hne].
      - rewrite bool_decide_eq_true_2 in Hpaired by exact Heq.
        injection Hpaired as <-.
        destruct Hrec3 as (_ & _ & Hr3).
        destruct (Hr3 this st1 Hst1) as (b & Hb' & _ & Hcc & Hicc & _).
        assert (b = st3) as -> by congruence.
        exact (proj1 (caches_split st1 st3 Hcc Hicc)).
      - apply Hsame3. rewrite app_nil_r. intros Hin.
        apply list_elem_of_singleton in Hin. congruence. }
    assert (cache_of st3 ≡ₚ rest) as Hperm.
    { rewrite Hcache3, Hcache1, Hcache.
      apply SimpleHashMap.remove_element_0_Permutation. }
    destruct (IH w3 st3 P) as (w' & changed & Hrun & Hb' & Hm').
    + rewrite Hcfg3. exact Hsc.
    + rewrite Hcfg3. exact Hgc.
    + exact Hst3.
    + rewrite Hperm. cbn [length] in Hlen. lia.
    + rewrite Hperm. cbn [fmap list_fmap] in Hnd.
      by apply NoDup_cons in Hnd as [_ Hnd'].
    + intros e He. rewrite Hperm in He.
      destruct (Hkeys e) as [a Ha];
        [apply elem_of_cons; by right|].
      destruct (Hfwd e.1 a Ha) as (b & Hb' & _). by exists b.
    + assert (loop_release w3 (cache_of st3) ≡ₚ loop_release w rest) as Hrel.
      { unfold loop_release. rewrite Hperm.
        rewrite (flat_map_ext_in (entry_release w3) (entry_release w) rest);
          [reflexivity|].
        intros e He. unfold entry_release. f_equal.
        apply paired_release_ext. intros Hne.
        destruct (Hkeys e) as [a Ha];
          [apply elem_of_cons; by right|].
        destruct (Hfwd e.1 a Ha) as (b & Hb' & _ & _ & _ & _ & Hsame).
        exists a, b. split_and!; [exact Ha|exact Hb'|].
        apply Hsame. intros Hin. apply elem_of_cons in Hin as [Hin|Hin];
          [congruence|].
        apply list_elem_of_singleton in Hin. apply Hother.
        rewrite <- Hin. apply list_elem_of_fmap. by exists e. }
      apply (budget_Permutation (loop_release w rest ++ P)); [|exact Hb3].
      by rewrite Hrel.
    + exists w', ([this; other] ++ changed).
      split_and!; [exact Hrun|exact Hb'|].
      exact (moves_trans _ _ _ _ _ Hm Hm').
Qed.


End SurvivingLoop.


(** The release of [this] lets go of no last reference: the keys of its
    caches are distinct and allocated, and every state it drops cache
    references of holds that many, and a reference that is not a
    cache's. *)
Definition all_release (this : N) (w : World) (st : State) : list N :=
  loop_release _composition_cache this w (_composition_cache st)
  ++ loop_release _invert_composition_cache this w
       (_invert_composition_cache st).

Definition survivable (this : N) (w : World) : Prop :=
  exists st, heap w !! this = Some st
    /\ NoDup (_composition_cache st).*1
    /\ NoDup (_invert_composition_cache st).*1
    /\ (forall e, e ∈ _composition_cache st -> is_Some (heap w !! e.1))
    /\ (forall e, e ∈ _invert_composition_cache st ->
          is_Some (heap w !! e.1))
    /\ budget (all_release this w st) w.

Lemma remove_cache_pointers_surviving fuel this w st :
  state_cache (config w) = true ->
  garbage_collect_states (config w) = false ->
  heap w !! this = Some st ->
  NoDup (_composition_cache st).*1 ->
  NoDup (_invert_composition_cache st).*1 ->
  (forall e, e ∈ _composition_cache st -> is_Some (heap w !! e.1)) ->
  (forall e, e ∈ _invert_composition_cache st -> is_Some (heap w !! e.1)) ->
  budget (all_release this w st) w ->
  exists w' st',
    remove_cache_pointers (unref (S fuel)) this w = Some (tt, w')
    /\ heap w' !! this = Some st'
    /\ (ref_count st = 0 -> ref_count st' = 0).
Proof.
  intros Hsc Hgc Hst Hnd1 Hnd2 Hk1 Hk2 Hb.
  unfold remove_cache_pointers. rewrite (bind_deref _ _ _ _ Hst).
  destruct (remove_cache_pointers_loop_surviving
              _composition_cache _invert_composition_cache
              with_composition_cache
              (fun _ _ => eq_refl)
              (fun _ _ => conj eq_refl (conj eq_refl (conj eq_refl eq_refl)))
              (fun a b H1 H2 => conj H1 H2)
              this fuel _ w st _ Hsc Hgc Hst eq_refl Hnd1 Hk1 Hb)
    as (w3 & changed & Hloop1 & Hb3 & Hm3).
  rewrite (bind_Some _ _ _ _ _ Hloop1).
  destruct Hm3 as (Hcfg3 & _ & Hfwd3).
  destruct (Hfwd3 this st Hst) as (st3 & Hst3 & _ & Hicc3 & Hz3 & _).
  rewrite (bind_deref _ _ _ _ Hst3).
  destruct (remove_cache_pointers_loop_surviving
              _invert_composition_cache _composition_cache
              with_invert_composition_cache
              (fun _ _ => eq_refl)
              (fun _ _ => conj eq_refl (conj eq_refl (conj eq_refl eq_refl)))
              (fun a b H1 H2 => conj H2 H1)
              this fuel (length (_invert_composition_cache st3)) w3 st3 [])
    as (w' & changed' & Hloop2 & _ & Hm').
  - rewrite Hcfg3. exact Hsc.
  - rewrite Hcfg3. exact Hgc.
  - exact Hst3.
  - reflexivity.
  - rewrite Hicc3. exact Hnd2.
  - intros e He. rewrite Hicc3 in He. destruct (Hk2 e He) as [a Ha].
    destruct (Hfwd3 e.1 a Ha) as (b & Hb' & _). by exists b.
  - rewrite app_nil_r, Hicc3. unfold loop_release in Hb3 |- *.
    rewrite (flat_map_ext_in
               (entry_release _invert_composition_cache this w3)
               (entry_release _invert_composition_cache this w)
               (_invert_composition_cache st)); [exact Hb3|].
    intros e He. unfold entry_release. f_equal.
    apply paired_release_ext. intros _. destruct (Hk2 e He) as [a Ha].
    destruct (Hfwd3 e.1 a Ha) as (b & Hb' & _ & Ho & _).
    exists a, b. split_and!; [exact Ha|exact Hb'|exact Ho].
  - destruct Hm' as (_ & _ & Hfwd').
    destruct (Hfwd' this st3 Hst3) as (st' & Hst' & _ & _ & Hz' & _).
    exists w', st'. split_and!; [exact Hloop2|exact Hst'|auto].
Qed.


(** *** Checking a concrete world *)

Definition wf_stateb (st : State) : bool :=
  (0 <=? _filled_slots st) && (_filled_slots st <? 2 ^ 32)
  && (length (_attributes st) =? SlotMask.max_slots)%nat
  && forallb
       (fun slot =>
          eqb (Z.testbit (_filled_slots st) slot)
            (match _attrib (attr_at (_attributes st) slot) with
             | Some _ => true
             | None => false
             end))
       (SlotMask.slots_from 0 SlotMask.max_slots).

Lemma wf_stateb_correct st : wf_stateb st = true -> wf_state st.
Proof.
  unfold wf_stateb. rewrite !andb_true_iff, forallb_forall.
  intros [[[H0 H32] Hlen] Hall].
  apply Z.leb_le in H0. apply Z.ltb_lt in H32. apply Nat.eqb_eq in Hlen.
  split_and!.
  - intros slot Hs. split.
    + destruct (Z.le_gt_cases 0 slot) as [|Hneg]; [done|].
      by rewrite Z.testbit_neg_r in Hs by lia.
    + destruct (Z.lt_ge_cases slot (Z.of_nat SlotMask.max_slots)) as [|Hge];
        [done|].
      destruct (Z.eq_dec (_filled_slots st) 0) as [Hz|Hnz].
      * rewrite Hz, Z.bits_0 in Hs. done.
      * rewrite Z.bits_above_log2 in Hs; [done|lia|].
        assert (Z.log2 (_filled_slots st) < 32); [|unfold SlotMask.max_slots in *; lia].
        apply Z.log2_lt_pow2; lia.
  - exact Hlen.
  - intros slot Hr. specialize (Hall slot).
    rewrite <- list_elem_of_In, SlotMask.elem_of_slots_from in Hall.
    specialize (Hall ltac:(lia)). apply eqb_prop in Hall. rewrite Hall.
    destruct (_attrib (attr_at (_attributes st) slot)); split; done.
Qed.

#[local] Instance Composition_eq_dec : EqDecision Composition.
Proof. solve_decision. Defined.

(** A world is checked state by state: the table entries are allocated
    and well formed, and no cache holds an entry yet. *)
Definition checked_world (w : World) : bool :=
  forallb
    (fun q => match heap w !! q with
              | Some r => wf_stateb r
              | None => false
              end)
    (_states w)
  && bool_decide
       (map_Forall
          (fun _ st => _composition_cache st = []
                       /\ _invert_composition_cache st = [])
          (heap w)).

Lemma checked_world_table_wf w : checked_world w = true -> table_wf w.
Proof.
  unfold checked_world. rewrite andb_true_iff, forallb_forall.
  intros [Hall _] q Hq. apply list_elem_of_In, Hall in Hq.
  destruct (heap w !! q) as [r|]; [|done].
  exists r. split; [done|]. by apply wf_stateb_correct.
Qed.

Lemma checked_world_cache_coherent w :
  checked_world w = true -> cache_coherent w.
Proof.
  unfold checked_world. rewrite andb_true_iff.
  intros [_ Hcaches%bool_decide_eq_true].
  intros this st other ost i comp result Hst _ _.
  destruct (Hcaches this st Hst) as [-> ->]. split; intros H; done.
Qed.

Definition canonicalb (st : State) : bool :=
  forallb
    (fun slot =>
       match _attrib (attr_at (_attributes st) slot) with
       | Some p => bool_decide (RenderAttrib.do_uniquify p = p)
       | None => true
       end)
    (SlotMask.slots_from 0 SlotMask.max_slots).

Lemma canonicalb_correct st :
  wf_state st -> canonicalb st = true -> canonical_attribs st.
Proof.
  intros (Hwf & _) Hall slot p Hbit Hp.
  unfold canonicalb in Hall. rewrite forallb_forall in Hall.
  specialize (Hall slot).
  rewrite <- list_elem_of_In, SlotMask.elem_of_slots_from in Hall.
  pose proof (Hwf slot Hbit) as Hr.
  specialize (Hall ltac:(lia)). rewrite Hp in Hall.
  by apply bool_decide_eq_true in Hall.
Qed.

(** The invariant of the intern table, checked entry by entry. *)
Definition interner_invb (w : World) : bool :=
  forallb
    (fun q => match heap w !! q with
              | Some r =>
                  wf_stateb r && canonicalb r && negb (_saved_entry r =? -1)
              | None => false
              end)
    (_states w)
  && bool_decide
       (map_Forall (fun q r => _saved_entry r = -1 \/ q ∈ _states w) (heap w))
  && forallb
       (fun q1 =>
          forallb
            (fun q2 =>
               match heap w !! q1, heap w !! q2 with
               | Some r1, Some r2 =>
                   negb (compare_to r1 r2 =? 0) || bool_decide (q1 = q2)
               | _, _ => true
               end)
            (_states w))
       (_states w)
  && bool_decide (NoDup (_states w)).

Lemma interner_invb_correct w : interner_invb w = true -> interner_inv w.
Proof.
  unfold interner_invb. rewrite !andb_true_iff, !forallb_forall.
  intros [[[H1 H2] H3] H4]. apply bool_decide_eq_true in H2, H4. split_and!.
  - intros q Hq. apply list_elem_of_In, H1 in Hq.
    destruct (heap w !! q) as [r|]; [|discriminate Hq].
    apply andb_true_iff in Hq as [Hq Hs]. apply andb_true_iff in Hq as [Hw Hc].
    pose proof (wf_stateb_correct r Hw) as Hwf.
    exists r. split_and!; [reflexivity|exact Hwf|by apply canonicalb_correct|].
    apply negb_true_iff, Z.eqb_neq in Hs. exact Hs.
  - intros q r Hr Hs. destruct (H2 q r Hr) as [H|H]; [contradiction|exact H].
  - intros q1 q2 r1 r2 Hq1 Hq2 Hr1 Hr2 Hc.
    apply list_elem_of_In in Hq1, Hq2. specialize (H3 q1 Hq1).
    rewrite forallb_forall in H3. specialize (H3 q2 Hq2).
    rewrite Hr1, Hr2, Hc in H3. cbn in H3.
    by apply bool_decide_eq_true in H3.
  - exact H4.
Qed.


(** The table [init_states] leaves satisfies the invariant, whatever the
    configuration. *)
Lemma initial_world_inv (cfg : Config) : interner_inv (initial_world cfg).
Proof.
  apply interner_invb_correct.
  destruct cfg as [[] [] [] [] []]; vm_compute; reflexivity.
Qed.


Definition budgetb (D : list N) (w : World) : bool :=
  forallb
    (fun r =>
       match heap w !! r with
       | Some rst =>
           (Z.of_nat (count_occ N.eq_dec D r) <=? cache_ref_count rst)
           && (cache_ref_count rst <? ref_count rst)
       | None => false
       end)
    D.

Lemma budgetb_correct D w : budgetb D w = true -> budget D w.
Proof.
  unfold budgetb. rewrite forallb_forall. intros Hall r Hr.
  apply list_elem_of_In, Hall in Hr.
  destruct (heap w !! r) as [rst|]; [|discriminate Hr].
  apply andb_true_iff in Hr as [Hc Hlt]. exists rst.
  split_and!; [reflexivity|by apply Z.leb_le|by apply Z.ltb_lt].
Qed.

Definition allocated_keysb (w : World) (cache : list (N * Composition))
    : bool :=
  forallb (fun e : N * Composition => bool_decide (is_Some (heap w !! e.1)))
    cache.

Definition survivableb (this : N) (w : World) : bool :=
  match heap w !! this with
  | Some st =>
      bool_decide (NoDup (_composition_cache st).*1)
      && bool_decide (NoDup (_invert_composition_cache st).*1)
      && allocated_keysb w (_composition_cache st)
      && allocated_keysb w (_invert_composition_cache st)
      && budgetb (all_release this w st) w
  | None => false
  end.

Lemma survivableb_correct this w :
  survivableb this w = true -> survivable this w.
Proof.
  unfold survivableb, survivable.
  destruct (heap w !! this) as [st|]; [|discriminate].
  rewrite !andb_true_iff. intros [[[[H1 H2] H3] H4] H5].
  apply bool_decide_eq_true in H1, H2.
  unfold allocated_keysb in H3, H4. rewrite forallb_forall in H3, H4.
  exists st. split_and!; [reflexivity|exact H1|exact H2| | |].
  - intros e He. apply list_elem_of_In, H3 in He.
    by apply bool_decide_eq_true in He.
  - intros e He. apply list_elem_of_In, H4 in He.
    by apply bool_decide_eq_true in He.
  - by apply budgetb_correct.
Qed.

(** **** C6: unref and the intern table *)



End Interner.

(** **** C9: removing from an unfilled slot returns the state itself *)

(** C9.  For every allocated state [this] and every slot whose entry
    holds no attribute, [remove_attrib] returns [this] itself, and
    nothing in the world changes. *)
Theorem remove_attrib_unfilled (w : World) (this : N) (st : State) (slot : Z) :
  heap w !! this = Some st ->
  _attrib (attr_at (_attributes st) slot) = None ->
  remove_attrib this slot w = Some (this, w).
Proof.
  intros Hst Hnull. unfold remove_attrib, bind, deref.
  rewrite Hst, Hnull. reflexivity.
Qed.

End Facts.

(** *** The scene of the witnesses

    The world after start-up with the state cache on, and the states
    [colour] (attribute 101 in slot 1, override 0) and [scale]
    (attribute 202 in slot 2, override 1) made in it. *)

Section Scene.
#[local] Existing Instance Fixture.attribs.

Definition world0 : World := initial_world Fixture.cache_on.

Definition empty_object : State :=
  mkState 0 (replicate SlotMask.max_slots (mkAttribute None 0)) 0 [] []
    0 local_ref_count 1.

Lemma world0_empty : heap world0 !! 0%N = Some empty_object.
Proof. vm_compute. reflexivity. Qed.

Lemma wf_empty_object : wf_state empty_object.
Proof. exact (wf_state_ext default_state empty_object eq_refl eq_refl wf_default_state). Qed.

Lemma world0_table_wf : table_wf world0.
Proof.
  intros q Hq. change (_states world0) with [0%N] in Hq.
  apply list_elem_of_singleton in Hq as ->. exists empty_object.
  split; [exact world0_empty|exact wf_empty_object].
Qed.

Lemma empty_object_registered : slots_registered empty_object.
Proof. intros slot Hs. cbn [_filled_slots empty_object] in Hs. by rewrite Z.bits_0 in Hs. Qed.

End Scene.

Lemma remove_attrib_unfilled_witness :
  heap world0 !! 0%N = Some empty_object
  /\ _attrib (attr_at (_attributes empty_object) 2) = None
  /\ remove_attrib (ops:=Fixture.attribs) 0 2 world0 = Some (0%N, world0).
Proof.
  split_and!; [exact world0_empty|reflexivity|].
  apply (remove_attrib_unfilled (ops:=Fixture.attribs) world0 0 empty_object 2).
  - exact world0_empty.
  - reflexivity.
Defined.


Section SceneStates.
#[local] Existing Instance Fixture.attribs.

(** The world after [colour = make(201, 0)] and [scale = make(202, 1)],
    which are the states 1 and 2. *)
Definition world_ab : World :=
  match (make 201 0 ;; make 202 1) world0 with
  | Some (_, w) => w
  | None => world0
  end.

Definition state_at (w : World) (p : N) : State :=
  default default_state (heap w !! p).

Lemma world_ab_checked : checked_world world_ab = true.
Proof. vm_compute. reflexivity. Qed.

End SceneStates.



Section SpareEmpty.
#[local] Existing Instance Fixture.attribs.

(** With the state cache off, [adjust_all_priorities] on the canonical
    empty state gives a second empty state: the interner returns what it
    is given. *)
Definition world_off : World := initial_world Fixture.cache_off.

Definition world_spare : World :=
  match adjust_all_priorities (_empty_state world_off) 1 world_off with
  | Some (_, w) => w
  | None => world_off
  end.

End SpareEmpty.

Lemma empty_identity_witness :
  compose (ops:=Fixture.attribs) 0 1 world_ab = Some (1%N, world_ab)
  /\ invert_compose (ops:=Fixture.attribs) 0 2 world_ab = Some (2%N, world_ab)
  /\ compose (ops:=Fixture.attribs) 1 0 world_ab = Some (1%N, world_ab)
  /\ invert_compose (ops:=Fixture.attribs) 1 1 world_ab = Some (0%N, world_ab).
Proof.
  destruct (empty_identity (ops:=Fixture.attribs) world_ab 1 2
              (state_at world_ab 1) (state_at world_ab 2)
              (state_at world_ab 0))
    as (H1 & H2 & H3 & _); [vm_compute; reflexivity..|].
  destruct H3 as [H3 H4]; [left; vm_compute; reflexivity|].
  split_and!; [exact H1|exact H2|exact H3|exact H4].
Defined.

(** C4 as claimed fails for a state that is empty without being the
    canonical empty state: state 1 of [world_spare], reached from the
    start-up world by [adjust_all_priorities]. *)
Lemma empty_identity_counterexample :
  let w := world_spare in
  let empty := _empty_state w in
  adjust_all_priorities (ops:=Fixture.attribs) (_empty_state world_off) 1
    world_off = Some (1%N, w)
  /\ is_empty (state_at w 1) = true
  /\ compose (ops:=Fixture.attribs) 1 empty w <> Some (1%N, w)
  /\ invert_compose (ops:=Fixture.attribs) 1 1 w <> Some (empty, w).
Proof.
  assert (heap world_spare !! 1%N = Some (state_at world_spare 1)) as H1
    by (vm_compute; reflexivity).
  assert (heap world_spare !! 0%N = Some (state_at world_spare 0)) as H0
    by (vm_compute; reflexivity).
  cbv zeta. change (_empty_state world_spare) with 0%N.
  split_and!.
  - vm_compute. reflexivity.
  - vm_compute. reflexivity.
  - rewrite (compose_empty_left (ops:=Fixture.attribs) world_spare 1 0 _ _ H1 H0)
      by (vm_compute; reflexivity).
    discriminate.
  - rewrite (invert_compose_empty_left (ops:=Fixture.attribs) world_spare 1 1
               _ _ H1 H1) by (vm_compute; reflexivity).
    discriminate.
Defined.


Section SceneComposition.
#[local] Existing Instance Fixture.attribs.

(** The state an operation returns, read in the world it leaves. *)
Definition result_state (m : M N) (w : World) : option State :=
  match m w with
  | Some (q, w') => heap w' !! q
  | None => None
  end.

(** The world after [tint = make(101, 0)] and [scale = make(202, 1)]: the
    states 1 and 2 fill one slot each, not the same one. *)
Definition world_cd : World :=
  match (make 101 0 ;; make 202 1) world0 with
  | Some (_, w) => w
  | None => world0
  end.

Lemma world_cd_checked : checked_world world_cd = true.
Proof. vm_compute. reflexivity. Qed.

Definition composed_ab : State :=
  default default_state (result_state (compose 1 2) world_ab).

Definition inverted_cd : State :=
  default default_state (result_state (invert_compose 1 2) world_cd).

End SceneComposition.

Lemma compose_override_rule_witness :
  exists q w' r,
    compose (ops:=Fixture.attribs) 1 2 world_ab = Some (q, w')
    /\ heap w' !! q = Some r
    /\ same_entry (ops:=Fixture.attribs) (attr_at (_attributes r) 2)
         (Attribute_set (Some 203%N) 1).
Proof.
  destruct (compose_override_rule (laws:=Fixture.attribs_laws) world_ab 1 2
              (state_at world_ab 1) (state_at world_ab 2))
    as (q & w' & r & Hrun & Hr & Hslot).
  1-2: vm_compute; reflexivity.
  1-2: apply wf_stateb_correct; vm_compute; reflexivity.
  1: exact (checked_world_table_wf _ world_ab_checked).
  1: exact (checked_world_cache_coherent _ world_ab_checked).
  exists q, w', r. split_and!; [exact Hrun|exact Hr|].
  assert (override_rule (ops:=Fixture.attribs)
            (attr_at (_attributes (state_at world_ab 1)) 2)
            (attr_at (_attributes (state_at world_ab 2)) 2) 201 202
          = Attribute_set (Some 203%N) 1) as E by (vm_compute; reflexivity).
  rewrite <- E. apply Hslot.
  - unfold SlotMask.max_slots. lia.
  - vm_compute. reflexivity.
  - vm_compute. reflexivity.
  - vm_compute. discriminate.
Defined.

(** C2 as claimed fails where the right operand has the higher override
    and the left attribute does not answer [lower_attrib_can_override]:
    the slot then holds the composition 203 of the attributes 201 and
    202, not a copy of the right operand's entry. *)
Lemma compose_override_rule_counterexample :
  let a := attr_at (_attributes (state_at world_ab 1)) 2 in
  let b := attr_at (_attributes (state_at world_ab 2)) 2 in
  a = mkAttribute (Some 201%N) 0 /\ b = mkAttribute (Some 202%N) 1
  /\ RenderAttrib.lower_attrib_can_override (Ops:=Fixture.attribs) 201 = false
  /\ result_state (compose (ops:=Fixture.attribs) 1 2) world_ab
     = Some composed_ab
  /\ attr_at (_attributes composed_ab) 2 = mkAttribute (Some 203%N) 1
  /\ ~ same_entry (ops:=Fixture.attribs) (attr_at (_attributes composed_ab) 2) b.
Proof.
  cbv zeta. split_and!; try (vm_compute; reflexivity).
  vm_compute. discriminate.
Defined.

Lemma invert_compose_one_sided_witness :
  exists q w' r,
    invert_compose (ops:=Fixture.attribs) 1 2 world_cd = Some (q, w')
    /\ heap w' !! q = Some r
    /\ same_entry (ops:=Fixture.attribs) (attr_at (_attributes r) 1)
         (Attribute_set (Some 100%N) 0)
    /\ same_entry (ops:=Fixture.attribs) (attr_at (_attributes r) 2)
         (Attribute_set (Some 202%N) 1).
Proof.
  destruct (invert_compose_one_sided (laws:=Fixture.attribs_laws) world_cd 1 2
              (state_at world_cd 1) (state_at world_cd 2) (state_at world_cd 0))
    as (q & w' & r & Hrun & Hr & Hslot).
  1-3: vm_compute; reflexivity.
  1-2: apply wf_stateb_correct; vm_compute; reflexivity.
  1: exact (checked_world_table_wf _ world_cd_checked).
  1: exact (checked_world_cache_coherent _ world_cd_checked).
  exists q, w', r. split_and!; [exact Hrun|exact Hr|..].
  - assert (one_sided_rule (ops:=Fixture.attribs) 1
              (attr_at (_attributes (state_at world_cd 1)) 1)
              (attr_at (_attributes (state_at world_cd 2)) 1)
            = Attribute_set (Some 100%N) 0) as E by (vm_compute; reflexivity).
    rewrite <- E. apply Hslot.
    + unfold SlotMask.max_slots. lia.
    + right. split; vm_compute; [discriminate|reflexivity].
  - assert (one_sided_rule (ops:=Fixture.attribs) 2
              (attr_at (_attributes (state_at world_cd 1)) 2)
              (attr_at (_attributes (state_at world_cd 2)) 2)
            = Attribute_set (Some 202%N) 1) as E by (vm_compute; reflexivity).
    rewrite <- E. apply Hslot.
    + unfold SlotMask.max_slots. lia.
    + left. split; vm_compute; [reflexivity|discriminate].
Defined.

(** C3 as claimed fails for a slot that only the right operand fills: the
    result holds the right operand's entry as it is, override included,
    not an inverse composition at override 0. *)
Lemma invert_compose_one_sided_counterexample :
  let a := attr_at (_attributes (state_at world_cd 1)) 2 in
  let b := attr_at (_attributes (state_at world_cd 2)) 2 in
  a = mkAttribute None 0 /\ b = mkAttribute (Some 202%N) 1
  /\ result_state (invert_compose (ops:=Fixture.attribs) 1 2) world_cd
     = Some inverted_cd
  /\ attr_at (_attributes inverted_cd) 2 = mkAttribute (Some 202%N) 1
  /\ ~ same_entry (ops:=Fixture.attribs) (attr_at (_attributes inverted_cd) 2)
         (Attribute_set
            (Some (RenderAttrib.invert_compose (Ops:=Fixture.attribs)
                     (RenderAttrib.get_slot_default (Ops:=Fixture.attribs) 2)
                     202))
            0).
Proof.
  cbv zeta. split_and!; try (vm_compute; reflexivity).
  vm_compute. discriminate.
Defined.


Section SceneInterner.
#[local] Existing Instance Fixture.attribs.

(** Two freshly built states, 1 and 2, that hold the same one attribute
    and have not been through the interner. *)
Definition built_state : State :=
  with_filled_slots (fun mask => SlotMask.set_bit mask 2)
    (with_attributes (set_attr_at 2 (Attribute_set (Some 201%N) 0))
       default_state).

Definition world_built : World :=
  match (new_state built_state ;; new_state built_state) world0 with
  | Some (_, w) => w
  | None => world0
  end.

Lemma world_built_checked : interner_invb world_built = true.
Proof. vm_compute. reflexivity. Qed.

End SceneInterner.

Lemma structural_uniqueness_witness :
  exists pa w1 pb w2,
    return_unique (ops:=Fixture.attribs) 1 world_built = Some (pa, w1)
    /\ return_unique (ops:=Fixture.attribs) 2 w1 = Some (pb, w2)
    /\ (compare_to (ops:=Fixture.attribs)
          (state_at world_built 1) (state_at world_built 2) = 0
        <-> pa = pb).
Proof.
  refine (structural_uniqueness (laws:=Fixture.attribs_laws) world_built 1 2
            (state_at world_built 1) (state_at world_built 2)
            _ _ _ _ _ _ (interner_invb_correct _ world_built_checked) _).
  - vm_compute. reflexivity.
  - vm_compute. reflexivity.
  - vm_compute. reflexivity.
  - apply wf_stateb_correct. vm_compute. reflexivity.
  - apply wf_stateb_correct. vm_compute. reflexivity.
  - intros _. split.
    + apply (canonicalb_correct (ops:=Fixture.attribs)).
      * apply wf_stateb_correct. vm_compute. reflexivity.
      * vm_compute. reflexivity.
    + apply (canonicalb_correct (ops:=Fixture.attribs)).
      * apply wf_stateb_correct. vm_compute. reflexivity.
      * vm_compute. reflexivity.
  - intros H. discriminate H.
Defined.


Section SceneUnref.
#[local] Existing Instance Fixture.attribs.

(** States 1 and 2 are referenced once each, and state 3 is the cached
    result of composing them, referenced once by its holder and once by
    the cache of state 1. *)
Definition world_held : World :=
  match (let* a := make 201 0 in
         ref a ;;
         let* b := make 202 1 in
         ref b ;;
         let* r := compose a b in
         ref r) world0 with
  | Some (_, w) => w
  | None => world0
  end.

Lemma world_held_checked : interner_invb world_held = true.
Proof. vm_compute. reflexivity. Qed.

(** Garbage collection on and states not uniquified: states 1 and 2 are
    referenced once each, and state 3 is the cached result of composing
    them, referenced once by its holder and once by the cache. *)
Definition world_gc : World :=
  match (let* s := make 201 0 in
         ref s ;;
         let* t := make 101 0 in
         ref t ;;
         let* r := compose s t in
         ref r) (initial_world (mkConfig true true true false true)) with
  | Some (_, w) => w
  | None => world0
  end.

Definition world_gc_after : World :=
  match unref 1 1 world_gc with
  | Some (_, w) => w
  | None => world_gc
  end.

(** Garbage collection on and states uniquified: state 1 is in the
    intern table, which holds its one reference. *)
Definition world_gc_interned : World :=
  match make 201 0 (initial_world Fixture.cache_on_gc) with
  | Some (_, w) => w
  | None => world0
  end.

Definition world_gc_interned_after : World :=
  match unref 1 1 world_gc_interned with
  | Some (_, w) => w
  | None => world_gc_interned
  end.

End SceneUnref.




Section SceneCascade.
#[local] Existing Instance Fixture.attribs.

(** State 1 has been composed with state 2, which gave state 3; the
    only reference to state 3 is the one the cache of state 1 holds. *)
Definition world_cascade : World :=
  match (let* a := make 201 0 in
         ref a ;;
         let* b := make 202 1 in
         ref b ;;
         compose a b) world0 with
  | Some (_, w) => w
  | None => world0
  end.

Definition world_cascade_after : World :=
  match unref 2 1 world_cascade with
  | Some (_, w) => w
  | None => world_cascade
  end.

End SceneCascade.

(** Releasing state 1 releases state 3 with it: the cached result goes
    out of [_states] and is deleted, one level of [unref] deeper. *)
Example unref_cascade :
  _states world_cascade = [0%N; 1%N; 2%N; 3%N]
  /\ _composition_cache (state_at world_cascade 1)
     = [(2%N, mkComposition (Some 3%N))]
  /\ unref (ops:=Fixture.attribs) 1 1 world_cascade = None
  /\ unref (ops:=Fixture.attribs) 2 1 world_cascade
     = Some (false, world_cascade_after)
  /\ _states world_cascade_after = [0%N; 2%N]
  /\ heap world_cascade_after !! 3%N = None
  /\ _composition_cache (state_at world_cascade_after 1) = []
  /\ _composition_cache (state_at world_cascade_after 2) = [].
Proof. split_and!; vm_compute; reflexivity. Qed.


End RenderStateFacts.

(** ** Facts on ConfigPageManager *)

Module ConfigPageManagerFacts.
Import ConfigPageManager.

Lemma erase_page_Some page pages pages' :
  erase_page page pages = Some pages' ->
  exists l1 l2,
    pages = l1 ++ page :: l2 /\ (page ∉ l1) /\ pages' = l1 ++ l2.
Proof.
  revert pages'. induction pages as [|pi rest IH]; intros pages'; [done|].
  simpl. case_bool_decide as Hpi.
  - intros [= <-]. subst pi. exists [], rest. split_and!; [done| |done].
    apply not_elem_of_nil.
  - destruct (erase_page page rest) as [rest'|]; [|done].
    intros [= <-]. destruct (IH _ eq_refl) as (l1 & l2 & -> & Hnot & ->).
    exists (pi :: l1), l2. split_and!; [done| |done].
    rewrite not_elem_of_cons. done.
Qed.

Lemma erase_page_None page pages :
  erase_page page pages = None <-> page ∉ pages.
Proof.
  induction pages as [|pi rest IH]; simpl.
  - split; [intros _; apply not_elem_of_nil|done].
  - rewrite not_elem_of_cons. case_bool_decide as Hpi.
    + split; [done|]. intros [Hne _]. congruence.
    + destruct (erase_page page rest) eqn:E.
      * split; [done|]. intros [_ Hnot]. apply IH in Hnot. done.
      * split; [|done]. intros _. split; [congruence|]. by apply IH.
Qed.

(** C8.  [delete_explicit_page] returns true exactly when the page is
    in the explicit-page list.  Then the page (its first occurrence) is
    taken out of the list, the page object is destroyed and every cached
    variable value becomes stale; a page that is not in the list gives
    false and leaves the manager as it was. *)
Theorem delete_explicit_page_spec (page : N) (m : Manager) :
  let '(deleted, m') := delete_explicit_page page m in
  (deleted = true <-> page ∈ _explicit_pages m)
  /\ (page ∈ _explicit_pages m ->
      (exists l1 l2,
          _explicit_pages m = l1 ++ page :: l2 /\ (page ∉ l1)
          /\ _explicit_pages m' = l1 ++ l2)
      /\ page_heap m' !! page = None
      /\ (forall local_modified,
            is_cache_valid local_modified m = true ->
            is_cache_valid local_modified m' = false))
  /\ (page ∉ _explicit_pages m -> m' = m).
Proof.
  unfold delete_explicit_page.
  destruct (erase_page page (_explicit_pages m)) as [pages|] eqn:E.
  - pose proof (erase_page_Some _ _ _ E) as (l1 & l2 & Heq & Hnot & ->).
    assert (Hin : page ∈ _explicit_pages m).
    { rewrite Heq. apply elem_of_app. right. by left. }
    split_and!.
    + done.
    + intros _. split_and!.
      * exists l1, l2. done.
      * simpl. apply lookup_delete_eq.
      * intros local. unfold is_cache_valid. simpl.
        intros ->%Z.eqb_eq. apply Z.eqb_neq. lia.
    + done.
  - apply erase_page_None in E. split_and!.
    + split; [done|]. intros Hin. done.
    + done.
    + done.
Qed.

Section EnvFacts.
Context {env : Env} {laws : EnvLaws env}.

Lemma iter_get_dirname_fixed (dir : string) (n : nat) :
  dir = get_dirname dir -> Nat.iter n get_dirname dir = dir.
Proof.
  intros Hfix. induction n as [|n IH]; [done|].
  simpl. rewrite IH. done.
Qed.

Lemma iter_get_dirname_S (dir : string) (n : nat) :
  Nat.iter (S n) get_dirname dir = Nat.iter n get_dirname (get_dirname dir).
Proof. apply Nat.iter_succ_r. Qed.

(** The result of a scan, as a position on the way up. *)
Lemma scan_up_from_spec (m : Manager) (dir sfx : string) :
  match scan_up_from m dir sfx with
  | Some result =>
      exists n,
        result = Filename_join (Nat.iter n get_dirname dir) sfx
        /\ has_prc_file m result = true
        /\ forall k, (k < n)%nat ->
             has_prc_file m (Filename_join (Nat.iter k get_dirname dir) sfx)
             = false
  | None =>
      forall k,
        has_prc_file m (Filename_join (Nat.iter k get_dirname dir) sfx)
        = false
  end.
Proof.
  funelim (scan_up_from m dir sfx).
  - exists 0%nat. split_and!; [done|done|lia].
  - intros k. rewrite iter_get_dirname_fixed; done.
  - destruct (scan_up_from m (get_dirname dir) _) as [result|].
    + destruct H as (n & -> & Hhas & Hlow). exists (S n).
      rewrite iter_get_dirname_S. split_and!; [done|done|].
      intros [|k] Hk; [done|]. rewrite iter_get_dirname_S. apply Hlow. lia.
    + intros [|k]; [done|]. rewrite iter_get_dirname_S. apply H.
Qed.


End EnvFacts.


End ConfigPageManagerFacts.

(** ** Derived states, slot by slot *)

Module DerivedStates.
Import RenderState RenderStateMembers RenderStateFacts.

#[local] Arguments SlotMask.clear_bit : simpl never.
#[local] Arguments SlotMask.set_bit : simpl never.
#[local] Arguments SlotMask.get_bit : simpl never.
#[local] Arguments SlotMask.fold_on_bits : simpl never.
#[local] Arguments SlotMask.get_num_on_bits : simpl never.
#[local] Arguments attr_at : simpl never.
#[local] Arguments set_attr_at : simpl never.
#[local] Arguments compare_to : simpl never.
#[local] Arguments copy_state : simpl never.
#[local] Arguments default_state : simpl never.
#[local] Opaque SlotMask.fold_on_bits compare_to_loop.

Section Derived.
Context {ops : RenderAttrib.Ops} {laws : RenderAttrib.Laws ops}.

(** The entry [e] holds the attribute [attrib], or the one the interner
    keeps in its place (an attribute that compares equal to it), with
    the override [override]. *)
Definition holds (e : Attribute) (attrib : N) (override : Z) : Prop :=
  _override e = override
  /\ exists a, _attrib e = Some a
               /\ (a = attrib \/ RenderAttrib.compare_to a attrib = 0).

(** The slot [k] of [r] is as in [st]: the same filled bit, and for a
    filled slot an entry that the interner does not tell apart. *)
Definition slot_kept (r st : State) (k : Z) : Prop :=
  SlotMask.get_bit (_filled_slots r) k = SlotMask.get_bit (_filled_slots st) k
  /\ (SlotMask.get_bit (_filled_slots st) k = true ->
      same_entry (attr_at (_attributes r) k) (attr_at (_attributes st) k)).

Lemma same_entry_holds e attrib override :
  same_entry e (mkAttribute (Some attrib) override) -> holds e attrib override.
Proof.
  intros H. apply same_entry_iff in H as [Ho Ha]. cbn [_attrib _override] in *.
  split; [exact Ho|]. destruct (_attrib e) as [a|]; [|contradiction].
  exists a. split; [reflexivity|exact Ha].
Qed.

(** What the interner gives for a state that has just been built: from
    slot 1 on, the filled bits of the built state, and in each filled
    slot an entry it does not tell apart from the built one; slot 0 is
    never filled. *)
Lemma intern_built_slots w (built : State) :
  wf_state built -> table_wf w ->
  exists q w' r,
    (let* state := new_state built in return_new state) w = Some (q, w')
    /\ heap w' !! q = Some r /\ wf_state r
    /\ Z.testbit (_filled_slots r) 0 = false
    /\ (forall k, 1 <= k -> slot_kept r built k)
    /\ (forall x st, heap w !! x = Some st -> heap w' !! x = Some st)
    /\ config w' = config w /\ _empty_state w' = _empty_state w
    /\ table_wf w'.
Proof.
  intros Hwf Htable.
  destruct (intern_new_spec w built Hwf Htable)
    as (q & w' & r & Hrun & Hr & Hwfr & Hcmp & Hframe & Hcfg & Hemp & Htab & _).
  pose proof (compare_to_slots r (clear_slot_0 built) Hwfr
                (wf_clear_slot_0 _ Hwf) Hcmp) as Hslots.
  exists q, w', r.
  split_and!; [exact Hrun|exact Hr|exact Hwfr| | |exact Hframe|exact Hcfg
              |exact Hemp|exact Htab].
  - destruct (Hslots 0) as [-> _]. fields.
    rewrite SlotMask.testbit_clear_bit by lia. apply andb_false_r.
  - intros k Hk. destruct (Hslots k) as [Hbit Hs].
    destruct (clear_slot_0_slots built k Hk) as [Hb Ha].
    rewrite Hb in Hbit, Hs. rewrite Ha in Hs.
    unfold slot_kept, SlotMask.get_bit. split; [exact Hbit|exact Hs].
Qed.

(** The copy of a state with the entry of one registered slot replaced
    and its bit set to [bit]. *)
Definition with_slot (slot : Z) (e : Attribute) (bit : bool) (st : State)
    : State :=
  with_filled_slots
    (fun mask => if bit then SlotMask.set_bit mask slot
                 else SlotMask.clear_bit mask slot)
    (with_attributes (set_attr_at slot e) (copy_state st)).

Lemma with_slot_spec st slot e bit :
  wf_state st -> slots_registered st ->
  1 <= slot < RenderAttrib.get_num_slots ->
  RenderAttrib.get_num_slots <= Z.of_nat SlotMask.max_slots ->
  (bit = true <-> _attrib e <> None) ->
  wf_state (with_slot slot e bit st)
  /\ Z.testbit (_filled_slots (with_slot slot e bit st)) slot = bit
  /\ attr_at (_attributes (with_slot slot e bit st)) slot = e
  /\ forall k, 0 <= k -> k <> slot ->
       Z.testbit (_filled_slots (with_slot slot e bit st)) k
       = Z.testbit (_filled_slots st) k
       /\ (Z.testbit (_filled_slots st) k = true ->
           attr_at (_attributes (with_slot slot e bit st)) k
           = attr_at (_attributes st) k).
Proof.
  intros (Hwfm & Hlen & Hon) Hreg Hslot Hnum Hbit.
  destruct (copy_state_spec st Hnum) as (Hcm & Hcl & _ & _ & _ & Hcat).
  set (built := with_slot slot e bit st).
  assert (forall k, 0 <= k ->
            attr_at (_attributes built) k
            = if decide (k = slot) then e
              else if decide (k < RenderAttrib.get_num_slots)
                   then attr_at (_attributes st) k else mkAttribute None 0)
    as Hbat.
  { intros k Hk. subst built. unfold with_slot. fields. case_decide as Hks.
    - subst k. apply attr_at_set_eq; [lia|].
      rewrite Hcl. unfold SlotMask.max_slots in *. lia.
    - rewrite attr_at_set_ne by (lia || congruence). by apply Hcat. }
  assert (forall k, Z.testbit (_filled_slots built) k
                    = if decide (k = slot) then bit
                      else Z.testbit (_filled_slots st) k) as Hbbit.
  { intros k. subst built. unfold with_slot. fields. rewrite Hcm.
    destruct bit.
    - rewrite SlotMask.testbit_set_bit by lia.
      destruct (Z.eqb_spec slot k) as [<-|Hne].
      + by rewrite decide_True.
      + by rewrite decide_False by congruence.
    - rewrite SlotMask.testbit_clear_bit by lia.
      destruct (Z.eqb_spec slot k) as [<-|Hne].
      + rewrite decide_True by done. apply andb_false_r.
      + rewrite decide_False by congruence. apply andb_true_r. }
  split_and!.
  - split_and!.
    + subst built. unfold with_slot. fields. rewrite Hcm. destruct bit.
      * apply SlotMask.wf_set_bit; [unfold SlotMask.max_slots in *; lia|done].
      * apply SlotMask.wf_clear_bit; [lia|done].
    + subst built. unfold with_slot. fields. by rewrite length_set_attr_at.
    + intros k Hk. rewrite Hbbit, Hbat by lia.
      destruct (decide (k = slot)) as [->|Hne]; [exact Hbit|].
      case_decide as Hkn; [by apply Hon|].
      split; [|done]. intros Hb. apply Hreg in Hb. lia.
  - rewrite Hbbit. by rewrite decide_True.
  - rewrite Hbat by lia. by rewrite decide_True.
  - intros k Hk Hne. rewrite Hbbit, Hbat by lia.
    rewrite !decide_False by done. split; [reflexivity|].
    intros Hb. rewrite decide_True; [reflexivity|]. by apply Hreg.
Qed.

(** The interned copy of a state with one slot replaced. *)
Lemma intern_with_slot w st slot e bit :
  wf_state st -> slots_registered st -> table_wf w ->
  1 <= slot < RenderAttrib.get_num_slots ->
  RenderAttrib.get_num_slots <= Z.of_nat SlotMask.max_slots ->
  (bit = true <-> _attrib e <> None) ->
  exists q w' r,
    (let* state := new_state (with_slot slot e bit st) in return_new state) w
    = Some (q, w')
    /\ heap w' !! q = Some r /\ wf_state r
    /\ SlotMask.get_bit (_filled_slots r) slot = bit
    /\ (bit = true -> same_entry (attr_at (_attributes r) slot) e)
    /\ (forall k, 1 <= k -> k <> slot -> slot_kept r st k)
    /\ (forall x stx, heap w !! x = Some stx -> heap w' !! x = Some stx)
    /\ table_wf w'.
Proof.
  intros Hwf Hreg Htable Hslot Hnum Hbit.
  destruct (with_slot_spec st slot e bit Hwf Hreg Hslot Hnum Hbit)
    as (Hwfb & Hbs & Has & Hothers).
  destruct (intern_built_slots w _ Hwfb Htable)
    as (q & w' & r & Hrun & Hr & Hwfr & _ & Hslots & Hframe & _ & _ & Htab).
  exists q, w', r.
  split_and!; [exact Hrun|exact Hr|exact Hwfr| | | |exact Hframe|exact Htab].
  - destruct (Hslots slot ltac:(lia)) as [Hb _]. rewrite Hb. exact Hbs.
  - intros ->. destruct (Hslots slot ltac:(lia)) as [_ Hs].
    rewrite Has in Hs. apply Hs. exact Hbs.
  - intros k Hk Hne. destruct (Hslots k Hk) as [Hb Hs].
    destruct (Hothers k ltac:(lia) Hne) as [Hb' Ha'].
    unfold slot_kept, SlotMask.get_bit in *. rewrite Hb' in Hb, Hs.
    split; [exact Hb|]. intros Hon. rewrite <- (Ha' Hon). exact (Hs Hon).
Qed.

(** X1.  [add_attrib] keeps the entry with the higher override: when the
    slot of the attribute is filled with an override above the given
    one, the state itself is returned and nothing changes; otherwise the
    result holds the attribute with the given override in that slot, and
    every other slot from 1 on is as in the state. *)
Theorem add_attrib_override_rule
    (w : World) (this : N) (st : State) (attrib : N) (override : Z) :
  heap w !! this = Some st ->
  wf_state st -> slots_registered st -> table_wf w ->
  1 <= RenderAttrib.get_slot attrib < RenderAttrib.get_num_slots ->
  RenderAttrib.get_num_slots <= Z.of_nat SlotMask.max_slots ->
  let slot := RenderAttrib.get_slot attrib in
  (SlotMask.get_bit (_filled_slots st) slot = true
   /\ override < _override (attr_at (_attributes st) slot) ->
   add_attrib this attrib override w = Some (this, w))
  /\ (SlotMask.get_bit (_filled_slots st) slot = false
      \/ _override (attr_at (_attributes st) slot) <= override ->
      exists q w' r,
        add_attrib this attrib override w = Some (q, w')
        /\ heap w' !! q = Some r
        /\ SlotMask.get_bit (_filled_slots r) slot = true
        /\ holds (attr_at (_attributes r) slot) attrib override
        /\ forall k, 1 <= k -> k <> slot -> slot_kept r st k).
Proof.
  intros Hst Hwf Hreg Htable Hslot Hnum slot.
  unfold add_attrib. rewrite (bind_deref _ _ _ _ Hst). fold slot. split.
  - intros [-> Hlt]. apply Z.ltb_lt in Hlt. rewrite Hlt. reflexivity.
  - intros Hcase.
    assert (SlotMask.get_bit (_filled_slots st) slot
            && (override <? _override (attr_at (_attributes st) slot))
            = false) as ->.
    { destruct Hcase as [->|Hle]; [reflexivity|].
      apply andb_false_iff. right. apply Z.ltb_ge. exact Hle. }
    destruct (intern_with_slot w st slot (Attribute_set (Some attrib) override)
                true Hwf Hreg Htable Hslot Hnum)
      as (q & w' & r & Hrun & Hr & _ & Hbit & He & Hothers & _).
    { split; [discriminate|reflexivity]. }
    exists q, w', r.
    split_and!; [exact Hrun|exact Hr|exact Hbit| |exact Hothers].
    apply same_entry_holds. exact (He eq_refl).
Qed.

(** X2.  [set_attrib(attrib, override)] replaces the entry of the slot,
    attribute and override both, whatever the slot held; every other
    slot from 1 on is as in the state. *)
Theorem set_attrib_override_replaces
    (w : World) (this : N) (st : State) (attrib : N) (override : Z) :
  heap w !! this = Some st ->
  wf_state st -> slots_registered st -> table_wf w ->
  1 <= RenderAttrib.get_slot attrib < RenderAttrib.get_num_slots ->
  RenderAttrib.get_num_slots <= Z.of_nat SlotMask.max_slots ->
  let slot := RenderAttrib.get_slot attrib in
  exists q w' r,
    set_attrib_override this attrib override w = Some (q, w')
    /\ heap w' !! q = Some r
    /\ SlotMask.get_bit (_filled_slots r) slot = true
    /\ holds (attr_at (_attributes r) slot) attrib override
    /\ forall k, 1 <= k -> k <> slot -> slot_kept r st k.
Proof.
  intros Hst Hwf Hreg Htable Hslot Hnum slot.
  unfold set_attrib_override. rewrite (bind_deref _ _ _ _ Hst). fold slot.
  destruct (intern_with_slot w st slot (Attribute_set (Some attrib) override)
              true Hwf Hreg Htable Hslot Hnum)
    as (q & w' & r & Hrun & Hr & _ & Hbit & He & Hothers & _).
  { split; [discriminate|reflexivity]. }
  exists q, w', r.
  split_and!; [exact Hrun|exact Hr|exact Hbit| |exact Hothers].
  apply same_entry_holds. exact (He eq_refl).
Qed.

(** *** Counting the filled slots *)

Lemma count_from_length n k mask :
  SlotMask.count_from n (Z.of_nat k) mask
  = Z.of_nat
      (length (filter (fun slot => Z.testbit mask slot = true)
                 (SlotMask.slots_from k n))).
Proof.
  revert k. induction n as [|n IH]; intros k; [reflexivity|].
  rewrite SlotMask.slots_from_S, filter_cons. cbn [SlotMask.count_from].
  replace (Z.of_nat k + 1) with (Z.of_nat (S k)) by lia. rewrite IH.
  destruct (decide (Z.testbit mask (Z.of_nat k) = true)) as [Hb|Hb].
  - rewrite Hb. cbn [length]. lia.
  - apply not_true_is_false in Hb. rewrite Hb. lia.
Qed.

Lemma get_num_on_bits_length mask :
  SlotMask.get_num_on_bits mask = Z.of_nat (length (SlotMask.on_bits mask)).
Proof. exact (count_from_length SlotMask.max_slots 0 mask). Qed.

(** One filled slot exactly, when the count is 1. *)
Lemma get_num_on_bits_1 mask slot :
  SlotMask.wf mask -> Z.testbit mask slot = true ->
  SlotMask.get_num_on_bits mask = 1
  <-> forall k, Z.testbit mask k = true -> k = slot.
Proof.
  intros Hwf Hslot. rewrite get_num_on_bits_length.
  pose proof (SlotMask.NoDup_on_bits mask) as Hnd.
  assert (slot ∈ SlotMask.on_bits mask) as Hin
    by (by apply SlotMask.elem_of_on_bits).
  split.
  - intros Hlen k Hk. apply (SlotMask.elem_of_on_bits _ _ Hwf) in Hk.
    destruct (SlotMask.on_bits mask) as [|x [|y l]]; cbn [length] in Hlen;
      [lia| |lia].
    apply list_elem_of_singleton in Hin, Hk. congruence.
  - intros Honly.
    destruct (SlotMask.on_bits mask) as [|x [|y l]] eqn:E; [|reflexivity|].
    + by apply elem_of_nil in Hin.
    + exfalso. apply NoDup_cons in Hnd as [Hx _]. apply Hx.
      assert (x = slot) as ->.
      { apply Honly, (SlotMask.elem_of_on_bits _ _ Hwf). rewrite E. by left. }
      assert (y = slot) as ->.
      { apply Honly, (SlotMask.elem_of_on_bits _ _ Hwf). rewrite E.
        right. by left. }
      by left.
Qed.

(** X3.  [remove_attrib] of the only attribute of a state gives the
    canonical empty state, and nothing in the world changes. *)
Theorem remove_attrib_last
    (w : World) (this : N) (st : State) (slot : Z) :
  heap w !! this = Some st -> wf_state st ->
  SlotMask.get_bit (_filled_slots st) slot = true ->
  (forall k, SlotMask.get_bit (_filled_slots st) k = true -> k = slot) ->
  remove_attrib this slot w = Some (_empty_state w, w).
Proof.
  intros Hst (Hwfm & _ & Hon) Hbit Honly. unfold SlotMask.get_bit in *.
  unfold remove_attrib. rewrite (bind_deref _ _ _ _ Hst).
  pose proof (Hwfm slot Hbit) as Hrange.
  destruct (_attrib (attr_at (_attributes st) slot)) as [p|] eqn:Hp.
  - rewrite (proj2 (get_num_on_bits_1 _ slot Hwfm Hbit) Honly).
    reflexivity.
  - exfalso. by apply (proj1 (Hon slot Hrange) Hbit).
Qed.

(** X4.  [remove_attrib] of a filled slot, in a state with another
    filled slot: the slot is not filled in the result, and every other
    slot from 1 on is as in the state. *)
Theorem remove_attrib_clears
    (w : World) (this : N) (st : State) (slot other : Z) :
  heap w !! this = Some st ->
  wf_state st -> slots_registered st -> table_wf w ->
  1 <= slot ->
  RenderAttrib.get_num_slots <= Z.of_nat SlotMask.max_slots ->
  SlotMask.get_bit (_filled_slots st) slot = true ->
  SlotMask.get_bit (_filled_slots st) other = true -> other <> slot ->
  exists q w' r,
    remove_attrib this slot w = Some (q, w')
    /\ heap w' !! q = Some r
    /\ SlotMask.get_bit (_filled_slots r) slot = false
    /\ forall k, 1 <= k -> k <> slot -> slot_kept r st k.
Proof.
  intros Hst Hwf Hreg Htable Hslot Hnum Hbit Hother Hne.
  pose proof Hwf as (Hwfm & _ & Hon). unfold SlotMask.get_bit in Hbit, Hother.
  pose proof (Hwfm slot Hbit) as Hrange. pose proof (Hreg slot Hbit) as Hsreg.
  unfold remove_attrib. rewrite (bind_deref _ _ _ _ Hst).
  destruct (_attrib (attr_at (_attributes st) slot)) as [p|] eqn:Hp;
    [|exfalso; by apply (proj1 (Hon slot Hrange) Hbit)].
  destruct (Z.eqb_spec (SlotMask.get_num_on_bits (_filled_slots st)) 1)
    as [Hone|_].
  { exfalso. apply Hne.
    exact (proj1 (get_num_on_bits_1 _ slot Hwfm Hbit) Hone other Hother). }
  destruct (intern_with_slot w st slot (Attribute_set None 0) false
              Hwf Hreg Htable ltac:(lia) Hnum)
    as (q & w' & r & Hrun & Hr & _ & Hb & _ & Hothers & _).
  { split; [discriminate|]. intros H. by contradiction H. }
  exists q, w', r. split_and!; [exact Hrun|exact Hr|exact Hb|exact Hothers].
Qed.


(** X6.  [make(attrib, override)] gives a state whose only filled slot
    is the slot of the attribute, holding the attribute with the
    override; an attribute of slot 0 gives a state with no filled
    slot. *)
Theorem make_single
    (w : World) (attrib : N) (override : Z) :
  table_wf w ->
  0 <= RenderAttrib.get_slot attrib < Z.of_nat SlotMask.max_slots ->
  let slot := RenderAttrib.get_slot attrib in
  exists q w' r,
    make attrib override w = Some (q, w')
    /\ heap w' !! q = Some r
    /\ (forall k, SlotMask.get_bit (_filled_slots r) k = true
                  <-> k = slot /\ 1 <= k)
    /\ (1 <= slot -> holds (attr_at (_attributes r) slot) attrib override).
Proof.
  intros Htable Hslot slot. unfold make. fold slot.
  set (built := with_filled_slots _ _).
  assert (forall k, Z.testbit (_filled_slots built) k = (slot =? k)) as Hbbit.
  { intros k. subst built. fields.
    rewrite SlotMask.testbit_set_bit by (subst slot; lia).
    unfold default_state. cbn [_filled_slots]. rewrite Z.bits_0.
    apply orb_false_r. }
  assert (forall k, 0 <= k ->
            attr_at (_attributes built) k
            = if decide (k = slot) then mkAttribute (Some attrib) override
              else mkAttribute None 0) as Hbat.
  { intros k Hk. subst built. fields. case_decide as Hks.
    - subst k. apply attr_at_set_eq; [subst slot; lia|].
      unfold default_state. cbn [_attributes]. rewrite length_replicate.
      subst slot. lia.
    - rewrite attr_at_set_ne by (subst slot; lia || congruence).
      apply attr_at_default. }
  assert (wf_state built) as Hwfb.
  { split_and!.
    - intros k Hk. rewrite Hbbit in Hk. apply Z.eqb_eq in Hk. subst slot. lia.
    - subst built. fields. rewrite length_set_attr_at.
      unfold default_state. cbn [_attributes]. apply length_replicate.
    - intros k Hk. rewrite Hbbit, Hbat by lia.
      destruct (Z.eqb_spec slot k) as [<-|Hne].
      + rewrite decide_True by done. done.
      + rewrite decide_False by congruence. done. }
  destruct (intern_built_slots w built Hwfb Htable)
    as (q & w' & r & Hrun & Hr & _ & H0 & Hslots & _).
  exists q, w', r. split_and!; [exact Hrun|exact Hr| |].
  - intros k. unfold SlotMask.get_bit.
    destruct (Z.lt_ge_cases k 1) as [Hlt|Hge].
    + split; [|lia]. intros Hb. exfalso.
      destruct (Z.eq_dec k 0) as [->|Hn0]; [congruence|].
      rewrite Z.testbit_neg_r in Hb by lia. discriminate.
    + destruct (Hslots k Hge) as [Hb _]. unfold SlotMask.get_bit in Hb.
      rewrite Hb, Hbbit. rewrite Z.eqb_eq. split; [intros <-|intros [-> _]]; done.
  - intros H1. destruct (Hslots slot H1) as [_ Hs].
    unfold SlotMask.get_bit in Hs. rewrite Hbbit, Z.eqb_refl, Hbat in Hs by lia.
    rewrite decide_True in Hs by done. apply same_entry_holds. exact (Hs eq_refl).
Qed.


(** *** A state from several attributes *)

(** The attribute of the array that ends up in the slot [k]: the last
    one of that slot. *)
Definition last_in_slot (k : Z) (attrib : list N) : option N :=
  last (filter (fun a => RenderAttrib.get_slot a = k) attrib).

Lemma last_in_slot_snoc k l a :
  last_in_slot k (l ++ [a])
  = if decide (RenderAttrib.get_slot a = k) then Some a
    else last_in_slot k l.
Proof.
  unfold last_in_slot. rewrite filter_app, filter_cons, filter_nil.
  case_decide.
  - by rewrite last_snoc.
  - by rewrite app_nil_r.
Qed.

Lemma make_n_state (l : list N) (override : Z) :
  (forall a, a ∈ l ->
     0 <= RenderAttrib.get_slot a < Z.of_nat SlotMask.max_slots) ->
  let built :=
    fold_left
      (fun state a =>
         let slot := RenderAttrib.get_slot a in
         with_filled_slots (fun mask => SlotMask.set_bit mask slot)
           (with_attributes
              (set_attr_at slot (Attribute_set (Some a) override)) state))
      l default_state in
  SlotMask.wf (_filled_slots built)
  /\ length (_attributes built) = SlotMask.max_slots
  /\ forall k, 0 <= k ->
       match last_in_slot k l with
       | Some a =>
           Z.testbit (_filled_slots built) k = true
           /\ attr_at (_attributes built) k = mkAttribute (Some a) override
       | None =>
           Z.testbit (_filled_slots built) k = false
           /\ attr_at (_attributes built) k = mkAttribute None 0
       end.
Proof.
  induction l as [|a l IH] using rev_ind; intros Hl built.
  - subst built. cbn [fold_left]. destruct wf_default_state as (H1 & H2 & _).
    split_and!; [exact H1|exact H2|]. intros k Hk. cbn.
    split; [|apply attr_at_default].
    unfold default_state. cbn [_filled_slots]. apply Z.bits_0.
  - destruct IH as (IH1 & IH2 & IH3).
    { intros b Hb. apply Hl. apply elem_of_app. by left. }
    assert (0 <= RenderAttrib.get_slot a < Z.of_nat SlotMask.max_slots)
      as Ha by (apply Hl; apply elem_of_app; right; by left).
    subst built. rewrite fold_left_app. cbn [fold_left]. cbv zeta.
    set (prev := fold_left _ l default_state) in *. fields. split_and!.
    + apply SlotMask.wf_set_bit; [exact Ha|exact IH1].
    + rewrite length_set_attr_at. exact IH2.
    + intros k Hk. rewrite last_in_slot_snoc.
      rewrite SlotMask.testbit_set_bit by lia. case_decide as Hs.
      * subst k. rewrite Z.eqb_refl. split; [reflexivity|].
        apply attr_at_set_eq; [lia|]. rewrite IH2. lia.
      * destruct (Z.eqb_spec (RenderAttrib.get_slot a) k); [contradiction|].
        cbn [orb]. rewrite attr_at_set_ne by lia. exact (IH3 k Hk).
Qed.

(** X19.  [make] with an array of attributes: an empty array gives the
    canonical empty state and changes nothing; otherwise each slot from
    1 on is filled exactly when an attribute of the array is of that
    slot, and it holds the last such attribute with the override: of
    two attributes of one slot, the later one wins. *)
Theorem make_n_last_wins (w : World) (attrib : list N) (override : Z) :
  table_wf w ->
  (forall a, a ∈ attrib ->
     0 <= RenderAttrib.get_slot a < Z.of_nat SlotMask.max_slots) ->
  (attrib = [] -> make_n attrib override w = Some (_empty_state w, w))
  /\ (attrib <> [] ->
      exists q w' r,
        make_n attrib override w = Some (q, w')
        /\ heap w' !! q = Some r
        /\ forall k, 1 <= k ->
             match last_in_slot k attrib with
             | Some a =>
                 SlotMask.get_bit (_filled_slots r) k = true
                 /\ holds (attr_at (_attributes r) k) a override
             | None => SlotMask.get_bit (_filled_slots r) k = false
             end).
Proof.
  intros Htable Hl. split; [intros ->; reflexivity|]. intros Hne.
  unfold make_n.
  destruct (Z.eqb_spec (Z.of_nat (length attrib)) 0) as [H0|_].
  { destruct attrib; [contradiction|cbn [length] in H0; lia]. }
  destruct (make_n_state attrib override Hl) as (Hb1 & Hb2 & Hb3).
  cbv zeta in Hb1, Hb2, Hb3.
  set (built := fold_left _ attrib default_state) in *.
  assert (wf_state built) as Hwfb.
  { split_and!; [exact Hb1|exact Hb2|]. intros k Hk.
    specialize (Hb3 k ltac:(lia)).
    destruct (last_in_slot k attrib) as [a|]; destruct Hb3 as [-> ->]; done. }
  destruct (intern_built_slots w built Hwfb Htable)
    as (q & w' & r & Hrun & Hr & _ & _ & Hslots & _).
  exists q, w', r. split_and!; [exact Hrun|exact Hr|].
  intros k Hk. destruct (Hslots k Hk) as [Hbit Hs].
  unfold SlotMask.get_bit in *. specialize (Hb3 k ltac:(lia)).
  destruct (last_in_slot k attrib) as [a|]; destruct Hb3 as [Hb Ha].
  - split; [congruence|]. apply same_entry_holds. rewrite <- Ha.
    apply Hs. exact Hb.
  - congruence.
Qed.


(** *** Checking a concrete state *)

Definition slots_registeredb (st : State) : bool :=
  forallb
    (fun slot =>
       negb (Z.testbit (_filled_slots st) slot)
       || (slot <? RenderAttrib.get_num_slots))
    (SlotMask.slots_from 0 SlotMask.max_slots).

Lemma slots_registeredb_correct st :
  wf_state st -> slots_registeredb st = true -> slots_registered st.
Proof.
  intros (Hwf & _) Hall slot Hs. unfold slots_registeredb in Hall.
  rewrite forallb_forall in Hall. specialize (Hall slot).
  rewrite <- list_elem_of_In, SlotMask.elem_of_slots_from in Hall.
  pose proof (Hwf slot Hs) as Hr. specialize (Hall ltac:(lia)).
  rewrite Hs in Hall. cbn [negb orb] in Hall. by apply Z.ltb_lt.
Qed.

Lemma only_filled_slot mask slot :
  SlotMask.wf mask -> SlotMask.on_bits mask = [slot] ->
  forall k, SlotMask.get_bit mask k = true -> k = slot.
Proof.
  intros Hwf Hbits k Hk. apply (SlotMask.elem_of_on_bits _ _ Hwf) in Hk.
  rewrite Hbits in Hk. by apply list_elem_of_singleton in Hk.
Qed.

End Derived.

(** *** The scene of the witnesses

    The states 1 (attribute 201 in slot 2, override 0) and 2 (attribute
    202 in slot 2, override 1) of [world_ab], and the state 1 of
    [world_two], made from the array of the attributes 101 and 202 with
    the override 3. *)

Section Scene.
#[local] Existing Instance Fixture.attribs.

Definition world_two : World :=
  match make_n [101%N; 202%N] 3 world0 with
  | Some (_, w) => w
  | None => world0
  end.

Lemma world_ab_at (p : N) :
  (p <? 3)%N = true -> heap world_ab !! p = Some (state_at world_ab p).
Proof.
  intros Hp. assert (p = 0 \/ p = 1 \/ p = 2)%N as [->|[->| ->]]
    by (apply N.ltb_lt in Hp; lia); vm_compute; reflexivity.
Qed.

Lemma world_ab_wf (p : N) :
  (p <? 3)%N = true -> wf_state (state_at world_ab p).
Proof.
  intros Hp. assert (p = 0 \/ p = 1 \/ p = 2)%N as [->|[->| ->]]
    by (apply N.ltb_lt in Hp; lia);
    apply wf_stateb_correct; vm_compute; reflexivity.
Qed.

Lemma world_ab_registered (p : N) :
  (p <? 3)%N = true -> slots_registered (state_at world_ab p).
Proof.
  intros Hp. apply slots_registeredb_correct; [by apply world_ab_wf|].
  assert (p = 0 \/ p = 1 \/ p = 2)%N as [->|[->| ->]]
    by (apply N.ltb_lt in Hp; lia); vm_compute; reflexivity.
Qed.

Lemma world_ab_table_wf : table_wf world_ab.
Proof. exact (checked_world_table_wf _ world_ab_checked). Qed.

Lemma world_two_checked : checked_world world_two = true.
Proof. vm_compute. reflexivity. Qed.

Lemma world_two_1 : heap world_two !! 1%N = Some (state_at world_two 1).
Proof. vm_compute. reflexivity. Qed.

Lemma world_two_1_wf : wf_state (state_at world_two 1).
Proof. apply wf_stateb_correct. vm_compute. reflexivity. Qed.

Lemma world_two_1_registered : slots_registered (state_at world_two 1).
Proof.
  apply slots_registeredb_correct; [exact world_two_1_wf|].
  vm_compute. reflexivity.
Qed.

Lemma registered_slot (attrib : N) :
  (0 <? attrib / 100)%N && (attrib / 100 <? 3)%N = true ->
  1 <= RenderAttrib.get_slot attrib < RenderAttrib.get_num_slots.
Proof.
  intros H. apply andb_true_iff in H as [H1 H2].
  apply N.ltb_lt in H1, H2.
  change (1 <= Z.of_N (attrib / 100) < 3). lia.
Qed.

Lemma num_slots_le : RenderAttrib.get_num_slots <= Z.of_nat SlotMask.max_slots.
Proof. change (3 <= 32). lia. Qed.

End Scene.

Lemma add_attrib_override_rule_witness :
  add_attrib (ops:=Fixture.attribs) 2 203 0 world_ab = Some (2%N, world_ab)
  /\ exists q w' r,
       add_attrib (ops:=Fixture.attribs) 2 101 5 world_ab = Some (q, w')
       /\ heap w' !! q = Some r
       /\ holds (ops:=Fixture.attribs) (attr_at (_attributes r) 1) 101 5.
Proof.
  split.
  - apply (add_attrib_override_rule (laws:=Fixture.attribs_laws) world_ab 2
             (state_at world_ab 2) 203 0 (world_ab_at 2 eq_refl)
             (world_ab_wf 2 eq_refl) (world_ab_registered 2 eq_refl) world_ab_table_wf
             (registered_slot 203 eq_refl) num_slots_le).
    split; vm_compute; reflexivity.
  - destruct (proj2 (add_attrib_override_rule (laws:=Fixture.attribs_laws)
                       world_ab 2 (state_at world_ab 2) 101 5
                       (world_ab_at 2 eq_refl) (world_ab_wf 2 eq_refl)
                       (world_ab_registered 2 eq_refl) world_ab_table_wf
                       (registered_slot 101 eq_refl) num_slots_le))
      as (q & w' & r & Hrun & Hr & _ & Hholds & _).
    { left. vm_compute. reflexivity. }
    exists q, w', r. split_and!; [exact Hrun|exact Hr|exact Hholds].
Defined.

Lemma set_attrib_override_replaces_witness :
  exists q w' r,
    set_attrib_override (ops:=Fixture.attribs) 1 203 7 world_ab = Some (q, w')
    /\ heap w' !! q = Some r
    /\ holds (ops:=Fixture.attribs) (attr_at (_attributes r) 2) 203 7.
Proof.
  destruct (set_attrib_override_replaces (laws:=Fixture.attribs_laws)
              world_ab 1 (state_at world_ab 1) 203 7
              (world_ab_at 1 eq_refl) (world_ab_wf 1 eq_refl)
              (world_ab_registered 1 eq_refl) world_ab_table_wf
              (registered_slot 203 eq_refl) num_slots_le)
    as (q & w' & r & Hrun & Hr & _ & Hholds & _).
  exists q, w', r. split_and!; [exact Hrun|exact Hr|exact Hholds].
Defined.

Lemma remove_attrib_last_witness :
  remove_attrib (ops:=Fixture.attribs) 1 2 world_ab = Some (0%N, world_ab).
Proof.
  apply (remove_attrib_last (ops:=Fixture.attribs) world_ab 1
           (state_at world_ab 1) 2 (world_ab_at 1 eq_refl) (world_ab_wf 1 eq_refl)).
  - vm_compute. reflexivity.
  - apply only_filled_slot; [exact (proj1 (world_ab_wf 1 eq_refl))|].
    vm_compute. reflexivity.
Defined.

Lemma remove_attrib_clears_witness :
  exists q w' r,
    remove_attrib (ops:=Fixture.attribs) 1 1 world_two = Some (q, w')
    /\ heap w' !! q = Some r
    /\ SlotMask.get_bit (_filled_slots r) 1 = false
    /\ slot_kept (ops:=Fixture.attribs) r (state_at world_two 1) 2.
Proof.
  destruct (remove_attrib_clears (laws:=Fixture.attribs_laws) world_two 1
              (state_at world_two 1) 1 2 world_two_1 world_two_1_wf
              world_two_1_registered
              (checked_world_table_wf _ world_two_checked)
              ltac:(lia) num_slots_le eq_refl eq_refl ltac:(lia))
    as (q & w' & r & Hrun & Hr & Hbit & Hkept).
  exists q, w', r. split_and!; [exact Hrun|exact Hr|exact Hbit|].
  apply Hkept; lia.
Defined.


Lemma make_single_witness :
  exists q w' r,
    make (ops:=Fixture.attribs) 101 4 world0 = Some (q, w')
    /\ heap w' !! q = Some r
    /\ holds (ops:=Fixture.attribs) (attr_at (_attributes r) 1) 101 4.
Proof.
  destruct (make_single (laws:=Fixture.attribs_laws) world0 101 4
              world0_table_wf ltac:(vm_compute; split; congruence))
    as (q & w' & r & Hrun & Hr & _ & Hholds).
  exists q, w', r. split_and!; [exact Hrun|exact Hr|].
  apply Hholds. vm_compute. congruence.
Defined.

Lemma make_n_last_wins_witness :
  make_n (ops:=Fixture.attribs) [] 4 world0 = Some (0%N, world0)
  /\ exists q w' r,
       make_n (ops:=Fixture.attribs) [101%N; 202%N; 102%N] 4 world0
       = Some (q, w')
       /\ heap w' !! q = Some r
       /\ holds (ops:=Fixture.attribs) (attr_at (_attributes r) 1) 102 4.
Proof.
  split.
  - apply (make_n_last_wins (laws:=Fixture.attribs_laws) world0 [] 4
             world0_table_wf); [|reflexivity].
    intros a Ha. by apply elem_of_nil in Ha.
  - destruct (proj2 (make_n_last_wins (laws:=Fixture.attribs_laws) world0
                       [101%N; 202%N; 102%N] 4 world0_table_wf
                       ltac:(intros a Ha;
                             repeat (apply elem_of_cons in Ha as [->|Ha];
                                     [vm_compute; split; congruence|]);
                             by apply elem_of_nil in Ha))
                ltac:(discriminate))
      as (q & w' & r & Hrun & Hr & Hslots).
    exists q, w', r. split_and!; [exact Hrun|exact Hr|].
    exact (proj2 (Hslots 1 ltac:(lia))).
Defined.

End DerivedStates.

(** ** The interner, call after call *)

Module Interning.
Import RenderState RenderStateFacts.

#[local] Arguments SlotMask.clear_bit : simpl never.
#[local] Arguments SlotMask.set_bit : simpl never.
#[local] Arguments SlotMask.fold_on_bits : simpl never.
#[local] Arguments attr_at : simpl never.
#[local] Arguments set_attr_at : simpl never.
#[local] Arguments compare_to : simpl never.
#[local] Arguments do_calc_hash : simpl never.
#[local] Arguments uniquify_attributes : simpl never.
#[local] Arguments default_state : simpl never.
#[local] Opaque SlotMask.fold_on_bits compare_to_loop.

Section Interning.
Context {ops : RenderAttrib.Ops} {laws : RenderAttrib.Laws ops}.

(** X7.  [compare_to] giving 0 is an equivalence on well-formed states:
    the relation that the intern table is keyed by. *)
Theorem compare_to_equivalence (st1 st2 st3 : State) :
  wf_state st1 -> wf_state st2 -> wf_state st3 ->
  compare_to st1 st1 = 0
  /\ (compare_to st1 st2 = 0 -> compare_to st2 st1 = 0)
  /\ (compare_to st1 st2 = 0 -> compare_to st2 st3 = 0 ->
      compare_to st1 st3 = 0).
Proof.
  intros H1 H2 H3. split_and!.
  - exact (compare_to_refl st1 H1).
  - exact (compare_to_sym st1 st2 H1 H2).
  - exact (compare_to_trans st1 st2 st3 H1 H2 H3).
Qed.

(** X8.  Two states that [compare_to] finds equal have the same hash,
    when their attribute pointers are those of the attribute interner:
    the hash that places a state in the table agrees with the
    comparison that identifies it. *)
Theorem equal_states_hash_alike (st1 st2 : State) :
  wf_state st1 -> wf_state st2 ->
  canonical_attribs st1 -> canonical_attribs st2 ->
  compare_to st1 st2 = 0 -> get_hash st1 = get_hash st2.
Proof. exact (get_hash_canonical st1 st2). Qed.

(** X9.  [return_unique] is idempotent: the pointer it returns, given
    back to it, comes back unchanged, and the second call changes
    nothing in the world. *)
Theorem return_unique_idempotent (w : World) (p : N) (n : State) :
  heap w !! p = Some n -> wf_state n ->
  (uniquify_attribs (config w) = true -> canonical_attribs n) ->
  interner_inv w ->
  exists q w',
    return_unique p w = Some (q, w')
    /\ return_unique q w' = Some (q, w').
Proof.
  intros Hn Hwf Hcan Hinv.
  destruct (state_cache (config w)) eqn:Hsc.
  - destruct (return_unique_inv w p n Hsc Hn Hwf Hcan Hinv)
      as (q & w' & r & Hrun & Hin & Hr & _ & _ & Hinv' & Hcfg & _).
    exists q, w'. split; [exact Hrun|].
    destruct Hinv' as (I1 & _).
    destruct (I1 q Hin) as (r' & Hr' & _ & _ & Hse).
    assert (r' = r) as -> by congruence.
    destruct (return_unique_cases w' q r Hr)
      as [[Hoff _]|[(_ & _ & H)|[(_ & Hse' & _)|(_ & Hse' & _)]]];
      [congruence|exact H|contradiction|contradiction].
  - exists p, w.
    destruct (return_unique_cases w p n Hn)
      as [[_ H]|[(Hon & _)|[(Hon & _)|(Hon & _)]]];
      [split; exact H|congruence..].
Qed.

(** X10.  [return_unique] keeps the invariant of the intern table: the
    entries are allocated, well-formed states marked as saved, every
    state marked as saved is an entry, no two entries compare equal, and
    no entry is listed twice.  With the state cache on, the pointer
    returned is an entry of the table. *)
Theorem return_unique_keeps_invariant
    (w : World) (p : N) (n : State) (q : N) (w' : World) :
  heap w !! p = Some n -> wf_state n ->
  (uniquify_attribs (config w) = true -> canonical_attribs n) ->
  interner_inv w ->
  return_unique p w = Some (q, w') ->
  interner_inv w'
  /\ (state_cache (config w) = true -> q ∈ _states w').
Proof.
  intros Hn Hwf Hcan Hinv Hrun.
  destruct (state_cache (config w)) eqn:Hsc.
  - destruct (return_unique_inv w p n Hsc Hn Hwf Hcan Hinv)
      as (q0 & w0 & r & Hrun0 & Hin & _ & _ & _ & Hinv' & _).
    rewrite Hrun in Hrun0. injection Hrun0 as <- <-.
    split; [exact Hinv'|]. intros _. exact Hin.
  - destruct (return_unique_cases w p n Hn)
      as [[_ H]|[(Hon & _)|[(Hon & _)|(Hon & _)]]]; [|congruence..].
    rewrite Hrun in H. injection H as -> ->.
    split; [exact Hinv|discriminate].
Qed.

(** *** Releasing an entry *)

Lemma elem_of_remove_element_other {E : Type} (x y : E) (i : nat)
    (table : list E) :
  table !! i = Some y -> x ∈ table -> x <> y ->
  x ∈ SimpleHashMap.remove_element i table.
Proof.
  intros Hi Hx Hne. unfold SimpleHashMap.remove_element.
  destruct (last table) as [e|] eqn:Hlast;
    [|apply last_None in Hlast; subst table; discriminate Hi].
  rewrite last_lookup in Hlast.
  pose proof (lookup_lt_Some _ _ _ Hi) as Hlt.
  apply list_elem_of_lookup_1 in Hx as (j & Hj).
  pose proof (lookup_lt_Some _ _ _ Hj) as Hjlt.
  assert (j <> i) as Hji by (intros ->; congruence).
  destruct (decide (j = pred (length table))) as [->|Hjl].
  - assert (e = x) as -> by congruence.
    apply (list_elem_of_lookup_2 _ i). apply lookup_take_Some. split; [|lia].
    apply list_lookup_insert_Some. left. split_and!; [reflexivity..|lia].
  - apply (list_elem_of_lookup_2 _ j). apply lookup_take_Some. split; [|lia].
    apply list_lookup_insert_Some. right. split; [congruence|exact Hj].
Qed.

(** X11.  [release_new] takes the entry of the state out of the table,
    and no other: the entries left are the other entries, each listed
    once, the state is marked as not saved, and the invariant of the
    table holds afterwards. *)
Theorem release_new_removes_only_this (w : World) (this : N) (st : State) :
  heap w !! this = Some st -> interner_inv w ->
  exists w',
    release_new this w = Some (tt, w')
    /\ (forall x, x ∈ _states w' <-> x ∈ _states w /\ x <> this)
    /\ heap w' = <[this := with_saved_entry (-1) st]> (heap w)
    /\ interner_inv w'.
Proof.
  intros Hst Hinv. pose proof Hinv as (I1 & I2 & I3 & I4).
  unfold release_new. rewrite (bind_deref _ _ _ _ Hst).
  destruct (Z.eqb_spec (_saved_entry st) (-1)) as [Hse|Hse]; cbn [negb].
  - assert (this ∉ _states w) as Hnotin.
    { intros Hin. destruct (I1 this Hin) as (r & Hr & _ & _ & Hs).
      congruence. }
    exists w. split_and!; [reflexivity| | |exact Hinv].
    + intros x. split; [|tauto]. intros Hx. split; [exact Hx|].
      intros ->. exact (Hnotin Hx).
    + symmetry. apply insert_id. rewrite Hst. f_equal.
      destruct st. cbn in Hse. subst. reflexivity.
  - rewrite (bind_update _ _ _ _ _ Hst).
    set (st1 := with_saved_entry (-1) st).
    set (w1 := with_heap (insert this st1) w).
    assert (heap w1 !! this = Some st1) as Hst1 by apply lookup_insert_eq.
    pose proof (I2 this st Hst Hse) as Hin.
    unfold bind, states_remove. rewrite Hst1.
    set (si := states_find w1 this st1).
    assert (si <> -1) as Hsi.
    { intros Hnone. apply SimpleHashMap.find_None in Hnone.
      rewrite Forall_forall in Hnone. specialize (Hnone this Hin).
      unfold states_is_element in Hnone. rewrite Hst1, Z.eqb_refl in Hnone.
      rewrite bool_decide_eq_true_2 in Hnone by reflexivity.
      discriminate Hnone. }
    destruct (SimpleHashMap.find_Some _ _ Hsi) as (e & Hlook & Hel).
    fold (states_find w1 this st1) in Hlook. fold si in Hlook.
    change (_states w1) with (_states w) in Hlook.
    assert (e = this) as ->.
    { apply states_is_element_true in Hel as (est & Hest & _ & [He|Hc]);
        [exact He|].
      destruct (decide (e = this)) as [He|Hne]; [exact He|].
      assert (heap w !! e = Some est) as Hest0.
      { rewrite <- Hest. subst w1. cbn [heap with_heap].
        by rewrite lookup_insert_ne. }
      apply list_elem_of_lookup_2 in Hlook.
      apply (I3 e this est st Hlook Hin Hest0 Hst).
      rewrite <- Hc. apply compare_to_ext_r; reflexivity. }
    destruct (Z.eqb_spec si (-1)) as [|_]; [contradiction|].
    destruct (SimpleHashMap.remove_element_NoDup _ _ _ I4 Hlook)
      as [Hnotin Hnd].
    set (table' := SimpleHashMap.remove_element (Z.to_nat si) (_states w))
      in *.
    assert (forall x, x ∈ table' <-> x ∈ _states w /\ x <> this) as Hiff.
    { intros x. split.
      - intros Hx. split.
        + exact (SimpleHashMap.elem_of_remove_element _ _ _ Hx).
        + intros ->. exact (Hnotin Hx).
      - intros [Hx Hne].
        exact (elem_of_remove_element_other x this _ _ Hlook Hx Hne). }
    eexists. split_and!; [reflexivity|exact Hiff|reflexivity|].
    unfold interner_inv. subst w1. fields. fold table'.
    split_and!.
    + intros q Hq. apply Hiff in Hq as [Hq Hne].
      destruct (I1 q Hq) as (r & Hr & Hwfr & Hcr & Hsr).
      exists r. rewrite lookup_insert_ne by congruence. done.
    + intros q r Hr Hsr. apply Hiff.
      destruct (decide (q = this)) as [->|Hne].
      * rewrite lookup_insert_eq in Hr. injection Hr as <-.
        subst st1. cbn [_saved_entry with_saved_entry] in Hsr. done.
      * rewrite lookup_insert_ne in Hr by congruence.
        split; [exact (I2 q r Hr Hsr)|exact Hne].
    + intros q1 q2 r1 r2 Hq1 Hq2 Hr1 Hr2 Hc.
      apply Hiff in Hq1 as [Hq1 Hn1], Hq2 as [Hq2 Hn2].
      rewrite lookup_insert_ne in Hr1, Hr2 by congruence.
      exact (I3 q1 q2 r1 r2 Hq1 Hq2 Hr1 Hr2 Hc).
    + exact Hnd.
Qed.

(** *** The empty state *)

Lemma compare_to_empty st1 st2 :
  wf_state st1 -> wf_state st2 ->
  is_empty st1 = true -> is_empty st2 = true -> compare_to st1 st2 = 0.
Proof.
  intros H1 H2 E1 E2. unfold is_empty, SlotMask.is_zero in E1, E2.
  apply Z.eqb_eq in E1, E2. apply compare_to_0_wf; [done..|].
  split; [congruence|]. intros slot Hs. rewrite E1, Z.bits_0 in Hs.
  discriminate Hs.
Qed.

(** X30.  There is one empty state: with the state cache on, a state
    that holds no attribute from slot 1 on, given to [return_new], comes
    back as the canonical empty state [_empty_state], the entry of the
    table made by [init_states]. *)
Theorem empty_state_unique (w : World) (p : N) (n e : State) :
  state_cache (config w) = true ->
  interner_inv w ->
  heap w !! _empty_state w = Some e -> is_empty e = true ->
  _empty_state w ∈ _states w ->
  heap w !! p = Some n -> wf_state n -> _saved_entry n = -1 ->
  is_empty (clear_slot_0 n) = true ->
  exists w', return_new p w = Some (_empty_state w, w').
Proof.
  intros Hsc Hinv He Hee Hein Hn Hwf Hse Hempty.
  pose proof Hinv as (I1 & I2 & I3 & I4).
  assert (p ∉ _states w) as Hnotin.
  { intros Hin. destruct (I1 p Hin) as (r & Hr & _ & _ & Hs). congruence. }
  assert (_empty_state w <> p) as Hep by (intros <-; contradiction).
  unfold return_new. rewrite (bind_update _ _ _ _ _ Hn), bind_get_config.
  set (n0 := clear_slot_0 n) in *.
  set (w0 := with_heap (insert p n0) w).
  assert (heap w0 !! p = Some n0) as Hn0 by apply lookup_insert_eq.
  rewrite (bind_deref _ _ _ _ Hn0), Hempty, andb_false_r.
  assert (forall x, x <> p -> heap w0 !! x = heap w !! x) as Hframe0.
  { intros x Hx. subst w0. cbn [heap with_heap].
    apply lookup_insert_ne. congruence. }
  assert (interner_inv w0) as Hinv0.
  { split_and!.
    - intros q Hq. change (_states w0) with (_states w) in Hq.
      destruct (I1 q Hq) as (r & Hr & Hrest). exists r.
      rewrite Hframe0 by (intros ->; contradiction). done.
    - intros q r Hr Hs. change (_states w0) with (_states w).
      destruct (decide (q = p)) as [->|Hqp].
      + assert (r = n0) as -> by congruence. subst n0.
        unfold clear_slot_0 in Hs. cbn in Hs. contradiction.
      + rewrite Hframe0 in Hr by exact Hqp. exact (I2 q r Hr Hs).
    - intros q1 q2 r1 r2 Hq1 Hq2. change (_states w0) with (_states w) in *.
      rewrite !Hframe0 by (intros ->; contradiction).
      by apply I3.
    - exact I4. }
  pose proof (wf_clear_slot_0 n Hwf) as Hwf0. fold n0 in Hwf0.
  assert (canonical_attribs n0) as Hcan0.
  { intros slot a Hs _. unfold is_empty, SlotMask.is_zero in Hempty.
    apply Z.eqb_eq in Hempty. rewrite Hempty, Z.bits_0 in Hs.
    discriminate Hs. }
  destruct (return_unique_inv w0 p n0 Hsc Hn0 Hwf0 (fun _ => Hcan0) Hinv0)
    as (q & w' & r & Hrun & Hin & Hr & Hwfr & Hcmp & Hinv' & _ & Hframe
        & Hgrow & _).
  exists w'. rewrite Hrun. do 2 f_equal.
  destruct Hinv' as (_ & _ & I3' & _).
  destruct (I1 _ Hein) as (e' & He' & Hwfe & _).
  assert (e' = e) as -> by congruence.
  assert (heap w' !! _empty_state w = Some e) as He1.
  { rewrite (Hframe _ Hep), Hframe0 by exact Hep. exact He. }
  apply (I3' q (_empty_state w) r e Hin (Hgrow _ Hein) Hr He1).
  apply (compare_to_trans r n0 e Hwfr Hwf0 Hwfe Hcmp).
  by apply compare_to_empty.
Qed.

End Interning.

(** *** The scene of the witnesses

    [world_built] holds two states, 1 and 2, that have not been through
    the interner; [world_ab] holds the interned states 1 and 2. *)

Section Scene.
#[local] Existing Instance Fixture.attribs.

Lemma world_built_1 : heap world_built !! 1%N = Some (state_at world_built 1).
Proof. vm_compute. reflexivity. Qed.

Lemma world_built_1_wf : wf_state (state_at world_built 1).
Proof. apply wf_stateb_correct. vm_compute. reflexivity. Qed.

Lemma world_built_1_canonical : canonical_attribs (state_at world_built 1).
Proof.
  apply canonicalb_correct; [exact world_built_1_wf|].
  vm_compute. reflexivity.
Qed.

Lemma world_ab_inv : interner_inv world_ab.
Proof. apply interner_invb_correct. vm_compute. reflexivity. Qed.

Lemma world_ab_1 : heap world_ab !! 1%N = Some (state_at world_ab 1).
Proof. vm_compute. reflexivity. Qed.

Lemma world_ab_1_wf : wf_state (state_at world_ab 1).
Proof. apply wf_stateb_correct. vm_compute. reflexivity. Qed.

Lemma world_ab_2_wf : wf_state (state_at world_ab 2).
Proof. apply wf_stateb_correct. vm_compute. reflexivity. Qed.

End Scene.

Lemma compare_to_equivalence_witness :
  compare_to (ops:=Fixture.attribs) (state_at world_ab 1) (state_at world_ab 1)
  = 0
  /\ compare_to (ops:=Fixture.attribs) (state_at world_built 1)
       (state_at world_ab 1) = 0.
Proof.
  destruct (compare_to_equivalence (laws:=Fixture.attribs_laws)
              (state_at world_ab 1) (state_at world_built 1)
              (state_at world_ab 2)
              world_ab_1_wf world_built_1_wf world_ab_2_wf)
    as (Hrefl & Hsym & _).
  split; [exact Hrefl|]. apply Hsym. vm_compute. reflexivity.
Defined.

Lemma equal_states_hash_alike_witness :
  get_hash (ops:=Fixture.attribs) (state_at world_built 1)
  = get_hash (ops:=Fixture.attribs) (state_at world_ab 1).
Proof.
  apply (equal_states_hash_alike (laws:=Fixture.attribs_laws)
           (state_at world_built 1) (state_at world_ab 1)
           world_built_1_wf world_ab_1_wf world_built_1_canonical).
  - apply canonicalb_correct; [exact world_ab_1_wf|]. vm_compute. reflexivity.
  - vm_compute. reflexivity.
Defined.

Lemma return_unique_idempotent_witness :
  exists q w',
    return_unique (ops:=Fixture.attribs) 1 world_built = Some (q, w')
    /\ return_unique (ops:=Fixture.attribs) q w' = Some (q, w').
Proof.
  exact (return_unique_idempotent (laws:=Fixture.attribs_laws) world_built 1
           (state_at world_built 1) world_built_1 world_built_1_wf
           (fun _ => world_built_1_canonical)
           (interner_invb_correct _ world_built_checked)).
Defined.

Lemma return_unique_keeps_invariant_witness :
  interner_inv (ops:=Fixture.attribs)
    (with_states (fun _ => [0%N; 1%N])
       (with_heap (insert 1%N (with_saved_entry 1 (state_at world_built 1)))
          world_built)).
Proof.
  refine (proj1 (return_unique_keeps_invariant (laws:=Fixture.attribs_laws)
                   world_built 1 (state_at world_built 1) 1 _
                   world_built_1 world_built_1_wf
                   (fun _ => world_built_1_canonical)
                   (interner_invb_correct _ world_built_checked) _)).
  vm_compute. reflexivity.
Defined.

Lemma release_new_removes_only_this_witness :
  exists w',
    release_new (ops:=Fixture.attribs) 1 world_ab = Some (tt, w')
    /\ (forall x, x ∈ _states w' <-> x ∈ _states world_ab /\ x <> 1%N)
    /\ interner_inv (ops:=Fixture.attribs) w'.
Proof.
  destruct (release_new_removes_only_this (ops:=Fixture.attribs)
              world_ab 1 (state_at world_ab 1) world_ab_1 world_ab_inv)
    as (w' & Hrun & Hiff & _ & Hinv).
  exists w'. split_and!; [exact Hrun|exact Hiff|exact Hinv].
Defined.

Lemma empty_state_unique_witness :
  exists w',
    return_new (ops:=Fixture.attribs) 1
      (with_heap (insert 1%N default_state) world0)
    = Some (0%N, w').
Proof.
  refine (empty_state_unique (laws:=Fixture.attribs_laws)
            (with_heap (insert 1%N default_state) world0) 1 default_state
            empty_object _ _ _ _ _ _ wf_default_state _ _).
  - reflexivity.
  - apply interner_invb_correct. vm_compute. reflexivity.
  - vm_compute. reflexivity.
  - reflexivity.
  - by left.
  - vm_compute. reflexivity.
  - reflexivity.
  - vm_compute. reflexivity.
Defined.

End Interning.

(** ** The composition cache *)

Module CompositionCache.
Import RenderState RenderStateFacts.

#[local] Arguments SlotMask.clear_bit : simpl never.
#[local] Arguments SlotMask.set_bit : simpl never.
#[local] Arguments SlotMask.fold_on_bits : simpl never.
#[local] Arguments attr_at : simpl never.
#[local] Arguments set_attr_at : simpl never.
#[local] Arguments compare_to : simpl never.
#[local] Arguments do_compose_state : simpl never.
#[local] Arguments do_invert_compose_state : simpl never.
#[local] Arguments default_state : simpl never.
#[local] Opaque SlotMask.fold_on_bits compare_to_loop.

(** *** Lookups in a cache that has just been written *)

Section Lookups.
Context {E : Type}.

Lemma find_from_app_last (is_element : E -> bool) (l : list E) (e : E) i :
  Forall (fun x => is_element x = false) l -> is_element e = true ->
  SimpleHashMap.find_from is_element i (l ++ [e]) = i + Z.of_nat (length l).
Proof.
  intros Hall He. revert i. induction Hall as [|x l Hx _ IH]; intros i.
  - cbn. rewrite He. lia.
  - cbn [app SimpleHashMap.find_from length]. rewrite Hx, IH. lia.
Qed.

Lemma find_from_alter (is_element : E -> bool) (f : E -> E) (l : list E) j i :
  (forall x, is_element (f x) = is_element x) ->
  SimpleHashMap.find_from is_element i (alter f j l)
  = SimpleHashMap.find_from is_element i l.
Proof.
  intros Hf. revert j i. induction l as [|x l IH]; intros j i; [reflexivity|].
  destruct j as [|j]; cbn [alter list_alter SimpleHashMap.find_from].
  - rewrite Hf. reflexivity.
  - rewrite IH. reflexivity.
Qed.

End Lookups.

Lemma cache_find_cache_set cache key result :
  cache_find cache key = -1 ->
  cache_find (cache_set key result cache) key = Z.of_nat (length cache)
  /\ cache_set key result cache !! length cache
     = Some (key, mkComposition result).
Proof.
  intros Hnone. unfold cache_set, SimpleHashMap.store.
  unfold cache_find in Hnone. rewrite Hnone. cbn [Z.ltb Z.compare fst].
  unfold cache_find, SimpleHashMap.find. split.
  - rewrite find_from_app_last.
    + lia.
    + by apply SimpleHashMap.find_None.
    + by apply bool_decide_eq_true.
  - rewrite lookup_app_r by lia. by rewrite Nat.sub_diag.
Qed.

Lemma cache_find_cache_set_found cache key result :
  cache_find (cache_set key result cache) key <> -1.
Proof.
  intros Hnone. apply SimpleHashMap.find_None in Hnone.
  rewrite Forall_forall in Hnone.
  assert ((key, mkComposition result) ∈ cache_set key result cache) as Hin.
  { unfold cache_set, SimpleHashMap.store.
    set (i := SimpleHashMap.find (fun e => bool_decide (e.1 = key)) cache).
    destruct (Z.ltb_spec i 0) as [Hlt|Hge]; cbn [fst].
    - apply elem_of_app. right. by left.
    - assert (i <> -1) as Hi by lia.
      destruct (SimpleHashMap.find_Some _ _ Hi) as (e & He & _).
      apply (list_elem_of_lookup_2 _ (Z.to_nat i)).
      apply list_lookup_insert_eq. by eapply lookup_lt_Some. }
  specialize (Hnone _ Hin). cbn in Hnone.
  by rewrite bool_decide_eq_true_2 in Hnone.
Qed.

Lemma cache_find_alter cache key result i :
  cache_find (alter (set_result result) i cache) key = cache_find cache key.
Proof.
  unfold cache_find, SimpleHashMap.find. apply find_from_alter.
  intros [k c]. reflexivity.
Qed.

Section Memo.
Context {ops : RenderAttrib.Ops} {laws : RenderAttrib.Laws ops}.

(** The state of [this] holds the result [q] for [other] in the cache
    [cache_of]. *)
Definition cached (cache_of : State -> list (N * Composition))
    (w : World) (this other q : N) : Prop :=
  exists st comp,
    heap w !! this = Some st
    /\ cache_find (cache_of st) other <> -1
    /\ cache_of st !! Z.to_nat (cache_find (cache_of st) other)
       = Some (other, comp)
    /\ _result comp = Some q.

Lemma compose_cached w this other st ost q :
  heap w !! this = Some st -> heap w !! other = Some ost ->
  is_empty st = false -> is_empty ost = false ->
  state_cache (config w) = true ->
  cached _composition_cache w this other q ->
  compose this other w = Some (q, w).
Proof.
  intros Hst Host Hne Hneo Hsc (st' & comp & Hst' & Hidx & Hlook & Hres).
  assert (st' = st) as -> by congruence.
  unfold compose.
  rewrite (bind_deref _ _ _ _ Hst), (bind_deref _ _ _ _ Host), Hne, Hneo.
  rewrite bind_get_config, Hsc. cbn [negb].
  destruct (Z.eqb_spec (cache_find (_composition_cache st) other) (-1))
    as [|_]; [contradiction|]. cbn [negb].
  rewrite Hlook, Hres. reflexivity.
Qed.

Lemma invert_compose_cached w this other st ost q :
  heap w !! this = Some st -> heap w !! other = Some ost ->
  is_empty st = false -> other <> this ->
  state_cache (config w) = true ->
  cached _invert_composition_cache w this other q ->
  invert_compose this other w = Some (q, w).
Proof.
  intros Hst Host Hne Hneq Hsc (st' & comp & Hst' & Hidx & Hlook & Hres).
  assert (st' = st) as -> by congruence.
  unfold invert_compose.
  rewrite (bind_deref _ _ _ _ Hst), (bind_deref _ _ _ _ Host), Hne.
  rewrite bool_decide_eq_false_2 by exact Hneq.
  rewrite bind_get_config, Hsc. cbn [negb].
  destruct (Z.eqb_spec (cache_find (_invert_composition_cache st) other) (-1))
    as [|_]; [contradiction|]. cbn [negb].
  rewrite Hlook, Hres. reflexivity.
Qed.

(** The tail of [compose] and of [invert_compose] once the result [q]
    has been computed: it is recorded for [other] in the cache of
    [this], a record for [this] is made in the cache of [other], and the
    result gets its cache reference. *)
Lemma record_result
    (cache_of : State -> list (N * Composition))
    (with_cache : (list (N * Composition) -> list (N * Composition)) ->
                  State -> State)
    (g : list (N * Composition) -> list (N * Composition))
    w1 this other q st ost r comp :
  (forall f s, cache_of (with_cache f s) = f (cache_of s)) ->
  (forall f s, ref_count (with_cache f s) = ref_count s
               /\ cache_ref_count (with_cache f s) = cache_ref_count s) ->
  (forall f1 f2 s, cache_of (with_ref_counts f1 f2 s) = cache_of s) ->
  (forall f, shape_preserving (with_cache f)) ->
  heap w1 !! this = Some st -> heap w1 !! other = Some ost ->
  heap w1 !! q = Some r ->
  cache_find (g (cache_of st)) other <> -1 ->
  g (cache_of st) !! Z.to_nat (cache_find (g (cache_of st)) other)
  = Some (other, comp) ->
  _result comp = Some q ->
  forall (b : bool), (b = true -> other <> this) ->
  exists w',
    (update this (with_cache g) ;;
     when b (update other (with_cache (cache_set this None))) ;;
     when (negb (bool_decide (q = this))) (cache_ref q) ;;
     ret q) w1 = Some (q, w')
    /\ cached cache_of w' this other q
    /\ same_shapes w1 w' /\ config w' = config w1
    /\ (b = true ->
        exists ost', heap w' !! other = Some ost'
                     /\ cache_find (cache_of ost') this <> -1)
    /\ (q <> this ->
        exists r', heap w' !! q = Some r'
                   /\ ref_count r' = ref_count r + 1
                   /\ cache_ref_count r' = cache_ref_count r + 1).
Proof.
  intros Hco Hcounts Hrc Hsh Hst Host Hr Hidx Hlook Hres b Hb.
  rewrite (bind_update _ _ _ _ _ Hst).
  set (st2 := with_cache g st). set (w2 := with_heap (insert this st2) w1).
  assert (heap w2 !! this = Some st2) as Hst2 by apply lookup_insert_eq.
  assert (exists ost2, heap w2 !! other = Some ost2) as (ost2 & Host2).
  { subst w2. cbn [heap with_heap].
    destruct (decide (other = this)) as [->|Hne].
    - rewrite lookup_insert_eq. by eexists.
    - rewrite lookup_insert_ne by congruence. by eexists. }
  rewrite (bind_when_update _ _ _ _ _ _ Host2).
  set (ost3 := if b then _ else ost2).
  set (w3 := with_heap (insert other ost3) w2).
  assert (heap w3 !! this = Some st2) as Hst3.
  { subst w3. cbn [heap with_heap]. destruct b.
    - rewrite lookup_insert_ne by (apply Hb; reflexivity). exact Hst2.
    - destruct (decide (other = this)) as [He|Hne].
      + subst ost3. rewrite He in Host2 |- *. rewrite lookup_insert_eq.
        congruence.
      + rewrite lookup_insert_ne by congruence. exact Hst2. }
  assert (same_shapes w1 w2) as Hsh2
    by exact (update_same_shapes w1 this _ st Hst (Hsh g)).
  assert (same_shapes w2 w3) as Hsh3.
  { subst w3 ost3. destruct b.
    - exact (update_same_shapes w2 other _ ost2 Host2 (Hsh _)).
    - rewrite with_heap_insert_id by exact Host2. apply same_shapes_refl. }
  destruct (same_shapes_trans _ _ _ Hsh2 Hsh3 q r Hr) as (r3 & Hr3 & _).
  unfold cache_ref. rewrite (bind_when_update _ _ _ _ _ _ Hr3).
  set (r4 := if negb (bool_decide (q = this)) then _ else r3).
  set (w4 := with_heap (insert q r4) w3).
  assert (same_shapes w3 w4) as Hsh4.
  { subst w4 r4. destruct (negb (bool_decide (q = this))).
    - exact (update_same_shapes w3 q _ r3 Hr3 (shape_with_ref_counts _ _)).
    - rewrite with_heap_insert_id by exact Hr3. apply same_shapes_refl. }
  assert (heap w4 !! this = Some st2) as Hst4.
  { subst w4 r4. cbn [heap with_heap]. case_bool_decide as Hq; cbn [negb].
    - subst q. rewrite lookup_insert_eq. congruence.
    - rewrite lookup_insert_ne by congruence. exact Hst3. }
  assert (heap w3 !! other = Some ost3) as Host3 by apply lookup_insert_eq.
  exists w4. split_and!; [reflexivity| | |reflexivity| |].
  - exists st2, comp. subst st2. rewrite Hco.
    split_and!; [exact Hst4|exact Hidx|exact Hlook|exact Hres].
  - exact (same_shapes_trans _ _ _ Hsh2 (same_shapes_trans _ _ _ Hsh3 Hsh4)).
  - intros ->. subst ost3. cbv iota in Host3.
    destruct (decide (q = other)) as [->|Hqo].
    + assert (r3 = with_cache (cache_set this None) ost2) as Hr3eq
        by congruence.
      exists r4. split; [apply lookup_insert_eq|].
      subst r4. rewrite bool_decide_eq_false_2 by (apply Hb; reflexivity).
      cbn [negb]. rewrite Hrc, Hr3eq, Hco.
      apply cache_find_cache_set_found.
    + eexists. subst w4. cbn [heap with_heap].
      rewrite lookup_insert_ne by congruence. split; [exact Host3|].
      rewrite Hco. apply cache_find_cache_set_found.
  - intros Hq. exists r4. split; [apply lookup_insert_eq|].
    subst r4. rewrite bool_decide_eq_false_2 by exact Hq. cbn [negb].
    cbn [ref_count cache_ref_count with_ref_counts].
    assert (ref_count r3 = ref_count r
            /\ cache_ref_count r3 = cache_ref_count r) as [-> ->];
      [|split; reflexivity].
    assert (heap w2 !! q = Some r) as Hr2.
    { subst w2. cbn [heap with_heap].
      rewrite lookup_insert_ne by congruence. exact Hr. }
    destruct (decide (q = other)) as [->|Hqo].
    + assert (ost2 = r) as -> by congruence.
      assert (r3 = ost3) as -> by congruence.
      subst ost3. destruct b; [apply Hcounts|done].
    + assert (r3 = r) as ->; [|done].
      subst w3. cbn [heap with_heap] in Hr3.
      rewrite lookup_insert_ne in Hr3 by congruence. congruence.
Qed.

Lemma cached_frame cache_of w w' this other q st ost :
  heap w !! this = Some st -> heap w !! other = Some ost ->
  same_shapes w w' -> cached cache_of w' this other q ->
  exists st' ost',
    heap w' !! this = Some st' /\ heap w' !! other = Some ost'
    /\ is_empty st' = is_empty st /\ is_empty ost' = is_empty ost.
Proof.
  intros Hst Host Hsh _.
  destruct (Hsh this st Hst) as (st' & Hst' & Hm & _).
  destruct (Hsh other ost Host) as (ost' & Host' & Hmo & _).
  exists st', ost'. unfold is_empty. rewrite Hm, Hmo. done.
Qed.

(** X12.  A composition is computed once: with the state cache on,
    [compose] called a second time with the same operands returns the
    pointer of the first call and changes nothing in the world. *)
Theorem compose_memoised (w : World) (this other : N) (st ost : State) :
  heap w !! this = Some st -> heap w !! other = Some ost ->
  wf_state st -> wf_state ost -> table_wf w ->
  state_cache (config w) = true ->
  exists q w',
    compose this other w = Some (q, w')
    /\ compose this other w' = Some (q, w').
Proof.
  intros Hst Host Hwf Hwfo Htable Hsc.
  assert (forall (q : N),
            compose this other w = Some (q, w) ->
            exists q w', compose this other w = Some (q, w')
                         /\ compose this other w' = Some (q, w')) as Hsame.
  { intros q H. exists q, w. split; exact H. }
  destruct (is_empty st) eqn:Hne.
  { apply (Hsame other). unfold compose.
    rewrite (bind_deref _ _ _ _ Hst), (bind_deref _ _ _ _ Host), Hne.
    reflexivity. }
  destruct (is_empty ost) eqn:Hneo.
  { apply (Hsame this). unfold compose.
    rewrite (bind_deref _ _ _ _ Hst), (bind_deref _ _ _ _ Host), Hne, Hneo.
    reflexivity. }
  assert (forall q w',
            compose this other w = Some (q, w') ->
            cached _composition_cache w' this other q ->
            same_shapes w w' -> config w' = config w ->
            exists q w', compose this other w = Some (q, w')
                         /\ compose this other w' = Some (q, w')) as Hmemo.
  { intros q w' Hrun Hc Hsh Hcfg. exists q, w'. split; [exact Hrun|].
    destruct (cached_frame _ w w' this other q st ost Hst Host Hsh Hc)
      as (st' & ost' & Hst' & Host' & He & Heo).
    apply (compose_cached w' this other st' ost' q Hst' Host');
      [congruence|congruence|congruence|exact Hc]. }
  destruct (Z.eq_dec (cache_find (_composition_cache st) other) (-1))
    as [Hidx|Hidx].
  - destruct (do_compose_spec w this other st ost Hst Host Hwf Hwfo Htable)
      as (q & w1 & r & Hdo & Hr & _ & _ & Hframe & Hcfg & _).
    destruct (cache_find_cache_set (_composition_cache st) other (Some q) Hidx)
      as [Hfind Hlook].
    destruct (record_result _composition_cache with_composition_cache
                (cache_set other (Some q)) w1 this other q st ost r
                (mkComposition (Some q))
                (fun _ _ => eq_refl) (fun _ _ => conj eq_refl eq_refl)
                (fun _ _ _ => eq_refl) shape_with_composition_cache
                (Hframe _ _ Hst) (Hframe _ _ Host) Hr
                ltac:(rewrite Hfind; lia)
                ltac:(rewrite Hfind, Nat2Z.id; exact Hlook)
                eq_refl (negb (bool_decide (other = this))))
      as (w' & Hrun & Hc & Hsh & Hcfg' & _).
    { intros Hb. apply negb_true_iff, bool_decide_eq_false in Hb. exact Hb. }
    apply (Hmemo q w'); [|exact Hc| |congruence].
    + unfold compose.
      rewrite (bind_deref _ _ _ _ Hst), (bind_deref _ _ _ _ Host), Hne, Hneo.
      rewrite bind_get_config, Hsc. cbn [negb].
      rewrite Hidx. change (negb (-1 =? -1)) with false. cbv iota.
      rewrite (bind_Some _ _ _ _ _ Hdo).
      exact Hrun.
    + exact (same_shapes_trans _ _ _ (frame_same_shapes _ _ Hframe) Hsh).
  - destruct (cache_find_Some _ _ Hidx) as (comp & Hlook).
    destruct (_result comp) as [result|] eqn:Hres.
    + apply (Hsame result). unfold compose.
      rewrite (bind_deref _ _ _ _ Hst), (bind_deref _ _ _ _ Host), Hne, Hneo.
      rewrite bind_get_config, Hsc. cbn [negb].
      destruct (Z.eqb_spec (cache_find (_composition_cache st) other) (-1))
        as [|_]; [contradiction|]. cbn [negb].
      rewrite Hlook, Hres. reflexivity.
    + destruct (do_compose_spec w this other st ost Hst Host Hwf Hwfo Htable)
        as (q & w1 & r & Hdo & Hr & _ & _ & Hframe & Hcfg & _).
      set (i := Z.to_nat (cache_find (_composition_cache st) other)) in *.
      destruct (record_result _composition_cache with_composition_cache
                  (alter (set_result (Some q)) i) w1 this other q st ost r
                  (mkComposition (Some q))
                  (fun _ _ => eq_refl) (fun _ _ => conj eq_refl eq_refl)
                (fun _ _ _ => eq_refl) shape_with_composition_cache
                  (Hframe _ _ Hst) (Hframe _ _ Host) Hr
                  ltac:(rewrite cache_find_alter; exact Hidx)
                  ltac:(rewrite cache_find_alter; fold i;
                        rewrite list_lookup_alter_eq, Hlook; reflexivity)
                  eq_refl false ltac:(discriminate))
        as (w' & Hrun & Hc & Hsh & Hcfg' & _).
      apply (Hmemo q w'); [|exact Hc| |congruence].
      * unfold compose.
        rewrite (bind_deref _ _ _ _ Hst), (bind_deref _ _ _ _ Host), Hne, Hneo.
        rewrite bind_get_config, Hsc. cbn [negb].
        destruct (Z.eqb_spec (cache_find (_composition_cache st) other) (-1))
          as [|_]; [contradiction|]. cbn [negb].
        fold i. rewrite Hlook, Hres. rewrite (bind_Some _ _ _ _ _ Hdo).
        exact Hrun.
      * exact (same_shapes_trans _ _ _ (frame_same_shapes _ _ Hframe) Hsh).
Qed.


(** X13.  An inverse composition is computed once: with the state cache
    on, [invert_compose] called a second time with the same operands
    returns the pointer of the first call and changes nothing in the
    world. *)
Theorem invert_compose_memoised
    (w : World) (this other : N) (st ost : State) :
  heap w !! this = Some st -> heap w !! other = Some ost ->
  wf_state st -> wf_state ost -> table_wf w ->
  state_cache (config w) = true ->
  exists q w',
    invert_compose this other w = Some (q, w')
    /\ invert_compose this other w' = Some (q, w').
Proof.
  intros Hst Host Hwf Hwfo Htable Hsc.
  assert (forall (q : N),
            invert_compose this other w = Some (q, w) ->
            exists q w', invert_compose this other w = Some (q, w')
                         /\ invert_compose this other w' = Some (q, w'))
    as Hsame.
  { intros q H. exists q, w. split; exact H. }
  destruct (is_empty st) eqn:Hne.
  { apply (Hsame other). unfold invert_compose.
    rewrite (bind_deref _ _ _ _ Hst), (bind_deref _ _ _ _ Host), Hne.
    reflexivity. }
  destruct (decide (other = this)) as [Heq|Hneq].
  { apply (Hsame (_empty_state w)). unfold invert_compose.
    rewrite (bind_deref _ _ _ _ Hst), (bind_deref _ _ _ _ Host), Hne.
    rewrite bool_decide_eq_true_2 by exact Heq. reflexivity. }
  assert (forall q w',
            invert_compose this other w = Some (q, w') ->
            cached _invert_composition_cache w' this other q ->
            same_shapes w w' -> config w' = config w ->
            exists q w', invert_compose this other w = Some (q, w')
                         /\ invert_compose this other w' = Some (q, w'))
    as Hmemo.
  { intros q w' Hrun Hc Hsh Hcfg. exists q, w'. split; [exact Hrun|].
    destruct (cached_frame _ w w' this other q st ost Hst Host Hsh Hc)
      as (st' & ost' & Hst' & Host' & He & Heo).
    apply (invert_compose_cached w' this other st' ost' q Hst' Host');
      [congruence|exact Hneq|congruence|exact Hc]. }
  assert (invert_compose this other w
          = (if negb (cache_find (_invert_composition_cache st) other =? -1)
               then
                 match _invert_composition_cache st
                       !! Z.to_nat
                            (cache_find (_invert_composition_cache st) other)
                 with
                 | Some (_, comp) =>
                     match _result comp with
                     | None =>
                         let* result := do_invert_compose this other in
                         update this
                           (with_invert_composition_cache
                              (alter (set_result (Some result))
                                 (Z.to_nat
                                    (cache_find
                                       (_invert_composition_cache st) other))));;
                         when (negb (bool_decide (result = this)))
                           (cache_ref result);;
                         ret result
                     | Some result => ret result
                     end
                 | None => fail
                 end
               else
                 let* result := do_invert_compose this other in
                 update this
                   (with_invert_composition_cache
                      (cache_set other (Some result)));;
                 when (negb (bool_decide (other = this)))
                   (update other
                      (with_invert_composition_cache (cache_set this None)));;
                 when (negb (bool_decide (result = this))) (cache_ref result);;
                 ret result) w) as Hunfold.
  { unfold invert_compose.
    rewrite (bind_deref _ _ _ _ Hst), (bind_deref _ _ _ _ Host), Hne.
    rewrite bool_decide_eq_false_2 by exact Hneq.
    rewrite bind_get_config, Hsc. reflexivity. }
  destruct (Z.eq_dec (cache_find (_invert_composition_cache st) other) (-1))
    as [Hidx|Hidx].
  - destruct (do_invert_compose_spec w this other st ost Hst Host Hwf Hwfo
                Htable)
      as (q & w1 & r & Hdo & Hr & _ & _ & Hframe & Hcfg & _).
    destruct (cache_find_cache_set (_invert_composition_cache st) other
                (Some q) Hidx) as [Hfind Hlook].
    destruct (record_result _invert_composition_cache
                with_invert_composition_cache
                (cache_set other (Some q)) w1 this other q st ost r
                (mkComposition (Some q))
                (fun _ _ => eq_refl) (fun _ _ => conj eq_refl eq_refl)
                (fun _ _ _ => eq_refl) shape_with_invert_composition_cache
                (Hframe _ _ Hst) (Hframe _ _ Host) Hr
                ltac:(rewrite Hfind; lia)
                ltac:(rewrite Hfind, Nat2Z.id; exact Hlook)
                eq_refl (negb (bool_decide (other = this))))
      as (w' & Hrun & Hc & Hsh & Hcfg' & _).
    { intros Hb. apply negb_true_iff, bool_decide_eq_false in Hb. exact Hb. }
    apply (Hmemo q w'); [|exact Hc| |congruence].
    + rewrite Hunfold, Hidx. change (negb (-1 =? -1)) with false. cbv iota.
      rewrite (bind_Some _ _ _ _ _ Hdo). exact Hrun.
    + exact (same_shapes_trans _ _ _ (frame_same_shapes _ _ Hframe) Hsh).
  - destruct (cache_find_Some _ _ Hidx) as (comp & Hlook).
    destruct (Z.eqb_spec (cache_find (_invert_composition_cache st) other) (-1))
      as [|_]; [contradiction|]. cbn [negb] in Hunfold.
    rewrite Hlook in Hunfold.
    destruct (_result comp) as [result|] eqn:Hres.
    + apply (Hsame result). exact Hunfold.
    + destruct (do_invert_compose_spec w this other st ost Hst Host Hwf Hwfo
                  Htable)
        as (q & w1 & r & Hdo & Hr & _ & _ & Hframe & Hcfg & _).
      set (i := Z.to_nat (cache_find (_invert_composition_cache st) other))
        in *.
      destruct (record_result _invert_composition_cache
                  with_invert_composition_cache
                  (alter (set_result (Some q)) i) w1 this other q st ost r
                  (mkComposition (Some q))
                  (fun _ _ => eq_refl) (fun _ _ => conj eq_refl eq_refl)
                (fun _ _ _ => eq_refl) shape_with_invert_composition_cache
                  (Hframe _ _ Hst) (Hframe _ _ Host) Hr
                  ltac:(rewrite cache_find_alter; exact Hidx)
                  ltac:(rewrite cache_find_alter; fold i;
                        rewrite list_lookup_alter_eq, Hlook; reflexivity)
                  eq_refl false ltac:(discriminate))
        as (w' & Hrun & Hc & Hsh & Hcfg' & _).
      apply (Hmemo q w'); [|exact Hc| |congruence].
      * rewrite Hunfold. rewrite (bind_Some _ _ _ _ _ Hdo). exact Hrun.
      * exact (same_shapes_trans _ _ _ (frame_same_shapes _ _ Hframe) Hsh).
Qed.

(** X29.  A composition that is computed is recorded both ways: after
    [compose] has made the result of two different non-empty states for
    which it had no record, the cache of the first holds the result for
    the second, the cache of the second holds a record for the first
    (the one [remove_cache_pointers] looks for), and the result, when
    it is a state that was there and is not the first operand, holds
    one more reference and one more cache reference. *)
Theorem compose_records_pair (w : World) (this other : N) (st ost : State) :
  heap w !! this = Some st -> heap w !! other = Some ost ->
  wf_state st -> wf_state ost -> table_wf w ->
  state_cache (config w) = true ->
  is_empty st = false -> is_empty ost = false ->
  other <> this ->
  cache_find (_composition_cache st) other = -1 ->
  exists q w',
    compose this other w = Some (q, w')
    /\ cached _composition_cache w' this other q
    /\ (exists ost',
          heap w' !! other = Some ost'
          /\ cache_find (_composition_cache ost') this <> -1)
    /\ (q <> this ->
        forall rq, heap w !! q = Some rq ->
          exists rq',
            heap w' !! q = Some rq'
            /\ ref_count rq' = ref_count rq + 1
            /\ cache_ref_count rq' = cache_ref_count rq + 1).
Proof.
  intros Hst Host Hwf Hwfo Htable Hsc Hne Hneo Hdiff Hidx.
  destruct (do_compose_spec w this other st ost Hst Host Hwf Hwfo Htable)
    as (q & w1 & r & Hdo & Hr & _ & _ & Hframe & Hcfg & _).
  destruct (cache_find_cache_set (_composition_cache st) other (Some q) Hidx)
    as [Hfind Hlook].
  destruct (record_result _composition_cache with_composition_cache
              (cache_set other (Some q)) w1 this other q st ost r
              (mkComposition (Some q))
              (fun _ _ => eq_refl) (fun _ _ => conj eq_refl eq_refl)
              (fun _ _ _ => eq_refl) shape_with_composition_cache
              (Hframe _ _ Hst) (Hframe _ _ Host) Hr
              ltac:(rewrite Hfind; lia)
              ltac:(rewrite Hfind, Nat2Z.id; exact Hlook)
              eq_refl (negb (bool_decide (other = this))))
    as (w' & Hrun & Hc & _ & _ & Hpair & Hcount).
  { intros _. exact Hdiff. }
  exists q, w'. split_and!; [|exact Hc| |].
  - unfold compose.
    rewrite (bind_deref _ _ _ _ Hst), (bind_deref _ _ _ _ Host), Hne, Hneo.
    rewrite bind_get_config, Hsc. cbn [negb].
    rewrite Hidx. change (negb (-1 =? -1)) with false. cbv iota.
    rewrite (bind_Some _ _ _ _ _ Hdo). exact Hrun.
  - apply Hpair. by rewrite bool_decide_eq_false_2.
  - intros Hq rq Hrq. assert (r = rq) as <-.
    { pose proof (Hframe _ _ Hrq) as Hrq1. congruence. }
    exact (Hcount Hq).
Qed.

End Memo.

Lemma compose_memoised_witness :
  exists q w',
    compose (ops:=Fixture.attribs) 1 2 world_ab = Some (q, w')
    /\ compose (ops:=Fixture.attribs) 1 2 w' = Some (q, w').
Proof.
  refine (compose_memoised (laws:=Fixture.attribs_laws) world_ab 1 2
            (state_at world_ab 1) (state_at world_ab 2) _ _ _ _
            (checked_world_table_wf _ world_ab_checked) _).
  1-2, 5: vm_compute; reflexivity.
  all: apply wf_stateb_correct; vm_compute; reflexivity.
Defined.

Lemma invert_compose_memoised_witness :
  exists q w',
    invert_compose (ops:=Fixture.attribs) 1 2 world_ab = Some (q, w')
    /\ invert_compose (ops:=Fixture.attribs) 1 2 w' = Some (q, w').
Proof.
  refine (invert_compose_memoised (laws:=Fixture.attribs_laws) world_ab 1 2
            (state_at world_ab 1) (state_at world_ab 2) _ _ _ _
            (checked_world_table_wf _ world_ab_checked) _).
  1-2, 5: vm_compute; reflexivity.
  all: apply wf_stateb_correct; vm_compute; reflexivity.
Defined.

Lemma compose_records_pair_witness :
  exists q w',
    compose (ops:=Fixture.attribs) 1 2 world_ab = Some (q, w')
    /\ cached _composition_cache w' 1 2 q
    /\ exists ost',
         heap w' !! 2%N = Some ost'
         /\ cache_find (_composition_cache ost') 1 <> -1.
Proof.
  destruct (compose_records_pair (laws:=Fixture.attribs_laws) world_ab 1 2
              (state_at world_ab 1) (state_at world_ab 2))
    as (q & w' & Hrun & Hc & Hpair & _).
  1-2, 6-8, 10: vm_compute; reflexivity.
  1-2: apply wf_stateb_correct; vm_compute; reflexivity.
  - exact (checked_world_table_wf _ world_ab_checked).
  - discriminate.
  - exists q, w'. split_and!; [exact Hrun|exact Hc|exact Hpair].
Defined.

End CompositionCache.

(** ** The comparisons by pointer *)

Module Comparison.
Import RenderState RenderStateMembers RenderStateFacts.

#[local] Arguments SlotMask.clear_bit : simpl never.
#[local] Arguments SlotMask.get_lowest_on_bit : simpl never.
#[local] Arguments attr_at : simpl never.

(** *** The order of the pointers *)

Lemma pointer_compare_0 a b : pointer_compare a b = 0 <-> a = b.
Proof.
  unfold pointer_compare. case_bool_decide as H; cbn [negb].
  - tauto.
  - destruct (pointer_lt a b); split; (discriminate || contradiction).
Qed.

Lemma pointer_compare_refl a : pointer_compare a a = 0.
Proof. by apply pointer_compare_0. Qed.

Lemma pointer_lt_antisym a b : a <> b -> pointer_lt b a = negb (pointer_lt a b).
Proof.
  destruct a as [pa|], b as [pb|]; cbn; try done.
  intros Hne. destruct (N.ltb_spec pa pb), (N.ltb_spec pb pa); cbn;
    try reflexivity; try lia.
  exfalso. apply Hne. f_equal. lia.
Qed.

Lemma pointer_compare_swap a b : pointer_compare b a = - pointer_compare a b.
Proof.
  unfold pointer_compare.
  destruct (decide (a = b)) as [->|Hne].
  - rewrite bool_decide_eq_true_2 by reflexivity. reflexivity.
  - rewrite !bool_decide_eq_false_2 by congruence. cbn [negb].
    rewrite (pointer_lt_antisym a b Hne). by destruct (pointer_lt a b).
Qed.

Lemma pointer_compare_lt a b :
  pointer_compare a b = -1 <-> pointer_lt a b = true.
Proof.
  unfold pointer_compare. case_bool_decide as H; cbn [negb].
  - subst b. split; [discriminate|].
    destruct a as [pa|]; cbn; [|discriminate]. rewrite N.ltb_irrefl.
    discriminate.
  - destruct (pointer_lt a b); split; done.
Qed.

Lemma pointer_lt_trans a b c :
  pointer_lt a b = true -> pointer_lt b c = true -> pointer_lt a c = true.
Proof.
  destruct a as [pa|], b as [pb|], c as [pc|]; cbn; try done.
  rewrite !N.ltb_lt. lia.
Qed.

(** *** The first difference along a list of slots *)

Section FirstDifference.
Context {K : Type}.

Definition first_difference (ka kb : K -> option N) (l : list K) : Z :=
  first_nonzero ((fun x => pointer_compare (ka x) (kb x)) <$> l).

Lemma first_difference_cons ka kb x l :
  first_difference ka kb (x :: l)
  = if negb (pointer_compare (ka x) (kb x) =? 0)
    then pointer_compare (ka x) (kb x) else first_difference ka kb l.
Proof. reflexivity. Qed.

Lemma first_difference_0 ka kb l :
  first_difference ka kb l = 0 <-> forall x, x ∈ l -> ka x = kb x.
Proof.
  unfold first_difference. rewrite first_nonzero_0, Forall_fmap, Forall_forall.
  split; intros H x Hx; specialize (H x Hx); cbn in *;
    by apply pointer_compare_0.
Qed.

Lemma first_difference_swap ka kb l :
  first_difference kb ka l = - first_difference ka kb l.
Proof.
  induction l as [|x l IH]; [reflexivity|].
  rewrite !first_difference_cons, (pointer_compare_swap (ka x) (kb x)).
  destruct (Z.eqb_spec (pointer_compare (ka x) (kb x)) 0) as [->|Hne].
  - cbn. exact IH.
  - destruct (Z.eqb_spec (- pointer_compare (ka x) (kb x)) 0); [lia|].
    reflexivity.
Qed.

Lemma first_difference_trans ka kb kc l :
  first_difference ka kb l = -1 -> first_difference kb kc l = -1 ->
  first_difference ka kc l = -1.
Proof.
  induction l as [|x l IH]; [discriminate|].
  rewrite !first_difference_cons.
  destruct (Z.eqb_spec (pointer_compare (ka x) (kb x)) 0) as [Hab|Hab];
    destruct (Z.eqb_spec (pointer_compare (kb x) (kc x)) 0) as [Hbc|Hbc];
    cbn [negb].
  - apply pointer_compare_0 in Hab, Hbc. rewrite Hab, Hbc.
    rewrite pointer_compare_refl. cbn. exact IH.
  - apply pointer_compare_0 in Hab. rewrite Hab. intros _ Hlt.
    rewrite Hlt. reflexivity.
  - apply pointer_compare_0 in Hbc. rewrite <- Hbc. intros Hlt _.
    rewrite Hlt. reflexivity.
  - intros H1 H2.
    assert (pointer_compare (ka x) (kc x) = -1) as ->; [|reflexivity].
    apply pointer_compare_lt. apply pointer_compare_lt in H1, H2.
    by eapply pointer_lt_trans.
Qed.

Lemma first_difference_ext ka kb ka' kb' l :
  (forall x, x ∈ l ->
     pointer_compare (ka x) (kb x) = pointer_compare (ka' x) (kb' x)) ->
  first_difference ka kb l = first_difference ka' kb' l.
Proof.
  intros H. unfold first_difference. f_equal. apply list_fmap_ext.
  intros i x Hx. apply H. by eapply list_elem_of_lookup_2.
Qed.

(** Slots at which the two agree can be left out. *)
Lemma first_difference_filter ka kb (P : K -> Prop)
    `{!forall x, Decision (P x)} l :
  (forall x, x ∈ l -> ~ P x -> ka x = kb x) ->
  first_difference ka kb (filter P l) = first_difference ka kb l.
Proof.
  induction l as [|x l IH]; intros Hagree; [reflexivity|].
  rewrite filter_cons. destruct (decide (P x)) as [HP|HP].
  - rewrite !first_difference_cons, IH; [reflexivity|].
    intros y Hy. apply Hagree. by right.
  - rewrite first_difference_cons.
    rewrite (proj2 (pointer_compare_0 _ _) (Hagree x ltac:(by left) HP)).
    cbn. apply IH. intros y Hy. apply Hagree. by right.
Qed.

End FirstDifference.

Section Pointers.

(** The attribute pointer of a slot. *)
Definition pointer_at (st : State) (slot : Z) : option N :=
  _attrib (attr_at (_attributes st) slot).

(** *** compare_mask *)

Lemma compare_mask_loop_from a b n :
  forall k mask fuel,
    Z.of_nat k + Z.of_nat n <= Z.of_nat SlotMask.max_slots ->
    SlotMask.bits_in (Z.of_nat k) n mask -> (n <= fuel)%nat ->
    compare_mask_loop fuel mask a b
    = first_difference (fun slot => _attrib (attr_at a slot))
        (fun slot => _attrib (attr_at b slot))
        (filter (fun slot => Z.testbit mask slot = true)
           (SlotMask.slots_from k n)).
Proof.
  induction n as [|n IH]; intros k mask fuel Hn Hin Hfuel.
  - cbn. destruct fuel as [|fuel]; [done|]. cbn.
    by rewrite (SlotMask.get_lowest_on_bit_none _ _ Hin).
  - rewrite SlotMask.slots_from_S, filter_cons.
    destruct (decide (Z.testbit mask (Z.of_nat k) = true)) as [Hbit|Hbit].
    + destruct fuel as [|fuel]; [lia|]. cbn [compare_mask_loop].
      rewrite (SlotMask.get_lowest_on_bit_found (Z.of_nat k) (S n))
        by (done || lia).
      destruct (Z.ltb_spec (Z.of_nat k) 0); [lia|].
      rewrite first_difference_cons. destruct (negb _); [done|].
      rewrite (IH (S k)); [by rewrite SlotMask.filter_clear_bit|lia| |lia].
      replace (Z.of_nat (S k)) with (Z.of_nat k + 1) by lia.
      apply SlotMask.bits_in_clear; [lia|done].
    + apply not_true_is_false in Hbit.
      rewrite (IH (S k)); [done|lia| |lia].
      replace (Z.of_nat (S k)) with (Z.of_nat k + 1) by lia.
      by apply SlotMask.bits_in_skip.
Qed.

(** On well-formed states, [compare_mask] is the first difference of the
    attribute pointers along the slots of the mask given. *)
Lemma compare_mask_first_difference st ost m :
  wf_state st -> wf_state ost ->
  compare_mask st ost m
  = first_difference (pointer_at st) (pointer_at ost)
      (filter (fun slot => Z.testbit m slot = true)
         (SlotMask.slots_from 0 SlotMask.max_slots)).
Proof.
  intros (Hwf & _ & Hon) (Hwfo & _ & Hono). unfold compare_mask.
  set (mask := Z.land _ m).
  assert (SlotMask.wf mask) as Hwfm.
  { intros slot. subst mask. rewrite Z.land_spec.
    intros [Hs _]%andb_true_iff. exact (SlotMask.wf_lor _ _ Hwf Hwfo _ Hs). }
  rewrite (compare_mask_loop_from _ _ SlotMask.max_slots 0%nat);
    [|lia|by apply SlotMask.wf_bits_in|lia].
  change (fun slot => _attrib (attr_at (_attributes st) slot))
    with (pointer_at st).
  change (fun slot => _attrib (attr_at (_attributes ost) slot))
    with (pointer_at ost).
  assert (filter (fun slot => Z.testbit mask slot = true)
            (SlotMask.slots_from 0 SlotMask.max_slots)
          = filter (fun slot =>
                      Z.testbit
                        (Z.lor (_filled_slots st) (_filled_slots ost)) slot
                      = true)
              (filter (fun slot => Z.testbit m slot = true)
                 (SlotMask.slots_from 0 SlotMask.max_slots))) as ->.
  { rewrite list_filter_filter. apply SlotMask.filter_ext_in.
    intros slot _. subst mask. rewrite Z.land_spec, andb_true_iff. tauto. }
  apply first_difference_filter. intros slot Hs Hoff.
  apply list_elem_of_filter in Hs as [_ Hs].
  apply SlotMask.elem_of_slots_from in Hs.
  apply not_true_is_false in Hoff. rewrite Z.lor_spec in Hoff.
  apply orb_false_iff in Hoff as [H1 H2]. unfold pointer_at.
  destruct (_attrib (attr_at (_attributes st) slot)) eqn:E1.
  { assert (Z.testbit (_filled_slots st) slot = true); [|congruence].
    apply Hon; [lia|]. rewrite E1. discriminate. }
  destruct (_attrib (attr_at (_attributes ost) slot)) eqn:E2; [|reflexivity].
  assert (Z.testbit (_filled_slots ost) slot = true); [|congruence].
  apply Hono; [lia|]. rewrite E2. discriminate.
Qed.

(** X14.  [compare_mask] orders well-formed states by the attribute
    pointers of the slots of the mask, overrides left aside: it gives 0
    exactly when the two states hold the same pointer in every slot of
    the mask, swapping the operands negates the result, and "less" (-1)
    is transitive. *)
Theorem compare_mask_order (st1 st2 st3 : State) (m : Z) :
  wf_state st1 -> wf_state st2 -> wf_state st3 ->
  (compare_mask st1 st2 m = 0
   <-> forall slot, 0 <= slot < Z.of_nat SlotMask.max_slots ->
         Z.testbit m slot = true ->
         pointer_at st1 slot = pointer_at st2 slot)
  /\ compare_mask st2 st1 m = - compare_mask st1 st2 m
  /\ (compare_mask st1 st2 m = -1 -> compare_mask st2 st3 m = -1 ->
      compare_mask st1 st3 m = -1).
Proof.
  intros H1 H2 H3.
  rewrite !compare_mask_first_difference by assumption. split_and!.
  - rewrite first_difference_0. split.
    + intros H slot Hr Hm. apply H. apply list_elem_of_filter.
      split; [exact Hm|]. apply SlotMask.elem_of_slots_from. lia.
    + intros H slot Hs. apply list_elem_of_filter in Hs as [Hm Hs].
      apply SlotMask.elem_of_slots_from in Hs. apply H; [lia|exact Hm].
  - apply first_difference_swap.
  - apply first_difference_trans.
Qed.

(** *** compare_sort *)

Section Sorted.
Context {sorted : SortedSlots}.

Definition sorted_slots : list Z :=
  get_sorted_slot <$> SlotMask.slots_from 0 (Z.to_nat get_num_sorted_slots).

Lemma compare_sort_loop_from a b count k :
  compare_sort_loop count (Z.of_nat k) a b
  = first_difference (fun slot => _attrib (attr_at a slot))
      (fun slot => _attrib (attr_at b slot))
      (get_sorted_slot <$> SlotMask.slots_from k count).
Proof.
  revert k. induction count as [|count IH]; intros k; [reflexivity|].
  rewrite SlotMask.slots_from_S, fmap_cons, first_difference_cons.
  cbn [compare_sort_loop]. destruct (negb _); [reflexivity|].
  replace (Z.of_nat k + 1) with (Z.of_nat (S k)) by lia. apply IH.
Qed.

Lemma compare_sort_first_difference w this other st ost :
  heap w !! this = Some st -> heap w !! other = Some ost ->
  compare_sort this other w
  = Some (if bool_decide (this = other) then 0
          else first_difference (pointer_at st) (pointer_at ost) sorted_slots,
          w).
Proof.
  intros Hst Host. unfold compare_sort. case_bool_decide; [reflexivity|].
  rewrite (bind_deref _ _ _ _ Hst), (bind_deref _ _ _ _ Host).
  unfold ret. do 2 f_equal.
  exact (compare_sort_loop_from _ _ _ 0%nat).
Qed.


End Sorted.
End Pointers.

(** *** The scene of the witnesses: the slot 2 sorts before the slot 1 *)

Definition by_rank : SortedSlots := {|
  get_num_sorted_slots := 2;
  get_sorted_slot n := if n =? 0 then 2 else 1
|}.

Lemma compare_mask_order_witness :
  compare_mask (state_at world_ab 2) (state_at world_ab 1) 4
  = - compare_mask (state_at world_ab 1) (state_at world_ab 2) 4.
Proof.
  refine (proj1 (proj2 (compare_mask_order
                          (state_at world_ab 1) (state_at world_ab 2)
                          (state_at world_ab 0) 4 _ _ _))).
  all: apply wf_stateb_correct; vm_compute; reflexivity.
Defined.


End Comparison.

(** ** The filled-slot mask and the attribute table *)

Module Validation.
Import RenderState RenderStateMembers RenderStateFacts.

#[local] Arguments SlotMask.clear_bit : simpl never.
#[local] Arguments SlotMask.set_bit : simpl never.
#[local] Arguments SlotMask.get_bit : simpl never.
#[local] Arguments SlotMask.fold_on_bits : simpl never.
#[local] Arguments attr_at : simpl never.
#[local] Arguments set_attr_at : simpl never.
#[local] Arguments compare_to : simpl never.
#[local] Arguments default_state : simpl never.
#[local] Opaque SlotMask.fold_on_bits compare_to_loop.

Section Mask.

(** The mask that [validate_filled_slots] computes from the table. *)
Lemma validate_mask_testbit (attrs : list Attribute) (l : list Z) (acc : Z)
    (slot : Z) :
  (forall k, k ∈ l -> 0 <= k) ->
  Z.testbit
    (fold_left
       (fun mask slot =>
          match _attrib (attr_at attrs slot) with
          | Some _ => SlotMask.set_bit mask slot
          | None => mask
          end) l acc) slot = true
  <-> Z.testbit acc slot = true
      \/ (slot ∈ l /\ _attrib (attr_at attrs slot) <> None).
Proof.
  revert acc. induction l as [|k l IH]; intros acc Hl; cbn [fold_left].
  - split; [by left|]. intros [H|[H _]]; [exact H|by apply elem_of_nil in H].
  - rewrite IH by (intros j Hj; apply Hl; by right).
    rewrite elem_of_cons.
    destruct (_attrib (attr_at attrs k)) as [p|] eqn:Hk.
    + rewrite SlotMask.testbit_set_bit by (apply Hl; by left).
      rewrite orb_true_iff, Z.eqb_eq. split.
      * intros [[<-|H]|[H1 H2]]; [right|by left|right; tauto].
        split; [by left|]. rewrite Hk. discriminate.
      * intros [H|[[->|H1] H2]]; [left; by right|left; by left|right; tauto].
    + split.
      * intros [H|[H1 H2]]; [by left|right; tauto].
      * intros [H|[[->|H1] H2]]; [by left|congruence|right; tauto].
Qed.

Lemma validate_filled_slots_iff (st : State) :
  validate_filled_slots st = true
  <-> forall slot,
        Z.testbit (_filled_slots st) slot = true
        <-> 1 <= slot < Z.of_nat SlotMask.max_slots
            /\ _attrib (attr_at (_attributes st) slot) <> None.
Proof.
  unfold validate_filled_slots. cbv zeta. rewrite Z.eqb_eq.
  set (mask := fold_left _ _ 0).
  assert (forall slot,
            Z.testbit mask slot = true
            <-> 1 <= slot < Z.of_nat SlotMask.max_slots
                /\ _attrib (attr_at (_attributes st) slot) <> None) as Hmask.
  { intros slot. subst mask. rewrite validate_mask_testbit.
    - rewrite Z.bits_0, SlotMask.elem_of_slots_from.
      unfold SlotMask.max_slots. split.
      + intros [H|[H1 H2]]; [discriminate|]. split; [lia|exact H2].
      + intros [H1 H2]. right. split; [lia|exact H2].
    - intros k Hk. apply SlotMask.elem_of_slots_from in Hk. lia. }
  split.
  - intros <-. exact Hmask.
  - intros H. apply Z.bits_inj'. intros n _.
    destruct (Z.testbit (_filled_slots st) n) eqn:E.
    + apply Hmask, H, E.
    + apply not_true_is_false. intros Hm. apply Hmask, H in Hm. congruence.
Qed.

(** X16.  [validate_filled_slots] accepts a state exactly when its mask
    has the bits of the slots from 1 to [max_slots - 1] that hold an
    attribute, and no other bit: the bit of slot 0 must be off,
    whatever the entry of slot 0 holds. *)
Theorem validate_filled_slots_spec (st : State) :
  validate_filled_slots st = true
  <-> forall slot,
        Z.testbit (_filled_slots st) slot = true
        <-> 1 <= slot < Z.of_nat SlotMask.max_slots
            /\ _attrib (attr_at (_attributes st) slot) <> None.
Proof. exact (validate_filled_slots_iff st). Qed.

Lemma wf_state_validates (st : State) :
  wf_state st -> Z.testbit (_filled_slots st) 0 = false ->
  validate_filled_slots st = true.
Proof.
  intros (Hwf & _ & Hon) H0. apply validate_filled_slots_iff. intros slot.
  split.
  - intros Hs. pose proof (Hwf slot Hs) as Hr.
    assert (slot <> 0) by (intros ->; congruence).
    split; [lia|]. apply Hon; [lia|exact Hs].
  - intros [Hr Hp]. apply Hon; [lia|exact Hp].
Qed.

End Mask.

Section WithAttribs.
Context {ops : RenderAttrib.Ops}.

Section Interned.
Context {laws : RenderAttrib.Laws ops}.

(** X17.  Whatever [return_new] hands out passes
    [validate_filled_slots]: a well-formed state given to it comes back,
    as itself or as the entry of the table that stands for it, with the
    bit of slot 0 off and a mask that agrees with the attribute
    table. *)
Theorem return_new_validates (w : World) (p : N) (n : State) :
  heap w !! p = Some n -> wf_state n -> table_wf w -> p ∉ _states w ->
  exists q w' r,
    return_new p w = Some (q, w')
    /\ heap w' !! q = Some r
    /\ validate_filled_slots r = true.
Proof.
  intros Hn Hwf Htable Hnotin.
  destruct (return_new_spec w p n Hn Hwf Htable Hnotin)
    as (q & w' & r & Hrun & Hr & Hwfr & Hcmp & _).
  exists q, w', r. split_and!; [exact Hrun|exact Hr|].
  apply wf_state_validates; [exact Hwfr|].
  destruct (compare_to_slots r (clear_slot_0 n) Hwfr (wf_clear_slot_0 _ Hwf)
              Hcmp 0) as [-> _].
  fields. rewrite SlotMask.testbit_clear_bit by lia. apply andb_false_r.
Qed.

End Interned.

(** *** fill_default *)

Lemma fill_default_from (l : list Z) (st : State) :
  NoDup l ->
  (forall k, k ∈ l -> 0 <= k /\ (Z.to_nat k < length (_attributes st))%nat) ->
  let r :=
    fold_left
      (fun acc slot =>
         with_filled_slots (fun mask => SlotMask.set_bit mask slot)
           (with_attributes
              (set_attr_at slot
                 (Attribute_set (Some (RenderAttrib.get_slot_default slot)) 0))
              acc)) l st in
  length (_attributes r) = length (_attributes st)
  /\ forall k, 0 <= k ->
       (k ∈ l ->
        Z.testbit (_filled_slots r) k = true
        /\ attr_at (_attributes r) k
           = mkAttribute (Some (RenderAttrib.get_slot_default k)) 0)
       /\ (k ∉ l ->
           Z.testbit (_filled_slots r) k = Z.testbit (_filled_slots st) k
           /\ attr_at (_attributes r) k = attr_at (_attributes st) k).
Proof.
  revert st. induction l as [|s l IH]; intros st Hnd Hl; cbn [fold_left].
  - split; [reflexivity|]. intros k Hk. split; [|done].
    intros H. by apply elem_of_nil in H.
  - apply NoDup_cons in Hnd as [Hs Hnd].
    destruct (Hl s ltac:(by left)) as [Hs0 Hslen].
    set (st1 := with_filled_slots _ _).
    assert (length (_attributes st1) = length (_attributes st)) as Hlen1
      by (subst st1; fields; apply length_set_attr_at).
    destruct (IH st1 Hnd) as [Hlen Hr].
    { intros k Hk. rewrite Hlen1. apply Hl. by right. }
    cbv zeta in Hlen, Hr |- *. split; [congruence|].
    intros k Hk. destruct (Hr k Hk) as [Hin Hout]. split.
    + intros [->|Hkl]%elem_of_cons; [|by apply Hin].
      destruct (Hout Hs) as [-> ->]. subst st1. fields.
      rewrite SlotMask.testbit_set_bit, Z.eqb_refl by lia.
      split; [reflexivity|]. by apply attr_at_set_eq.
    + intros Hnot. rewrite not_elem_of_cons in Hnot. destruct Hnot as [Hne Hnot].
      destruct (Hout Hnot) as [-> ->]. subst st1. fields.
      rewrite SlotMask.testbit_set_bit by lia.
      destruct (Z.eqb_spec s k); [congruence|].
      split; [reflexivity|]. apply attr_at_set_ne; [lia|lia|congruence].
Qed.

(** X18.  [fill_default] fills every registered slot, from 1 on, with
    the default attribute of the slot at override 0, and leaves slot 0
    and the slots that are not registered as they were; it keeps a
    state acceptable to [validate_filled_slots]. *)
Theorem fill_default_spec (st : State) :
  length (_attributes st) = SlotMask.max_slots ->
  RenderAttrib.get_num_slots <= Z.of_nat SlotMask.max_slots ->
  (forall k, 1 <= k < RenderAttrib.get_num_slots ->
     Z.testbit (_filled_slots (fill_default st)) k = true
     /\ attr_at (_attributes (fill_default st)) k
        = mkAttribute (Some (RenderAttrib.get_slot_default k)) 0)
  /\ (forall k, 0 <= k -> ~ 1 <= k < RenderAttrib.get_num_slots ->
        Z.testbit (_filled_slots (fill_default st)) k
        = Z.testbit (_filled_slots st) k
        /\ attr_at (_attributes (fill_default st)) k
           = attr_at (_attributes st) k)
  /\ (validate_filled_slots st = true ->
      validate_filled_slots (fill_default st) = true).
Proof.
  intros Hlen Hnum. unfold fill_default.
  set (l := SlotMask.slots_from 1 (Z.to_nat RenderAttrib.get_num_slots - 1)).
  assert (forall k, k ∈ l <-> 1 <= k < RenderAttrib.get_num_slots) as Hl.
  { intros k. subst l. rewrite SlotMask.elem_of_slots_from. lia. }
  destruct (fill_default_from l st) as [Hrl Hr].
  { subst l. unfold SlotMask.slots_from.
    apply NoDup_fmap_2; [intros x y; lia|apply NoDup_seq]. }
  { intros k Hk. apply Hl in Hk. rewrite Hlen.
    unfold SlotMask.max_slots in *. lia. }
  cbv zeta in Hrl, Hr. split_and!.
  - intros k Hk. apply (Hr k ltac:(lia)). by apply Hl.
  - intros k Hk Hnot. apply (Hr k Hk). by rewrite Hl.
  - rewrite !validate_filled_slots_iff. intros Hv slot.
    destruct (Z.lt_ge_cases slot 0) as [Hneg|Hpos].
    { rewrite Z.testbit_neg_r by lia. split; [discriminate|lia]. }
    destruct (Hr slot Hpos) as [Hin Hout].
    destruct (decide (slot ∈ l)) as [Hsl|Hsl].
    + destruct (Hin Hsl) as [-> ->]. apply Hl in Hsl. cbn [_attrib].
      split; [|reflexivity]. intros _. split; [lia|discriminate].
    + destruct (Hout Hsl) as [-> ->]. apply Hv.
Qed.

End WithAttribs.

Lemma return_new_validates_witness :
  exists q w' r,
    return_new (ops:=Fixture.attribs) 1 world_built = Some (q, w')
    /\ heap w' !! q = Some r
    /\ validate_filled_slots r = true.
Proof.
  refine (return_new_validates (laws:=Fixture.attribs_laws) world_built 1
            (state_at world_built 1) _ _ _ _).
  - vm_compute. reflexivity.
  - apply wf_stateb_correct. vm_compute. reflexivity.
  - apply checked_world_table_wf. vm_compute. reflexivity.
  - intros Hin. change (_states world_built) with [0%N] in Hin.
    apply list_elem_of_singleton in Hin. discriminate Hin.
Defined.

Lemma fill_default_spec_witness :
  Z.testbit (_filled_slots (fill_default (ops:=Fixture.attribs) default_state))
    2 = true
  /\ attr_at
       (_attributes (fill_default (ops:=Fixture.attribs) default_state)) 2
     = mkAttribute (Some 200%N) 0.
Proof.
  refine (proj1 (fill_default_spec (ops:=Fixture.attribs) default_state _ _)
            2 _).
  - reflexivity.
  - vm_compute. congruence.
  - vm_compute. split; congruence.
Defined.

End Validation.

(** ** Writing a state to a Bam file and reading it back *)

Module Bam.
Import RenderState RenderStateMembers RenderStateFacts.

#[local] Arguments SlotMask.clear_bit : simpl never.
#[local] Arguments SlotMask.set_bit : simpl never.
#[local] Arguments SlotMask.fold_on_bits : simpl never.
#[local] Arguments SlotMask.get_num_on_bits : simpl never.
#[local] Arguments attr_at : simpl never.
#[local] Arguments set_attr_at : simpl never.
#[local] Arguments default_state : simpl never.
#[local] Arguments Z.pow : simpl never.
#[local] Arguments Z.modulo : simpl never.
#[local] Opaque SlotMask.fold_on_bits.

Section WithAttribs.
Context {ops : RenderAttrib.Ops}.

(** The fields written for one slot. *)
Definition slot_fields (st : State) (slot : Z) : list Field :=
  [Pointer (_attrib (attr_at (_attributes st) slot));
   Int32 ((_override (attr_at (_attributes st) slot) + 2 ^ 31) mod 2 ^ 32
          - 2 ^ 31)].

Lemma write_loop_fields st (l : list Z) (dg : list Field) :
  fold_left
    (fun dg slot =>
       add_int32 (_override (attr_at (_attributes st) slot))
         (write_pointer (_attrib (attr_at (_attributes st) slot)) dg)) l dg
  = dg ++ flat_map (slot_fields st) l.
Proof.
  revert dg. induction l as [|slot l IH]; intros dg; cbn [fold_left flat_map].
  - by rewrite app_nil_r.
  - rewrite IH. unfold add_int32, write_pointer, slot_fields.
    rewrite <- !app_assoc. reflexivity.
Qed.

Lemma length_on_bits_le mask :
  (length (SlotMask.on_bits mask) <= SlotMask.max_slots)%nat.
Proof.
  unfold SlotMask.on_bits. etrans; [apply length_filter|].
  unfold SlotMask.slots_from. rewrite length_fmap, length_seq. done.
Qed.

Lemma write_datagram_fields st :
  SlotMask.wf (_filled_slots st) ->
  write_datagram st []
  = Uint16 (Z.of_nat (length (SlotMask.on_bits (_filled_slots st))))
    :: flat_map (slot_fields st) (SlotMask.on_bits (_filled_slots st)).
Proof.
  intros Hwf. unfold write_datagram. cbv zeta.
  rewrite SlotMask.fold_on_bits_spec by exact Hwf.
  rewrite write_loop_fields. unfold add_uint16. cbn [app].
  rewrite DerivedStates.get_num_on_bits_length.
  pose proof (length_on_bits_le (_filled_slots st)) as Hle.
  rewrite Z.mod_small; [reflexivity|].
  unfold SlotMask.max_slots in Hle. lia.
Qed.

Lemma fillin_loop_fields st (l : list Z) (rest : list Field)
    (read_overrides : list Z) (p_list : list (option N)) :
  (forall slot, slot ∈ l ->
     - 2 ^ 31 <= _override (attr_at (_attributes st) slot) < 2 ^ 31) ->
  fillin_loop (length l) (flat_map (slot_fields st) l ++ rest)
    read_overrides p_list
  = Some (read_overrides
          ++ ((fun slot => _override (attr_at (_attributes st) slot)) <$> l),
          p_list
          ++ ((fun slot => _attrib (attr_at (_attributes st) slot)) <$> l),
          rest).
Proof.
  revert read_overrides p_list.
  induction l as [|slot l IH]; intros read_overrides p_list Hr.
  - cbn. by rewrite !app_nil_r.
  - cbn [length flat_map fillin_loop slot_fields app fmap list_fmap].
    rewrite IH by (intros s Hs; apply Hr; by right).
    rewrite <- !app_assoc. cbn [app].
    pose proof (Hr slot ltac:(by left)) as Hs.
    rewrite Z.mod_small by lia. rewrite Z.add_simpl_r. reflexivity.
Qed.

(** What [complete_pointers] does for the slots [l] of a state. *)
Definition set_read_slot (st : State) (acc : State) (slot : Z) : State :=
  with_filled_slots (fun mask => SlotMask.set_bit mask slot)
    (with_attributes
       (set_attr_at slot (attr_at (_attributes st) slot)) acc).

Lemma complete_pointers_loop_slots st (l : list Z) (pre : list (option N))
    (acc : State) :
  (forall slot, slot ∈ l ->
     0 < slot < Z.of_nat SlotMask.max_slots
     /\ exists p, _attrib (attr_at (_attributes st) slot) = Some p
                  /\ RenderAttrib.get_slot p = slot) ->
  complete_pointers_loop
    ((fun slot => _override (attr_at (_attributes st) slot)) <$> l)
    (pre ++ ((fun slot => _attrib (attr_at (_attributes st) slot)) <$> l))
    (length pre) acc
  = Some (fold_left (set_read_slot st) l acc, (length pre + length l)%nat).
Proof.
  revert pre acc. induction l as [|slot l IH]; intros pre acc Hl.
  - cbn. by rewrite Nat.add_0_r.
  - cbn [fmap list_fmap complete_pointers_loop fold_left length].
    rewrite lookup_app_r by lia. rewrite Nat.sub_diag. cbn [lookup list_lookup].
    destruct (Hl slot ltac:(by left)) as [Hr (p & Hp & Hslot)].
    rewrite Hp. cbv zeta. rewrite Hslot.
    destruct (Z.ltb_spec 0 slot); [|lia].
    destruct (Z.ltb_spec slot (Z.of_nat SlotMask.max_slots)); [|lia].
    cbn [andb].
    assert (with_filled_slots (fun mask => SlotMask.set_bit mask slot)
              (with_attributes
                 (set_attr_at slot
                    (Attribute_set (Some p)
                       (_override (attr_at (_attributes st) slot))))
                 acc)
            = set_read_slot st acc slot) as ->.
    { unfold set_read_slot, Attribute_set. do 3 f_equal.
      destruct (attr_at (_attributes st) slot) as [a o].
      cbn [_attrib _override] in *. congruence. }
    specialize (IH (pre ++ [Some p]) (set_read_slot st acc slot)).
    rewrite length_app in IH. cbn [length] in IH.
    rewrite <- app_assoc in IH. cbn [app] in IH.
    replace (length pre + 1)%nat with (S (length pre)) in IH by lia.
    rewrite IH by (intros s Hs; apply Hl; by right).
    do 2 f_equal. lia.
Qed.

Lemma set_read_slots st (l : list Z) (acc : State) :
  NoDup l ->
  (forall k, k ∈ l -> 0 <= k /\ (Z.to_nat k < length (_attributes acc))%nat) ->
  let r := fold_left (set_read_slot st) l acc in
  forall k, 0 <= k ->
    (k ∈ l ->
     Z.testbit (_filled_slots r) k = true
     /\ attr_at (_attributes r) k = attr_at (_attributes st) k)
    /\ (k ∉ l ->
        Z.testbit (_filled_slots r) k = Z.testbit (_filled_slots acc) k
        /\ attr_at (_attributes r) k = attr_at (_attributes acc) k).
Proof.
  revert acc. induction l as [|s l IH]; intros acc Hnd Hl; cbn [fold_left].
  - intros k Hk. split; [|done]. intros H. by apply elem_of_nil in H.
  - apply NoDup_cons in Hnd as [Hs Hnd].
    destruct (Hl s ltac:(by left)) as [Hs0 Hslen].
    set (acc1 := set_read_slot st acc s).
    assert (length (_attributes acc1) = length (_attributes acc)) as Hlen1
      by (subst acc1; unfold set_read_slot; fields; apply length_set_attr_at).
    specialize (IH acc1 Hnd).
    cbv zeta in IH |- *. intros k Hk.
    destruct (IH ltac:(intros j Hj; rewrite Hlen1; apply Hl; by right) k Hk)
      as [Hin Hout]. split.
    + intros [->|Hkl]%elem_of_cons; [|by apply Hin].
      destruct (Hout Hs) as [-> ->]. subst acc1. unfold set_read_slot. fields.
      rewrite SlotMask.testbit_set_bit, Z.eqb_refl by lia.
      split; [reflexivity|]. by apply attr_at_set_eq.
    + intros Hnot. rewrite not_elem_of_cons in Hnot.
      destruct Hnot as [Hne Hnot].
      destruct (Hout Hnot) as [-> ->]. subst acc1. unfold set_read_slot.
      fields. rewrite SlotMask.testbit_set_bit by lia.
      destruct (Z.eqb_spec s k); [congruence|].
      split; [reflexivity|]. apply attr_at_set_ne; [lia|lia|congruence].
Qed.

(** X20.  A state written with [write_datagram] and read back with
    [fillin] and [complete_pointers] into a new state has the mask and
    the entries of the filled slots of the state written: the datagram
    is read to its end and every pointer is used.  The state written is
    well formed with slot 0 empty, every attribute sits in its own slot,
    and the overrides fit an int32. *)
Theorem bam_round_trip (st : State) :
  wf_state st ->
  Z.testbit (_filled_slots st) 0 = false ->
  (forall slot p,
     Z.testbit (_filled_slots st) slot = true ->
     _attrib (attr_at (_attributes st) slot) = Some p ->
     RenderAttrib.get_slot p = slot) ->
  (forall slot,
     Z.testbit (_filled_slots st) slot = true ->
     - 2 ^ 31 <= _override (attr_at (_attributes st) slot) < 2 ^ 31) ->
  exists read_overrides p_list r,
    fillin (write_datagram st []) = Some (read_overrides, p_list, [])
    /\ complete_pointers read_overrides p_list default_state
       = Some (r, Z.of_nat (length p_list))
    /\ _filled_slots r = _filled_slots st
    /\ forall slot,
         Z.testbit (_filled_slots st) slot = true ->
         attr_at (_attributes r) slot = attr_at (_attributes st) slot.
Proof.
  intros (Hwf & Hlen & Hon) H0 Hslot Hov.
  set (l := SlotMask.on_bits (_filled_slots st)).
  assert (forall k, k ∈ l <-> Z.testbit (_filled_slots st) k = true) as Hl
    by (intros k; apply SlotMask.elem_of_on_bits; exact Hwf).
  rewrite write_datagram_fields by exact Hwf. fold l.
  unfold fillin. rewrite Nat2Z.id.
  pose proof (fillin_loop_fields st l [] [] []) as Hfill.
  rewrite app_nil_r in Hfill. rewrite Hfill; clear Hfill.
  2:{ intros slot Hs. apply Hov. by apply Hl. }
  cbn [app].
  pose proof (complete_pointers_loop_slots st l [] default_state) as Hcp.
  cbn [app length Nat.add] in Hcp.
  eexists _, _, _. split; [reflexivity|].
  unfold complete_pointers. rewrite Hcp; clear Hcp.
  2:{ intros slot Hs. apply Hl in Hs. pose proof (Hwf slot Hs) as Hr.
      assert (slot <> 0) by (intros ->; congruence).
      split; [lia|].
      destruct (_attrib (attr_at (_attributes st) slot)) as [p|] eqn:Hp.
      - exists p. split; [reflexivity|]. by apply Hslot.
      - exfalso. by apply (proj1 (Hon slot Hr) Hs). }
  rewrite length_fmap. split; [reflexivity|].
  pose proof (set_read_slots st l default_state
                (SlotMask.NoDup_on_bits _)) as Hset.
  cbv zeta in Hset.
  assert (forall k, k ∈ l ->
            0 <= k /\ (Z.to_nat k < length (_attributes default_state))%nat)
    as Hrange.
  { intros k Hk. apply SlotMask.on_bits_range in Hk.
    unfold default_state. cbn [_attributes]. rewrite length_replicate. lia. }
  specialize (Hset Hrange). split.
  - apply Z.bits_inj'. intros k Hk. destruct (Hset k Hk) as [Hin Hout].
    destruct (decide (k ∈ l)) as [Hkl|Hkl].
    + destruct (Hin Hkl) as [-> _]. symmetry. by apply Hl.
    + destruct (Hout Hkl) as [-> _]. unfold default_state.
      cbn [_filled_slots]. rewrite Z.bits_0. symmetry.
      apply not_true_is_false. by rewrite <- Hl.
  - intros slot Hs. pose proof (Hwf slot Hs) as Hr.
    destruct (Hset slot ltac:(lia)) as [Hin _]. apply Hin. by apply Hl.
Qed.


(** X21.  Whatever the pointers and overrides read from the file,
    [complete_pointers] leaves a state that [validate_filled_slots]
    accepts: a null pointer and an attribute whose slot is not between
    1 and [max_slots - 1] are passed over, slot 0 is never filled, and
    one pointer is taken for each override read. *)
Theorem complete_pointers_validates
    (read_overrides : list Z) (p_list : list (option N)) (st r : State)
    (n : Z) :
  length (_attributes st) = SlotMask.max_slots ->
  validate_filled_slots st = true ->
  complete_pointers read_overrides p_list st = Some (r, n) ->
  validate_filled_slots r = true
  /\ length (_attributes r) = SlotMask.max_slots
  /\ n = Z.of_nat (length read_overrides).
Proof.
  intros Hlen Hv Hrun. unfold complete_pointers in Hrun.
  destruct (complete_pointers_loop read_overrides p_list 0 st)
    as [[r' pi]|] eqn:Hloop; [|discriminate].
  injection Hrun as -> <-.
  assert (forall pi0 st0 r0 pi1,
            length (_attributes st0) = SlotMask.max_slots ->
            validate_filled_slots st0 = true ->
            complete_pointers_loop read_overrides p_list pi0 st0
            = Some (r0, pi1) ->
            validate_filled_slots r0 = true
            /\ length (_attributes r0) = SlotMask.max_slots
            /\ pi1 = (pi0 + length read_overrides)%nat) as Hgen.
  { clear. induction read_overrides as [|override rest IH];
      intros pi0 st0 r0 pi1 Hlen Hv Hloop.
    - cbn in Hloop. injection Hloop as <- <-.
      split_and!; [exact Hv|exact Hlen|cbn; lia].
    - cbn [complete_pointers_loop] in Hloop.
      destruct (p_list !! pi0) as [attrib|]; [|discriminate].
      cbv zeta in Hloop. apply IH in Hloop.
      + destruct Hloop as (? & ? & ->). split_and!; [done..|cbn; lia].
      + destruct attrib as [a|]; [|exact Hlen].
        destruct (_ && _); [|exact Hlen]. fields.
        rewrite length_set_attr_at. exact Hlen.
      + destruct attrib as [a|]; [|exact Hv].
        destruct (Z.ltb_spec 0 (RenderAttrib.get_slot a)); [|exact Hv].
        destruct (Z.ltb_spec (RenderAttrib.get_slot a)
                    (Z.of_nat SlotMask.max_slots)); [|exact Hv].
        cbn [andb]. set (slot := RenderAttrib.get_slot a) in *.
        apply Validation.validate_filled_slots_iff. intros k. fields.
        rewrite SlotMask.testbit_set_bit by lia.
        pose proof (proj1 (Validation.validate_filled_slots_iff st0) Hv k)
          as Hk.
        destruct (Z.eqb_spec slot k) as [<-|Hne]; cbn [orb].
        * rewrite attr_at_set_eq by (rewrite ?Hlen; lia).
          cbn. split; [intros _; split; [lia|discriminate]|reflexivity].
        * destruct (Z.lt_ge_cases k 0) as [Hneg|Hpos].
          { rewrite Z.testbit_neg_r by lia. split; [discriminate|lia]. }
          rewrite attr_at_set_ne by lia. exact Hk. }
  destruct (Hgen 0%nat st r pi Hlen Hv Hloop) as (? & ? & ->).
  split_and!; [done..|lia].
Qed.


Lemma filled_slots_Forall mask (P : Z -> Prop) :
  SlotMask.wf mask -> Forall P (SlotMask.on_bits mask) ->
  forall slot, Z.testbit mask slot = true -> P slot.
Proof.
  intros Hwf Hall slot Hs. rewrite Forall_forall in Hall. apply Hall.
  by apply SlotMask.elem_of_on_bits.
Qed.

End WithAttribs.

Lemma bam_round_trip_witness :
  exists read_overrides p_list r,
    fillin (write_datagram (state_at DerivedStates.world_two 1) [])
    = Some (read_overrides, p_list, [])
    /\ complete_pointers (ops:=Fixture.attribs) read_overrides p_list
         default_state
       = Some (r, Z.of_nat (length p_list))
    /\ _filled_slots r = _filled_slots (state_at DerivedStates.world_two 1).
Proof.
  destruct (bam_round_trip (ops:=Fixture.attribs)
              (state_at DerivedStates.world_two 1)
              DerivedStates.world_two_1_wf)
    as (read_overrides & p_list & r & Hread & Hcomplete & Hmask & _).
  - vm_compute. reflexivity.
  - intros slot p Hs. revert p.
    refine (filled_slots_Forall _
              (fun slot =>
                 forall p,
                   _attrib
                     (attr_at
                        (_attributes (state_at DerivedStates.world_two 1))
                        slot) = Some p ->
                   RenderAttrib.get_slot (Ops:=Fixture.attribs) p = slot)
              (proj1 DerivedStates.world_two_1_wf) _ slot Hs).
    assert (SlotMask.on_bits (_filled_slots (state_at DerivedStates.world_two 1))
            = [1; 2]) as -> by (vm_compute; reflexivity).
    repeat constructor; intros p Hp; vm_compute in Hp; injection Hp as <-;
      reflexivity.
  - refine (filled_slots_Forall _
              (fun slot =>
                 - 2 ^ 31
                 <= _override
                      (attr_at
                         (_attributes (state_at DerivedStates.world_two 1))
                         slot) < 2 ^ 31)
              (proj1 DerivedStates.world_two_1_wf) _).
    assert (SlotMask.on_bits (_filled_slots (state_at DerivedStates.world_two 1))
            = [1; 2]) as -> by (vm_compute; reflexivity).
    repeat constructor; vm_compute; congruence.
  - exists read_overrides, p_list, r.
    split_and!; [exact Hread|exact Hcomplete|exact Hmask].
Defined.

Lemma complete_pointers_validates_witness :
  exists r,
    complete_pointers (ops:=Fixture.attribs) [5; 6] [Some 101%N; Some 7%N]
      default_state = Some (r, 2)
    /\ validate_filled_slots r = true.
Proof.
  eexists. split; [vm_compute; reflexivity|].
  refine (proj1 (complete_pointers_validates (ops:=Fixture.attribs)
                   [5; 6] [Some 101%N; Some 7%N] default_state _ 2 _ _ _)).
  - reflexivity.
  - vm_compute. reflexivity.
  - vm_compute. reflexivity.
Defined.

End Bam.

(** ** The explicit pages of the manager *)

Module ExplicitPages.
Import ConfigPageManager ConfigPageManagerFacts.

(** What the entry [p] of [_explicit_pages] is: an allocated page,
    explicit, with the sequence number [s]. *)
Definition explicit_page (m : Manager) (p : N) (s : Z) : Prop :=
  exists pg, page_heap m !! p = Some pg
             /\ page_implicit pg = false /\ page_seq pg = s.

(** The explicit pages are in the order of their creation: their
    sequence numbers grow along the list, and lie below
    [_next_page_seq]. *)
Definition explicit_pages_inv (m : Manager) : Prop :=
  exists seqs : list Z,
    Forall2 (explicit_page m) (_explicit_pages m) seqs
    /\ StronglySorted Z.lt seqs
    /\ Forall (fun s => s < _next_page_seq m) seqs.

Lemma explicit_pages_allocated m :
  explicit_pages_inv m ->
  forall p, p ∈ _explicit_pages m -> is_Some (page_heap m !! p).
Proof.
  intros (seqs & Hall & _) p Hp.
  apply list_elem_of_lookup_1 in Hp as (i & Hi).
  destruct (Forall2_lookup_l _ _ _ _ _ Hall Hi) as (s & _ & pg & Hpg & _).
  by exists pg.
Qed.

Lemma erase_page_snoc page pages :
  page ∉ pages -> erase_page page (pages ++ [page]) = Some pages.
Proof.
  induction pages as [|p pages IH]; intros Hnot; cbn.
  - by rewrite bool_decide_eq_true_2.
  - rewrite not_elem_of_cons in Hnot. destruct Hnot as [Hne Hnot].
    rewrite bool_decide_eq_false_2 by congruence. by rewrite IH.
Qed.

Lemma fresh_page_not_listed m :
  (forall p, p ∈ _explicit_pages m -> is_Some (page_heap m !! p)) ->
  fresh (dom (page_heap m)) ∉ _explicit_pages m.
Proof.
  intros Halloc Hin. apply Halloc in Hin as [pg Hpg].
  pose proof (is_fresh (dom (page_heap m))) as Hfresh.
  apply Hfresh. apply elem_of_dom. by exists pg.
Qed.

(** X22.  A page made with [make_explicit_page] and deleted at once
    leaves the pages of the manager as they were, the list and the
    page objects; but its sequence number is spent, the lists count as
    not sorted, and the variable caches have been invalidated twice. *)
Theorem make_then_delete_explicit_page (name : string) (m : Manager) :
  (forall p, p ∈ _explicit_pages m -> is_Some (page_heap m !! p)) ->
  let '(page, m1) := make_explicit_page name m in
  delete_explicit_page page m1
  = (true,
     mkManager (_implicit_pages m) (_explicit_pages m)
       (_next_page_seq m + 1) false (_prc_patterns m)
       (_prc_encrypted_patterns m) (_prc_executable_patterns m)
       (_search_path m) (page_heap m) (_global_modified m + 2)).
Proof.
  intros Halloc. unfold make_explicit_page, delete_explicit_page.
  set (page := fresh (dom (page_heap m))).
  cbn [invalidate_cache _explicit_pages _implicit_pages _next_page_seq
       _pages_sorted _prc_patterns _prc_encrypted_patterns
       _prc_executable_patterns _search_path page_heap _global_modified].
  rewrite erase_page_snoc by exact (fresh_page_not_listed m Halloc).
  rewrite delete_insert_id.
  - unfold invalidate_cache.
    cbn [_explicit_pages _implicit_pages _next_page_seq
         _pages_sorted _prc_patterns _prc_encrypted_patterns
         _prc_executable_patterns _search_path page_heap _global_modified].
    do 2 f_equal. lia.
  - apply not_elem_of_dom. apply is_fresh.
Qed.

Lemma explicit_page_insert_fresh m p s page pg :
  page_heap m !! page = None ->
  explicit_page m p s ->
  exists pg', <[page := pg]> (page_heap m) !! p = Some pg'
              /\ page_implicit pg' = false /\ page_seq pg' = s.
Proof.
  intros Hfresh (pg' & Hpg' & Hi & Hs). exists pg'.
  rewrite lookup_insert_ne by congruence. done.
Qed.

Lemma explicit_pages_NoDup_middle m l1 page l2 s1 s s2 :
  Forall2 (explicit_page m) l1 s1 ->
  explicit_page m page s ->
  Forall2 (explicit_page m) l2 s2 ->
  StronglySorted Z.lt (s1 ++ s :: s2) ->
  page ∉ l1 ++ l2.
Proof.
  intros H1 (pg & Hpg & _ & Hs) H2 Hsorted Hin.
  assert (forall l ss, Forall2 (explicit_page m) l ss -> page ∈ l -> s ∈ ss)
    as Hseq.
  { intros l ss Hall Hp. apply list_elem_of_lookup_1 in Hp as (i & Hi).
    destruct (Forall2_lookup_l _ _ _ _ _ Hall Hi)
      as (s' & Hs' & pg' & Hpg' & _ & Hseq').
    assert (pg' = pg) as -> by congruence.
    apply (list_elem_of_lookup_2 _ i). congruence. }
  apply elem_of_app in Hin as [Hin|Hin].
  - pose proof (Hseq _ _ H1 Hin) as Hs1.
    pose proof (StronglySorted_app_1_elem_of _ _ _ s s Hsorted Hs1
                  ltac:(by left)).
    lia.
  - pose proof (Hseq _ _ H2 Hin) as Hs2.
    apply StronglySorted_app_1_r in Hsorted.
    apply StronglySorted_inv in Hsorted as [_ Hlt].
    rewrite Forall_forall in Hlt. specialize (Hlt s Hs2). lia.
Qed.

Lemma Forall2_impl_elem_of {A B : Type} (P Q : A -> B -> Prop) l k :
  Forall2 P l k -> (forall x y, x ∈ l -> P x y -> Q x y) -> Forall2 Q l k.
Proof.
  induction 1 as [|x y l k Hxy _ IH]; intros Himpl; constructor.
  - apply Himpl; [by left|exact Hxy].
  - apply IH. intros x' y' Hx'. apply Himpl. by right.
Qed.

Lemma delete_explicit_page_inv page m :
  explicit_pages_inv m ->
  explicit_pages_inv (delete_explicit_page page m).2
  /\ ((delete_explicit_page page m).1 = true ->
      page ∉ _explicit_pages (delete_explicit_page page m).2).
Proof.
  intros Hinv. pose proof Hinv as (seqs & Hall & Hsorted & Hbelow).
  unfold delete_explicit_page.
  destruct (erase_page page (_explicit_pages m)) as [pages|] eqn:E;
    [|split; [exact Hinv|discriminate]].
  apply erase_page_Some in E as (l1 & l2 & Heq & Hnot & ->).
  rewrite Heq in Hall.
  apply Forall2_app_inv_l in Hall as (s1 & s2' & H1 & H2 & ->).
  apply Forall2_cons_inv_l in H2 as (s & s2 & Hpage & H2 & ->).
  pose proof (explicit_pages_NoDup_middle m l1 page l2 s1 s s2 H1 Hpage H2
                Hsorted) as Hout.
  unfold invalidate_cache.
  cbn [fst snd _explicit_pages _next_page_seq page_heap].
  split; [|intros _; exact Hout].
  exists (s1 ++ s2). split_and!.
  - apply Forall2_app.
    + apply (Forall2_impl_elem_of _ _ _ _ H1).
      intros p sp Hp (pg & Hpg & Hi & Hs). exists pg.
      cbn [page_heap]. rewrite lookup_delete_ne; [done|].
      intros <-. apply Hout. apply elem_of_app. by left.
    + apply (Forall2_impl_elem_of _ _ _ _ H2).
      intros p sp Hp (pg & Hpg & Hi & Hs). exists pg.
      cbn [page_heap]. rewrite lookup_delete_ne; [done|].
      intros <-. apply Hout. apply elem_of_app. by right.
  - apply StronglySorted_app_2.
    + intros x1 x2 Hx1 Hx2.
      apply (StronglySorted_app_1_elem_of _ _ _ x1 x2 Hsorted Hx1).
      by right.
    + by apply StronglySorted_app_1_l in Hsorted.
    + apply StronglySorted_app_1_r in Hsorted.
      by apply StronglySorted_inv in Hsorted as [? _].
  - cbn [_next_page_seq]. rewrite Forall_app in Hbelow |- *.
    destruct Hbelow as [Hb1 Hb2]. apply Forall_cons in Hb2 as [_ Hb2]. done.
Qed.

Lemma make_explicit_page_inv name m :
  explicit_pages_inv m ->
  let '(page, m1) := make_explicit_page name m in
  explicit_pages_inv m1
  /\ _explicit_pages m1 = _explicit_pages m ++ [page]
  /\ page_heap m1 !! page
     = Some (mkConfigPage name false (_next_page_seq m)).
Proof.
  intros Hinv. unfold make_explicit_page.
  set (page := fresh (dom (page_heap m))).
  assert (page_heap m !! page = None) as Hfresh
    by (apply not_elem_of_dom; apply is_fresh).
  destruct Hinv as (seqs & Hall & Hsorted & Hbelow).
  unfold invalidate_cache. cbn [_explicit_pages _next_page_seq page_heap].
  split_and!; [|reflexivity|apply lookup_insert_eq].
  exists (seqs ++ [_next_page_seq m]). split_and!.
  - apply Forall2_app.
    + eapply Forall2_impl; [exact Hall|]. intros p s Hp.
      exact (explicit_page_insert_fresh m p s page _ Hfresh Hp).
    + constructor; [|constructor]. eexists. cbn [page_heap].
      rewrite lookup_insert_eq. done.
  - apply StronglySorted_app_2.
    + intros x1 x2 Hx1 Hx2. apply list_elem_of_singleton in Hx2 as ->.
      rewrite Forall_forall in Hbelow. by apply Hbelow.
    + exact Hsorted.
    + repeat constructor.
  - cbn [_next_page_seq]. apply Forall_app. split.
    + eapply Forall_impl; [exact Hbelow|]. cbn. intros; lia.
    + repeat constructor. lia.
Qed.

(** X23.  The explicit pages stay in the order of their creation:
    [make_explicit_page] and [delete_explicit_page] keep the sequence
    numbers growing along [_explicit_pages] and below [_next_page_seq],
    so that no two explicit pages share a sequence number; the new page
    is the last of the list and takes the number [_next_page_seq]
    had. *)
Theorem explicit_pages_in_creation_order (m : Manager) :
  explicit_pages_inv m ->
  (forall name,
     let '(page, m1) := make_explicit_page name m in
     explicit_pages_inv m1
     /\ _explicit_pages m1 = _explicit_pages m ++ [page]
     /\ page_heap m1 !! page
        = Some (mkConfigPage name false (_next_page_seq m)))
  /\ (forall page, explicit_pages_inv (delete_explicit_page page m).2).
Proof.
  intros Hinv. split.
  - intros name. by apply make_explicit_page_inv.
  - intros page. by apply delete_explicit_page_inv.
Qed.

(** X24.  A page is deleted once: after [delete_explicit_page] has
    returned true for a page, a second call for it returns false and
    leaves the manager as it is. *)
Theorem delete_explicit_page_twice (page : N) (m : Manager) :
  explicit_pages_inv m ->
  (delete_explicit_page page m).1 = true ->
  delete_explicit_page page (delete_explicit_page page m).2
  = (false, (delete_explicit_page page m).2).
Proof.
  intros Hinv Htrue.
  destruct (delete_explicit_page_inv page m Hinv) as [_ Hout].
  specialize (Hout Htrue).
  set (m1 := (delete_explicit_page page m).2) in *.
  unfold delete_explicit_page.
  rewrite (proj2 (erase_page_None page (_explicit_pages m1)) Hout).
  reflexivity.
Qed.


(** *** The scene of the witnesses: the manager at start-up, and the
    manager with one explicit page *)

Lemma manager_inv : explicit_pages_inv Fixture.manager.
Proof. exists []. split_and!; constructor. Qed.

Definition manager_one : Manager :=
  (make_explicit_page "first" Fixture.manager).2.

Lemma manager_one_inv : explicit_pages_inv manager_one.
Proof.
  exact (proj1 (make_explicit_page_inv "first" Fixture.manager manager_inv)).
Qed.

Lemma make_then_delete_explicit_page_witness :
  let '(page, m1) := make_explicit_page "second" manager_one in
  delete_explicit_page page m1
  = (true,
     mkManager (_implicit_pages manager_one) (_explicit_pages manager_one)
       (_next_page_seq manager_one + 1) false (_prc_patterns manager_one)
       (_prc_encrypted_patterns manager_one)
       (_prc_executable_patterns manager_one)
       (_search_path manager_one) (page_heap manager_one)
       (_global_modified manager_one + 2)).
Proof.
  apply (make_then_delete_explicit_page "second" manager_one).
  exact (explicit_pages_allocated manager_one manager_one_inv).
Defined.

Lemma explicit_pages_in_creation_order_witness :
  explicit_pages_inv (make_explicit_page "second" manager_one).2
  /\ explicit_pages_inv (delete_explicit_page 0 manager_one).2.
Proof.
  destruct (explicit_pages_in_creation_order manager_one manager_one_inv)
    as [Hmake Hdelete].
  split; [exact (proj1 (Hmake "second"))|exact (Hdelete 0%N)].
Defined.

Lemma delete_explicit_page_twice_witness :
  delete_explicit_page 0 (delete_explicit_page 0 manager_one).2
  = (false, (delete_explicit_page 0 manager_one).2).
Proof.
  apply (delete_explicit_page_twice 0 manager_one manager_one_inv).
  vm_compute. reflexivity.
Defined.

End ExplicitPages.

(** ** Facts on the loading of the implicit pages *)

Module ImplicitPagesFacts.
Import ConfigPageManager ImplicitPages.

Section Facts.
Context {build : Build} {files : Files}.

Section WithProcess.
Context {env : Env} {laws : EnvLaws env}.

(** *** The pages made by the last loop *)

(** The pages loaded so far carry the numbers 1, 2, ... in the order of
    the list, and [i] is the number of the next one; the messages do
    not hold the mark of [config_initialized]. *)
Definition numbered (s : Loading) : Prop :=
  next_seq s = Z.of_nat (length (loaded_pages s)) + 1
  /\ (forall k p, loaded_pages s !! k = Some p ->
        exists name,
          loaded_heap s !! p = Some (mkConfigPage name true (Z.of_nat k + 1)))
  /\ ConfigInitialized ∉ loaded_events s.

(** [s'] keeps the objects of [s]. *)
Definition keeps_objects (s s' : Loading) : Prop :=
  forall p pg, loaded_heap s !! p = Some pg -> loaded_heap s' !! p = Some pg.

Lemma fresh_page_None (heap : gmap N ConfigPage) :
  heap !! fresh (dom heap) = None.
Proof. apply not_elem_of_dom. apply is_fresh. Qed.

Lemma load_page_keeps name source s : keeps_objects s (load_page name source s).
Proof.
  intros p pg Hp. unfold load_page. cbn [loaded_heap].
  rewrite lookup_insert_ne; [exact Hp|].
  intros <-. rewrite fresh_page_None in Hp. discriminate Hp.
Qed.

Lemma load_page_numbered name source s :
  numbered s -> numbered (load_page name source s).
Proof.
  intros (Hseq & Hpages & Hev). unfold load_page, numbered.
  cbn [next_seq loaded_pages loaded_heap loaded_events].
  rewrite length_app. cbn [length]. split_and!; [lia| |].
  - intros k p Hk. apply lookup_app_Some in Hk as [Hk|[Hlen Hk]].
    + destruct (Hpages k p Hk) as (n & Hn). exists n.
      rewrite lookup_insert_ne; [exact Hn|].
      intros <-. rewrite fresh_page_None in Hn. discriminate Hn.
    + apply list_lookup_singleton_Some in Hk as [Hk <-].
      exists name. rewrite lookup_insert_eq. do 2 f_equal. lia.
  - rewrite not_elem_of_app. split; [exact Hev|].
    intros H. apply list_elem_of_singleton in H. discriminate H.
Qed.

Lemma report_numbered event s :
  event <> ConfigInitialized -> numbered s -> numbered (report event s).
Proof.
  intros Hne (Hseq & Hpages & Hev). unfold report, numbered.
  cbn [next_seq loaded_pages loaded_heap loaded_events].
  split_and!; [exact Hseq|exact Hpages|].
  rewrite not_elem_of_app. split; [exact Hev|].
  intros H. apply list_elem_of_singleton in H. congruence.
Qed.

Lemma report_keeps event s : keeps_objects s (report event s).
Proof. intros p pg Hp. exact Hp. Qed.

Lemma load_config_file_inv blob file s :
  numbered s ->
  numbered (load_config_file blob file s)
  /\ keeps_objects s (load_config_file blob file s).
Proof.
  intros Hs. unfold load_config_file. cbv zeta.
  repeat match goal with
         | |- context [if ?b then _ else _] => destruct b
         end;
    (split;
     [first [by apply load_page_numbered
            |by apply report_numbered
            |exact Hs]
     |first [apply load_page_keeps
            |apply report_keeps
            |intros p pg Hp; exact Hp]]).
Qed.

Lemma load_files_inv blob (l : list ConfigFile) s :
  numbered s ->
  numbered (fold_left (fun s file => load_config_file blob file s) l s)
  /\ keeps_objects s
       (fold_left (fun s file => load_config_file blob file s) l s).
Proof.
  revert s. induction l as [|file l IH]; intros s Hs; cbn [fold_left].
  - split; [exact Hs|]. intros p pg Hp. exact Hp.
  - destruct (load_config_file_inv blob file s Hs) as [H1 K1].
    destruct (IH _ H1) as [H2 K2]. split; [exact H2|].
    intros p pg Hp. apply K2, K1, Hp.
Qed.

Lemma load_pages_inv blob config_files s :
  numbered s ->
  numbered (load_pages blob config_files s)
  /\ keeps_objects s (load_pages blob config_files s).
Proof.
  intros Hs. unfold load_pages.
  set (s1 := match blob with Some _ => _ | None => s end).
  assert (numbered s1 /\ keeps_objects s s1) as [H1 K1].
  { subst s1. destruct blob as [b|]; [|split; [exact Hs|by intros p pg Hp]].
    destruct (prc_data b); [|split; [exact Hs|by intros p pg Hp]].
    split; [by apply load_page_numbered|apply load_page_keeps]. }
  destruct (load_files_inv blob (rev config_files) s1 H1) as [H2 K2].
  split; [exact H2|]. intros p pg Hp. apply K2, K1, Hp.
Qed.

End WithProcess.

(** *** The call as a whole *)

Lemma delete_pages_lookup (pages : list N) (heap : gmap N ConfigPage) p :
  p ∉ pages -> delete_pages pages heap !! p = heap !! p.
Proof.
  revert heap. induction pages as [|q pages IH]; intros heap Hp; [done|].
  rewrite not_elem_of_cons in Hp. destruct Hp as [Hne Hp].
  cbn [delete_pages fold_left]. fold (delete_pages pages (delete q heap)).
  rewrite IH by exact Hp. apply lookup_delete_ne. congruence.
Qed.

(** The manager that a call which is not turned away leaves: the pages
    loaded [s] laid over a manager [m1] that has the explicit pages and
    the counters of the manager before. *)
Lemma reload_implicit_pages_shape {env : Env} {laws : EnvLaws env}
    (this : Loader) :
  LINK_ALL_STATIC = false -> _currently_loading this = false ->
  exists (s : Loading) (m1 : Manager),
    reload_implicit_pages this
    = (mkLoader
         (invalidate_cache
            (with_implicit_pages (loaded_pages s) (loaded_heap s)
               (loaded_sorted s) m1))
         true false,
       loaded_events s
       ++ (if _loaded_implicit this then [] else [ConfigInitialized]))
    /\ numbered s
    /\ (forall p pg,
          p ∉ _implicit_pages (manager this) ->
          page_heap (manager this) !! p = Some pg ->
          loaded_heap s !! p = Some pg)
    /\ _explicit_pages m1 = _explicit_pages (manager this)
    /\ _next_page_seq m1 = _next_page_seq (manager this)
    /\ _global_modified m1 = _global_modified (manager this).
Proof.
  intros Hstatic Hloading. unfold reload_implicit_pages.
  rewrite Hstatic, Hloading. cbv zeta.
  set (heap0 := delete_pages _ _).
  assert (forall p pg,
            p ∉ _implicit_pages (manager this) ->
            page_heap (manager this) !! p = Some pg ->
            heap0 !! p = Some pg) as Hheap0.
  { intros p pg Hp Hpg. subst heap0. by rewrite delete_pages_lookup. }
  assert (forall events, ConfigInitialized ∉ events ->
            numbered (mkLoading [] heap0 1 (_pages_sorted (manager this))
                        events)) as Hstart.
  { intros events Hev. split_and!; [reflexivity| |exact Hev].
    intros k p Hk. discriminate Hk. }
  destruct ANDROID.
  - exists (mkLoading [] heap0 1 (_pages_sorted (manager this)) []),
      (manager this).
    split_and!; [reflexivity| |exact Hheap0|reflexivity..].
    apply Hstart. apply not_elem_of_nil.
  - set (blob := match (if EMSCRIPTEN then None else blobinfo_symbol) with
                 | Some b => _
                 | None => None
                 end).
    set (main_dir_value := match blob with
                           | Some b => _
                           | None => None
                           end).
    clearbody main_dir_value.
    destruct main_dir_value as [value|]; cbv beta iota.
    + set (m1 := with_search_path _ _).
      set (s0 := mkLoading _ _ _ _ _).
      set (cfs := find_config_files _ _ _ _).
      assert (numbered s0) as Hs0.
      { apply Hstart. intros H. apply list_elem_of_singleton in H.
        discriminate H. }
      destruct (load_pages_inv (env:=set_environment_variable env "MAIN_DIR" value)
                  blob cfs s0 Hs0) as [Hnum Hkeeps].
      eexists _, m1. split_and!; [reflexivity|exact Hnum| |reflexivity..].
      intros p pg Hp Hpg. apply Hkeeps. subst s0. cbn [loaded_heap].
      exact (Hheap0 p pg Hp Hpg).
    + set (m1 := with_search_path _ _).
      set (s0 := mkLoading _ _ _ _ _).
      set (cfs := find_config_files _ _ _ _).
      assert (numbered s0) as Hs0 by (apply Hstart; apply not_elem_of_nil).
      destruct (load_pages_inv blob cfs s0 Hs0) as [Hnum Hkeeps].
      eexists _, m1. split_and!; [reflexivity|exact Hnum| |reflexivity..].
      intros p pg Hp Hpg. apply Hkeeps. subst s0. cbn [loaded_heap].
      exact (Hheap0 p pg Hp Hpg).
Qed.


(** X25.  [reload_implicit_pages] leaves the explicit pages alone.  A
    call on a static build, or made while a call is loading, does
    nothing at all.  Any other call ends with [_currently_loading]
    false and [_loaded_implicit] true, keeps the list of explicit
    pages and [_next_page_seq], keeps every page object that is not an
    implicit page, invalidates the variable caches once, and runs
    [config_initialized] exactly when no call had loaded before. *)
Theorem reload_implicit_pages_frame {env : Env} {laws : EnvLaws env}
    (this : Loader) :
  let '(this', events) := reload_implicit_pages this in
  (LINK_ALL_STATIC = true \/ _currently_loading this = true ->
   this' = this /\ events = [])
  /\ (LINK_ALL_STATIC = false -> _currently_loading this = false ->
      _currently_loading this' = false
      /\ _loaded_implicit this' = true
      /\ _explicit_pages (manager this') = _explicit_pages (manager this)
      /\ _next_page_seq (manager this') = _next_page_seq (manager this)
      /\ _global_modified (manager this')
         = _global_modified (manager this) + 1
      /\ (ConfigInitialized ∈ events <-> _loaded_implicit this = false)
      /\ forall p pg,
           p ∉ _implicit_pages (manager this) ->
           page_heap (manager this) !! p = Some pg ->
           page_heap (manager this') !! p = Some pg).
Proof.
  destruct (reload_implicit_pages this) as [this' events] eqn:Hrun. split.
  - intros Hguard. unfold reload_implicit_pages in Hrun.
    destruct LINK_ALL_STATIC.
    + injection Hrun as <- <-. done.
    + destruct Hguard as [Hs|Hl]; [discriminate Hs|]. rewrite Hl in Hrun.
      injection Hrun as <- <-. done.
  - intros Hstatic Hloading.
    destruct (reload_implicit_pages_shape this Hstatic Hloading)
      as (s & m1 & Hshape & (_ & _ & Hev) & Hkeeps & Hexp & Hseq & Hmod).
    rewrite Hrun in Hshape. injection Hshape as -> ->.
    cbn [_currently_loading _loaded_implicit manager].
    unfold invalidate_cache, with_implicit_pages.
    cbn [_explicit_pages _next_page_seq _global_modified page_heap].
    split_and!; [reflexivity|reflexivity|exact Hexp|exact Hseq|lia| |exact Hkeeps].
    rewrite elem_of_app. destruct (_loaded_implicit this).
    + split; [|discriminate]. intros [H|H]; [contradiction|].
      by apply elem_of_nil in H.
    + split; [reflexivity|]. intros _. right. by left.
Qed.

(** X26.  After [reload_implicit_pages] has loaded, the implicit pages
    are numbered from 1 in the order of [_implicit_pages]: the page at
    the index [k] is an allocated implicit page with the sequence
    number [k + 1], and no page is listed twice. *)
Theorem implicit_pages_numbered {env : Env} {laws : EnvLaws env}
    (this : Loader) :
  LINK_ALL_STATIC = false -> _currently_loading this = false ->
  let m' := manager (reload_implicit_pages this).1 in
  NoDup (_implicit_pages m')
  /\ forall k p,
       _implicit_pages m' !! k = Some p ->
       exists name,
         page_heap m' !! p = Some (mkConfigPage name true (Z.of_nat k + 1)).
Proof.
  intros Hstatic Hloading.
  destruct (reload_implicit_pages_shape this Hstatic Hloading)
    as (s & m1 & Hshape & (_ & Hpages & _) & _).
  rewrite Hshape. cbn [fst manager].
  unfold invalidate_cache, with_implicit_pages.
  cbn [_implicit_pages page_heap]. split; [|exact Hpages].
  apply NoDup_alt. intros i j p Hi Hj.
  destruct (Hpages i p Hi) as (ni & Hni).
  destruct (Hpages j p Hj) as (nj & Hnj).
  rewrite Hni in Hnj. injection Hnj as _ Hij. lia.
Qed.

Section WithProcess.
Context {env : Env} {laws : EnvLaws env}.

(** *** The order of the pages *)

(** How the last loop reads a file, when it makes a page for it: run as
    a command when the file matches an executable pattern and is
    executable, else decrypted when it matches an encrypted pattern,
    else read as text. *)
Definition page_source (blob : option BlobInfo) (file : ConfigFile)
    : option Source :=
  let filename := _filename file in
  if FF_execute (_file_flags file) && is_executable filename then
    if EMSCRIPTEN then None
    else Some (Pipe (page_command blob filename))
  else if FF_decrypt (_file_flags file) then
    if open_read filename then
      Some (Encrypted filename
              (macro_or_blob PRC_ENCRYPTION_KEY blob prc_encryption_key))
    else None
  else if FF_read (_file_flags file) then
    if open_read filename then Some (Text filename) else None
  else None.

(** The reads among the messages. *)
Definition reads (events : list Event) : list (N * Source) :=
  omap (fun event =>
          match event with
          | ReadPrc page source => Some (page, source)
          | _ => None
          end) events.

(** The pages loaded are the pages [l], by name and source, in the
    order of the list, and each has been read once, in that order. *)
Definition loaded_as (s : Loading) (l : list (string * Source)) : Prop :=
  Forall2
    (fun p entry =>
       exists pg, loaded_heap s !! p = Some pg
                  /\ page_name pg = entry.1 /\ page_implicit pg = true)
    (loaded_pages s) l
  /\ reads (loaded_events s) = zip (loaded_pages s) (l.*2).

Lemma reads_app e1 e2 : reads (e1 ++ e2) = reads e1 ++ reads e2.
Proof. apply omap_app. Qed.

Lemma load_page_loaded_as name source s l :
  loaded_as s l -> loaded_as (load_page name source s) (l ++ [(name, source)]).
Proof.
  intros [Hpages Hreads]. pose proof (Forall2_length _ _ _ Hpages) as Hlen.
  unfold load_page. split; cbn [loaded_pages loaded_heap loaded_events].
  - apply Forall2_app.
    + eapply Forall2_impl; [exact Hpages|].
      intros p entry (pg & Hpg & Hname & Himp). exists pg.
      split; [|done]. rewrite lookup_insert_ne; [exact Hpg|].
      intros <-. rewrite fresh_page_None in Hpg. discriminate Hpg.
    + constructor; [|constructor]. eexists.
      rewrite lookup_insert_eq. done.
  - rewrite reads_app, Hreads, fmap_app.
    rewrite zip_with_app by (by rewrite length_fmap). reflexivity.
Qed.

Lemma report_loaded_as event s l :
  (forall page source, event <> ReadPrc page source) ->
  loaded_as s l -> loaded_as (report event s) l.
Proof.
  intros Hne [Hpages Hreads]. split; [exact Hpages|].
  unfold report. cbn [loaded_events loaded_pages].
  rewrite reads_app, Hreads. cbn.
  destruct event; try apply app_nil_r. by destruct (Hne page source).
Qed.

Lemma load_config_file_loaded_as blob file s l :
  loaded_as s l ->
  loaded_as (load_config_file blob file s)
    (l ++ match page_source blob file with
          | Some source => [(_filename file, source)]
          | None => []
          end).
Proof.
  intros Hs. unfold page_source, load_config_file. cbv zeta.
  destruct (FF_execute (_file_flags file) && is_executable (_filename file)),
    EMSCRIPTEN, (FF_decrypt (_file_flags file)),
    (FF_read (_file_flags file)), (open_read (_filename file));
    cbn [negb];
    first [apply load_page_loaded_as; exact Hs
          |rewrite app_nil_r; apply report_loaded_as;
             [intros ? ?; discriminate|exact Hs]
          |rewrite app_nil_r; exact Hs].
Qed.

Definition file_pages (blob : option BlobInfo) (l : list ConfigFile)
    : list (string * Source) :=
  omap (fun file =>
          match page_source blob file with
          | Some source => Some (_filename file, source)
          | None => None
          end) l.

Lemma load_files_loaded_as blob (files_list : list ConfigFile) s l :
  loaded_as s l ->
  loaded_as
    (fold_left (fun s file => load_config_file blob file s) files_list s)
    (l ++ file_pages blob files_list).
Proof.
  revert s l. induction files_list as [|file rest IH]; intros s l Hs;
    cbn [fold_left].
  - unfold file_pages. cbn. by rewrite app_nil_r.
  - pose proof (IH _ _ (load_config_file_loaded_as blob file s l Hs)) as H.
    rewrite <- app_assoc in H. unfold file_pages. cbn [omap list_omap].
    unfold file_pages in H.
    destruct (page_source blob file); exact H.
Qed.


(** *** Each directory once *)

(** The loop over the directories, stopped after a part of the path:
    the canonical names met and the files found so far. *)
Fixpoint scan_directories (m : Manager) (directories : list string)
    (unique_dirnames : gset string) (config_files : list ConfigFile)
    : gset string * list ConfigFile :=
  match directories with
  | [] => (unique_dirnames, config_files)
  | directory :: rest =>
      if is_directory directory then
        let canonical := make_canonical (Filename_join directory ".") in
        if decide (canonical ∈ unique_dirnames) then
          scan_directories m rest unique_dirnames config_files
        else
          let files_found := default [] (scan_directory directory) in
          scan_directories m rest ({[canonical]} ∪ unique_dirnames)
            (config_files ++ directory_config_files m directory files_found)
      else scan_directories m rest unique_dirnames config_files
  end.

Lemma find_config_files_app m l1 l2 seen found :
  find_config_files m (l1 ++ l2) seen found
  = find_config_files m l2 (scan_directories m l1 seen found).1
      (scan_directories m l1 seen found).2.
Proof.
  revert seen found. induction l1 as [|d l1 IH]; intros seen found;
    [reflexivity|].
  cbn [app find_config_files scan_directories].
  destruct (is_directory d); [|apply IH].
  cbv zeta. destruct (decide (_ ∈ seen)); apply IH.
Qed.

Lemma scan_directories_seen m l seen found d :
  (make_canonical (Filename_join d ".") ∈ seen
   \/ (d ∈ l /\ is_directory d = true)) ->
  make_canonical (Filename_join d ".") ∈ (scan_directories m l seen found).1.
Proof.
  revert seen found. induction l as [|d' l IH]; intros seen found Hd.
  - destruct Hd as [Hd|[Hd _]]; [exact Hd|by apply elem_of_nil in Hd].
  - cbn [scan_directories].
    destruct (is_directory d') eqn:Hdir.
    + cbv zeta. destruct (decide (_ ∈ seen)) as [Hseen|Hseen].
      * apply IH. destruct Hd as [Hd|[Hd Hisdir]]; [by left|].
        apply elem_of_cons in Hd as [->|Hd]; [by left|right; done].
      * apply IH. destruct Hd as [Hd|[Hd Hisdir]].
        -- left. apply elem_of_union. by right.
        -- apply elem_of_cons in Hd as [->|Hd]; [|right; done].
           left. apply elem_of_union. left. by apply elem_of_singleton.
    + apply IH. destruct Hd as [Hd|[Hd Hisdir]]; [by left|].
      apply elem_of_cons in Hd as [->|Hd]; [congruence|right; done].
Qed.

(** X28.  Each directory is visited once: a directory of the search
    path that comes after a directory with the same canonical name
    (itself, listed twice, or another name of it) adds no file, so that
    taking it off the path does not change the files found. *)
Theorem find_config_files_once (m : Manager) (l1 l2 : list string)
    (first again : string) :
  first ∈ l1 -> is_directory first = true ->
  make_canonical (Filename_join again ".")
  = make_canonical (Filename_join first ".") ->
  find_config_files m (l1 ++ again :: l2) ∅ []
  = find_config_files m (l1 ++ l2) ∅ [].
Proof.
  intros Hin Hdir Hsame. rewrite !find_config_files_app.
  cbn [find_config_files]. destruct (is_directory again); [|reflexivity].
  cbv zeta. rewrite decide_True; [reflexivity|].
  rewrite Hsame. apply scan_directories_seen. right. done.
Qed.

End WithProcess.

End Facts.

(** *** The scene of the witnesses

    A build that looks for "*.prc" files in the directory named by
    PRC_DIR or else in "<auto>sub", run in the installation of
    [Fixture.env], where every file can be read and no file is
    executable. *)

Definition scene_build : Build :=
  mkBuild false false false (Some "*.prc"%string) (Some ""%string)
    (Some ""%string) (Some "PRC_DIR"%string) None None
    (Some "<auto>sub"%string) ":" "" "".

Definition scene_files : Files := {|
  extract_words s := [s];
  from_os_specific s := s;
  to_os_specific s := s;
  make_true_case s := s;
  make_canonical s := s;
  is_executable _ := false;
  open_read _ := true;
  blobinfo_symbol := None
|}.

Lemma reload_implicit_pages_frame_witness :
  let '(this', events) :=
    reload_implicit_pages (build:=scene_build) (files:=scene_files)
      (env:=Fixture.env) (laws:=Fixture.env_laws) new_manager in
  _currently_loading this' = false
  /\ _loaded_implicit this' = true
  /\ _explicit_pages (manager this') = []
  /\ _next_page_seq (manager this') = 1
  /\ ConfigInitialized ∈ events.
Proof.
  pose proof (reload_implicit_pages_frame (build:=scene_build)
                (files:=scene_files) (env:=Fixture.env)
                (laws:=Fixture.env_laws) new_manager) as H.
  destruct (reload_implicit_pages new_manager) as [this' events].
  destruct H as [_ H].
  destruct (H eq_refl eq_refl) as (H1 & H2 & H3 & H4 & _ & H6 & _).
  split_and!; [exact H1|exact H2|exact H3|exact H4|exact (proj2 H6 eq_refl)].
Defined.

Lemma implicit_pages_numbered_witness :
  NoDup
    (_implicit_pages
       (manager
          (reload_implicit_pages (build:=scene_build) (files:=scene_files)
             (env:=Fixture.env) (laws:=Fixture.env_laws) new_manager).1)).
Proof.
  exact (proj1 (implicit_pages_numbered (build:=scene_build)
                  (files:=scene_files) (env:=Fixture.env)
                  (laws:=Fixture.env_laws) new_manager eq_refl eq_refl)).
Defined.


Lemma find_config_files_once_witness :
  find_config_files (files:=scene_files) (env:=Fixture.env) Fixture.manager
    ["/repo/sub"%string; "/repo/sub"%string] ∅ []
  = find_config_files (files:=scene_files) (env:=Fixture.env) Fixture.manager
      ["/repo/sub"%string] ∅ [].
Proof.
  refine (find_config_files_once (files:=scene_files) (env:=Fixture.env)
            Fixture.manager ["/repo/sub"%string] [] "/repo/sub" "/repo/sub"
            _ eq_refl eq_refl).
  by left.
Defined.

End ImplicitPagesFacts.
